(** * Mini-Compiler: a shallow embedding of the IR generator, the optimizer,
    the IR interpreter, the string lexer and the symbol table.

    The program is written in Python.  Python integers are modelled as [Z],
    Python strings as [string] (ASCII), dictionaries as [gmap], sets as
    [gset], and Python lists that are mutated in place (the arrays of the
    virtual machine) as references into an explicit heap.  Floating-point
    arithmetic, which the program leaves entirely to the host language, is
    taken from a [Host] interface. *)

From Stdlib Require Import ZArith Ascii String List Lia.
From stdpp Require Import base tactics option list strings gmap pretty.

Local Open Scope string_scope.
Local Open Scope list_scope.
Local Open Scope Z_scope.
Local Set Warnings "-clear-no-such-hyp".

(** ** Exceptions and fallible computations *)

(** [RuntimeError] is the interpreter's own exception class; the other
    constructors are exceptions raised by the host language itself. *)
Inductive exn :=
| RuntimeError (msg : string)
| SyntaxError (msg : string)
| SemanticError (msg : string)
| TypeError
| ValueError
| ZeroDivisionError
| IndexError
| AttributeError
| OverflowError
| OutsideModel.

Inductive outcome (A : Type) :=
| Ok (a : A)
| Raise (e : exn).
Arguments Ok {A} a.
Arguments Raise {A} e.

Global Instance outcome_ret : MRet outcome := @Ok.
Global Instance outcome_bind : MBind outcome := λ A B f c,
  match c with Ok a => f a | Raise e => Raise e end.
Global Instance outcome_fmap : FMap outcome := λ A B f c,
  match c with Ok a => Ok (f a) | Raise e => Raise e end.

Definition is_ok {A} (c : outcome A) : bool :=
  match c with Ok _ => true | Raise _ => false end.

(** ** Host values *)

(** The values that flow through IR operands, constant tables and the
    variables of the virtual machine.  [VPair] is the two-element tuple the
    generator builds for [builtin_substr]; [VList l] is a reference to the
    list stored at index [l] of the heap. *)
Inductive value (F : Type) :=
| VNone
| VBool (b : bool)
| VInt (z : Z)
| VFloat (f : F)
| VStr (s : string)
| VPair (a b : value F)
| VList (l : nat).
Arguments VNone {F}.
Arguments VBool {F} b.
Arguments VInt {F} z.
Arguments VFloat {F} f.
Arguments VStr {F} s.
Arguments VPair {F} a b.
Arguments VList {F} l.

(** The host language: floating point, operators on containers, formatting
    outside the modelled fragment, and the random source. *)
Class Host := {
  F : Type;
  (** [float(s)] for a string [s] that has the syntax of a float *)
  float_of_string : string → F;
  (** conversion of an integer operand of mixed arithmetic *)
  float_of_int : Z → outcome F;
  (** [f == 0] *)
  float_is_zero : F → bool;
  (** [str(f)] *)
  float_str : F → string;
  (** [-f] *)
  float_neg : F → F;
  (** [int(f)] *)
  int_of_float : F → outcome Z;
  (** an operator applied to two floats (divisor not zero for [/], [%]) *)
  float_binop : string → F → F → outcome (value F);
  (** a comparison of two numbers of which at least one is a float *)
  float_rel : string → value F → value F → outcome (value F);
  (** an operator applied to operands of which one is a list or a tuple *)
  container_binop :
    list (list (value F)) → string → value F → value F →
    outcome (value F * list (list (value F)));
  (** [str(v)] for a list or a tuple *)
  container_str : list (list (value F)) → value F → string;
  (** [fmt % v] for a format outside the modelled conversions *)
  str_format : string → value F → outcome (value F);
  (** [int(v)] for a list or a tuple *)
  container_int : list (list (value F)) → value F → outcome Z;
  (** the [n]-th draw of [random.randint(a, b)] *)
  randint : nat → Z → Z → outcome Z
}.

Module Py.
Section WithHost.
Context `{Host}.

Abbreviation val := (value F).
Abbreviation heap := (list (list (value F))).

(** *** Strings *)

Definition quote : ascii := "034"%char.

Definition startswith (c : ascii) (s : string) : bool :=
  match s with
  | String c' _ => Ascii.eqb c' c
  | EmptyString => false
  end.

Fixpoint endswith (c : ascii) (s : string) : bool :=
  match s with
  | EmptyString => false
  | String c' EmptyString => Ascii.eqb c' c
  | String _ s' => endswith c s'
  end.

Fixpoint drop_last (s : string) : string :=
  match s with
  | EmptyString => EmptyString
  | String _ EmptyString => EmptyString
  | String c s' => String c (drop_last s')
  end.

(** [s[1:-1]] *)
Definition strip_ends (s : string) : string :=
  match s with
  | EmptyString => EmptyString
  | String _ s' => drop_last s'
  end.

(** [c in s] *)
Fixpoint contains (c : ascii) (s : string) : bool :=
  match s with
  | EmptyString => false
  | String c' s' => Ascii.eqb c' c || contains c s'
  end.

(** [s] between double quotes *)
Definition quoted (s : string) : string :=
  String quote s +:+ String quote "".

Definition is_quoted (s : string) : bool :=
  startswith quote s && endswith quote s.

Definition is_digit (c : ascii) : bool :=
  let n := nat_of_ascii c in (48 <=? n)%nat && (n <=? 57)%nat.

Definition digit_val (c : ascii) : Z := Z.of_nat (nat_of_ascii c) - 48.

(** the characters that [int()] and [float()] strip: the white space of
    the C locale (9 to 13 and 32), and the two other characters below 256
    that are white space in Unicode (133 and 160), which the host turns
    into a space before it reads the number.  The characters 28 to 31,
    for which [str.isspace] holds, are not stripped. *)
Definition is_space (c : ascii) : bool :=
  let n := nat_of_ascii c in
  ((9 <=? n)%nat && (n <=? 13)%nat)
  || (n =? 32)%nat || (n =? 133)%nat || (n =? 160)%nat.

Definition to_lower (c : ascii) : ascii :=
  let n := nat_of_ascii c in
  if (65 <=? n)%nat && (n <=? 90)%nat then ascii_of_nat (n + 32) else c.

Fixpoint lower (s : string) : string :=
  match s with
  | EmptyString => EmptyString
  | String c s' => String (to_lower c) (lower s')
  end.

Fixpoint lstrip (l : list ascii) : list ascii :=
  match l with
  | c :: l' => if is_space c then lstrip l' else l
  | [] => []
  end.

Definition strip (l : list ascii) : list ascii :=
  rev (lstrip (rev (lstrip l))).

(** *** The syntax of [int(s)] and [float(s)] *)

(** the rest of a digit part: digits, single underscores between them *)
Fixpoint digits_rest (acc : Z) (l : list ascii) : Z * list ascii :=
  match l with
  | c :: l' =>
      if is_digit c then digits_rest (10 * acc + digit_val c) l'
      else if Ascii.eqb c "_" then
        match l' with
        | d :: l'' =>
            if is_digit d then digits_rest (10 * acc + digit_val d) l''
            else (acc, l)
        | [] => (acc, l)
        end
      else (acc, l)
  | [] => (acc, [])
  end.

Definition digitpart (l : list ascii) : option (Z * list ascii) :=
  match l with
  | c :: l' => if is_digit c then Some (digits_rest (digit_val c) l') else None
  | [] => None
  end.

Definition split_sign (l : list ascii) : bool * list ascii :=
  match l with
  | c :: l' =>
      if Ascii.eqb c "-" then (true, l')
      else if Ascii.eqb c "+" then (false, l')
      else (false, l)
  | [] => (false, [])
  end.

(** the host's default limit on the digits of a text that [int()]
    converts, and of an integer that [str()] prints *)
Definition max_str_digits : Z := 4300.

(** the digits of a text, leading zeros among them, underscores not *)
Fixpoint digit_count (l : list ascii) : nat :=
  match l with
  | c :: l' => (if is_digit c then 1 else 0) + digit_count l'
  | [] => 0
  end.

(** [int(s)], base ten; [None] stands for [ValueError], which the host
    also raises for a text of more than 4300 digits *)
Definition py_int (s : string) : option Z :=
  let '(neg, l) := split_sign (strip (list_ascii_of_string s)) in
  match digitpart l with
  | Some (n, []) =>
      if Z.of_nat (digit_count l) <=? max_str_digits
      then Some (if neg then - n else n)
      else None
  | _ => None
  end.

Definition exponent_ok (l : list ascii) : bool :=
  match l with
  | [] => true
  | c :: l' =>
      if Ascii.eqb (to_lower c) "e" then
        match digitpart (snd (split_sign l')) with
        | Some (_, []) => true
        | _ => false
        end
      else false
  end.

Definition decimal_ok (l : list ascii) : bool :=
  match l with
  | c :: l' =>
      if Ascii.eqb c "." then
        match digitpart l' with
        | Some (_, r) => exponent_ok r
        | None => false
        end
      else
        match digitpart l with
        | Some (_, d :: r) =>
            if Ascii.eqb d "." then
              match digitpart r with
              | Some (_, r') => exponent_ok r'
              | None => exponent_ok r
              end
            else exponent_ok (d :: r)
        | Some (_, []) => true
        | None => false
        end
  | [] => false
  end.

(** whether [float(s)] returns rather than raising [ValueError] *)
Definition float_ok (s : string) : bool :=
  let l := snd (split_sign (strip (list_ascii_of_string s))) in
  let w := lower (string_of_list_ascii l) in
  String.eqb w "inf" || String.eqb w "infinity" || String.eqb w "nan"
  || decimal_ok l.

(** *** Truth, equality with zero, and [str] *)

(** [v == 0] *)
Definition eq_zero (v : val) : bool :=
  match v with
  | VInt z => z =? 0
  | VBool b => negb b
  | VFloat f => float_is_zero f
  | _ => false
  end.

(** [bool(v)] *)
Definition truthy (h : heap) (v : val) : bool :=
  match v with
  | VNone => false
  | VBool b => b
  | VInt z => negb (z =? 0)
  | VFloat f => negb (float_is_zero f)
  | VStr s => negb (String.eqb s "")
  | VPair _ _ => true
  | VList l =>
      match h !! l with
      | Some (_ :: _) => true
      | _ => false
      end
  end.

(** [str(z)] for an integer, as the host builds it for a message: the
    host raises [ValueError] for an integer of more than 4300 digits *)
Definition str_int (z : Z) : outcome string :=
  if Z.abs z <? 10 ^ max_str_digits then Ok (pretty z) else Raise ValueError.

(** [str(v)] *)
Definition str (h : heap) (v : val) : string :=
  match v with
  | VNone => "None"
  | VBool true => "True"
  | VBool false => "False"
  | VInt z => pretty z
  | VFloat f => float_str f
  | VStr s => s
  | _ => container_str h v
  end.

(** [int(v)] *)
Definition int (h : heap) (v : val) : outcome Z :=
  match v with
  | VNone => Raise TypeError
  | VBool b => Ok (if b then 1 else 0)
  | VInt z => Ok z
  | VFloat f => int_of_float f
  | VStr s => match py_int s with Some z => Ok z | None => Raise ValueError end
  | _ => container_int h v
  end.

(** [isinstance(v, int)]: booleans are integers *)
Definition as_int (v : val) : option Z :=
  match v with
  | VInt z => Some z
  | VBool b => Some (if b then 1 else 0)
  | _ => None
  end.

Definition is_number (v : val) : bool :=
  match v with
  | VInt _ | VBool _ | VFloat _ => true
  | _ => false
  end.

Definition to_float (v : val) : outcome F :=
  match v with
  | VFloat f => Ok f
  | VInt z => float_of_int z
  | VBool b => float_of_int (if b then 1 else 0)
  | _ => Raise TypeError
  end.

(** [v is None] *)
Definition is_None (v : val) : bool :=
  match v with VNone => true | _ => false end.

Definition is_container (v : val) : bool :=
  match v with
  | VPair _ _ | VList _ => true
  | _ => false
  end.

(** *** Operators on numbers and strings *)

Definition int_binop (op : string) (a b : Z) : outcome val :=
  if String.eqb op "+" then Ok (VInt (a + b))
  else if String.eqb op "-" then Ok (VInt (a - b))
  else if String.eqb op "*" then Ok (VInt (a * b))
  else if String.eqb op "//" then
    if b =? 0 then Raise ZeroDivisionError else Ok (VInt (a / b))
  else if String.eqb op "%" then
    if b =? 0 then Raise ZeroDivisionError else Ok (VInt (a mod b))
  else if String.eqb op "/" then
    if b =? 0 then Raise ZeroDivisionError
    else fa ← float_of_int a; fb ← float_of_int b; float_binop "/" fa fb
  else if String.eqb op "**" then
    if 0 <=? b then Ok (VInt (a ^ b))
    else if a =? 0 then Raise ZeroDivisionError
    else fa ← float_of_int a; fb ← float_of_int b; float_binop "**" fa fb
  else if String.eqb op "<" then Ok (VBool (a <? b))
  else if String.eqb op ">" then Ok (VBool (b <? a))
  else if String.eqb op "<=" then Ok (VBool (a <=? b))
  else if String.eqb op ">=" then Ok (VBool (b <=? a))
  else if String.eqb op "==" then Ok (VBool (a =? b))
  else if String.eqb op "!=" then Ok (VBool (negb (a =? b)))
  else Raise TypeError.

Definition is_relational (op : string) : bool :=
  String.eqb op "<" || String.eqb op ">" || String.eqb op "<="
  || String.eqb op ">=" || String.eqb op "==" || String.eqb op "!=".

(** one operand is a float, the other a number: both are converted to
    floats, left first; the divisor of [/], [//] and [%] is then compared
    with zero, which the conversion of an integer preserves *)
Definition mixed_binop (op : string) (l r : val) : outcome val :=
  if is_relational op then float_rel op l r
  else
    fl ← to_float l;
    fr ← to_float r;
    if (String.eqb op "/" || String.eqb op "//" || String.eqb op "%")
       && eq_zero r
    then Raise ZeroDivisionError
    else float_binop op fl fr.

(** the pieces of a format string: literal characters and the conversions
    [%d], [%i] and [%s]; [None] when the format uses anything else *)
Inductive piece :=
| Lit (c : ascii)
| Conv (c : ascii).

Fixpoint pieces (l : list ascii) : option (list piece) :=
  match l with
  | [] => Some []
  | c :: l' =>
      if Ascii.eqb c "%" then
        match l' with
        | d :: l'' =>
            if Ascii.eqb d "%" then cons (Lit "%") <$> pieces l''
            else if Ascii.eqb d "d" || Ascii.eqb d "i" || Ascii.eqb d "s"
            then cons (Conv d) <$> pieces l''
            else None
        | [] => None
        end
      else cons (Lit c) <$> pieces l'
  end.

Definition convert (c : ascii) (v : val) : outcome string :=
  if Ascii.eqb c "s" then Ok (str [] v)
  else
    match v with
    | VInt z => Ok (pretty z)
    | VBool b => Ok (if b then "1" else "0")
    | VFloat f => z ← int_of_float f; Ok (pretty z)
    | _ => Raise TypeError
    end.

(** the single argument [arg] is consumed by the first conversion; a second
    conversion finds no argument, and an argument left over is an error *)
Fixpoint render (ps : list piece) (arg : option val) : outcome string :=
  match ps with
  | [] => match arg with Some _ => Raise TypeError | None => Ok "" end
  | Lit c :: ps' => s ← render ps' arg; Ok (String c s)
  | Conv c :: ps' =>
      match arg with
      | Some v => s ← convert c v; s' ← render ps' None; Ok (s +:+ s')
      | None => Raise TypeError
      end
  end.

(** [fmt % v] for a value [v] that is not a tuple *)
Definition format (fmt : string) (v : val) : outcome val :=
  match pieces (list_ascii_of_string fmt) with
  | Some ps => VStr <$> render ps (Some v)
  | None => str_format fmt v
  end.

Fixpoint repeat_string (n : nat) (s : string) : string :=
  match n with
  | O => ""
  | S n' => s +:+ repeat_string n' s
  end.

Definition str_binop (op : string) (a b : string) : outcome val :=
  if String.eqb op "+" then Ok (VStr (a +:+ b))
  else if String.eqb op "%" then format a (VStr b)
  else if String.eqb op "<" then Ok (VBool (String.ltb a b))
  else if String.eqb op ">" then Ok (VBool (String.ltb b a))
  else if String.eqb op "<=" then Ok (VBool (String.leb a b))
  else if String.eqb op ">=" then Ok (VBool (String.leb b a))
  else if String.eqb op "==" then Ok (VBool (String.eqb a b))
  else if String.eqb op "!=" then Ok (VBool (negb (String.eqb a b)))
  else Raise TypeError.

(** operands of different kinds, or [None]: only [==], [!=], the repetition
    of a string and formatting are defined *)
Definition other_binop (op : string) (l r : val) : outcome val :=
  match l, r with
  | VStr a, _ =>
      if String.eqb op "%" then format a r
      else if String.eqb op "==" then Ok (VBool false)
      else if String.eqb op "!=" then Ok (VBool true)
      else
        match as_int r with
        | Some n =>
            if String.eqb op "*" then Ok (VStr (repeat_string (Z.to_nat n) a))
            else Raise TypeError
        | None => Raise TypeError
        end
  | _, VStr b =>
      if String.eqb op "==" then Ok (VBool false)
      else if String.eqb op "!=" then Ok (VBool true)
      else
        match as_int l with
        | Some n =>
            if String.eqb op "*" then Ok (VStr (repeat_string (Z.to_nat n) b))
            else Raise TypeError
        | None => Raise TypeError
        end
  | VNone, VNone =>
      if String.eqb op "==" then Ok (VBool true)
      else if String.eqb op "!=" then Ok (VBool false)
      else Raise TypeError
  | _, _ =>
      if String.eqb op "==" then Ok (VBool false)
      else if String.eqb op "!=" then Ok (VBool true)
      else Raise TypeError
  end.

(** [l op r] for operands that are not lists or tuples *)
Definition scalar_binop (op : string) (l r : val) : outcome val :=
  match as_int l, as_int r with
  | Some a, Some b => int_binop op a b
  | _, _ =>
      if is_number l && is_number r then mixed_binop op l r
      else
        match l, r with
        | VStr a, VStr b => str_binop op a b
        | _, _ => other_binop op l r
        end
  end.

(** [l op r]; a list operand may allocate, hence the heap *)
Definition binop (h : heap) (op : string) (l r : val) : outcome (val * heap) :=
  if is_container l || is_container r then container_binop h op l r
  else v ← scalar_binop op l r; Ok (v, h).

(** [-v] *)
Definition neg (v : val) : outcome val :=
  match v with
  | VInt z => Ok (VInt (- z))
  | VBool b => Ok (VInt (if b then -1 else 0))
  | VFloat f => Ok (VFloat (float_neg f))
  | _ => Raise TypeError
  end.

(** [s[i:j]] *)
Definition slice (s : string) (i j : Z) : string :=
  let n := Z.of_nat (String.length s) in
  let clamp k := Z.max 0 (Z.min n (if k <? 0 then k + n else k)) in
  let a := clamp i in
  let b := clamp j in
  if a <? b then String.substring (Z.to_nat a) (Z.to_nat (b - a)) s else "".

(** [l[i]] with the negative indices of the host; [None] is [IndexError] *)
Definition index {A} (l : list A) (i : Z) : option A :=
  let n := Z.of_nat (length l) in
  if (0 <=? i) && (i <? n) then l !! Z.to_nat i
  else if (- n <=? i) && (i <? 0) then l !! Z.to_nat (n + i)
  else None.

End WithHost.
End Py.

(** ** Three-address code *)

(** [ThreeAddressCode(op, arg1, arg2, result)].  The operands are host
    values: the generator writes strings (names and the printed form of
    literals), an integer (the argument count of [call]) and a pair (the
    bounds of [builtin_substr]); constant folding writes the constants it
    computed.  [result] is a name or [None]. *)
Record ThreeAddressCode `{Host} := TAC {
  op : string;
  arg1 : value F;
  arg2 : value F;
  result : option string
}.

Abbreviation instr := ThreeAddressCode.

(** ** The syntax tree built by the parser *)

#[warnings="-register-all"] Inductive ASTNode `{Host} :=
| Program (line column : nat) (statements : list ASTNode)
| BinaryOp (line column : nat) (left : ASTNode) (operator : string)
    (right : ASTNode)
| UnaryOp (line column : nat) (operator : string) (operand : ASTNode)
| Literal (line column : nat) (val : value F) (type : string)
| Identifier (line column : nat) (name : string)
| VarDeclaration (line column : nat) (var_type name : string)
    (initializer : option ASTNode)
| Assignment (line column : nat) (name : string) (val : ASTNode)
| IfStatement (line column : nat) (condition : ASTNode)
    (then_block : list ASTNode) (else_block : option (list ASTNode))
| WhileStatement (line column : nat) (condition : ASTNode)
    (body : list ASTNode)
| ForStatement (line column : nat) (init condition update : ASTNode)
    (body : list ASTNode)
| FunctionDef (line column : nat) (return_type name : string)
    (parameters : list (string * string)) (body : list ASTNode)
| FunctionCall (line column : nat) (name : string)
    (arguments : list ASTNode)
| ReturnStatement (line column : nat) (val : option ASTNode)
| PrintStatement (line column : nat) (expressions : list ASTNode)
| Block (line column : nat) (statements : list ASTNode)
| ArrayLiteral (line column : nat) (elements : list ASTNode)
| ArrayAccess (line column : nat) (array index : ASTNode)
| ArrayAssignment (line column : nat) (array : string)
    (index val : ASTNode)
| BuiltInCall (line column : nat) (function : string)
    (arguments : list ASTNode).

(** ** The IR generator *)

Module IRGenerator.
Section WithHost.
Context `{Host}.

Abbreviation val := (value F).

Record state := State {
  code : list ThreeAddressCode;
  temp_count : nat;
  label_count : nat
}.

(** [IRGenerator()] *)
Definition init : state :=
  {| code := []; temp_count := 0; label_count := 0 |}.

(** a method of the generator: it may raise, and it updates the object *)
Definition M (A : Type) : Type := state → outcome (A * state).

Definition ret {A} (a : A) : M A := λ g, Ok (a, g).

Definition bind {A B} (c : M A) (k : A → M B) : M B := λ g,
  match c g with
  | Ok (a, g') => k a g'
  | Raise e => Raise e
  end.

Definition raise {A} (e : exn) : M A := λ _, Raise e.

Notation "'let*' x ':=' c 'in' k" := (bind c (λ x, k))
  (at level 10, x name, c at level 100, k at level 200).

Definition temp_name (n : nat) : string := "t" +:+ pretty n.
Definition label_name (n : nat) : string := "L" +:+ pretty n.

Definition new_temp : M string := λ g,
  Ok (temp_name (temp_count g),
      {| code := code g;
         temp_count := S (temp_count g);
         label_count := label_count g |}).

Definition new_label : M string := λ g,
  Ok (label_name (label_count g),
      {| code := code g;
         temp_count := temp_count g;
         label_count := S (label_count g) |}).

Definition emit (op : string) (arg1 arg2 : val) (result : option string)
  : M unit := λ g,
  Ok (tt,
      {| code := code g ++ [TAC _ op arg1 arg2 result];
         temp_count := temp_count g;
         label_count := label_count g |}).

(** [for x in l: f(x)] *)
Definition for_each {A B} (f : A → M B) : list A → M unit :=
  fix go l :=
    match l with
    | [] => ret tt
    | x :: l' => let* _ := f x in go l'
    end.

(** a block that is neither [None] nor empty *)
Definition nonempty {A} (b : option (list A)) : bool :=
  match b with
  | Some (_ :: _) => true
  | _ => false
  end.

Definition generate_Literal (v : val) : val :=
  match v with
  | VStr s => VStr (Py.quoted s)
  | VBool b => VStr (if b then "true" else "false")
  | _ => VStr (Py.str [] v)
  end.

(** [generate]: the dispatch on the class of the node, with the method of
    each class in the branch of its constructor *)
Fixpoint generate (node : ASTNode) : M val :=
  match node with
  | Program _ _ statements =>
      let* _ := for_each generate statements in
      ret VNone
  | VarDeclaration _ _ _ name initializer =>
      match initializer with
      | Some e =>
          let* v := generate e in
          let* _ := emit "assign" v VNone (Some name) in
          ret VNone
      | None => ret VNone
      end
  | Assignment _ _ name e =>
      let* v := generate e in
      let* _ := emit "assign" v VNone (Some name) in
      ret VNone
  | BinaryOp _ _ l operator r =>
      let* left := generate l in
      let* right := generate r in
      let* result := new_temp in
      let* _ := emit operator left right (Some result) in
      ret (VStr result)
  | UnaryOp _ _ operator e =>
      let* operand := generate e in
      let* result := new_temp in
      let* _ := emit operator operand VNone (Some result) in
      ret (VStr result)
  | Literal _ _ v _ => ret (generate_Literal v)
  | Identifier _ _ name => ret (VStr name)
  | IfStatement _ _ condition then_block else_block =>
      let* cond := generate condition in
      let* false_label := new_label in
      let* end_label := new_label in
      let* _ := emit "if_false" cond VNone (Some false_label) in
      let* _ := for_each generate then_block in
      let* _ :=
        if nonempty else_block
        then emit "goto" VNone VNone (Some end_label)
        else ret tt in
      let* _ := emit "label" VNone VNone (Some false_label) in
      let* _ :=
        match else_block with
        | Some (s :: ss) =>
            let* _ := for_each generate (s :: ss) in
            emit "label" VNone VNone (Some end_label)
        | _ => ret tt
        end in
      ret VNone
  | WhileStatement _ _ condition body =>
      let* start_label := new_label in
      let* end_label := new_label in
      let* _ := emit "label" VNone VNone (Some start_label) in
      let* cond := generate condition in
      let* _ := emit "if_false" cond VNone (Some end_label) in
      let* _ := for_each generate body in
      let* _ := emit "goto" VNone VNone (Some start_label) in
      let* _ := emit "label" VNone VNone (Some end_label) in
      ret VNone
  | ForStatement _ _ init condition update body =>
      let* _ := generate init in
      let* start_label := new_label in
      let* end_label := new_label in
      let* _ := emit "label" VNone VNone (Some start_label) in
      let* cond := generate condition in
      let* _ := emit "if_false" cond VNone (Some end_label) in
      let* _ := for_each generate body in
      let* _ := generate update in
      let* _ := emit "goto" VNone VNone (Some start_label) in
      let* _ := emit "label" VNone VNone (Some end_label) in
      ret VNone
  | FunctionDef _ _ _ name parameters body =>
      let* _ := emit "begin_func" (VStr name) VNone None in
      let* _ :=
        for_each (λ p, emit "param_decl" (VStr (snd p)) VNone None)
          parameters in
      let* _ := for_each generate body in
      let* _ := emit "end_func" (VStr name) VNone None in
      ret VNone
  | FunctionCall _ _ name arguments =>
      let* _ :=
        for_each
          (λ arg,
             let* arg_val := generate arg in
             emit "param" arg_val VNone None)
          arguments in
      let* result := new_temp in
      let* _ :=
        emit "call" (VStr name) (VInt (Z.of_nat (length arguments)))
          (Some result) in
      ret (VStr result)
  | ReturnStatement _ _ v =>
      match v with
      | Some e =>
          let* value := generate e in
          let* _ := emit "return" value VNone None in
          ret VNone
      | None =>
          let* _ := emit "return" VNone VNone None in
          ret VNone
      end
  | PrintStatement _ _ expressions =>
      let* _ :=
        for_each
          (λ expr,
             let* value := generate expr in
             emit "print" value VNone None)
          expressions in
      ret VNone
  | Block _ _ statements =>
      let* _ := for_each generate statements in
      ret VNone
  | ArrayLiteral _ _ elements =>
      let* temp := new_temp in
      let* _ := emit "array_init" VNone VNone (Some temp) in
      let* _ :=
        for_each
          (λ elem,
             let* elem_val := generate elem in
             emit "array_append" elem_val VNone (Some temp))
          elements in
      ret (VStr temp)
  | ArrayAccess _ _ array index =>
      let* array_val := generate array in
      let* index_val := generate index in
      let* temp := new_temp in
      let* _ := emit "array_get" array_val index_val (Some temp) in
      ret (VStr temp)
  | ArrayAssignment _ _ array index v =>
      let* index_val := generate index in
      let* value_val := generate v in
      let* _ := emit "array_set" index_val value_val (Some array) in
      ret VNone
  | BuiltInCall _ _ function arguments =>
      let func := Py.lower function in
      let* temp := new_temp in
      let* _ :=
        if String.eqb func "len" then
          match arguments with
          | a0 :: _ =>
              let* arg := generate a0 in
              emit "builtin_len" arg VNone (Some temp)
          | _ => raise IndexError
          end
        else if String.eqb func "random" then
          match arguments with
          | a0 :: rest =>
              let* min_val := generate a0 in
              match rest with
              | a1 :: _ =>
                  let* max_val := generate a1 in
                  emit "builtin_random" min_val max_val (Some temp)
              | _ => raise IndexError
              end
          | _ => raise IndexError
          end
        else if String.eqb func "substr" then
          match arguments with
          | a0 :: rest =>
              let* str_val := generate a0 in
              match rest with
              | a1 :: rest' =>
                  let* start_val := generate a1 in
                  match rest' with
                  | a2 :: _ =>
                      let* end_val := generate a2 in
                      emit "builtin_substr" str_val
                        (VPair start_val end_val) (Some temp)
                  | _ => raise IndexError
                  end
              | _ => raise IndexError
              end
          | _ => raise IndexError
          end
        else if String.eqb func "concat" then
          match arguments with
          | a0 :: rest =>
              let* arg1 := generate a0 in
              match rest with
              | a1 :: _ =>
                  let* arg2 := generate a1 in
                  emit "builtin_concat" arg1 arg2 (Some temp)
              | _ => raise IndexError
              end
          | _ => raise IndexError
          end
        else if String.eqb func "input" then
          match arguments with
          | a0 :: _ =>
              let* prompt := generate a0 in
              emit "builtin_input" prompt VNone (Some temp)
          | _ => raise IndexError
          end
        else ret tt in
      ret (VStr temp)
  end.

(** [g = IRGenerator(); g.generate(node); g.code] *)
Definition run (node : ASTNode) : outcome (list ThreeAddressCode) :=
  match generate node init with
  | Ok (_, g) => Ok (code g)
  | Raise e => Raise e
  end.

End WithHost.
End IRGenerator.

(** ** Tables keyed by names *)

(** The dictionaries of the optimizer and of the interpreter are keyed by
    the [result] field of instructions, a name or [None], and are looked up
    with operands.  An operand that is not a string or [None] is never a
    key of such a table. *)
Definition key_of `{Host} (v : value F) : option (option string) :=
  match v with
  | VNone => Some None
  | VStr s => Some (Some s)
  | _ => None
  end.

(** [table.get(operand)] *)
Definition lookup_operand `{Host} {A} (m : gmap (option string) A)
    (v : value F) : option A :=
  match key_of v with
  | Some k => m !! k
  | None => None
  end.

(** [x in l] for a list of operator names *)
Definition op_in (x : string) (l : list string) : bool :=
  existsb (String.eqb x) l.

(** a string that is not empty: [x and isinstance(x, str)] *)
Definition nonempty_str `{Host} (v : value F) : option string :=
  match v with
  | VStr s => if String.eqb s "" then None else Some s
  | _ => None
  end.

(** [instr.result] as a condition *)
Definition result_name `{Host} (instr : ThreeAddressCode) : option string :=
  match result instr with
  | Some s => if String.eqb s "" then None else Some s
  | None => None
  end.

(** ** The optimizer *)

Module Optimizer.
Section WithHost.
Context `{Host}.

Abbreviation val := (value F).
Abbreviation table := (gmap (option string) (value F)).

(** *** Helper methods *)

Definition is_constant (v : val) : bool :=
  match v with
  | VInt _ | VFloat _ | VBool _ => true
  | VStr s => if Py.is_quoted s then true else Py.float_ok s
  | _ => false
  end.

(** the result is [VNone] where the method returns [None] *)
Definition get_constant_value (v : val) : val :=
  match v with
  | VInt _ | VFloat _ | VBool _ => v
  | VStr s =>
      if Py.is_quoted s then VStr (Py.strip_ends s)
      else if Py.contains "." s then
        if Py.float_ok s then VFloat (float_of_string s) else VNone
      else
        match Py.py_int s with
        | Some z => VInt z
        | None => VNone
        end
  | _ => VNone
  end.

Definition host_op (o : string) (l r : val) : outcome val :=
  fst <$> Py.binop [] o l r.

Definition evaluate_operation (op : string) (l r : val) : outcome val :=
  if String.eqb op "+" then host_op "+" l r
  else if String.eqb op "-" then host_op "-" l r
  else if String.eqb op "*" then host_op "*" l r
  else if String.eqb op "/" then
    match Py.as_int l, Py.as_int r with
    | Some _, Some _ => host_op "//" l r
    | _, _ => host_op "/" l r
    end
  else if String.eqb op "%" then host_op "%" l r
  else if String.eqb op "**" then host_op "**" l r
  else if String.eqb op "<" then host_op "<" l r
  else if String.eqb op ">" then host_op ">" l r
  else if String.eqb op "<=" then host_op "<=" l r
  else if String.eqb op ">=" then host_op ">=" l r
  else if String.eqb op "==" then host_op "==" l r
  else if String.eqb op "!=" then host_op "!=" l r
  else Raise ValueError.

(** *** Constant folding *)

Definition control_ops : list string :=
  ["label"; "goto"; "if_false"; "if_true"].

Definition folded_ops : list string :=
  ["+"; "-"; "*"; "/"; "%"; "**"; "<"; ">"; "<="; ">="; "=="; "!="].

Definition unary_ops : list string := ["-"; "not"].

(** [constants.get(x) if x in constants else
     self.get_constant_value(x) if self.is_constant(x) else None] *)
Definition operand_value (constants : table) (x : val) : val :=
  match lookup_operand constants x with
  | Some v => v
  | None => if is_constant x then get_constant_value x else VNone
  end.

Definition assign (v : val) (r : option string) : ThreeAddressCode :=
  TAC _ "assign" v VNone r.

(** the body of the loop: the new table and the instruction appended *)
Definition fold_instr (constants : table) (instr : ThreeAddressCode)
  : outcome (table * ThreeAddressCode) :=
  if op_in (op instr) control_ops then Ok (∅, instr)
  else if String.eqb (op instr) "assign" then
    if is_constant (arg1 instr) then
      Ok (<[result instr := get_constant_value (arg1 instr)]> constants,
          instr)
    else
      match lookup_operand constants (arg1 instr) with
      | Some v =>
          Ok (<[result instr := v]> constants, assign v (result instr))
      | None => Ok (delete (result instr) constants, instr)
      end
  else if op_in (op instr) folded_ops then
    let arg1_val := operand_value constants (arg1 instr) in
    let arg2_val := operand_value constants (arg2 instr) in
    if negb (Py.is_None arg1_val) && negb (Py.is_None arg2_val) then
      match evaluate_operation (op instr) arg1_val arg2_val with
      | Ok result_val =>
          Ok (<[result instr := result_val]> constants,
              assign result_val (result instr))
      | Raise _ => Ok (constants, instr)
      end
    else Ok (delete (result instr) constants, instr)
  else if op_in (op instr) unary_ops then
    let arg_val := operand_value constants (arg1 instr) in
    if negb (Py.is_None arg_val) then
      result_val ←
        (if String.eqb (op instr) "-" then Py.neg arg_val
         else Ok (VBool (negb (Py.truthy [] arg_val))));
      Ok (<[result instr := result_val]> constants,
          assign result_val (result instr))
    else Ok (constants, instr)
  else
    match result_name instr with
    | Some _ => Ok (delete (result instr) constants, instr)
    | None => Ok (constants, instr)
    end.

Fixpoint fold_loop (constants : table) (optimized : list ThreeAddressCode)
    (code : list ThreeAddressCode) : outcome (list ThreeAddressCode) :=
  match code with
  | [] => Ok optimized
  | instr :: code' =>
      '(constants', instr') ← fold_instr constants instr;
      fold_loop constants' (optimized ++ [instr']) code'
  end.

Definition constant_folding (code : list ThreeAddressCode)
  : outcome (list ThreeAddressCode) :=
  fold_loop ∅ [] code.

(** *** Copy propagation *)

Definition propagated_ops : list string :=
  ["+"; "-"; "*"; "/"; "%"; "**"; "<"; ">"; "<="; ">="; "=="; "!=";
   "and"; "or"].

(** [copies.get(x, x)] *)
Definition get_copy (copies : table) (x : val) : val :=
  match lookup_operand copies x with
  | Some v => v
  | None => x
  end.

(** [x and isinstance(x, str) and x in copies] *)
Definition replace_copy (copies : table) (x : val) : val :=
  match nonempty_str x with
  | Some s =>
      match copies !! Some s with
      | Some v => v
      | None => x
      end
  | None => x
  end.

Definition is_str (v : val) : bool :=
  match v with VStr _ => true | _ => false end.

Definition copy_instr (copies : table) (instr : ThreeAddressCode)
  : table * ThreeAddressCode :=
  if op_in (op instr) control_ops then (∅, instr)
  else if String.eqb (op instr) "assign" && is_str (arg1 instr)
          && negb (is_constant (arg1 instr)) then
    (<[result instr := arg1 instr]> copies, instr)
  else if op_in (op instr) propagated_ops then
    (delete (result instr) copies,
     TAC _ (op instr) (get_copy copies (arg1 instr))
       (get_copy copies (arg2 instr)) (result instr))
  else if op_in (op instr) unary_ops then
    (delete (result instr) copies,
     TAC _ (op instr) (get_copy copies (arg1 instr)) VNone (result instr))
  else
    (match result_name instr with
     | Some _ => delete (result instr) copies
     | None => copies
     end,
     TAC _ (op instr) (replace_copy copies (arg1 instr))
       (replace_copy copies (arg2 instr)) (result instr)).

Fixpoint copy_loop (copies : table) (optimized : list ThreeAddressCode)
    (code : list ThreeAddressCode) : list ThreeAddressCode :=
  match code with
  | [] => optimized
  | instr :: code' =>
      let '(copies', instr') := copy_instr copies instr in
      copy_loop copies' (optimized ++ [instr']) code'
  end.

Definition copy_propagation (code : list ThreeAddressCode)
  : list ThreeAddressCode :=
  copy_loop ∅ [] code.

(** *** Dead-code elimination *)

Definition live_ops : list string :=
  ["if_false"; "if_true"; "return"; "print"; "param"; "call"].

Definition kept_ops : list string :=
  ["label"; "goto"; "if_false"; "if_true"; "begin_func"; "end_func";
   "print"; "return"; "call"; "param"].

(** [x and isinstance(x, str) and not self.is_constant(x)] *)
Definition operand_name (x : val) : option string :=
  match nonempty_str x with
  | Some s => if is_constant x then None else Some s
  | None => None
  end.

Definition add_opt (x : option string) (s : gset string) : gset string :=
  match x with
  | Some n => {[n]} ∪ s
  | None => s
  end.

(** the body of the first loop *)
Definition mark_used (used_vars : gset string) (instr : ThreeAddressCode)
  : gset string :=
  let u1 := add_opt (operand_name (arg1 instr)) used_vars in
  let u2 := add_opt (operand_name (arg2 instr)) u1 in
  if op_in (op instr) live_ops then
    let u3 := add_opt (nonempty_str (arg1 instr)) u2 in
    if String.eqb (op instr) "label" then u3
    else add_opt (result_name instr) u3
  else u2.

Definition used_variables (code : list ThreeAddressCode) : gset string :=
  foldl mark_used ∅ code.

(** the condition under which the second loop appends the instruction *)
Definition keeps (used_vars : gset string) (instr : ThreeAddressCode)
  : bool :=
  if op_in (op instr) kept_ops then true
  else
    match result_name instr with
    | Some r => bool_decide (r ∈ used_vars) || negb (Py.startswith "t" r)
    | None => true
    end.

Fixpoint sweep (used_vars : gset string) (optimized : list ThreeAddressCode)
    (code : list ThreeAddressCode) : list ThreeAddressCode :=
  match code with
  | [] => optimized
  | instr :: code' =>
      if keeps used_vars instr
      then sweep used_vars (optimized ++ [instr]) code'
      else sweep used_vars optimized code'
  end.

Definition dead_code_elimination (code : list ThreeAddressCode)
  : list ThreeAddressCode :=
  sweep (used_variables code) [] code.

(** *** [optimize] *)

Definition optimize (code : list ThreeAddressCode)
  : outcome (list ThreeAddressCode) :=
  code1 ← constant_folding code;
  Ok (dead_code_elimination (copy_propagation code1)).

End WithHost.
End Optimizer.

(** ** The interpreter *)

Module Interpreter.
Section WithHost.
Context `{Host}.

Abbreviation val := (value F).
Abbreviation vars := (gmap (option string) (value F)).
Abbreviation heap := (list (list (value F))).

(** a call frame; [param_index] is [None] until the first [param_decl] *)
Record Frame := {
  return_address : Z;
  saved_vars : vars;
  params : list val;
  return_value : val;
  param_index : option nat
}.

(** The object state.  [variables] is the dictionary restricted to the
    keys that are names or [None], the only keys that are ever read.
    [call_stack] has its top first.  [heap] holds the lists the program
    created, [stdout] what was written to the terminal, [stdin] the lines
    still to be read and [draws] the number of random draws made. *)
Record VM := {
  code : list ThreeAddressCode;
  variables : vars;
  functions : gmap (option string) Z;
  call_stack : list Frame;
  pc : Z;
  output : list string;
  heap_of : heap;
  stdout : list string;
  stdin : list string;
  draws : nat
}.

Definition set_variables (vm : VM) (v : vars) : VM :=
  {| code := code vm; variables := v; functions := functions vm;
     call_stack := call_stack vm; pc := pc vm; output := output vm;
     heap_of := heap_of vm; stdout := stdout vm; stdin := stdin vm;
     draws := draws vm |}.

Definition set_pc (vm : VM) (p : Z) : VM :=
  {| code := code vm; variables := variables vm; functions := functions vm;
     call_stack := call_stack vm; pc := p; output := output vm;
     heap_of := heap_of vm; stdout := stdout vm; stdin := stdin vm;
     draws := draws vm |}.

Definition set_call_stack (vm : VM) (s : list Frame) : VM :=
  {| code := code vm; variables := variables vm; functions := functions vm;
     call_stack := s; pc := pc vm; output := output vm;
     heap_of := heap_of vm; stdout := stdout vm; stdin := stdin vm;
     draws := draws vm |}.

Definition set_heap (vm : VM) (h : heap) : VM :=
  {| code := code vm; variables := variables vm; functions := functions vm;
     call_stack := call_stack vm; pc := pc vm; output := output vm;
     heap_of := h; stdout := stdout vm; stdin := stdin vm;
     draws := draws vm |}.

Definition set_io (vm : VM) (out sout sin : list string) (d : nat) : VM :=
  {| code := code vm; variables := variables vm; functions := functions vm;
     call_stack := call_stack vm; pc := pc vm; output := out;
     heap_of := heap_of vm; stdout := sout; stdin := sin; draws := d |}.

(** [self.variables[name] = v] *)
Definition store (vm : VM) (name : option string) (v : val) : VM :=
  set_variables vm (<[name := v]> (variables vm)).

(** a new list object *)
Definition alloc (vm : VM) (l : list val) : nat * VM :=
  (length (heap_of vm), set_heap vm (heap_of vm ++ [l])).

(** [_build_function_table] *)
Fixpoint build_function_table (i : Z) (code : list ThreeAddressCode)
    (functions : gmap (option string) Z) : gmap (option string) Z :=
  match code with
  | [] => functions
  | instr :: code' =>
      build_function_table (i + 1) code'
        (if String.eqb (op instr) "begin_func" then
           match key_of (arg1 instr) with
           | Some k => <[k := i + 1]> functions
           | None => functions
           end
         else functions)
  end.

(** [Interpreter(code)], given what the terminal will supply *)
Definition init (code : list ThreeAddressCode) (input : list string) : VM :=
  {| code := code; variables := ∅;
     functions := build_function_table 0 code ∅;
     call_stack := []; pc := 0; output := [];
     heap_of := []; stdout := []; stdin := input; draws := 0 |}.

Definition get_value (vm : VM) (operand : val) : outcome val :=
  match operand with
  | VStr s =>
      if Py.is_quoted s then Ok (VStr (Py.strip_ends s))
      else
        match
          (if Py.contains "." s then
             if Py.float_ok s then Some (VFloat (float_of_string s))
             else None
           else VInt <$> Py.py_int s)
        with
        | Some v => Ok v
        | None =>
            if String.eqb s "true" then Ok (VBool true)
            else if String.eqb s "false" then Ok (VBool false)
            else
              match variables vm !! Some s with
              | Some v => Ok v
              | None => Raise (RuntimeError ("Undefined variable: " +:+ s))
              end
        end
  | _ => Ok operand
  end.

Definition show_name (n : option string) : string :=
  match n with
  | Some s => s
  | None => "None"
  end.

Fixpoint find_label_from (i : Z) (code : list ThreeAddressCode)
    (label : option string) : outcome Z :=
  match code with
  | [] => Raise (RuntimeError ("Label not found: " +:+ show_name label))
  | instr :: code' =>
      if String.eqb (op instr) "label"
         && bool_decide (result instr = label)
      then Ok i
      else find_label_from (i + 1) code' label
  end.

Definition find_label (vm : VM) (label : option string) : outcome Z :=
  find_label_from 0 (code vm) label.

(** [range(a, b)] *)
Definition range_from (a b : Z) : list Z :=
  map (λ k, a + Z.of_nat k) (seq 0 (Z.to_nat (b - a))).

(** the loop of [find_function_end] over the indices [idxs] *)
Fixpoint function_end_scan (code : list ThreeAddressCode) (depth : Z)
    (idxs : list Z) : outcome Z :=
  match idxs with
  | [] => Ok (Z.of_nat (length code))
  | i :: idxs' =>
      match Py.index code i with
      | None => Raise IndexError
      | Some instr =>
          if String.eqb (op instr) "begin_func"
          then function_end_scan code (depth + 1) idxs'
          else if String.eqb (op instr) "end_func" then
            if depth - 1 =? 0 then Ok (i + 1)
            else function_end_scan code (depth - 1) idxs'
          else function_end_scan code depth idxs'
      end
  end.

Definition find_function_end (vm : VM) : outcome Z :=
  function_end_scan (code vm) 0
    (range_from (pc vm) (Z.of_nat (length (code vm)))).

(** the two operands of an arithmetic, relational or logical instruction *)
Definition operands (vm : VM) (instr : ThreeAddressCode)
  : outcome (val * val) :=
  lhs ← get_value vm (arg1 instr);
  rhs ← get_value vm (arg2 instr);
  Ok (lhs, rhs).

(** [self.variables[instr.result] = l op r] *)
Definition store_binop (vm : VM) (instr : ThreeAddressCode) (o : string)
    (l r : val) : outcome VM :=
  '(v, h) ← Py.binop (heap_of vm) o l r;
  Ok (store (set_heap vm h) (result instr) v).

Definition arithmetic_ops : list string := ["+"; "-"; "*"; "/"; "%"; "**"].
Definition relational_ops : list string :=
  ["<"; ">"; "<="; ">="; "=="; "!="].
Definition logical_ops : list string := ["and"; "or"].

(** the list an operand denotes, for the operations on arrays *)
Definition list_of (vm : VM) (v : val) : option (nat * list val) :=
  match v with
  | VList l =>
      match heap_of vm !! l with
      | Some xs => Some (l, xs)
      | None => None
      end
  | _ => None
  end.

Definition is_list (v : val) : bool :=
  match v with VList _ => true | _ => false end.

(** the checks shared by [array_get] and [array_set] *)
Definition check_index (xs : list val) (index : val) : outcome nat :=
  match Py.as_int index with
  | None => Raise (RuntimeError "Array index must be integer")
  | Some i =>
      if (i <? 0) || (Z.of_nat (length xs) <=? i)
      then
        text ← match index with
               | VInt z => Py.str_int z
               | _ => Ok (Py.str [] index)
               end;
        Raise (RuntimeError ("Array index out of bounds: " +:+ text))
      else Ok (Z.to_nat i)
  end.

(** [start, end = instr.arg2] *)
Definition unpack_pair (vm : VM) (v : val) : outcome (val * val) :=
  match v with
  | VPair a b => Ok (a, b)
  | VStr (String a (String b EmptyString)) =>
      Ok (VStr (String a ""), VStr (String b ""))
  | VStr _ => Raise ValueError
  | VList l =>
      match heap_of vm !! l with
      | Some [a; b] => Ok (a, b)
      | Some _ => Raise ValueError
      | None => Raise OutsideModel
      end
  | _ => Raise TypeError
  end.

(** the arguments read by [call]: [code[pc - n + i]] for [i] in
    [range(n)], keeping the operands of the [param] instructions *)
Fixpoint collect_params (vm : VM) (n : Z) (idxs : list Z)
  : outcome (list val) :=
  match idxs with
  | [] => Ok []
  | i :: idxs' =>
      match Py.index (code vm) (pc vm - n + i) with
      | None => Raise IndexError
      | Some param_instr =>
          if String.eqb (op param_instr) "param" then
            v ← get_value vm (arg1 param_instr);
            vs ← collect_params vm n idxs';
            Ok (v :: vs)
          else collect_params vm n idxs'
      end
  end.

(** [range(n)] *)
Definition range (n : Z) : list Z :=
  map Z.of_nat (seq 0 (Z.to_nat n)).

Definition push_frame (vm : VM) (f : Frame) : VM :=
  set_call_stack vm (f :: call_stack vm).

(** [execute_instruction] *)
Definition execute_instruction (vm : VM) (instr : ThreeAddressCode)
  : outcome VM :=
  let o := op instr in
  if String.eqb o "assign" then
    value ← get_value vm (arg1 instr);
    Ok (store vm (result instr) value)
  else if op_in o arithmetic_ops then
    '(lhs, rhs) ← operands vm instr;
    if String.eqb o "+" then store_binop vm instr "+" lhs rhs
    else if String.eqb o "-" then store_binop vm instr "-" lhs rhs
    else if String.eqb o "*" then store_binop vm instr "*" lhs rhs
    else if String.eqb o "/" then
      if Py.eq_zero rhs then Raise (RuntimeError "Division by zero")
      else
        match Py.as_int lhs, Py.as_int rhs with
        | Some _, Some _ => store_binop vm instr "//" lhs rhs
        | _, _ => store_binop vm instr "/" lhs rhs
        end
    else if String.eqb o "%" then
      if Py.eq_zero rhs then Raise (RuntimeError "Modulo by zero")
      else store_binop vm instr "%" lhs rhs
    else store_binop vm instr "**" lhs rhs
  else if op_in o relational_ops then
    '(lhs, rhs) ← operands vm instr;
    store_binop vm instr o lhs rhs
  else if op_in o logical_ops then
    '(lhs, rhs) ← operands vm instr;
    if String.eqb o "and" then
      Ok (store vm (result instr)
            (if Py.truthy (heap_of vm) lhs then rhs else lhs))
    else
      Ok (store vm (result instr)
            (if Py.truthy (heap_of vm) lhs then lhs else rhs))
  else if String.eqb o "not" then
    operand ← get_value vm (arg1 instr);
    Ok (store vm (result instr)
          (VBool (negb (Py.truthy (heap_of vm) operand))))
  else if String.eqb o "label" then Ok vm
  else if String.eqb o "goto" then
    i ← find_label vm (result instr);
    Ok (set_pc vm i)
  else if String.eqb o "if_false" then
    condition ← get_value vm (arg1 instr);
    if negb (Py.truthy (heap_of vm) condition) then
      i ← find_label vm (result instr);
      Ok (set_pc vm i)
    else Ok vm
  else if String.eqb o "if_true" then
    condition ← get_value vm (arg1 instr);
    if Py.truthy (heap_of vm) condition then
      i ← find_label vm (result instr);
      Ok (set_pc vm i)
    else Ok vm
  else if String.eqb o "print" then
    value ← get_value vm (arg1 instr);
    let output_str := Py.str (heap_of vm) value in
    Ok (set_io vm (output vm ++ [output_str])
          (stdout vm ++ [output_str +:+ " "]) (stdin vm) (draws vm))
  else if String.eqb o "param" then Ok vm
  else if String.eqb o "param_decl" then
    match call_stack vm with
    | [] => Ok vm
    | frame :: rest =>
        let i := default 0%nat (param_index frame) in
        match params frame !! i with
        | Some v =>
            let frame' :=
              {| return_address := return_address frame;
                 saved_vars := saved_vars frame;
                 params := params frame;
                 return_value := return_value frame;
                 param_index := Some (S i) |} in
            let vm' := set_call_stack vm (frame' :: rest) in
            match key_of (arg1 instr) with
            | Some param_name => Ok (store vm' param_name v)
            | None => Ok vm'
            end
        | None =>
            Ok (set_call_stack vm
                  ({| return_address := return_address frame;
                      saved_vars := saved_vars frame;
                      params := params frame;
                      return_value := return_value frame;
                      param_index := Some i |} :: rest))
        end
    end
  else if String.eqb o "call" then
    let return_address := pc vm + 1 in
    let saved_vars := variables vm in
    match Py.as_int (arg2 instr) with
    | None => Raise TypeError
    | Some num_params =>
        params ← collect_params vm num_params (range num_params);
        let vm' :=
          push_frame vm
            {| return_address := return_address;
               saved_vars := saved_vars;
               params := params;
               return_value := VNone;
               param_index := None |} in
        match key_of (arg1 instr) with
        | None => Raise OutsideModel
        | Some func_name =>
            match functions vm !! func_name with
            | None =>
                Raise (RuntimeError
                         ("Undefined function: " +:+ show_name func_name))
            | Some entry => Ok (set_pc vm' entry)
            end
        end
    end
  else if String.eqb o "return" then
    match call_stack vm with
    | [] => Ok (set_pc vm (Z.of_nat (length (code vm))))
    | frame :: rest =>
        return_value ← get_value vm (arg1 instr);
        let vm1 := set_variables (set_call_stack vm rest) (saved_vars frame) in
        vm2 ←
          (if Py.is_None return_value then Ok vm1
           else
             let call_pc := return_address frame - 1 in
             match Py.index (code vm) call_pc with
             | None => Raise IndexError
             | Some call_instr =>
                 match result_name call_instr with
                 | Some _ => Ok (store vm1 (result call_instr) return_value)
                 | None => Ok vm1
                 end
             end);
        Ok (set_pc vm2 (return_address frame))
    end
  else if String.eqb o "begin_func" then
    i ← find_function_end vm;
    Ok (set_pc vm i)
  else if String.eqb o "end_func" then Ok vm
  else if String.eqb o "array_init" then
    let '(l, vm') := alloc vm [] in
    Ok (store vm' (result instr) (VList l))
  else if String.eqb o "array_append" then
    match variables vm !! result instr with
    | Some array =>
        value ← get_value vm (arg1 instr);
        match array with
        | VList l =>
            match heap_of vm !! l with
            | Some xs =>
                Ok (store (set_heap vm (<[l := xs ++ [value]]> (heap_of vm)))
                      (result instr) array)
            | None => Raise OutsideModel
            end
        | _ => Raise AttributeError
        end
    | None =>
        value ← get_value vm (arg1 instr);
        let '(l, vm') := alloc vm [value] in
        Ok (store vm' (result instr) (VList l))
    end
  else if String.eqb o "array_get" then
    array ← get_value vm (arg1 instr);
    index ← get_value vm (arg2 instr);
    if negb (is_list array)
    then Raise (RuntimeError "Cannot index non-array type")
    else
      match list_of vm array with
      | None => Raise OutsideModel
      | Some (_, xs) =>
          i ← check_index xs index;
          match xs !! i with
          | Some v => Ok (store vm (result instr) v)
          | None => Raise IndexError
          end
      end
  else if String.eqb o "array_set" then
    match variables vm !! result instr with
    | Some (VList l) =>
        index ← get_value vm (arg1 instr);
        value ← get_value vm (arg2 instr);
        match heap_of vm !! l with
        | None => Raise OutsideModel
        | Some xs =>
            i ← check_index xs index;
            Ok (set_heap vm (<[l := <[i := value]> xs]> (heap_of vm)))
        end
    | _ => Raise (RuntimeError "Cannot index non-array type")
    end
  else if String.eqb o "builtin_len" then
    arg ← get_value vm (arg1 instr);
    match arg with
    | VStr s =>
        Ok (store vm (result instr) (VInt (Z.of_nat (String.length s))))
    | VList l =>
        match heap_of vm !! l with
        | Some xs =>
            Ok (store vm (result instr) (VInt (Z.of_nat (length xs))))
        | None => Raise OutsideModel
        end
    | _ => Raise (RuntimeError "len() requires array or string")
    end
  else if String.eqb o "builtin_random" then
    min_val ← get_value vm (arg1 instr);
    max_val ← get_value vm (arg2 instr);
    a ← Py.int (heap_of vm) min_val;
    b ← Py.int (heap_of vm) max_val;
    r ← randint (draws vm) a b;
    Ok (store (set_io vm (output vm) (stdout vm) (stdin vm) (S (draws vm)))
          (result instr) (VInt r))
  else if String.eqb o "builtin_substr" then
    string ← get_value vm (arg1 instr);
    '(start, end_) ← unpack_pair vm (arg2 instr);
    start_val ← get_value vm start;
    end_val ← get_value vm end_;
    match string with
    | VStr s =>
        i ← Py.int (heap_of vm) start_val;
        j ← Py.int (heap_of vm) end_val;
        Ok (store vm (result instr) (VStr (Py.slice s i j)))
    | _ => Raise (RuntimeError "substr() requires string")
    end
  else if String.eqb o "builtin_concat" then
    str1 ← get_value vm (arg1 instr);
    str2 ← get_value vm (arg2 instr);
    match str1, str2 with
    | VStr a, VStr b => Ok (store vm (result instr) (VStr (a +:+ b)))
    | _, _ => Raise (RuntimeError "concat() requires string arguments")
    end
  else if String.eqb o "builtin_input" then
    prompt ← get_value vm (arg1 instr);
    match prompt with
    | VStr p =>
        match stdin vm with
        | line :: rest =>
            Ok (store (set_io vm (output vm) (stdout vm ++ [p]) rest
                         (draws vm))
                  (result instr) (VStr line))
        | [] =>
            Ok (store (set_io vm (output vm) (stdout vm ++ [p]) []
                         (draws vm))
                  (result instr) (VStr ""))
        end
    | _ => Raise (RuntimeError "input() prompt must be string")
    end
  else Ok vm.

(** the body of the loop of [execute] *)
Definition step (vm : VM) : outcome VM :=
  match Py.index (code vm) (pc vm) with
  | None => Raise IndexError
  | Some instr =>
      let old_pc := pc vm in
      vm' ← execute_instruction vm instr;
      Ok (if pc vm' =? old_pc then set_pc vm' (pc vm' + 1) else vm')
  end.

(** [execute]: the loop, unrolled [fuel] times; [None] when the program
    has not halted within [fuel] instructions *)
Fixpoint run (fuel : nat) (vm : VM) : option (outcome VM) :=
  if pc vm <? Z.of_nat (length (code vm)) then
    match fuel with
    | O => None
    | S fuel' =>
        match step vm with
        | Raise e => Some (Raise e)
        | Ok vm' => run fuel' vm'
        end
    end
  else Some (Ok vm).

(** the state after [n] rounds of the loop *)
Fixpoint steps (n : nat) (vm : VM) : outcome VM :=
  match n with
  | O => Ok vm
  | S n' => vm' ← step vm; steps n' vm'
  end.

(** [Interpreter(code).execute()]: the captured output *)
Definition execute (fuel : nat) (code : list ThreeAddressCode)
    (input : list string) : option (outcome (list string)) :=
  match run fuel (init code input) with
  | Some (Ok vm) => Some (Ok (output vm))
  | Some (Raise e) => Some (Raise e)
  | None => None
  end.

End WithHost.
End Interpreter.

(** ** The lexer: reading a string literal *)

Inductive TokenType :=
| INT | FLOAT | BOOL | STRING | IF | ELSE | WHILE | FOR | RETURN | PRINT
| INPUT | TRUE | FALSE | FUNCTION | LEN | RANDOM | SUBSTR | CONCAT
| PLUS | MINUS | MULTIPLY | DIVIDE | MODULO | POWER | ASSIGN | EQ | NE
| LT | GT | LE | GE | AND | OR | NOT
| LPAREN | RPAREN | LBRACE | RBRACE | LBRACKET | RBRACKET | SEMICOLON
| COMMA | COLON
| IDENTIFIER | INT_LITERAL | FLOAT_LITERAL | STRING_LITERAL | BOOL_LITERAL
| EOF | NEWLINE.

Module Lexer.
Section WithHost.
Context `{Host}.

Record Token := {
  type : TokenType;
  value_of : value F;
  line_of : nat;
  column_of : nat
}.

Record state := {
  source : string;
  pos : nat;
  line : nat;
  column : nat
}.

(** [Lexer(source_code)] *)
Definition init (source_code : string) : state :=
  {| source := source_code; pos := 0; line := 1; column := 1 |}.

(** [error]: the exception carries the line and the column *)
Definition error (lx : state) (message : string) : exn :=
  SyntaxError ("Lexical error at line " +:+ pretty (line lx) +:+
               ", column " +:+ pretty (column lx) +:+ ": " +:+ message).

(** [peek()] *)
Definition peek (lx : state) : option ascii :=
  String.get (pos lx) (source lx).

(** [advance()] *)
Definition advance (lx : state) : option ascii * state :=
  match String.get (pos lx) (source lx) with
  | None => (None, lx)
  | Some char =>
      (Some char,
       if Ascii.eqb char "010"
       then {| source := source lx; pos := S (pos lx);
               line := S (line lx); column := 1 |}
       else {| source := source lx; pos := S (pos lx);
               line := line lx; column := S (column lx) |})
  end.

Definition backslash : ascii := "092"%char.

(** the loop of [read_string]; every round consumes a character, so that
    [fuel] above the number of characters left is never used up *)
Fixpoint read_string_loop (fuel : nat) (lx : state) (string_value : string)
  : outcome (string * state) :=
  match peek lx with
  | None => Ok (string_value, lx)
  | Some c =>
      if Ascii.eqb c Py.quote then Ok (string_value, lx)
      else
        match fuel with
        | O => Raise OutsideModel
        | S fuel' =>
            if Ascii.eqb c backslash then
              let lx1 := snd (advance lx) in
              match peek lx1 with
              | Some next_char =>
                  let decoded :=
                    if Ascii.eqb next_char "n" then "010"%char
                    else if Ascii.eqb next_char "t" then "009"%char
                    else if Ascii.eqb next_char backslash then backslash
                    else if Ascii.eqb next_char Py.quote then Py.quote
                    else next_char in
                  read_string_loop fuel' (snd (advance lx1))
                    (string_value +:+ String decoded "")
              | None => Raise TypeError
              end
            else
              match advance lx with
              | (Some ch, lx1) =>
                  read_string_loop fuel' lx1
                    (string_value +:+ String ch "")
              | (None, _) => Raise TypeError
              end
        end
  end.

(** [read_string], called with the opening quote as the next character *)
Definition read_string (lx : state) : outcome (Token * state) :=
  let start_line := line lx in
  let start_column := column lx in
  let lx0 := snd (advance lx) in
  '(string_value, lx1) ←
    read_string_loop (String.length (source lx0) - pos lx0) lx0 "";
  match peek lx1 with
  | None => Raise (error lx1 "Unterminated string literal")
  | Some _ =>
      Ok ({| type := STRING_LITERAL; value_of := VStr string_value;
             line_of := start_line; column_of := start_column |},
          snd (advance lx1))
  end.

(** [peek(offset)] *)
Definition peek_at (lx : state) (offset : nat) : option ascii :=
  String.get (pos lx + offset) (source lx).

(** the number of characters from the position to the end of the source;
    no loop of the lexer goes around more often than that *)
Definition remaining (lx : state) : nat :=
  String.length (source lx) - pos lx.

(** [c.isdigit()], [c.isalpha()] and [c.isalnum()] for a character below
    256: beside the ASCII digits and letters, the host counts the
    superscripts one, two and three as digits, the letters of Latin-1 as
    letters, and the three vulgar fractions as alphanumeric *)
Definition isdigit (c : ascii) : bool :=
  let n := nat_of_ascii c in
  ((48 <=? n) && (n <=? 57))%nat
  || (n =? 178)%nat || (n =? 179)%nat || (n =? 185)%nat.

Definition isalpha (c : ascii) : bool :=
  let n := nat_of_ascii c in
  ((65 <=? n) && (n <=? 90))%nat || ((97 <=? n) && (n <=? 122))%nat
  || (n =? 170)%nat || (n =? 181)%nat || (n =? 186)%nat
  || ((192 <=? n) && (n <=? 214))%nat || ((216 <=? n) && (n <=? 246))%nat
  || ((248 <=? n) && (n <=? 255))%nat.

Definition isalnum (c : ascii) : bool :=
  let n := nat_of_ascii c in
  isalpha c || isdigit c || ((188 <=? n) && (n <=? 190))%nat.

(** [c in ' \t\r\n'] *)
Definition is_blank (c : ascii) : bool :=
  Ascii.eqb c " " || Ascii.eqb c "009" || Ascii.eqb c "013"
  || Ascii.eqb c "010".

Fixpoint skip_whitespace_loop (fuel : nat) (lx : state) : outcome state :=
  match peek lx with
  | None => Ok lx
  | Some c =>
      if is_blank c then
        match fuel with
        | O => Raise OutsideModel
        | S fuel' => skip_whitespace_loop fuel' (snd (advance lx))
        end
      else Ok lx
  end.

Definition skip_whitespace (lx : state) : outcome state :=
  skip_whitespace_loop (remaining lx) lx.

Fixpoint skip_line_loop (fuel : nat) (lx : state) : outcome state :=
  match peek lx with
  | None => Ok lx
  | Some c =>
      if Ascii.eqb c "010" then Ok lx
      else
        match fuel with
        | O => Raise OutsideModel
        | S fuel' => skip_line_loop fuel' (snd (advance lx))
        end
  end.

Definition skip_single_line_comment (lx : state) : outcome state :=
  let lx2 := snd (advance (snd (advance lx))) in
  skip_line_loop (remaining lx2) lx2.

Fixpoint skip_block_loop (fuel : nat) (lx : state) : outcome state :=
  match peek lx with
  | None => Raise (error lx "Unterminated multi-line comment")
  | Some c =>
      if Ascii.eqb c "*"
         && bool_decide (peek_at lx 1 = Some "/"%char)
      then Ok (snd (advance (snd (advance lx))))
      else
        match fuel with
        | O => Raise OutsideModel
        | S fuel' => skip_block_loop fuel' (snd (advance lx))
        end
  end.

Definition skip_multi_line_comment (lx : state) : outcome state :=
  let lx2 := snd (advance (snd (advance lx))) in
  skip_block_loop (remaining lx2) lx2.

Fixpoint read_number_loop (fuel : nat) (lx : state) (num_str : string)
    (is_float : bool) : outcome (string * bool * state) :=
  match peek lx with
  | None => Ok (num_str, is_float, lx)
  | Some c =>
      if isdigit c || Ascii.eqb c "." then
        match fuel with
        | O => Raise OutsideModel
        | S fuel' =>
            if Ascii.eqb c "." && is_float then
              Raise (error lx
                       "Invalid number format: multiple decimal points")
            else
              match advance lx with
              | (Some ch, lx') =>
                  read_number_loop fuel' lx' (num_str +:+ String ch "")
                    (is_float || Ascii.eqb c ".")
              | (None, _) => Raise TypeError
              end
        end
      else Ok (num_str, is_float, lx)
  end.

Definition read_number (lx : state) : outcome (Token * state) :=
  let start_line := line lx in
  let start_column := column lx in
  '(num_str, is_float, lx') ← read_number_loop (remaining lx) lx "" false;
  if is_float : bool then
    if Py.float_ok num_str then
      Ok ({| type := FLOAT_LITERAL;
             value_of := VFloat (float_of_string num_str);
             line_of := start_line; column_of := start_column |}, lx')
    else Raise ValueError
  else
    match Py.py_int num_str with
    | Some z =>
        Ok ({| type := INT_LITERAL; value_of := VInt z;
               line_of := start_line; column_of := start_column |}, lx')
    | None => Raise ValueError
    end.

Definition KEYWORDS : list (string * TokenType) :=
  [ ("int", INT); ("float", FLOAT); ("bool", BOOL); ("string", STRING);
    ("if", IF); ("else", ELSE); ("while", WHILE); ("for", FOR);
    ("return", RETURN); ("print", PRINT); ("input", INPUT);
    ("function", FUNCTION); ("true", TRUE); ("false", FALSE);
    ("len", LEN); ("random", RANDOM); ("substr", SUBSTR);
    ("concat", CONCAT); ("and", AND); ("or", OR); ("not", NOT) ].

(** [KEYWORDS.get(identifier, TokenType.IDENTIFIER)] *)
Definition keyword (identifier : string) : TokenType :=
  match List.find (λ kv, String.eqb identifier (fst kv)) KEYWORDS with
  | Some kv => snd kv
  | None => IDENTIFIER
  end.

Fixpoint read_identifier_loop (fuel : nat) (lx : state) (identifier : string)
  : outcome (string * state) :=
  match peek lx with
  | None => Ok (identifier, lx)
  | Some c =>
      if isalnum c || Ascii.eqb c "_" then
        match fuel with
        | O => Raise OutsideModel
        | S fuel' =>
            match advance lx with
            | (Some ch, lx') =>
                read_identifier_loop fuel' lx' (identifier +:+ String ch "")
            | (None, _) => Raise TypeError
            end
        end
      else Ok (identifier, lx)
  end.

Definition read_identifier (lx : state) : outcome (Token * state) :=
  let start_line := line lx in
  let start_column := column lx in
  '(identifier, lx') ← read_identifier_loop (remaining lx) lx "";
  let token_type := keyword identifier in
  Ok ({| type :=
           match token_type with
           | TRUE | FALSE => BOOL_LITERAL
           | _ => token_type
           end;
         value_of :=
           match token_type with
           | TRUE => VBool true
           | FALSE => VBool false
           | _ => VStr identifier
           end;
         line_of := start_line; column_of := start_column |}, lx').

(** a token whose text is one character, and one whose text is one
    character or two, the second being [=] or [*] *)
Definition one (lx : state) (t : TokenType) (text : string)
  : outcome (Token * state) :=
  Ok ({| type := t; value_of := VStr text;
         line_of := line lx; column_of := column lx |},
      snd (advance lx)).

Definition unexpected (lx : state) (char : ascii) : exn :=
  error lx ("Unexpected character: " +:+ String char "").

Definition one_or_two (lx : state) (second : ascii)
    (t2 : TokenType) (text2 : string)
    (otherwise : state → outcome (Token * state))
  : outcome (Token * state) :=
  let lx1 := snd (advance lx) in
  if bool_decide (peek lx1 = Some second) then
    Ok ({| type := t2; value_of := VStr text2;
           line_of := line lx; column_of := column lx |},
        snd (advance lx1))
  else otherwise lx1.

(** the branch of the loop of [tokenize] that reads a token at [char] *)
Definition read_token (lx : state) (char : ascii) : outcome (Token * state) :=
  let at_start t text :=
    {| type := t; value_of := VStr text;
       line_of := line lx; column_of := column lx |} in
  if isdigit char then read_number lx
  else if Ascii.eqb char Py.quote then read_string lx
  else if isalpha char || Ascii.eqb char "_" then read_identifier lx
  else if Ascii.eqb char "+" then one lx PLUS "+"
  else if Ascii.eqb char "-" then one lx MINUS "-"
  else if Ascii.eqb char "*" then
    one_or_two lx "*" POWER "**" (λ lx1, Ok (at_start MULTIPLY "*", lx1))
  else if Ascii.eqb char "/" then one lx DIVIDE "/"
  else if Ascii.eqb char "%" then one lx MODULO "%"
  else if Ascii.eqb char "=" then
    one_or_two lx "=" EQ "==" (λ lx1, Ok (at_start ASSIGN "=", lx1))
  else if Ascii.eqb char "!" then
    one_or_two lx "=" NE "!=" (λ lx1, Raise (unexpected lx1 char))
  else if Ascii.eqb char "<" then
    one_or_two lx "=" LE "<=" (λ lx1, Ok (at_start LT "<", lx1))
  else if Ascii.eqb char ">" then
    one_or_two lx "=" GE ">=" (λ lx1, Ok (at_start GT ">", lx1))
  else if Ascii.eqb char "(" then one lx LPAREN "("
  else if Ascii.eqb char ")" then one lx RPAREN ")"
  else if Ascii.eqb char "{" then one lx LBRACE "{"
  else if Ascii.eqb char "}" then one lx RBRACE "}"
  else if Ascii.eqb char "[" then one lx LBRACKET "["
  else if Ascii.eqb char "]" then one lx RBRACKET "]"
  else if Ascii.eqb char ";" then one lx SEMICOLON ";"
  else if Ascii.eqb char "," then one lx COMMA ","
  else if Ascii.eqb char ":" then one lx COLON ":"
  else Raise (unexpected lx char).

(** the loop of [tokenize] *)
Fixpoint tokenize_loop (fuel : nat) (lx : state) (tokens : list Token)
  : outcome (list Token * state) :=
  if (pos lx <? String.length (source lx))%nat then
    match fuel with
    | O => Raise OutsideModel
    | S fuel' =>
        lx1 ← skip_whitespace lx;
        if (String.length (source lx1) <=? pos lx1)%nat then Ok (tokens, lx1)
        else
          match peek lx1 with
          | None => Raise AttributeError
          | Some char =>
              if Ascii.eqb char "/"
                 && bool_decide (peek_at lx1 1 = Some "/"%char)
              then
                lx2 ← skip_single_line_comment lx1;
                tokenize_loop fuel' lx2 tokens
              else if Ascii.eqb char "/"
                      && bool_decide (peek_at lx1 1 = Some "*"%char)
              then
                lx2 ← skip_multi_line_comment lx1;
                tokenize_loop fuel' lx2 tokens
              else
                '(t, lx2) ← read_token lx1 char;
                tokenize_loop fuel' lx2 (tokens ++ [t])
          end
    end
  else Ok (tokens, lx).

(** [Lexer(source_code).tokenize()] *)
Definition tokenize (source_code : string) : outcome (list Token) :=
  '(tokens, lx) ←
    tokenize_loop (String.length source_code) (init source_code) [];
  Ok (tokens ++ [{| type := EOF; value_of := VNone;
                    line_of := line lx; column_of := column lx |}]).

End WithHost.
End Lexer.

(** ** The symbol table of the semantic analyzer *)

Module Semantic.
Section WithHost.
Context `{Host}.

(** the dictionary stored for a name: its fixed entries and the keyword
    arguments [initialized] (variables) or [parameters] (functions) *)
Record Symbol := {
  symbol_type : string;
  data_type : string;
  initialized : option bool;
  parameters : option (list (string * string))
}.

#[warnings="-register-all"] Inductive SymbolTable :=
| Scope (symbols : gmap string Symbol) (parent : option SymbolTable)
    (scope_level : nat).

Definition symbols (t : SymbolTable) : gmap string Symbol :=
  match t with Scope s _ _ => s end.
Definition parent (t : SymbolTable) : option SymbolTable :=
  match t with Scope _ p _ => p end.
Definition scope_level (t : SymbolTable) : nat :=
  match t with Scope _ _ l => l end.

(** [SymbolTable(parent)] *)
Definition new_table (parent : option SymbolTable) : SymbolTable :=
  Scope ∅ parent
    (match parent with None => 0%nat | Some p => S (scope_level p) end).

Definition define (t : SymbolTable) (name : string) (sym : Symbol)
  : outcome SymbolTable :=
  match symbols t !! name with
  | Some _ =>
      Raise (SemanticError
               ("Redeclaration of '" +:+ name +:+ "' in the same scope"))
  | None => Ok (Scope (<[name := sym]> (symbols t)) (parent t) (scope_level t))
  end.

Fixpoint lookup (t : SymbolTable) (name : string) : option Symbol :=
  match t with
  | Scope s p _ =>
      match s !! name with
      | Some sym => Some sym
      | None =>
          match p with
          | Some t' => lookup t' name
          | None => None
          end
      end
  end.

Definition exists_ (t : SymbolTable) (name : string) : bool :=
  match lookup t name with Some _ => true | None => false end.

(** the analyzer; [global_scope] is the root of the chain of
    [current_scope] *)
Record analyzer := {
  current_scope : SymbolTable;
  current_function : option ASTNode;
  errors : list string
}.

(** [SemanticAnalyzer()] *)
Definition init : analyzer :=
  {| current_scope := new_table None; current_function := None;
     errors := [] |}.

Definition enter_scope (a : analyzer) : analyzer :=
  {| current_scope := new_table (Some (current_scope a));
     current_function := current_function a; errors := errors a |}.

Definition exit_scope (a : analyzer) : analyzer :=
  match parent (current_scope a) with
  | Some p =>
      {| current_scope := p; current_function := current_function a;
         errors := errors a |}
  | None => a
  end.

(** [error]: the message that is recorded and raised *)
Definition error_message (message : string) (line column : nat) : string :=
  "Semantic error at line " +:+ pretty line +:+ ", column " +:+
  pretty column +:+ ": " +:+ message.

Definition is_compatible_type (expected actual : string) : bool :=
  String.eqb expected actual
  || (String.eqb expected "float" && String.eqb actual "int").

Section VarDeclaration.

(** [analyze] on the initializer: the type of the expression, or the
    error it raises *)
Variable analyze : analyzer → ASTNode → outcome (string * analyzer).

Definition analyze_VarDeclaration (a : analyzer) (line column : nat)
    (var_type name : string) (initializer : option ASTNode)
  : outcome (string * analyzer) :=
  match symbols (current_scope a) !! name with
  | Some _ =>
      Raise (SemanticError
               (error_message
                  ("Variable '" +:+ name +:+
                   "' already declared in this scope") line column))
  | None =>
      a1 ←
        match initializer with
        | Some e =>
            '(init_type, a') ← analyze a e;
            if negb (is_compatible_type var_type init_type) then
              Raise (SemanticError
                       (error_message
                          ("Type mismatch: cannot assign " +:+ init_type
                           +:+ " to " +:+ var_type +:+
                           " in declaration of '" +:+ name +:+ "'")
                          line column))
            else Ok a'
        | None => Ok a
        end;
      t ←
        define (current_scope a1) name
          {| symbol_type := "variable"; data_type := var_type;
             initialized :=
               Some (match initializer with Some _ => true | None => false end);
             parameters := None |};
      Ok ("void",
          {| current_scope := t; current_function := current_function a1;
             errors := errors a1 |})
  end.

End VarDeclaration.

(** [self.error(message, node)]: the message is recorded and raised *)
Definition error {A} (message : string) (line column : nat) : outcome A :=
  Raise (SemanticError (error_message message line column)).

Definition is_numeric (type_name : string) : bool :=
  String.eqb type_name "int" || String.eqb type_name "float".

(** [s.endswith('[]')] and [s[:-2]] *)
Fixpoint is_array_type (s : string) : bool :=
  match s with
  | String a (String b EmptyString) => Ascii.eqb a "[" && Ascii.eqb b "]"
  | String _ s' => is_array_type s'
  | EmptyString => false
  end.

Definition element_type (s : string) : string :=
  Py.drop_last (Py.drop_last s).

(** [s.replace('[]', '')] *)
Fixpoint remove_brackets (s : string) : string :=
  match s with
  | String a s' =>
      match s' with
      | String b s'' =>
          if Ascii.eqb a "[" && Ascii.eqb b "]" then remove_brackets s''
          else String a (remove_brackets s')
      | EmptyString => s
      end
  | EmptyString => EmptyString
  end.

Definition is_ReturnStatement (node : ASTNode) : bool :=
  match node with ReturnStatement _ _ _ => true | _ => false end.

(** [self.current_function.return_type] *)
Definition return_type_of (node : ASTNode) : outcome string :=
  match node with
  | FunctionDef _ _ return_type _ _ _ => Ok return_type
  | _ => Raise AttributeError
  end.

Definition with_scope (a : analyzer) (t : SymbolTable) : analyzer :=
  {| current_scope := t; current_function := current_function a;
     errors := errors a |}.

Definition with_function (a : analyzer) (f : option ASTNode) : analyzer :=
  {| current_scope := current_scope a; current_function := f;
     errors := errors a |}.

Definition arithmetic_operators : list string :=
  ["+"; "-"; "*"; "/"; "%"; "**"].
Definition relational_operators : list string := ["<"; ">"; "<="; ">="].
Definition equality_operators : list string := ["=="; "!="].
Definition logical_operators : list string := ["and"; "or"].

Definition analyze_BinaryOp (line column : nat) (operator : string)
    (left_type right_type : string) : outcome string :=
  if op_in operator arithmetic_operators then
    if negb (is_numeric left_type) || negb (is_numeric right_type) then
      error ("Operator '" +:+ operator +:+ "' requires numeric operands, got "
             +:+ left_type +:+ " and " +:+ right_type) line column
    else if String.eqb left_type "float" || String.eqb right_type "float"
    then Ok "float"
    else Ok "int"
  else if op_in operator relational_operators then
    if negb (is_numeric left_type) || negb (is_numeric right_type) then
      error ("Operator '" +:+ operator +:+ "' requires numeric operands, got "
             +:+ left_type +:+ " and " +:+ right_type) line column
    else Ok "bool"
  else if op_in operator equality_operators then
    if negb (is_compatible_type left_type right_type) then
      error ("Cannot compare " +:+ left_type +:+ " with " +:+ right_type)
        line column
    else Ok "bool"
  else if op_in operator logical_operators then
    if negb (String.eqb left_type "bool") || negb (String.eqb right_type "bool")
    then
      error ("Logical operator '" +:+ operator
             +:+ "' requires boolean operands, got "
             +:+ left_type +:+ " and " +:+ right_type) line column
    else Ok "bool"
  else error ("Unknown binary operator: " +:+ operator) line column.

Definition analyze_UnaryOp (line column : nat) (operator : string)
    (operand_type : string) : outcome string :=
  if String.eqb operator "-" then
    if negb (is_numeric operand_type) then
      error ("Unary '-' requires numeric operand, got " +:+ operand_type)
        line column
    else Ok operand_type
  else if String.eqb operator "not" then
    if negb (String.eqb operand_type "bool") then
      error ("Operator 'not' requires boolean operand, got "
             +:+ operand_type) line column
    else Ok "bool"
  else error ("Unknown unary operator: " +:+ operator) line column.

Definition analyze_Identifier (a : analyzer) (line column : nat)
    (name : string) : outcome string :=
  match lookup (current_scope a) name with
  | None => error ("Undefined variable '" +:+ name +:+ "'") line column
  | Some symbol =>
      if negb (String.eqb (symbol_type symbol) "variable") then
        error ("'" +:+ name +:+ "' is not a variable") line column
      else Ok (data_type symbol)
  end.

Definition function_symbol (return_type : string)
    (params : list (string * string)) : Symbol :=
  {| symbol_type := "function"; data_type := return_type;
     initialized := None; parameters := Some params |}.

Definition parameter_symbol (param_type : string) : Symbol :=
  {| symbol_type := "variable"; data_type := param_type;
     initialized := Some true; parameters := None |}.

(** the loop that defines the parameters in the scope of the function *)
Fixpoint define_parameters (t : SymbolTable) (params : list (string * string))
  : outcome SymbolTable :=
  match params with
  | [] => Ok t
  | (param_type, param_name) :: params' =>
      t' ← define t param_name (parameter_symbol param_type);
      define_parameters t' params'
  end.

Section Loops.

(** [analyze], on which the loops of the methods call back *)
Variable analyze : analyzer → ASTNode → outcome (string * analyzer).

(** [for stmt in statements: self.analyze(stmt)] *)
Definition statements : analyzer → list ASTNode → outcome analyzer :=
  fix go a ss :=
    match ss with
    | [] => Ok a
    | s :: ss' => '(_, a') ← analyze a s; go a' ss'
    end.

(** the loop over the body of a function, which notes whether one of the
    statements is a [return] *)
Definition body_loop
  : analyzer → list ASTNode → bool → outcome (bool * analyzer) :=
  fix go a ss has_return :=
    match ss with
    | [] => Ok (has_return, a)
    | s :: ss' =>
        '(_, a') ← analyze a s;
        go a' ss' (has_return || is_ReturnStatement s)
    end.

(** the loop over the arguments of a call and the parameters of the
    function, with the index of the argument *)
Definition arguments_loop (name : string) (line column : nat)
  : analyzer → list ASTNode → list (string * string) → nat →
    outcome analyzer :=
  fix go a args params i :=
    match args, params with
    | arg :: args', (param_type, _) :: params' =>
        '(arg_type, a') ← analyze a arg;
        if negb (is_compatible_type param_type arg_type) then
          error ("Argument " +:+ pretty (S i) +:+ " of function '" +:+ name
                 +:+ "' expects " +:+ param_type +:+ ", got " +:+ arg_type)
            line column
        else go a' args' params' (S i)
    | _, _ => Ok a
    end.

(** the loop over the elements of an array literal after the first *)
Definition elements_loop (first_type : string) (line column : nat)
  : analyzer → list ASTNode → outcome analyzer :=
  fix go a es :=
    match es with
    | [] => Ok a
    | elem :: es' =>
        '(elem_type, a') ← analyze a elem;
        if negb (is_compatible_type first_type elem_type) then
          error ("Array elements must have consistent types, got "
                 +:+ first_type +:+ " and " +:+ elem_type) line column
        else go a' es'
    end.

End Loops.

(** [analyze]: the dispatch on the class of the node, with the method of
    each class in the branch of its constructor *)
Fixpoint analyze (a : analyzer) (node : ASTNode) {struct node}
  : outcome (string * analyzer) :=
  match node with
  | Program _ _ ss =>
      a' ← statements analyze a ss; Ok ("void", a')
  | VarDeclaration line column var_type name initializer =>
      analyze_VarDeclaration analyze a line column var_type name initializer
  | Assignment line column name value =>
      match lookup (current_scope a) name with
      | None => error ("Undefined variable '" +:+ name +:+ "'") line column
      | Some symbol =>
          if negb (String.eqb (symbol_type symbol) "variable") then
            error ("'" +:+ name +:+ "' is not a variable") line column
          else
            '(value_type, a') ← analyze a value;
            let var_type := data_type symbol in
            if negb (is_compatible_type var_type value_type) then
              error ("Type mismatch: cannot assign " +:+ value_type +:+ " to "
                     +:+ var_type +:+ " variable '" +:+ name +:+ "'")
                line column
            else Ok ("void", a')
      end
  | BinaryOp line column l operator r =>
      '(left_type, a1) ← analyze a l;
      '(right_type, a2) ← analyze a1 r;
      t ← analyze_BinaryOp line column operator left_type right_type;
      Ok (t, a2)
  | UnaryOp line column operator e =>
      '(operand_type, a1) ← analyze a e;
      t ← analyze_UnaryOp line column operator operand_type;
      Ok (t, a1)
  | Literal _ _ _ type => Ok (type, a)
  | Identifier line column name =>
      t ← analyze_Identifier a line column name; Ok (t, a)
  | IfStatement line column condition then_block else_block =>
      '(cond_type, a1) ← analyze a condition;
      if negb (String.eqb cond_type "bool") then
        error ("If condition must be boolean, got " +:+ cond_type) line column
      else
        a2 ← statements analyze (enter_scope a1) then_block;
        let a3 := exit_scope a2 in
        match else_block with
        | Some (s :: ss) =>
            a4 ← statements analyze (enter_scope a3) (s :: ss);
            Ok ("void", exit_scope a4)
        | _ => Ok ("void", a3)
        end
  | WhileStatement line column condition body =>
      '(cond_type, a1) ← analyze a condition;
      if negb (String.eqb cond_type "bool") then
        error ("While condition must be boolean, got " +:+ cond_type)
          line column
      else
        a2 ← statements analyze (enter_scope a1) body;
        Ok ("void", exit_scope a2)
  | ForStatement line column init condition update body =>
      '(_, a1) ← analyze (enter_scope a) init;
      '(cond_type, a2) ← analyze a1 condition;
      if negb (String.eqb cond_type "bool") then
        error ("For loop condition must be boolean, got " +:+ cond_type)
          line column
      else
        '(_, a3) ← analyze a2 update;
        a4 ← statements analyze a3 body;
        Ok ("void", exit_scope a4)
  | FunctionDef line column return_type name params body =>
      match symbols (current_scope a) !! name with
      | Some _ =>
          error ("Function '" +:+ name +:+ "' already declared") line column
      | None =>
          t ← define (current_scope a) name (function_symbol return_type params);
          let a1 := enter_scope (with_scope a t) in
          let old_function := current_function a1 in
          let a2 := with_function a1 (Some node) in
          t2 ← define_parameters (current_scope a2) params;
          '(has_return, a3) ← body_loop analyze (with_scope a2 t2) body false;
          if negb (String.eqb return_type "void") && negb has_return then
            error ("Function '" +:+ name +:+ "' must return a value of type "
                   +:+ return_type) line column
          else Ok ("void", exit_scope (with_function a3 old_function))
      end
  | FunctionCall line column name arguments =>
      match lookup (current_scope a) name with
      | None => error ("Undefined function '" +:+ name +:+ "'") line column
      | Some symbol =>
          if negb (String.eqb (symbol_type symbol) "function") then
            error ("'" +:+ name +:+ "' is not a function") line column
          else
            match parameters symbol with
            | None => Raise OutsideModel
            | Some expected_params =>
                if negb (length arguments =? length expected_params)%nat then
                  error ("Function '" +:+ name +:+ "' expects "
                         +:+ pretty (length expected_params)
                         +:+ " arguments, got " +:+ pretty (length arguments))
                    line column
                else
                  a' ←
                    arguments_loop analyze name line column a arguments
                      expected_params 0%nat;
                  Ok (data_type symbol, a')
            end
      end
  | ReturnStatement line column value =>
      match current_function a with
      | None => error "Return statement outside function" line column
      | Some f =>
          expected_type ← return_type_of f;
          match value with
          | Some e =>
              '(actual_type, a') ← analyze a e;
              if negb (is_compatible_type expected_type actual_type) then
                error ("Return type mismatch: expected " +:+ expected_type
                       +:+ ", got " +:+ actual_type) line column
              else Ok ("void", a')
          | None =>
              if negb (String.eqb expected_type "void") then
                error ("Function must return a value of type "
                       +:+ expected_type) line column
              else Ok ("void", a)
          end
      end
  | PrintStatement _ _ expressions =>
      a' ← statements analyze a expressions; Ok ("void", a')
  | Block _ _ ss =>
      a' ← statements analyze a ss; Ok ("void", a')
  | ArrayLiteral line column elements =>
      match elements with
      | [] => Ok ("int[]", a)
      | first :: rest =>
          '(first_type, a1) ← analyze a first;
          a2 ← elements_loop analyze first_type line column a1 rest;
          Ok (remove_brackets first_type +:+ "[]", a2)
      end
  | ArrayAccess line column array index =>
      '(array_type, a1) ← analyze a array;
      if negb (is_array_type array_type) then
        error ("Cannot index non-array type '" +:+ array_type +:+ "'")
          line column
      else
        '(index_type, a2) ← analyze a1 index;
        if negb (String.eqb index_type "int") then
          error ("Array index must be int, got " +:+ index_type) line column
        else Ok (element_type array_type, a2)
  | ArrayAssignment line column array index value =>
      match lookup (current_scope a) array with
      | None => error ("Undefined array '" +:+ array +:+ "'") line column
      | Some symbol =>
          let array_type := data_type symbol in
          if negb (is_array_type array_type) then
            error ("'" +:+ array +:+ "' is not an array") line column
          else
            '(index_type, a1) ← analyze a index;
            if negb (String.eqb index_type "int") then
              error ("Array index must be int, got " +:+ index_type)
                line column
            else
              '(value_type, a2) ← analyze a1 value;
              if negb (is_compatible_type (element_type array_type) value_type)
              then
                error ("Type mismatch: cannot assign " +:+ value_type
                       +:+ " to " +:+ element_type array_type
                       +:+ " array element") line column
              else Ok ("void", a2)
      end
  | BuiltInCall line column function args =>
      let func := Py.lower function in
      let count := pretty (length args) in
      if String.eqb func "len" then
        match args with
        | [arg] =>
            '(arg_type, a1) ← analyze a arg;
            if negb (is_array_type arg_type || String.eqb arg_type "string")
            then
              error ("len() requires array or string, got " +:+ arg_type)
                line column
            else Ok ("int", a1)
        | _ => error ("len() expects 1 argument, got " +:+ count) line column
        end
      else if String.eqb func "random" then
        match args with
        | [arg0; arg1] =>
            '(min_type, a1) ← analyze a arg0;
            '(max_type, a2) ← analyze a1 arg1;
            if negb (is_numeric min_type) || negb (is_numeric max_type) then
              error ("random() requires numeric arguments, got "
                     +:+ min_type +:+ " and " +:+ max_type) line column
            else Ok ("int", a2)
        | _ =>
            error ("random() expects 2 arguments, got " +:+ count) line column
        end
      else if String.eqb func "substr" then
        match args with
        | [arg0; arg1; arg2] =>
            '(str_type, a1) ← analyze a arg0;
            '(start_type, a2) ← analyze a1 arg1;
            '(end_type, a3) ← analyze a2 arg2;
            if negb (String.eqb str_type "string") then
              error ("substr() first argument must be string, got "
                     +:+ str_type) line column
            else if negb (String.eqb start_type "int")
                    || negb (String.eqb end_type "int") then
              error ("substr() indices must be int, got " +:+ start_type
                     +:+ " and " +:+ end_type) line column
            else Ok ("string", a3)
        | _ =>
            error ("substr() expects 3 arguments, got " +:+ count) line column
        end
      else if String.eqb func "concat" then
        match args with
        | [arg0; arg1] =>
            '(arg1_type, a1) ← analyze a arg0;
            '(arg2_type, a2) ← analyze a1 arg1;
            if negb (String.eqb arg1_type "string")
               || negb (String.eqb arg2_type "string") then
              error ("concat() requires string arguments, got "
                     +:+ arg1_type +:+ " and " +:+ arg2_type) line column
            else Ok ("string", a2)
        | _ =>
            error ("concat() expects 2 arguments, got " +:+ count) line column
        end
      else if String.eqb func "input" then
        match args with
        | [arg] =>
            '(prompt_type, a1) ← analyze a arg;
            if negb (String.eqb prompt_type "string") then
              error ("input() prompt must be string, got " +:+ prompt_type)
                line column
            else Ok ("string", a1)
        | _ => error ("input() expects 1 argument, got " +:+ count) line column
        end
      else error ("Unknown built-in function: " +:+ func) line column
  end.

End WithHost.
End Semantic.

(** ** The parser *)

Global Instance TokenType_eq_dec : EqDecision TokenType.
Proof. solve_decision. Defined.

Module Parser.
Section WithHost.
Context `{Host}.

(** [TokenType.name] *)
Definition name (t : TokenType) : string :=
  match t with
  | INT => "INT" | FLOAT => "FLOAT" | BOOL => "BOOL" | STRING => "STRING"
  | IF => "IF" | ELSE => "ELSE" | WHILE => "WHILE" | FOR => "FOR"
  | RETURN => "RETURN" | PRINT => "PRINT" | INPUT => "INPUT"
  | TRUE => "TRUE" | FALSE => "FALSE" | FUNCTION => "FUNCTION"
  | LEN => "LEN" | RANDOM => "RANDOM" | SUBSTR => "SUBSTR"
  | CONCAT => "CONCAT"
  | PLUS => "PLUS" | MINUS => "MINUS" | MULTIPLY => "MULTIPLY"
  | DIVIDE => "DIVIDE" | MODULO => "MODULO" | POWER => "POWER"
  | ASSIGN => "ASSIGN" | EQ => "EQ" | NE => "NE" | LT => "LT" | GT => "GT"
  | LE => "LE" | GE => "GE" | AND => "AND" | OR => "OR" | NOT => "NOT"
  | LPAREN => "LPAREN" | RPAREN => "RPAREN" | LBRACE => "LBRACE"
  | RBRACE => "RBRACE" | LBRACKET => "LBRACKET" | RBRACKET => "RBRACKET"
  | SEMICOLON => "SEMICOLON" | COMMA => "COMMA" | COLON => "COLON"
  | IDENTIFIER => "IDENTIFIER" | INT_LITERAL => "INT_LITERAL"
  | FLOAT_LITERAL => "FLOAT_LITERAL" | STRING_LITERAL => "STRING_LITERAL"
  | BOOL_LITERAL => "BOOL_LITERAL"
  | EOF => "EOF" | NEWLINE => "NEWLINE"
  end.

(** The object state.  [current_token] is [tokens[pos]] from the
    constructor on, and [None] when the list of tokens is empty. *)
Record state := {
  tokens : list Lexer.Token;
  pos : nat
}.

(** [Parser(tokens)] *)
Definition init (tokens : list Lexer.Token) : state :=
  {| tokens := tokens; pos := 0 |}.

Definition current_token (p : state) : option Lexer.Token :=
  tokens p !! pos p.

(** [error]: the message carries the position of the current token *)
Definition error {A} (p : state) (message : string) : outcome A :=
  match current_token p with
  | Some t =>
      Raise (SyntaxError
               ("Syntax error at line " +:+ pretty (Lexer.line_of t)
                +:+ ", column " +:+ pretty (Lexer.column_of t) +:+ ": "
                +:+ message))
  | None => Raise (SyntaxError ("Syntax error: " +:+ message))
  end.

(** [advance]: the position moves while [pos < len(tokens) - 1], so that
    the last token is never left *)
Definition advance (p : state) : option Lexer.Token * state :=
  (current_token p,
   if (S (pos p) <? length (tokens p))%nat
   then {| tokens := tokens p; pos := S (pos p) |}
   else p).

(** [advance] where the code goes on to read an attribute of the token *)
Definition advance_token (p : state) : outcome (Lexer.Token * state) :=
  match advance p with
  | (Some t, p') => Ok (t, p')
  | (None, _) => Raise AttributeError
  end.

(** [match]: the host raises on [None.type] *)
Definition match_ (p : state) (token_types : list TokenType) : outcome bool :=
  match current_token p with
  | Some t => Ok (bool_decide (Lexer.type t ∈ token_types))
  | None => Raise AttributeError
  end.

(** [expect] *)
Definition expect (p : state) (token_type : TokenType)
  : outcome (Lexer.Token * state) :=
  match current_token p with
  | Some t =>
      if bool_decide (Lexer.type t ≠ token_type) then
        error p ("Expected " +:+ name token_type +:+ ", got "
                 +:+ name (Lexer.type t))
      else Ok (t, snd (advance p))
  | None => Raise AttributeError
  end.

(** [token.value] where the tree takes it for a name.  The names of the
    tree are strings, as the lexer makes them; a token with another value
    in such a place is outside the model. *)
Definition text_of (t : Lexer.Token) : outcome string :=
  match Lexer.value_of t with
  | VStr s => Ok s
  | _ => Raise OutsideModel
  end.

Definition type_specifiers : list TokenType := [INT; FLOAT; BOOL; STRING].

(** *** Expressions *)

Section Expressions.

(** [parse_expression], on which [parse_primary] calls back *)
Variable parse_expression : state → outcome (ASTNode * state).

(** [while self.match(COMMA): self.advance();
     xs.append(self.parse_expression())] *)
Fixpoint more_expressions (fuel : nat) (p : state) (xs : list ASTNode)
  : outcome (list ASTNode * state) :=
  m ← match_ p [COMMA];
  if m : bool then
    match fuel with
    | O => Raise OutsideModel
    | S fuel' =>
        '(x, p') ← parse_expression (snd (advance p));
        more_expressions fuel' p' (xs ++ [x])
    end
  else Ok (xs, p).

(** the list of expressions before [closing]: empty when the current
    token is [closing], otherwise an expression and the loop *)
Definition expressions_until (closing : TokenType) (fuel : nat) (p : state)
  : outcome (list ASTNode * state) :=
  m ← match_ p [closing];
  if m : bool then Ok ([], p)
  else
    '(x, p') ← parse_expression p;
    more_expressions fuel p' [x].

Definition parse_array_literal (fuel : nat) (p : state)
  : outcome (ASTNode * state) :=
  '(bracket_token, p1) ← expect p LBRACKET;
  '(elements, p2) ← expressions_until RBRACKET fuel p1;
  '(_, p3) ← expect p2 RBRACKET;
  Ok (ArrayLiteral (Lexer.line_of bracket_token)
        (Lexer.column_of bracket_token) elements, p3).

Definition parse_primary (fuel : nat) (p : state)
  : outcome (ASTNode * state) :=
  match current_token p with
  | None => Raise AttributeError
  | Some token =>
      let line := Lexer.line_of token in
      let column := Lexer.column_of token in
      match Lexer.type token with
      | INT_LITERAL =>
          Ok (Literal line column (Lexer.value_of token) "int",
              snd (advance p))
      | FLOAT_LITERAL =>
          Ok (Literal line column (Lexer.value_of token) "float",
              snd (advance p))
      | STRING_LITERAL =>
          Ok (Literal line column (Lexer.value_of token) "string",
              snd (advance p))
      | BOOL_LITERAL =>
          Ok (Literal line column (Lexer.value_of token) "bool",
              snd (advance p))
      | LBRACKET => parse_array_literal fuel p
      | LEN | RANDOM | SUBSTR | CONCAT | INPUT =>
          func_name ← text_of token;
          '(_, p1) ← expect (snd (advance p)) LPAREN;
          '(arguments, p2) ← expressions_until RPAREN fuel p1;
          '(_, p3) ← expect p2 RPAREN;
          Ok (BuiltInCall line column func_name arguments, p3)
      | IDENTIFIER =>
          name ← text_of token;
          let p1 := snd (advance p) in
          is_access ← match_ p1 [LBRACKET];
          if is_access : bool then
            '(index, p2) ← parse_expression (snd (advance p1));
            '(_, p3) ← expect p2 RBRACKET;
            Ok (ArrayAccess line column (Identifier line column name) index,
                p3)
          else
            is_call ← match_ p1 [LPAREN];
            if is_call : bool then
              '(arguments, p2) ←
                expressions_until RPAREN fuel (snd (advance p1));
              '(_, p3) ← expect p2 RPAREN;
              Ok (FunctionCall line column name arguments, p3)
            else Ok (Identifier line column name, p1)
      | LPAREN =>
          '(expr, p1) ← parse_expression (snd (advance p));
          '(_, p2) ← expect p1 RPAREN;
          Ok (expr, p2)
      | t => error p ("Unexpected token in expression: " +:+ name t)
      end
  end.

Fixpoint parse_unary (fuel : nat) (p : state) : outcome (ASTNode * state) :=
  m ← match_ p [MINUS; NOT];
  if m : bool then
    match fuel with
    | O => Raise OutsideModel
    | S fuel' =>
        '(op_token, p1) ← advance_token p;
        let op :=
          if bool_decide (Lexer.type op_token = MINUS) then "-" else "not" in
        '(operand, p2) ← parse_unary fuel' p1;
        Ok (UnaryOp (Lexer.line_of op_token) (Lexer.column_of op_token)
              op operand, p2)
    end
  else parse_primary fuel p.

Fixpoint parse_power (fuel : nat) (p : state) : outcome (ASTNode * state) :=
  '(lhs, p1) ← parse_unary fuel p;
  m ← match_ p1 [POWER];
  if m : bool then
    match fuel with
    | O => Raise OutsideModel
    | S fuel' =>
        '(op_token, p2) ← advance_token p1;
        '(rhs, p3) ← parse_power fuel' p2;
        Ok (BinaryOp (Lexer.line_of op_token) (Lexer.column_of op_token)
              lhs "**" rhs, p3)
    end
  else Ok (lhs, p1).

(** The levels of the left-associative operators have one shape: an
    operand of the next level, then
    [while self.match(...): op_token = self.advance(); right = next();
     left = BinaryOp(op_token.line, op_token.column, left, op, right)]
    (the operands are [lhs] and [rhs] here),
    where [op] is the text that the method gives for the type of
    [op_token]. *)
Section Level.

Variable next : state → outcome (ASTNode * state).
Variable operators : list (TokenType * string).

Definition operator_of (t : TokenType) : string :=
  match List.find (λ o, bool_decide (fst o = t)) operators with
  | Some o => snd o
  | None => ""
  end.

Fixpoint level_loop (fuel : nat) (lhs : ASTNode) (p : state)
  : outcome (ASTNode * state) :=
  m ← match_ p (fst <$> operators);
  if m : bool then
    match fuel with
    | O => Raise OutsideModel
    | S fuel' =>
        '(op_token, p1) ← advance_token p;
        '(rhs, p2) ← next p1;
        level_loop fuel'
          (BinaryOp (Lexer.line_of op_token) (Lexer.column_of op_token)
             lhs (operator_of (Lexer.type op_token)) rhs) p2
    end
  else Ok (lhs, p).

Definition level (fuel : nat) (p : state) : outcome (ASTNode * state) :=
  '(lhs, p1) ← next p;
  level_loop fuel lhs p1.

End Level.

Definition parse_multiplicative (fuel : nat) : state → outcome (ASTNode * state) :=
  level (parse_power fuel)
    [(MULTIPLY, "*"); (DIVIDE, "/"); (MODULO, "%")] fuel.

Definition parse_additive (fuel : nat) : state → outcome (ASTNode * state) :=
  level (parse_multiplicative fuel) [(PLUS, "+"); (MINUS, "-")] fuel.

Definition parse_relational (fuel : nat) : state → outcome (ASTNode * state) :=
  level (parse_additive fuel)
    [(LT, "<"); (GT, ">"); (LE, "<="); (GE, ">=")] fuel.

Definition parse_equality (fuel : nat) : state → outcome (ASTNode * state) :=
  level (parse_relational fuel) [(EQ, "=="); (NE, "!=")] fuel.

Definition parse_logical_and (fuel : nat) : state → outcome (ASTNode * state) :=
  level (parse_equality fuel) [(AND, "and")] fuel.

Definition parse_logical_or (fuel : nat) : state → outcome (ASTNode * state) :=
  level (parse_logical_and fuel) [(OR, "or")] fuel.

End Expressions.

(** [parse_expression]: [fuel] bounds the nesting of expressions in
    brackets, parentheses and argument lists, and the rounds of each
    loop *)
Fixpoint parse_expression (fuel : nat) (p : state)
  : outcome (ASTNode * state) :=
  match fuel with
  | O => Raise OutsideModel
  | S fuel' => parse_logical_or (parse_expression fuel') fuel' p
  end.

(** *** Statements *)

(** [token.type.name.lower()] for a type specifier *)
Definition type_name (t : Lexer.Token) : string :=
  Py.lower (name (Lexer.type t)).

(** the optional [[]] after a type specifier *)
Definition array_suffix (p : state) (var_type : string)
  : outcome (string * state) :=
  m ← match_ p [LBRACKET];
  if m : bool then
    '(_, p1) ← expect (snd (advance p)) RBRACKET;
    Ok (var_type +:+ "[]", p1)
  else Ok (var_type, p).

Section Statements.

(** [parse_statement], on which [parse_block] calls back *)
Variable parse_statement : state → outcome (ASTNode * state).

(** the rounds of the loops, and the fuel of the expressions *)
Variable fuel : nat.

Definition parse_declaration (p : state) : outcome (ASTNode * state) :=
  '(var_type_token, p1) ← advance_token p;
  var_type ←
    (if bool_decide (Lexer.type var_type_token = IDENTIFIER)
     then text_of var_type_token
     else Ok (type_name var_type_token));
  '(var_type, p2) ← array_suffix p1 var_type;
  '(name_token, p3) ← expect p2 IDENTIFIER;
  name ← text_of name_token;
  has_initializer ← match_ p3 [ASSIGN];
  '(initializer, p4) ←
    (if has_initializer : bool then
       '(e, p') ← parse_expression fuel (snd (advance p3));
       Ok (Some e, p')
     else Ok (None, p3));
  '(_, p5) ← expect p4 SEMICOLON;
  Ok (VarDeclaration (Lexer.line_of name_token) (Lexer.column_of name_token)
        var_type name initializer, p5).

Definition parse_assignment (p : state) : outcome (ASTNode * state) :=
  '(name_token, p1) ← expect p IDENTIFIER;
  name ← text_of name_token;
  let line := Lexer.line_of name_token in
  let column := Lexer.column_of name_token in
  is_element ← match_ p1 [LBRACKET];
  if is_element : bool then
    '(index, p2) ← parse_expression fuel (snd (advance p1));
    '(_, p3) ← expect p2 RBRACKET;
    '(_, p4) ← expect p3 ASSIGN;
    '(value, p5) ← parse_expression fuel p4;
    '(_, p6) ← expect p5 SEMICOLON;
    Ok (ArrayAssignment line column name index value, p6)
  else
    '(_, p2) ← expect p1 ASSIGN;
    '(value, p3) ← parse_expression fuel p2;
    '(_, p4) ← expect p3 SEMICOLON;
    Ok (Assignment line column name value, p4).

(** [while not self.match(RBRACE):
     statements.append(self.parse_statement())] *)
Fixpoint block_loop (rounds : nat) (p : state) (statements : list ASTNode)
  : outcome (list ASTNode * state) :=
  m ← match_ p [RBRACE];
  if m : bool then Ok (statements, p)
  else
    match rounds with
    | O => Raise OutsideModel
    | S rounds' =>
        '(s, p') ← parse_statement p;
        block_loop rounds' p' (statements ++ [s])
    end.

Definition parse_block (p : state) : outcome (list ASTNode * state) :=
  '(_, p1) ← expect p LBRACE;
  '(statements, p2) ← block_loop fuel p1 [];
  '(_, p3) ← expect p2 RBRACE;
  Ok (statements, p3).

Definition parse_if_statement (p : state) : outcome (ASTNode * state) :=
  '(if_token, p1) ← advance_token p;
  '(_, p2) ← expect p1 LPAREN;
  '(condition, p3) ← parse_expression fuel p2;
  '(_, p4) ← expect p3 RPAREN;
  '(then_block, p5) ← parse_block p4;
  has_else ← match_ p5 [ELSE];
  '(else_block, p6) ←
    (if has_else : bool then
       '(b, p') ← parse_block (snd (advance p5));
       Ok (Some b, p')
     else Ok (None, p5));
  Ok (IfStatement (Lexer.line_of if_token) (Lexer.column_of if_token)
        condition then_block else_block, p6).

Definition parse_while_statement (p : state) : outcome (ASTNode * state) :=
  '(while_token, p1) ← advance_token p;
  '(_, p2) ← expect p1 LPAREN;
  '(condition, p3) ← parse_expression fuel p2;
  '(_, p4) ← expect p3 RPAREN;
  '(body, p5) ← parse_block p4;
  Ok (WhileStatement (Lexer.line_of while_token)
        (Lexer.column_of while_token) condition body, p5).

Definition parse_for_statement (p : state) : outcome (ASTNode * state) :=
  '(for_token, p1) ← advance_token p;
  let line := Lexer.line_of for_token in
  let column := Lexer.column_of for_token in
  '(_, p2) ← expect p1 LPAREN;
  is_declaration ← match_ p2 type_specifiers;
  '(init, p3) ←
    (if is_declaration : bool then
       '(var_type_token, q1) ← advance_token p2;
       '(var_type, q2) ← array_suffix q1 (type_name var_type_token);
       '(name_token, q3) ← expect q2 IDENTIFIER;
       init_name ← text_of name_token;
       '(_, q4) ← expect q3 ASSIGN;
       '(init_value, q5) ← parse_expression fuel q4;
       '(_, q6) ← expect q5 SEMICOLON;
       Ok (VarDeclaration line column var_type init_name (Some init_value),
           q6)
     else
       '(name_token, q1) ← expect p2 IDENTIFIER;
       init_name ← text_of name_token;
       '(_, q2) ← expect q1 ASSIGN;
       '(init_value, q3) ← parse_expression fuel q2;
       '(_, q4) ← expect q3 SEMICOLON;
       Ok (Assignment line column init_name init_value, q4));
  '(condition, p4) ← parse_expression fuel p3;
  '(_, p5) ← expect p4 SEMICOLON;
  '(name_token, p6) ← expect p5 IDENTIFIER;
  update_name ← text_of name_token;
  '(_, p7) ← expect p6 ASSIGN;
  '(update_value, p8) ← parse_expression fuel p7;
  '(_, p9) ← expect p8 RPAREN;
  '(body, p10) ← parse_block p9;
  Ok (ForStatement line column init condition
        (Assignment line column update_name update_value) body, p10).

(** a type specifier and a name: one parameter *)
Definition parse_parameter (p : state)
  : outcome ((string * string) * state) :=
  '(param_type_token, p1) ← advance_token p;
  if bool_decide (Lexer.type param_type_token ∈ type_specifiers) then
    '(name_token, p2) ← expect p1 IDENTIFIER;
    param_name ← text_of name_token;
    Ok ((type_name param_type_token, param_name), p2)
  else
    error p1 ("Expected type specifier, got "
              +:+ name (Lexer.type param_type_token)).

Fixpoint more_parameters (rounds : nat) (p : state)
    (parameters : list (string * string))
  : outcome (list (string * string) * state) :=
  m ← match_ p [COMMA];
  if m : bool then
    match rounds with
    | O => Raise OutsideModel
    | S rounds' =>
        '(parameter, p') ← parse_parameter (snd (advance p));
        more_parameters rounds' p' (parameters ++ [parameter])
    end
  else Ok (parameters, p).

Definition parse_parameter_list (p : state)
  : outcome (list (string * string) * state) :=
  '(parameter, p1) ← parse_parameter p;
  more_parameters fuel p1 [parameter].

Definition parse_function_def (p : state) : outcome (ASTNode * state) :=
  '(func_token, p1) ← advance_token p;
  '(return_type_token, p2) ← advance_token p1;
  if bool_decide (Lexer.type return_type_token ∈ type_specifiers) then
    '(name_token, p3) ← expect p2 IDENTIFIER;
    name ← text_of name_token;
    '(_, p4) ← expect p3 LPAREN;
    no_parameters ← match_ p4 [RPAREN];
    '(parameters, p5) ←
      (if no_parameters : bool then Ok ([], p4)
       else parse_parameter_list p4);
    '(_, p6) ← expect p5 RPAREN;
    '(body, p7) ← parse_block p6;
    Ok (FunctionDef (Lexer.line_of func_token) (Lexer.column_of func_token)
          (type_name return_type_token) name parameters body, p7)
  else
    error p2 ("Expected type specifier, got "
              +:+ name (Lexer.type return_type_token)).

Definition parse_return_statement (p : state) : outcome (ASTNode * state) :=
  '(return_token, p1) ← advance_token p;
  no_value ← match_ p1 [SEMICOLON];
  '(value, p2) ←
    (if no_value : bool then Ok (None, p1)
     else '(e, p') ← parse_expression fuel p1; Ok (Some e, p'));
  '(_, p3) ← expect p2 SEMICOLON;
  Ok (ReturnStatement (Lexer.line_of return_token)
        (Lexer.column_of return_token) value, p3).

Definition parse_print_statement (p : state) : outcome (ASTNode * state) :=
  '(print_token, p1) ← advance_token p;
  '(_, p2) ← expect p1 LPAREN;
  '(expressions, p3) ←
    expressions_until (parse_expression fuel) RPAREN fuel p2;
  '(_, p4) ← expect p3 RPAREN;
  '(_, p5) ← expect p4 SEMICOLON;
  Ok (PrintStatement (Lexer.line_of print_token)
        (Lexer.column_of print_token) expressions, p5).

(** [self.tokens[self.pos + 1].type if self.pos + 1 < len(self.tokens)
     else None] *)
Definition next_token_type (p : state) : option TokenType :=
  Lexer.type <$> tokens p !! S (pos p).

(** the body of [parse_statement] *)
Definition statement (p : state) : outcome (ASTNode * state) :=
  match current_token p with
  | None => Raise AttributeError
  | Some token =>
      match Lexer.type token with
      | INT | FLOAT | BOOL | STRING => parse_declaration p
      | FUNCTION => parse_function_def p
      | IF => parse_if_statement p
      | WHILE => parse_while_statement p
      | FOR => parse_for_statement p
      | RETURN => parse_return_statement p
      | PRINT => parse_print_statement p
      | IDENTIFIER =>
          match next_token_type p with
          | Some ASSIGN | Some LBRACKET => parse_assignment p
          | _ =>
              '(expr, p1) ← parse_expression fuel p;
              '(_, p2) ← expect p1 SEMICOLON;
              Ok (expr, p2)
          end
      | t => error p ("Unexpected token: " +:+ name t)
      end
  end.

End Statements.

(** [parse_statement]: [fuel] bounds the nesting of blocks, the rounds of
    each loop and the nesting of expressions *)
Fixpoint parse_statement (fuel : nat) (p : state)
  : outcome (ASTNode * state) :=
  match fuel with
  | O => Raise OutsideModel
  | S fuel' => statement (parse_statement fuel') fuel' p
  end.

(** the loop of [parse] *)
Fixpoint parse_loop (fuel rounds : nat) (p : state) (statements : list ASTNode)
  : outcome (list ASTNode * state) :=
  m ← match_ p [EOF];
  if m : bool then Ok (statements, p)
  else
    match rounds with
    | O => Raise OutsideModel
    | S rounds' =>
        '(s, p') ← parse_statement fuel p;
        parse_loop fuel rounds' p' (statements ++ [s])
    end.

(** [Parser(tokens).parse()].  A round of a loop, and a call of
    [parse_statement] or [parse_expression] from within itself, comes after
    a token has been consumed, so that fuel above the number of tokens is
    never used up on a list of tokens that ends with [EOF], as the lists
    of the lexer do. *)
Definition parse (tokens : list Lexer.Token) : outcome ASTNode :=
  let fuel := S (length tokens) in
  '(statements, _) ← parse_loop fuel fuel (init tokens) [];
  Ok (Program 1 1 statements).

End WithHost.
End Parser.

(** ** A host for integer programs *)

(** The closed examples below run programs that never touch a float; they
    are run on a host whose float operations are not modelled. *)
Definition int_host : Host := {|
  F := unit;
  float_of_string := λ _, tt;
  float_of_int := λ _, Raise OutsideModel;
  float_is_zero := λ _, false;
  float_str := λ _, "";
  float_neg := λ f, f;
  int_of_float := λ _, Raise OutsideModel;
  float_binop := λ _ _ _, Raise OutsideModel;
  float_rel := λ _ _ _, Raise OutsideModel;
  container_binop := λ _ _ _ _, Raise OutsideModel;
  container_str := λ _ _, "";
  str_format := λ _ _, Raise OutsideModel;
  container_int := λ _ _, Raise OutsideModel;
  randint := λ _ _ _, Raise OutsideModel
|}.

(** * The vocabulary of the properties *)

Section Vocabulary.
Context `{Host}.

(** [int x = 2 + 3 * 4; print(x);] as the parser builds it *)
Definition folding_program : ASTNode :=
  Program 1 1
    [ VarDeclaration 1 5 "int" "x"
        (Some (BinaryOp 1 11 (Literal 1 9 (VInt 2) "int") "+"
                 (BinaryOp 1 15 (Literal 1 13 (VInt 3) "int") "*"
                    (Literal 1 17 (VInt 4) "int"))));
      PrintStatement 1 20 [Identifier 1 26 "x"] ].

Definition folding_ir : list instr :=
  [ TAC _ "*" (VStr "3") (VStr "4") (Some "t0");
    TAC _ "+" (VStr "2") (VStr "t0") (Some "t1");
    TAC _ "assign" (VStr "t1") VNone (Some "x");
    TAC _ "print" (VStr "x") VNone None ].

Definition folding_optimized : list instr :=
  [ TAC _ "assign" (VInt 14) VNone (Some "x");
    TAC _ "print" (VStr "x") VNone None ].

(** the instructions of [code] that write the name [x] *)
Definition definitions_of (x : string) (code : list instr) : list instr :=
  filter (λ i, result i = Some x) code.

(** [function int add(int a, int b) { return a + b; }
     print(add(1, 2 + 3));] *)
Definition call_program : ASTNode :=
  Program 1 1
    [ FunctionDef 1 1 "int" "add" [("int", "a"); ("int", "b")]
        [ ReturnStatement 1 36
            (Some (BinaryOp 1 45 (Identifier 1 43 "a") "+"
                     (Identifier 1 47 "b"))) ];
      PrintStatement 2 1
        [ FunctionCall 2 7 "add"
            [ Literal 2 11 (VInt 1) "int";
              BinaryOp 2 16 (Literal 2 14 (VInt 2) "int") "+"
                (Literal 2 18 (VInt 3) "int") ] ] ].

Definition call_ir : list instr :=
  [ TAC _ "begin_func" (VStr "add") VNone None;
    TAC _ "param_decl" (VStr "a") VNone None;
    TAC _ "param_decl" (VStr "b") VNone None;
    TAC _ "+" (VStr "a") (VStr "b") (Some "t0");
    TAC _ "return" (VStr "t0") VNone None;
    TAC _ "end_func" (VStr "add") VNone None;
    TAC _ "param" (VStr "1") VNone None;
    TAC _ "+" (VStr "2") (VStr "3") (Some "t1");
    TAC _ "param" (VStr "t1") VNone None;
    TAC _ "call" (VStr "add") (VInt 2) (Some "t2");
    TAC _ "print" (VStr "t2") VNone None ].

(** [int x = -5; print(x);] as the generator lowers it *)
Definition negation_ir : list instr :=
  [ TAC _ "-" (VStr "5") VNone (Some "t0");
    TAC _ "assign" (VStr "t0") VNone (Some "x");
    TAC _ "print" (VStr "x") VNone None ].

(** the two characters [quote backslash] *)
Definition open_escape : string :=
  String Py.quote (String Lexer.backslash "").

(** The selection as the specification words it: the listed instructions
    are kept, an instruction with a result is kept when the result is used
    or is not a temporary, and everything else is dropped. *)
Definition claimed_keeps (used_vars : gset string) (i : instr) : bool :=
  op_in (op i) Optimizer.kept_ops
  || match result_name i with
     | Some r => bool_decide (r ∈ used_vars) || negb (Py.startswith "t" r)
     | None => false
     end.

Definition dce_as_claimed (code : list instr) : list instr :=
  List.filter (claimed_keeps (Optimizer.used_variables code)) code.

(** what an instruction contributes to the set of used names *)
Definition uses (i : instr) (x : string) : Prop :=
  Optimizer.operand_name (arg1 i) = Some x
  ∨ Optimizer.operand_name (arg2 i) = Some x
  ∨ (op_in (op i) Optimizer.live_ops = true
     ∧ (nonempty_str (arg1 i) = Some x ∨ result_name i = Some x)).

(** the return value is written when it is not [None] and the call
    instruction has a result name *)
Definition writes_result (rv : value F) (call_instr : instr) : bool :=
  negb (Py.is_None rv) && bool_decide (is_Some (result_name call_instr)).

Definition redeclaration (name : string) : exn :=
  SemanticError ("Redeclaration of '" +:+ name +:+ "' in the same scope").

Definition already_declared (name : string) (line column : nat) : exn :=
  SemanticError
    (Semantic.error_message
       ("Variable '" +:+ name +:+ "' already declared in this scope")
       line column).

Definition variable_symbol (var_type : string) (init : bool)
  : Semantic.Symbol :=
  {| Semantic.symbol_type := "variable"; Semantic.data_type := var_type;
     Semantic.initialized := Some init; Semantic.parameters := None |}.

(** a jump: its [result] is the label it goes to *)
Definition is_jump (i : instr) : Prop :=
  op i = "goto" ∨ op i = "if_false" ∨ op i = "if_true".

Definition is_label (i : instr) : Prop := op i = "label".

(** the number of [label] instructions of [code] that define [L] *)
Definition definitions_count (L : option string) (code : list instr) : nat :=
  length (filter (λ i, is_label i ∧ result i = L) code).

(** an operator of the tree that is the op of a jump; the parser builds
    no such node *)
Definition jump_operator (o : string) : bool :=
  op_in o ["goto"; "if_false"; "if_true"].

(** no operator of a [BinaryOp] or [UnaryOp] of the tree is the op of a
    jump *)
Fixpoint operators_ok (node : ASTNode) : bool :=
  match node with
  | Program _ _ ss | Block _ _ ss | PrintStatement _ _ ss
  | ArrayLiteral _ _ ss | FunctionCall _ _ _ ss | BuiltInCall _ _ _ ss
  | FunctionDef _ _ _ _ _ ss => forallb operators_ok ss
  | BinaryOp _ _ l o r =>
      negb (jump_operator o) && operators_ok l && operators_ok r
  | UnaryOp _ _ o e => negb (jump_operator o) && operators_ok e
  | Literal _ _ _ _ | Identifier _ _ _ => true
  | VarDeclaration _ _ _ _ e | ReturnStatement _ _ e =>
      match e with Some e' => operators_ok e' | None => true end
  | Assignment _ _ _ e => operators_ok e
  | IfStatement _ _ c t e =>
      operators_ok c && forallb operators_ok t
      && match e with Some ss => forallb operators_ok ss | None => true end
  | WhileStatement _ _ c b => operators_ok c && forallb operators_ok b
  | ForStatement _ _ i c u b =>
      operators_ok i && operators_ok c && operators_ok u
      && forallb operators_ok b
  | ArrayAccess _ _ a i => operators_ok a && operators_ok i
  | ArrayAssignment _ _ _ i v => operators_ok i && operators_ok v
  end.

Definition label_of (k : nat) : option string :=
  Some (IRGenerator.label_name k).

Definition temp_of (k : nat) : option string :=
  Some (IRGenerator.temp_name k).

(** the number of definitions of the label numbered [k] *)
Definition count (k : nat) (seg : list instr) : nat :=
  definitions_count (label_of k) seg.

(** a stretch of code whose labels are numbered from [lo] up to [hi],
    each defined at most once, and whose jumps go to labels it defines *)
Definition closed (lo hi : nat) (seg : list instr) : Prop :=
  (∀ k, (count k seg ≤ 1)%nat)
  ∧ (∀ k, count k seg ≠ 0%nat → (lo ≤ k < hi)%nat)
  ∧ (∀ i, i ∈ seg → is_jump i →
          ∃ k, result i = label_of k ∧ count k seg = 1%nat).

Definition jump (o : string) (c : value F) (k : nat) : instr :=
  TAC _ o c VNone (label_of k).

Definition label (k : nat) : instr :=
  TAC _ "label" VNone VNone (label_of k).

Section ASTNode_induction.
Variable P : ASTNode → Prop.

Definition on_option (o : option ASTNode) : Prop :=
  match o with Some e => P e | None => True end.

Definition on_block (o : option (list ASTNode)) : Prop :=
  match o with Some ss => Forall P ss | None => True end.

Hypothesis HProgram : ∀ l c ss, Forall P ss → P (Program l c ss).
Hypothesis HBinaryOp : ∀ l c a o b, P a → P b → P (BinaryOp l c a o b).
Hypothesis HUnaryOp : ∀ l c o e, P e → P (UnaryOp l c o e).
Hypothesis HLiteral : ∀ l c v t, P (Literal l c v t).
Hypothesis HIdentifier : ∀ l c n, P (Identifier l c n).
Hypothesis HVarDeclaration :
  ∀ l c t n e, on_option e → P (VarDeclaration l c t n e).
Hypothesis HAssignment : ∀ l c n e, P e → P (Assignment l c n e).
Hypothesis HIfStatement :
  ∀ l c e t f, P e → Forall P t → on_block f → P (IfStatement l c e t f).
Hypothesis HWhileStatement :
  ∀ l c e b, P e → Forall P b → P (WhileStatement l c e b).
Hypothesis HForStatement :
  ∀ l c i e u b, P i → P e → P u → Forall P b → P (ForStatement l c i e u b).
Hypothesis HFunctionDef :
  ∀ l c t n ps b, Forall P b → P (FunctionDef l c t n ps b).
Hypothesis HFunctionCall :
  ∀ l c n args, Forall P args → P (FunctionCall l c n args).
Hypothesis HReturnStatement :
  ∀ l c e, on_option e → P (ReturnStatement l c e).
Hypothesis HPrintStatement :
  ∀ l c es, Forall P es → P (PrintStatement l c es).
Hypothesis HBlock : ∀ l c ss, Forall P ss → P (Block l c ss).
Hypothesis HArrayLiteral : ∀ l c es, Forall P es → P (ArrayLiteral l c es).
Hypothesis HArrayAccess : ∀ l c a i, P a → P i → P (ArrayAccess l c a i).
Hypothesis HArrayAssignment :
  ∀ l c n i v, P i → P v → P (ArrayAssignment l c n i v).
Hypothesis HBuiltInCall :
  ∀ l c f args, Forall P args → P (BuiltInCall l c f args).

Fixpoint ASTNode_nested_ind (node : ASTNode) : P node :=
  let all :=
    fix all (ss : list ASTNode) : Forall P ss :=
      match ss with
      | [] => @Corelib.Lists.ListDef.Forall_nil _ P
      | s :: ss' =>
          @Corelib.Lists.ListDef.Forall_cons _ P s ss'
            (ASTNode_nested_ind s) (all ss')
      end in
  match node with
  | Program l c ss => HProgram l c ss (all ss)
  | BinaryOp l c a o b =>
      HBinaryOp l c a o b (ASTNode_nested_ind a) (ASTNode_nested_ind b)
  | UnaryOp l c o e => HUnaryOp l c o e (ASTNode_nested_ind e)
  | Literal l c v t => HLiteral l c v t
  | Identifier l c n => HIdentifier l c n
  | VarDeclaration l c t n e =>
      HVarDeclaration l c t n e
        (match e return on_option e with
         | Some e' => ASTNode_nested_ind e'
         | None => I
         end)
  | Assignment l c n e => HAssignment l c n e (ASTNode_nested_ind e)
  | IfStatement l c e t f =>
      HIfStatement l c e t f (ASTNode_nested_ind e) (all t)
        (match f return on_block f with
         | Some ss => all ss
         | None => I
         end)
  | WhileStatement l c e b =>
      HWhileStatement l c e b (ASTNode_nested_ind e) (all b)
  | ForStatement l c i e u b =>
      HForStatement l c i e u b (ASTNode_nested_ind i)
        (ASTNode_nested_ind e) (ASTNode_nested_ind u) (all b)
  | FunctionDef l c t n ps b => HFunctionDef l c t n ps b (all b)
  | FunctionCall l c n args => HFunctionCall l c n args (all args)
  | ReturnStatement l c e =>
      HReturnStatement l c e
        (match e return on_option e with
         | Some e' => ASTNode_nested_ind e'
         | None => I
         end)
  | PrintStatement l c es => HPrintStatement l c es (all es)
  | Block l c ss => HBlock l c ss (all ss)
  | ArrayLiteral l c es => HArrayLiteral l c es (all es)
  | ArrayAccess l c a i =>
      HArrayAccess l c a i (ASTNode_nested_ind a) (ASTNode_nested_ind i)
  | ArrayAssignment l c n i v =>
      HArrayAssignment l c n i v (ASTNode_nested_ind i)
        (ASTNode_nested_ind v)
  | BuiltInCall l c f args => HBuiltInCall l c f args (all args)
  end.

End ASTNode_induction.

(** [g'] is [g] with a closed stretch of code appended, its labels
    numbered from the label counter of [g] up to that of [g'] *)
Definition extends (g g' : IRGenerator.state) : Prop :=
  ∃ seg,
    IRGenerator.code g' = IRGenerator.code g ++ seg
    ∧ (IRGenerator.label_count g ≤ IRGenerator.label_count g')%nat
    ∧ closed (IRGenerator.label_count g) (IRGenerator.label_count g') seg.

(** the statement proved by induction on the tree *)
Definition appends_closed_code (node : ASTNode) : Prop :=
  operators_ok node = true →
  ∀ g v g', IRGenerator.generate node g = Ok (v, g') → extends g g'.

(** [while (i <= 3) { print(i); }] and its code *)
Definition while_program : ASTNode :=
  Program 1 1
    [ WhileStatement 1 1
        (BinaryOp 1 10 (Identifier 1 8 "i") "<=" (Literal 1 13 (VInt 3) "int"))
        [ PrintStatement 1 18 [Identifier 1 24 "i"] ] ].

Definition while_ir : list instr :=
  [ label 0;
    TAC _ "<=" (VStr "i") (VStr "3") (Some "t0");
    jump "if_false" (VStr "t0") 1;
    TAC _ "print" (VStr "i") VNone None;
    jump "goto" VNone 0;
    label 1 ].

(** [string s = "hello"; int i = 1; print(substr(s, i + 1, 4));], the
    tree of the parser, the code of the generator, and the code after
    dead-code elimination *)
Definition substr_source : string :=
  "string s = " +:+ Py.quoted "hello"
  +:+ "; int i = 1; print(substr(s, i + 1, 4));".

Definition substr_program : ASTNode :=
  Program 1 1
    [ VarDeclaration 1 8 "string" "s"
        (Some (Literal 1 12 (VStr "hello") "string"));
      VarDeclaration 1 25 "int" "i" (Some (Literal 1 29 (VInt 1) "int"));
      PrintStatement 1 32
        [ BuiltInCall 1 38 "substr"
            [ Identifier 1 45 "s";
              BinaryOp 1 50 (Identifier 1 48 "i") "+"
                (Literal 1 52 (VInt 1) "int");
              Literal 1 55 (VInt 4) "int" ] ] ].

Definition substr_ir : list instr :=
  [ TAC _ "assign" (VStr (Py.quoted "hello")) VNone (Some "s");
    TAC _ "assign" (VStr "1") VNone (Some "i");
    TAC _ "+" (VStr "i") (VStr "1") (Some "t1");
    TAC _ "builtin_substr" (VStr "s") (VPair (VStr "t1") (VStr "4"))
      (Some "t0");
    TAC _ "print" (VStr "t0") VNone None ].

Definition substr_swept : list instr :=
  [ TAC _ "assign" (VStr (Py.quoted "hello")) VNone (Some "s");
    TAC _ "assign" (VStr "1") VNone (Some "i");
    TAC _ "builtin_substr" (VStr "s") (VPair (VStr "t1") (VStr "4"))
      (Some "t0");
    TAC _ "print" (VStr "t0") VNone None ].



(** [array_append 7 -> a] *)
Definition append_to_a : instr :=
  TAC _ "array_append" (VStr "7") VNone (Some "a").

(** [param_decl n] *)
Definition param_decl_n : instr :=
  TAC _ "param_decl" (VStr "n") VNone None.




(** two scopes: the outer one binds [x], the inner one is empty *)
Definition outer_scope : Semantic.SymbolTable :=
  Semantic.Scope {[ "x" := variable_symbol "int" true ]} None 0.

Definition inner_scope : Semantic.SymbolTable :=
  Semantic.new_table (Some outer_scope).

(** ** Literals as operands *)

(** the text of an operand that the interpreter reads as a literal, not as
    the name of a variable *)
Definition is_literal_text (s : string) : bool :=
  Py.is_quoted s
  || (if Py.contains "." s then Py.float_ok s
      else bool_decide (is_Some (Py.py_int s)))
  || String.eqb s "true" || String.eqb s "false".

(** The host converts between an integer and its decimal text as long as
    the text has at most 4300 digits, the default of the limit that recent
    versions of the host have: beyond it [int()] raises, as [py_int] does,
    and so does [str()].  The integers of the model are not limited, and
    [Py.str] prints them all: the statements about the text of an integer
    are made within the limit. *)
Definition convertible (z : Z) : Prop := Z.abs z < 10 ^ 4300.

(** the literals of the language other than the floats *)
Definition is_plain_literal (v : value F) : Prop :=
  match v with
  | VInt z => convertible z
  | VBool _ | VStr _ => True
  | _ => False
  end.

Definition undefined_variable (s : string) : exn :=
  RuntimeError ("Undefined variable: " +:+ s).

(** what constant folding may put in the place of [i]: [i] itself, or an
    assignment to the result of [i] when [i] is an assignment, a binary
    operation or a [not] *)
Definition folded_from (i o : instr) : Prop :=
  o = i
  ∨ ∃ v, o = Optimizer.assign v (result i)
         ∧ (op i = "assign" ∨ op_in (op i) Optimizer.folded_ops = true
            ∨ op i = "not").

(** what copy propagation may put in the place of [i]: an instruction
    with the op and the result of [i], and [i] itself for a label or a
    jump *)
Definition copied_from (i o : instr) : Prop :=
  op o = op i ∧ result o = result i
  ∧ (op_in (op i) Optimizer.control_ops = true → o = i).

(** the instructions that dead-code elimination always keeps *)
Definition always_kept (i : instr) : bool :=
  op_in (op i) Optimizer.kept_ops.

(** the op and the result of an instruction *)
Definition signature (i : instr) : string * option string :=
  (op i, result i).

Definition digits_value (acc : Z) (ds : list ascii) : Z :=
  foldl (λ a c, 10 * a + Py.digit_val c) acc ds.


Definition label_not_found (l : option string) : exn :=
  RuntimeError ("Label not found: " +:+ Interpreter.show_name l).

(** a [begin_func] instruction for the function [f] *)
Definition begins (f : string) (i : instr) : Prop :=
  op i = "begin_func" ∧ arg1 i = VStr f.

(** the nesting depth after [seg], starting from [d]: a [begin_func] opens
    a definition and an [end_func] closes one *)
Definition depth_step (d : Z) (i : instr) : Z :=
  if String.eqb (op i) "begin_func" then d + 1
  else if String.eqb (op i) "end_func" then d - 1
  else d.

Definition depth (seg : list instr) : Z := foldl depth_step 0 seg.

(** the instruction at index [k] of [seg] is an [end_func] that brings
    the depth back to zero *)
Definition closes (seg : list instr) (k : nat) : Prop :=
  ∃ e, seg !! k = Some e ∧ op e = "end_func" ∧ depth (take (S k) seg) = 0.

(** the code from the program counter on *)
Definition rest_of_code (vm : Interpreter.VM) : list instr :=
  drop (Z.to_nat (Interpreter.pc vm)) (Interpreter.code vm).

(** the values of a list of operands, read from left to right *)
Fixpoint values_of (vm : Interpreter.VM) (xs : list (value F))
  : outcome (list (value F)) :=
  match xs with
  | [] => Ok []
  | x :: xs' =>
      v ← Interpreter.get_value vm x;
      vs ← values_of vm xs';
      Ok (v :: vs)
  end.

(** the [n] instructions before the program counter *)
Definition window (vm : Interpreter.VM) (n : Z) : list instr :=
  take (Z.to_nat n)
    (drop (Z.to_nat (Interpreter.pc vm - n)) (Interpreter.code vm)).

Definition is_param (i : instr) : bool := String.eqb (op i) "param".

(** the frame that [call] pushes *)
Definition new_frame (vm : Interpreter.VM) (vs : list (value F))
  : Interpreter.Frame :=
  {| Interpreter.return_address := Interpreter.pc vm + 1;
     Interpreter.saved_vars := Interpreter.variables vm;
     Interpreter.params := vs;
     Interpreter.return_value := VNone;
     Interpreter.param_index := None |}.

(** [param_decl x] *)
Definition param_decl (x : string) : instr :=
  TAC _ "param_decl" (VStr x) VNone None.

(** [frame['param_index'] = k] *)
Definition with_index (frame : Interpreter.Frame) (k : option nat)
  : Interpreter.Frame :=
  {| Interpreter.return_address := Interpreter.return_address frame;
     Interpreter.saved_vars := Interpreter.saved_vars frame;
     Interpreter.params := Interpreter.params frame;
     Interpreter.return_value := Interpreter.return_value frame;
     Interpreter.param_index := k |}.

(** the frame that [call] pushed, after [n] [param_decl] instructions:
    the index is set by the first of them, and counts the parameters
    bound *)
Definition declared (frame : Interpreter.Frame) (n : nat) : Interpreter.Frame :=
  match n with
  | O => frame
  | S _ =>
      with_index frame
        (Some (min n (length (Interpreter.params frame))))
  end.

(** the variables after binding names to values, from left to right *)
Definition bind_all (m : gmap (option string) (value F))
    (xvs : list (string * value F)) : gmap (option string) (value F) :=
  foldl (λ m xv, <[Some (fst xv) := snd xv]> m) m xvs.

Definition out_of_bounds (k : Z) : exn :=
  RuntimeError ("Array index out of bounds: " +:+ pretty k).


(** [int x = a; function int f() { x = b; return 0; } int y = x;
     print(y);] for integer literals [a] and [b] *)
Definition shadowed_program (a b : Z) : ASTNode :=
  Program 1 1
    [ VarDeclaration 1 5 "int" "x" (Some (Literal 1 9 (VInt a) "int"));
      FunctionDef 2 1 "int" "f" []
        [ Assignment 2 20 "x" (Literal 2 24 (VInt b) "int");
          ReturnStatement 2 27 (Some (Literal 2 34 (VInt 0) "int")) ];
      VarDeclaration 3 5 "int" "y" (Some (Identifier 3 9 "x"));
      PrintStatement 4 1 [Identifier 4 7 "y"] ].

(** the code that the generator makes of it *)
Definition shadowed_ir (a b : Z) : list instr :=
  [ TAC _ "assign" (IRGenerator.generate_Literal (VInt a)) VNone (Some "x");
    TAC _ "begin_func" (VStr "f") VNone None;
    TAC _ "assign" (IRGenerator.generate_Literal (VInt b)) VNone (Some "x");
    TAC _ "return" (VStr "0") VNone None;
    TAC _ "end_func" (VStr "f") VNone None;
    TAC _ "assign" (VStr "x") VNone (Some "y");
    TAC _ "print" (VStr "y") VNone None ].

(** the code that the optimizer makes of that *)
Definition shadowed_optimized (a b : Z) : list instr :=
  [ TAC _ "assign" (IRGenerator.generate_Literal (VInt a)) VNone (Some "x");
    TAC _ "begin_func" (VStr "f") VNone None;
    TAC _ "assign" (IRGenerator.generate_Literal (VInt b)) VNone (Some "x");
    TAC _ "return" (VStr "0") VNone None;
    TAC _ "end_func" (VStr "f") VNone None;
    TAC _ "assign" (VInt b) VNone (Some "y");
    TAC _ "print" (VStr "y") VNone None ].

(** [string s = "..."; string t = s; print(t);] for the string literal
    whose characters are [text], its code, and the optimized code *)
Definition copied_string_program (text : string) : ASTNode :=
  Program 1 1
    [ VarDeclaration 1 8 "string" "s"
        (Some (Literal 1 12 (VStr text) "string"));
      VarDeclaration 2 8 "string" "t" (Some (Identifier 2 12 "s"));
      PrintStatement 3 1 [Identifier 3 7 "t"] ].

Definition copied_string_ir (text : string) : list instr :=
  [ TAC _ "assign" (VStr (Py.quoted text)) VNone (Some "s");
    TAC _ "assign" (VStr "s") VNone (Some "t");
    TAC _ "print" (VStr "t") VNone None ].

Definition copied_string_optimized (text : string) : list instr :=
  [ TAC _ "assign" (VStr (Py.quoted text)) VNone (Some "s");
    TAC _ "print" (VStr text) VNone None ].


(** the position of the lexer is not beyond the end of the source *)
Definition within (lx : Lexer.state) : Prop :=
  (Lexer.pos lx ≤ String.length (Lexer.source lx))%nat.

(** [lx'] reads the same source as [lx], at least [k] characters further *)
Definition ahead (k : nat) (lx lx' : Lexer.state) : Prop :=
  Lexer.source lx' = Lexer.source lx
  ∧ (Lexer.pos lx + k ≤ Lexer.pos lx')%nat
  ∧ within lx'.

(** the loop came to its end: the result is not the one that stands for
    a loop cut short *)
Definition finished {A} (r : outcome A) : Prop := r ≠ Raise OutsideModel.

(** the characters from the position of [lx] on begin with [text] *)
Fixpoint reads (lx : Lexer.state) (text : string) : Prop :=
  match text with
  | EmptyString => True
  | String c text' =>
      Lexer.peek lx = Some c ∧ reads (snd (Lexer.advance lx)) text'
  end.

(** the lexer after [advance] has consumed the characters of [text] *)
Fixpoint advance_over (text : string) (lx : Lexer.state) : Lexer.state :=
  match text with
  | EmptyString => lx
  | String _ text' => advance_over text' (snd (Lexer.advance lx))
  end.

(** the token that [read_identifier] makes of the word [w] *)
Definition word_token (w : string) (line column : nat) : Lexer.Token :=
  {| Lexer.type :=
       match Lexer.keyword w with
       | TRUE | FALSE => BOOL_LITERAL
       | _ => Lexer.keyword w
       end;
     Lexer.value_of :=
       match Lexer.keyword w with
       | TRUE => VBool true
       | FALSE => VBool false
       | _ => VStr w
       end;
     Lexer.line_of := line; Lexer.column_of := column |}.

(** a character of a word: [c.isalnum() or c == '_'] *)
Definition is_word_char (c : ascii) : bool :=
  Lexer.isalnum c || Ascii.eqb c "_".

(** a character of a number: [c.isdigit() or c == '.'] *)
Definition is_number_char (c : ascii) : bool :=
  Lexer.isdigit c || Ascii.eqb c ".".

(** a character that [read_string] copies as it is *)
Definition is_plain_char (c : ascii) : bool :=
  negb (Ascii.eqb c Py.quote) && negb (Ascii.eqb c Lexer.backslash).

(** [p] holds of every character of [s] *)
Fixpoint all_chars (p : ascii → bool) (s : string) : bool :=
  match s with
  | EmptyString => true
  | String c s' => p c && all_chars p s'
  end.

Definition int_token (z : Z) (line column : nat) : Lexer.Token :=
  {| Lexer.type := INT_LITERAL; Lexer.value_of := VInt z;
     Lexer.line_of := line; Lexer.column_of := column |}.

Definition string_token (s : string) (line column : nat) : Lexer.Token :=
  {| Lexer.type := STRING_LITERAL; Lexer.value_of := VStr s;
     Lexer.line_of := line; Lexer.column_of := column |}.

Definition unterminated_string (lx : Lexer.state) : exn :=
  Lexer.error lx "Unterminated string literal".

Definition multiple_points (lx : Lexer.state) : exn :=
  Lexer.error lx "Invalid number format: multiple decimal points".

(** the next character, if there is one, does not satisfy [p] *)
Definition stops_at (p : ascii → bool) (lx : Lexer.state) : Prop :=
  match Lexer.peek lx with
  | Some c => p c = false
  | None => True
  end.


(** [a'] is the analyzer [a] with symbols added to its current scope: the
    enclosing scopes, the function being analyzed and the recorded errors
    are those of [a] *)
Definition same_scope (a a' : Semantic.analyzer) : Prop :=
  Semantic.parent (Semantic.current_scope a')
  = Semantic.parent (Semantic.current_scope a)
  ∧ Semantic.scope_level (Semantic.current_scope a')
    = Semantic.scope_level (Semantic.current_scope a)
  ∧ Semantic.symbols (Semantic.current_scope a)
    ⊆ Semantic.symbols (Semantic.current_scope a')
  ∧ Semantic.current_function a' = Semantic.current_function a
  ∧ Semantic.errors a' = Semantic.errors a.

(** the nodes that the parser builds for expressions *)
Fixpoint is_expression (node : ASTNode) : bool :=
  match node with
  | BinaryOp _ _ l _ r => is_expression l && is_expression r
  | UnaryOp _ _ _ e => is_expression e
  | Literal _ _ _ _ | Identifier _ _ _ => true
  | FunctionCall _ _ _ args | ArrayLiteral _ _ args
  | BuiltInCall _ _ _ args => forallb is_expression args
  | ArrayAccess _ _ a i => is_expression a && is_expression i
  | _ => false
  end.

Definition changes_nothing (node : ASTNode) : Prop :=
  is_expression node = true →
  ∀ a t a', Semantic.analyze a node = Ok (t, a') → a' = a.

(** the statement proved by induction on the tree *)
Definition keeps_scope (node : ASTNode) : Prop :=
  ∀ a t a', Semantic.analyze a node = Ok (t, a') → same_scope a a'.

(** the state of the interpreter after [n] rounds of the loop on
    [call_ir]: the call is reached after four rounds and entered by the
    fifth *)
Definition call_state (n : nat) : Interpreter.VM :=
  match Interpreter.steps n (Interpreter.init call_ir []) with
  | Ok vm => vm
  | Raise _ => Interpreter.init call_ir []
  end.

(** [int[] a = [7, 8];] as the generator lowers it, and the state of the
    interpreter after it *)
Definition array_ir : list instr :=
  [ TAC _ "array_init" VNone VNone (Some "t0");
    TAC _ "array_append" (VStr "7") VNone (Some "t0");
    TAC _ "array_append" (VStr "8") VNone (Some "t0");
    TAC _ "assign" (VStr "t0") VNone (Some "a") ].

Definition array_state : Interpreter.VM :=
  match Interpreter.steps 4 (Interpreter.init array_ir []) with
  | Ok vm => vm
  | Raise _ => Interpreter.init array_ir []
  end.

(** [function int f() { if (true) { return 1; } }] *)
Definition guarded_return : ASTNode :=
  FunctionDef 1 1 "int" "f" []
    [ IfStatement 1 20 (Literal 1 24 (VBool true) "bool")
        [ ReturnStatement 1 32 (Some (Literal 1 39 (VInt 1) "int")) ]
        None ].

(** [if (true) { int x = 1; }] *)
Definition declaring_if : ASTNode :=
  IfStatement 1 1 (Literal 1 5 (VBool true) "bool")
    [ VarDeclaration 1 16 "int" "x" (Some (Literal 1 20 (VInt 1) "int")) ]
    None.

(** *** The parser *)

(** the list of tokens ends with a token of type [EOF] *)
Definition ends_with_EOF (tokens : list Lexer.Token) : Prop :=
  ∃ body eof, tokens = body ++ [eof] ∧ Lexer.type eof = EOF.

(** the types of the tokens whose value the parser takes for a name *)
Definition name_types : list TokenType :=
  [IDENTIFIER; LEN; RANDOM; SUBSTR; CONCAT; INPUT].

(** a token whose value is a string where the parser takes it for a
    name, as the tokens of the lexer are *)
Definition named (t : Lexer.Token) : Prop :=
  Lexer.type t ∈ name_types → ∃ s, Lexer.value_of t = VStr s.

(** the parser is at a token of a list of named tokens that ends with
    [EOF] *)
Definition valid (p : Parser.state) : Prop :=
  ends_with_EOF (Parser.tokens p)
  ∧ Forall named (Parser.tokens p)
  ∧ (Parser.pos p < length (Parser.tokens p))%nat.

(** the number of tokens after the current one *)
Definition rest (p : Parser.state) : nat :=
  (length (Parser.tokens p) - S (Parser.pos p))%nat.

(** [p'] is at a token of the list of [p], at least [k] tokens further *)
Definition onward (k : nat) (p p' : Parser.state) : Prop :=
  Parser.tokens p' = Parser.tokens p
  ∧ (Parser.pos p + k ≤ Parser.pos p')%nat
  ∧ (Parser.pos p' < length (Parser.tokens p'))%nat.

(** what [f] returns is at least [k] tokens further *)
Definition moves {A} (k : nat)
    (f : Parser.state → outcome (A * Parser.state)) : Prop :=
  ∀ p x p', valid p → f p = Ok (x, p') → onward k p p'.

(** the computation returns, or raises a syntax error: it raises no other
    exception, and it is not cut short for want of fuel *)
Definition fails_in_syntax {A} (r : outcome A) : Prop :=
  ∀ e, r = Raise e → ∃ message, e = SyntaxError message.

(** a token that the lexer reads from the source: the token of type [EOF]
    is the one that it puts at the end *)
Definition lexed (t : Lexer.Token) : Prop := Lexer.type t ≠ EOF ∧ named t.

(** the operators that the parser writes in a tree *)
Definition binary_operators : list string :=
  ["or"; "and"; "=="; "!="; "<"; ">"; "<="; ">="; "+"; "-"; "*"; "/"; "%";
   "**"].

Definition unary_operators : list string := ["-"; "not"].

(** the trees of the expressions of the language: the operators are those
    of the language, the type of a literal is one of the four types, and
    what is indexed is a name *)
Fixpoint parsed_expression (node : ASTNode) : bool :=
  match node with
  | BinaryOp _ _ l o r =>
      op_in o binary_operators && parsed_expression l && parsed_expression r
  | UnaryOp _ _ o e => op_in o unary_operators && parsed_expression e
  | Literal _ _ _ t => op_in t ["int"; "float"; "string"; "bool"]
  | Identifier _ _ _ => true
  | FunctionCall _ _ _ args | ArrayLiteral _ _ args
  | BuiltInCall _ _ _ args => forallb parsed_expression args
  | ArrayAccess _ _ (Identifier _ _ _) i => parsed_expression i
  | _ => false
  end.

Definition parsed_option (e : option ASTNode) : bool :=
  match e with Some e' => parsed_expression e' | None => true end.

(** the trees of the statements of the language; an expression is a
    statement *)
Fixpoint parsed_statement (node : ASTNode) : bool :=
  match node with
  | VarDeclaration _ _ _ _ e | ReturnStatement _ _ e => parsed_option e
  | Assignment _ _ _ e => parsed_expression e
  | ArrayAssignment _ _ _ i v => parsed_expression i && parsed_expression v
  | IfStatement _ _ c t e =>
      parsed_expression c && forallb parsed_statement t
      && match e with Some ss => forallb parsed_statement ss | None => true end
  | WhileStatement _ _ c b => parsed_expression c && forallb parsed_statement b
  | ForStatement _ _ i c u b =>
      match i with
      | VarDeclaration _ _ _ _ (Some e) | Assignment _ _ _ e =>
          parsed_expression e
      | _ => false
      end
      && parsed_expression c
      && match u with
         | Assignment _ _ _ e => parsed_expression e
         | _ => false
         end
      && forallb parsed_statement b
  | FunctionDef _ _ return_type _ parameters b =>
      op_in return_type ["int"; "float"; "bool"; "string"]
      && forallb (λ p, op_in (fst p) ["int"; "float"; "bool"; "string"])
           parameters
      && forallb parsed_statement b
  | PrintStatement _ _ es => forallb parsed_expression es
  | Program _ _ _ | Block _ _ _ => false
  | e => parsed_expression e
  end.

(** every tree that [f] returns satisfies [P] *)
Definition gives {A} (P : A → Prop)
    (f : Parser.state → outcome (A * Parser.state)) : Prop :=
  ∀ p x p', f p = Ok (x, p') → P x.

(** [x = ;] as a list of tokens: an assignment without its value *)
Definition assignment_without_value : list Lexer.Token :=
  [ {| Lexer.type := IDENTIFIER; Lexer.value_of := VStr "x";
       Lexer.line_of := 1; Lexer.column_of := 1 |};
    {| Lexer.type := ASSIGN; Lexer.value_of := VStr "=";
       Lexer.line_of := 1; Lexer.column_of := 3 |};
    {| Lexer.type := SEMICOLON; Lexer.value_of := VStr ";";
       Lexer.line_of := 1; Lexer.column_of := 5 |};
    {| Lexer.type := EOF; Lexer.value_of := VNone;
       Lexer.line_of := 1; Lexer.column_of := 6 |} ].

End Vocabulary.

(** * Properties *)

Section Properties.
Context `{Host}.

(** ** The constant-folding scenario *)

(** C1. For [int x = 2 + 3 * 4; print(x);] the generator emits the four
    instructions of [folding_ir]; the optimizer turns them into
    [folding_optimized], in which the only instruction that writes [x] is
    [assign x = 14]; and the interpreter, run on the optimized code,
    halts with the captured output [["14"]], whatever the terminal
    supplies. *)
Theorem constant_folding_scenario :
  IRGenerator.run folding_program = Ok folding_ir ∧
  Optimizer.optimize folding_ir = Ok folding_optimized ∧
  definitions_of "x" folding_optimized
    = [TAC _ "assign" (VInt 14) VNone (Some "x")] ∧
  ∀ input, Interpreter.execute 2 folding_optimized input = Some (Ok ["14"]).
Proof.
  split; [vm_compute; reflexivity|].
  split; [vm_compute; reflexivity|].
  split; [vm_compute; reflexivity|].
  intros input. vm_compute. reflexivity.
Qed.

(** ** A call whose second argument is computed *)

(** C2, at the call [add(1, 2 + 3)].  The generator emits [param 1],
    the addition, [param t1] and [call add, 2]: the second [param] is
    separated from the first by the code of the second argument.  The
    interpreter, executing the [call], reads the two instructions before
    it and keeps the one that is a [param]: the new frame holds the single
    value 5, not the two values 1 and 5, and the run ends with an
    undefined-variable error for the second parameter. *)
Theorem call_with_computed_argument :
  IRGenerator.run call_program = Ok call_ir ∧
  (∀ input,
     (vm ← Interpreter.steps 5 (Interpreter.init call_ir input);
      Ok (Interpreter.params <$> Interpreter.call_stack vm))
     = Ok [[VInt 5]]) ∧
  ∀ input,
    Interpreter.execute 20 call_ir input
    = Some (Raise (RuntimeError "Undefined variable: b")).
Proof.
  split; [vm_compute; reflexivity|].
  split; intros input; vm_compute; reflexivity.
Qed.

(** ** Unary minus in constant folding *)

(** [not] is folded when its operand resolves to a constant *)
Lemma not_is_folded constants (i : instr) :
  op i = "not" →
  Py.is_None (Optimizer.operand_value constants (arg1 i)) = false →
  let v := VBool (negb (Py.truthy [] (Optimizer.operand_value constants (arg1 i)))) in
  Optimizer.fold_instr constants i
  = Ok (<[result i := v]> constants, Optimizer.assign v (result i)).
Proof.
  intros Ho Hv. unfold Optimizer.fold_instr. rewrite Ho. simpl.
  by rewrite Hv.
Qed.

(** the loop of constant folding raises nothing *)
Lemma fold_instr_returns constants (i : instr) :
  ∃ r, Optimizer.fold_instr constants i = Ok r.
Proof.
  unfold Optimizer.fold_instr.
  destruct (op_in (op i) Optimizer.control_ops); [eauto|].
  destruct (String.eqb (op i) "assign"); [repeat case_match; eauto|].
  destruct (op_in (op i) Optimizer.folded_ops) eqn:Hfolded;
    [repeat case_match; eauto|].
  destruct (op_in (op i) Optimizer.unary_ops); [|repeat case_match; eauto].
  destruct (String.eqb (op i) "-") eqn:Hminus.
  - apply String.eqb_eq in Hminus. rewrite Hminus in Hfolded. discriminate.
  - destruct (negb _); simpl; eauto.
Qed.

Lemma fold_loop_returns code :
  ∀ constants optimized,
    ∃ out, Optimizer.fold_loop constants optimized code = Ok out
           ∧ length out = (length optimized + length code)%nat.
Proof.
  induction code as [|i code IH]; intros constants optimized; simpl.
  - exists optimized. split; [done|lia].
  - destruct (fold_instr_returns constants i) as [[constants' i'] ->]. simpl.
    destruct (IH constants' (optimized ++ [i'])) as (out & -> & Hlen).
    exists out. split; [done|]. rewrite length_app in Hlen. simpl in Hlen. lia.
Qed.

(** [optimize] returns, for every code *)
Lemma optimize_returns (code : list instr) :
  ∃ out, Optimizer.optimize code = Ok out.
Proof.
  unfold Optimizer.optimize, Optimizer.constant_folding.
  destruct (fold_loop_returns code ∅ []) as (out & -> & _). simpl. eauto.
Qed.

(** C5, for unary minus.  An instruction with op [-] is taken by the
    branch for binary operators, which comes first; its absent second
    operand is not a constant, so the instruction is appended unchanged
    whatever its operand is.  In particular [t0 = - 5] is not replaced by
    [assign t0 = -5], and the code of [int x = -5; print(x);] leaves
    constant folding as it entered. *)
Theorem unary_minus_is_not_folded :
  (∀ a r,
     Optimizer.constant_folding [TAC _ "-" a VNone r]
     = Ok [TAC _ "-" a VNone r]) ∧
  Optimizer.constant_folding negation_ir = Ok negation_ir.
Proof.
  split; [|vm_compute; reflexivity].
  intros a r. unfold Optimizer.constant_folding. cbn.
  unfold Optimizer.fold_instr. cbn.
  unfold Optimizer.operand_value at 2. cbn.
  by rewrite andb_false_r.
Qed.

(** ** A string literal that ends in a backslash *)

(** C9, for an unterminated string whose last character is a backslash.
    After the backslash [peek] returns [None], which the else branch
    appends to the string read so far: the host raises a type error, and
    no lexical error with line and column is raised. *)
Theorem trailing_backslash_is_a_type_error :
  Lexer.read_string (Lexer.init open_escape) = Raise TypeError.
Proof. vm_compute. reflexivity. Qed.

(** ** Dead-code elimination *)

Lemma elem_of_add_opt (o : option string) (s : gset string) x :
  x ∈ Optimizer.add_opt o s ↔ o = Some x ∨ x ∈ s.
Proof.
  destruct o as [n|]; simpl; [|naive_solver].
  rewrite elem_of_union, elem_of_singleton. naive_solver.
Qed.

Lemma live_op_is_not_label o :
  op_in o Optimizer.live_ops = true → String.eqb o "label" = false.
Proof.
  unfold op_in, Optimizer.live_ops. simpl.
  intros Hf.
  repeat (apply orb_prop in Hf as [Hf|Hf];
          [apply String.eqb_eq in Hf as ->; reflexivity|]).
  discriminate.
Qed.

Lemma elem_of_mark_used (s : gset string) i x :
  x ∈ Optimizer.mark_used s i ↔ x ∈ s ∨ uses i x.
Proof.
  unfold Optimizer.mark_used, uses.
  destruct (op_in (op i) Optimizer.live_ops) eqn:Hlive.
  - rewrite (live_op_is_not_label _ Hlive).
    rewrite !elem_of_add_opt. naive_solver.
  - rewrite !elem_of_add_opt. naive_solver.
Qed.

Lemma elem_of_foldl_mark_used code (s : gset string) x :
  x ∈ foldl Optimizer.mark_used s code ↔ x ∈ s ∨ ∃ i, i ∈ code ∧ uses i x.
Proof.
  revert s. induction code as [|i code IH]; intros s; simpl.
  - split; [auto|]. intros [?|(i & Hi & _)]; [done|]. by apply elem_of_nil in Hi.
  - rewrite IH, elem_of_mark_used. split.
    + intros [[?|?]|(j & Hj & ?)]; [by left| |].
      * right. exists i. split; [left|done].
      * right. exists j. split; [by right|done].
    + intros [?|(j & Hj & ?)]; [by left; left|].
      apply elem_of_cons in Hj as [->|Hj]; [by left; right|].
      right. by exists j.
Qed.

Lemma sweep_filter used acc code :
  Optimizer.sweep used acc code
  = acc ++ List.filter (Optimizer.keeps used) code.
Proof.
  revert acc. induction code as [|i code IH]; intros acc; simpl.
  - by rewrite app_nil_r.
  - destruct (Optimizer.keeps used i); rewrite IH; [|done].
    by rewrite <- app_assoc.
Qed.

(** What dead-code elimination selects.  It keeps, in their order,
    the instructions selected by [keeps]: those whose op is one of
    [label], [goto], [if_false], [if_true], [begin_func], [end_func],
    [print], [return], [call], [param]; those that have no result name
    (such as [param_decl]); and those whose result is in the used set or
    does not start with [t].  It drops the others, which are the
    instructions with a result that starts with [t] and is not used.  The
    used set holds the names that are non-constant operands of any
    instruction and the first operand and result of the instructions
    [if_false], [if_true], [return], [print], [param] and [call]; a name
    inside the pair of bounds of a [builtin_substr] is not an operand for
    [uses], as it is none for the first pass. *)
Lemma dead_code_elimination_selects (code : list instr) :
  Optimizer.dead_code_elimination code
  = List.filter (Optimizer.keeps (Optimizer.used_variables code)) code
  ∧ (∀ used i,
       Optimizer.keeps used i = true ↔
       op_in (op i) Optimizer.kept_ops = true
       ∨ result_name i = None
       ∨ ∃ r, result_name i = Some r
              ∧ (r ∈ used ∨ Py.startswith "t" r = false))
  ∧ (∀ x, x ∈ Optimizer.used_variables code ↔ ∃ i, i ∈ code ∧ uses i x).
Proof.
  split; [apply (sweep_filter _ [])|]. split.
  - intros used i. unfold Optimizer.keeps.
    destruct (op_in (op i) Optimizer.kept_ops); [naive_solver|].
    destruct (result_name i) as [r|]; [|naive_solver].
    rewrite orb_true_iff, bool_decide_eq_true, negb_true_iff.
    naive_solver.
  - intros x. unfold Optimizer.used_variables.
    rewrite elem_of_foldl_mark_used. set_solver.
Qed.

(** C8, at [string s = "hello"; int i = 1; print(substr(s, i + 1, 4));],
    a program that the parser returns and the analyzer accepts.  The
    generator writes the bounds of [substr] as a pair, the second operand
    of the [builtin_substr] instruction, and the first bound is [t1], the
    temporary of [i + 1].  The first pass of dead-code elimination takes
    the names from the operands that are strings and does not look into a
    pair: [t1] is an operand of an instruction that it keeps, and is not
    in its used set.  The second pass drops the instruction that defines
    [t1].  The code of the generator prints [ll]; after dead-code
    elimination, alone or at the end of [optimize], it raises an
    undefined-variable error. *)
Theorem substr_bound_is_dropped :
  (tokens ← Lexer.tokenize substr_source; Parser.parse tokens)
  = Ok substr_program
  ∧ is_ok (Semantic.analyze Semantic.init substr_program) = true
  ∧ IRGenerator.run substr_program = Ok substr_ir
  ∧ (TAC _ "+" (VStr "i") (VStr "1") (Some "t1")) ∈ substr_ir
  ∧ (TAC _ "builtin_substr" (VStr "s") (VPair (VStr "t1") (VStr "4"))
       (Some "t0")) ∈ Optimizer.dead_code_elimination substr_ir
  ∧ ("t1" ∉ Optimizer.used_variables substr_ir)
  ∧ Optimizer.dead_code_elimination substr_ir = substr_swept
  ∧ Optimizer.optimize substr_ir = Ok substr_swept
  ∧ ∀ input,
      Interpreter.execute 5 substr_ir input = Some (Ok ["ll"])
      ∧ Interpreter.execute 5 substr_swept input
        = Some (Raise (RuntimeError "Undefined variable: t1")).
Proof.
  split; [vm_compute; reflexivity|].
  split; [vm_compute; reflexivity|].
  split; [vm_compute; reflexivity|].
  split; [apply list_elem_of_In; simpl; tauto|].
  split; [apply list_elem_of_In; vm_compute; tauto|].
  split.
  { intros Hin. apply dead_code_elimination_selects in Hin
      as (i & Hi & Huses).
    apply list_elem_of_In in Hi. simpl in Hi.
    destruct Hi as [<-|[<-|[<-|[<-|[<-|[]]]]]];
      vm_compute in Huses; intuition discriminate. }
  split; [vm_compute; reflexivity|].
  split; [vm_compute; reflexivity|].
  intros input. split; vm_compute; reflexivity.
Qed.

(** ** Division and modulo by zero *)








(** ** Appending to an unbound array *)

(** C10.  When [array_append] names a result that is not bound and its
    operand resolves to [v], the interpreter raises nothing: it creates a
    list that holds [v] alone and binds the result name to it, leaving
    every other part of the state as it was. *)
Theorem array_append_creates_the_array vm (i : instr) v :
  op i = "array_append" →
  Interpreter.variables vm !! result i = None →
  Interpreter.get_value vm (arg1 i) = Ok v →
  let l := length (Interpreter.heap_of vm) in
  ∃ vm',
    Interpreter.execute_instruction vm i = Ok vm'
    ∧ Interpreter.variables vm'
      = <[result i := VList l]> (Interpreter.variables vm)
    ∧ Interpreter.heap_of vm' !! l = Some [v]
    ∧ Interpreter.heap_of vm !! l = None
    ∧ (∀ k xs, Interpreter.heap_of vm !! k = Some xs →
               Interpreter.heap_of vm' !! k = Some xs)
    ∧ Interpreter.pc vm' = Interpreter.pc vm
    ∧ Interpreter.call_stack vm' = Interpreter.call_stack vm
    ∧ Interpreter.output vm' = Interpreter.output vm.
Proof.
  intros Ho Hr Hv l. unfold Interpreter.execute_instruction.
  rewrite Ho. simpl. rewrite Hr, Hv. simpl.
  eexists. split; [reflexivity|]. simpl.
  repeat split.
  - rewrite lookup_app_r by done. by rewrite Nat.sub_diag.
  - by apply lookup_ge_None_2.
  - intros k xs Hk. by apply lookup_app_l_Some.
Qed.

(** ** Returning from a call *)

(** [call] pushes a frame that holds the address after the call and the
    variables as they are, and enters the function *)
Lemma call_saves_the_variables vm (i : instr) n ps name entry :
  op i = "call" →
  Py.as_int (arg2 i) = Some n →
  Interpreter.collect_params vm n (Interpreter.range n) = Ok ps →
  key_of (arg1 i) = Some name →
  Interpreter.functions vm !! name = Some entry →
  Interpreter.execute_instruction vm i
  = Ok (Interpreter.set_pc
          (Interpreter.push_frame vm
             {| Interpreter.return_address := Interpreter.pc vm + 1;
                Interpreter.saved_vars := Interpreter.variables vm;
                Interpreter.params := ps;
                Interpreter.return_value := VNone;
                Interpreter.param_index := None |})
          entry).
Proof.
  intros Ho Hn Hps Hname Hentry. unfold Interpreter.execute_instruction.
  rewrite Ho. simpl. by rewrite Hn, Hps, Hname, Hentry.
Qed.

(** the variables after a [return] with [frame] on top *)
Lemma execute_return vm (i : instr) frame rest rv call_instr :
  op i = "return" →
  Interpreter.call_stack vm = frame :: rest →
  Interpreter.get_value vm (arg1 i) = Ok rv →
  (Py.is_None rv = false →
   Py.index (Interpreter.code vm) (Interpreter.return_address frame - 1)
   = Some call_instr) →
  Interpreter.execute_instruction vm i
  = Ok (Interpreter.set_pc
          (Interpreter.set_variables (Interpreter.set_call_stack vm rest)
             (if writes_result rv call_instr
              then <[result call_instr := rv]> (Interpreter.saved_vars frame)
              else Interpreter.saved_vars frame))
          (Interpreter.return_address frame)).
Proof.
  intros Ho Hstack Hrv Hcall. unfold Interpreter.execute_instruction.
  rewrite Ho. simpl. rewrite Hstack, Hrv. simpl. unfold writes_result.
  destruct (Py.is_None rv) eqn:Hnone; simpl; [done|].
  rewrite Hcall by done. unfold Interpreter.store.
  by destruct (result_name call_instr) as [r|] eqn:Hname.
Qed.


(** The loop of [execute] adds one to [pc] when an instruction leaves it
    where it was: after a [return] whose return address is the address of
    the [return] itself, the loop continues one instruction further. *)
Lemma return_to_its_own_address vm (i : instr) frame rest rv call_instr :
  Py.index (Interpreter.code vm) (Interpreter.pc vm) = Some i →
  op i = "return" →
  Interpreter.call_stack vm = frame :: rest →
  Interpreter.get_value vm (arg1 i) = Ok rv →
  (Py.is_None rv = false →
   Py.index (Interpreter.code vm) (Interpreter.return_address frame - 1)
   = Some call_instr) →
  Interpreter.return_address frame = Interpreter.pc vm →
  ∃ vm', Interpreter.step vm = Ok vm'
         ∧ Interpreter.pc vm' = Interpreter.return_address frame + 1.
Proof.
  intros Hfetch Ho Hstack Hrv Hcall Hsame. unfold Interpreter.step.
  rewrite Hfetch. rewrite (execute_return _ _ _ _ _ _ Ho Hstack Hrv Hcall).
  simpl. rewrite Hsame, Z.eqb_refl. eexists. split; [reflexivity|]. done.
Qed.

(** ** Declarations and scopes *)

Lemma lookup_unfold t name :
  Semantic.lookup t name
  = match Semantic.symbols t !! name with
    | Some sym => Some sym
    | None =>
        match Semantic.parent t with
        | Some p => Semantic.lookup p name
        | None => None
        end
    end.
Proof. by destruct t. Qed.

(** C7.  [define] fails exactly when the name is present in the symbols
    of the scope it is called on, and then with the redeclaration error.
    When the name is absent there, also when an enclosing scope binds it,
    [define] succeeds: afterwards [lookup] finds the new symbol, the
    enclosing scopes are untouched and every other name resolves as
    before.  [lookup] returns the symbol of the scope when it has one and
    otherwise asks the parent, up to the root.  A variable declaration
    fails with the already-declared error when its name is in the current
    scope, whatever its initializer; when the name is not there and the
    initializer is absent, or is accepted with a compatible type, the
    declaration succeeds and defines the variable in the current scope. *)
Theorem declaration_in_the_current_scope t name sym :
  (∀ e, Semantic.define t name sym = Raise e ↔
        is_Some (Semantic.symbols t !! name) ∧ e = redeclaration name)
  ∧ (Semantic.symbols t !! name = None →
     ∃ t', Semantic.define t name sym = Ok t'
           ∧ Semantic.lookup t' name = Some sym
           ∧ Semantic.parent t' = Semantic.parent t
           ∧ ∀ other, other ≠ name →
                      Semantic.lookup t' other = Semantic.lookup t other)
  ∧ Semantic.lookup t name
    = match Semantic.symbols t !! name with
      | Some s => Some s
      | None =>
          match Semantic.parent t with
          | Some p => Semantic.lookup p name
          | None => None
          end
      end
  ∧ (∀ analyze a line column var_type initializer,
       Semantic.current_scope a = t →
       is_Some (Semantic.symbols t !! name) →
       Semantic.analyze_VarDeclaration analyze a line column var_type name
         initializer
       = Raise (already_declared name line column))
  ∧ (∀ analyze a line column var_type initializer,
       Semantic.current_scope a = t →
       Semantic.symbols t !! name = None →
       match initializer with
       | Some e =>
           ∃ init_type,
             analyze a e = Ok (init_type, a)
             ∧ Semantic.is_compatible_type var_type init_type = true
       | None => True
       end →
       ∃ a',
         Semantic.analyze_VarDeclaration analyze a line column var_type name
           initializer
         = Ok ("void", a')
         ∧ Semantic.symbols (Semantic.current_scope a') !! name
           = Some (variable_symbol var_type (bool_decide (is_Some initializer)))
         ∧ Semantic.parent (Semantic.current_scope a') = Semantic.parent t).
Proof.
  split; [|split; [|split; [|split]]].
  - intros e. unfold Semantic.define.
    destruct (Semantic.symbols t !! name) as [s|]; split.
    + intros [= <-]. eauto.
    + by intros [_ ->].
    + done.
    + by intros [[? ?] _].
  - intros Hfree. unfold Semantic.define. rewrite Hfree.
    eexists. split; [reflexivity|]. simpl. split; [|split; [done|]].
    + by rewrite lookup_insert_eq.
    + intros other Hother. rewrite (lookup_unfold t other).
      by rewrite lookup_insert_ne.
  - apply lookup_unfold.
  - intros analyze a line column var_type initializer <- [s Hs].
    unfold Semantic.analyze_VarDeclaration. by rewrite Hs.
  - intros analyze a line column var_type initializer <- Hfree Hinit.
    unfold Semantic.analyze_VarDeclaration. rewrite Hfree.
    destruct initializer as [e|].
    + destruct Hinit as (init_type & -> & Hcompat). simpl.
      rewrite Hcompat. simpl. unfold Semantic.define. rewrite Hfree.
      eexists. split; [reflexivity|]. simpl.
      by rewrite lookup_insert_eq.
    + simpl. unfold Semantic.define. rewrite Hfree.
      eexists. split; [reflexivity|]. simpl.
      by rewrite lookup_insert_eq.
Qed.

(** ** Labels of the generated code *)

Global Instance label_of_inj : Inj (=) (=) label_of.
Proof.
  intros j k [= Heq]. change (pretty j = pretty k) in Heq.
  by apply (inj pretty) in Heq.
Qed.

Lemma temp_is_not_label t k : temp_of t ≠ label_of k.
Proof. intros [= ]. Qed.

Lemma count_app k s1 s2 :
  count k (s1 ++ s2) = (count k s1 + count k s2)%nat.
Proof.
  unfold count, definitions_count. by rewrite filter_app, length_app.
Qed.

Lemma count_label k j a b :
  count k [TAC _ "label" a b (label_of j)]
  = if decide (j = k) then 1%nat else 0%nat.
Proof.
  unfold count, definitions_count. rewrite filter_cons.
  destruct (decide (j = k)) as [->|Hne].
  - by rewrite decide_True.
  - rewrite decide_False; [done|]. intros [_ Heq]. simpl in Heq.
    by apply (inj label_of) in Heq.
Qed.

Lemma count_other k (i : instr) :
  (¬ is_label i ∨ ∀ j, result i ≠ label_of j) → count k [i] = 0%nat.
Proof.
  intros Hi. unfold count, definitions_count. rewrite filter_cons.
  rewrite decide_False; [done|]. intros [Hl Hr]. destruct Hi as [?|Hi]; [done|].
  by apply (Hi k).
Qed.

Lemma closed_nil lo hi : closed lo hi [].
Proof.
  split; [|split].
  - intros k. unfold count, definitions_count. simpl. lia.
  - intros k. by unfold count, definitions_count.
  - intros i Hi. by apply elem_of_nil in Hi.
Qed.

Lemma closed_single lo hi (i : instr) :
  ¬ is_jump i → (¬ is_label i ∨ ∀ j, result i ≠ label_of j) →
  closed lo hi [i].
Proof.
  intros Hj Hl. split; [|split].
  - intros k. rewrite count_other by done. lia.
  - intros k. by rewrite count_other.
  - intros i' Hi. apply list_elem_of_singleton in Hi as ->. done.
Qed.

Lemma closed_weaken lo hi a b seg :
  (lo ≤ a)%nat → (b ≤ hi)%nat → closed a b seg → closed lo hi seg.
Proof.
  intros Hlo Hhi (Hle & Hrange & Hjump). split; [done|]. split; [|done].
  intros k Hk. specialize (Hrange k Hk). lia.
Qed.

Lemma closed_app lo mid hi s1 s2 :
  (lo ≤ mid)%nat → (mid ≤ hi)%nat →
  closed lo mid s1 → closed mid hi s2 → closed lo hi (s1 ++ s2).
Proof.
  intros Hlo Hhi (Hle1 & Hr1 & Hj1) (Hle2 & Hr2 & Hj2).
  split; [|split].
  - intros k. rewrite count_app.
    specialize (Hle1 k). specialize (Hle2 k).
    specialize (Hr1 k). specialize (Hr2 k). lia.
  - intros k. rewrite count_app.
    specialize (Hr1 k). specialize (Hr2 k). lia.
  - intros i [Hi|Hi]%elem_of_app Hjump.
    + destruct (Hj1 i Hi Hjump) as (k & Hk & Hc). exists k. split; [done|].
      rewrite count_app. specialize (Hr1 k). specialize (Hr2 k). lia.
    + destruct (Hj2 i Hi Hjump) as (k & Hk & Hc). exists k. split; [done|].
      rewrite count_app. specialize (Hr1 k). specialize (Hr2 k). lia.
Qed.

Lemma count_jump k o c j :
  o = "goto" ∨ o = "if_false" ∨ o = "if_true" → count k [jump o c j] = 0%nat.
Proof.
  intros Ho. apply count_other. left. unfold is_label. simpl. naive_solver.
Qed.

Lemma label_is_not_jump k : ¬ is_jump (label k).
Proof. unfold is_jump. simpl. naive_solver. Qed.

(** arithmetic on counts, with the quantified facts out of the way *)
Ltac count_lia :=
  repeat match goal with
         | H : ∀ _ : nat, _ |- _ => clear H
         | H : ∀ _ : ThreeAddressCode, _ |- _ => clear H
         end;
  simpl; lia.

(** [if_false c -> Lk]; then-block; [label Lk] *)
Lemma closed_if k hi c s_t :
  (S (S k) ≤ hi)%nat →
  closed (S (S k)) hi s_t →
  closed k hi ([jump "if_false" c k] ++ s_t ++ [label k]).
Proof.
  intros Hhi (Hle & Hr & Hj).
  assert (∀ j, count j ([jump "if_false" c k] ++ s_t ++ [label k])
               = (count j s_t + if decide (k = j) then 1 else 0)%nat) as Hcount.
  { intros j. rewrite !count_app, count_jump by auto.
    unfold label. by rewrite count_label. }
  split; [|split].
  - intros j. rewrite Hcount. specialize (Hle j). specialize (Hr j).
    destruct (decide (k = j)); count_lia.
  - intros j. rewrite Hcount. specialize (Hr j).
    destruct (decide (k = j)); count_lia.
  - intros i Hi Hjump. rewrite !elem_of_app, !list_elem_of_singleton in Hi.
    destruct Hi as [->|[Hi| ->]].
    + exists k. split; [done|]. rewrite Hcount. specialize (Hr k).
      rewrite decide_True by done. count_lia.
    + destruct (Hj i Hi Hjump) as (j & Hres & Hc). exists j. split; [done|].
      rewrite Hcount. specialize (Hr j). destruct (decide (k = j)); count_lia.
    + by destruct (label_is_not_jump k).
Qed.

(** [if_false c -> Lk]; then-block; [goto Lk+1]; [label Lk]; else-block;
    [label Lk+1] *)
Lemma closed_if_else k m hi c s_t s_e :
  (S (S k) ≤ m)%nat → (m ≤ hi)%nat →
  closed (S (S k)) m s_t → closed m hi s_e →
  closed k hi
    ([jump "if_false" c k] ++ s_t ++ [jump "goto" VNone (S k)]
     ++ [label k] ++ s_e ++ [label (S k)]).
Proof.
  intros Hm Hhi (Hle1 & Hr1 & Hj1) (Hle2 & Hr2 & Hj2).
  assert (∀ j, count j
                 ([jump "if_false" c k] ++ s_t ++ [jump "goto" VNone (S k)]
                  ++ [label k] ++ s_e ++ [label (S k)])
               = (count j s_t + count j s_e
                  + (if decide (k = j) then 1 else 0)
                  + (if decide (S k = j) then 1 else 0))%nat) as Hcount.
  { intros j. rewrite !count_app, !count_jump by auto.
    unfold label. rewrite !count_label. lia. }
  split; [|split].
  - intros j. rewrite Hcount. specialize (Hle1 j). specialize (Hr1 j).
    specialize (Hle2 j). specialize (Hr2 j).
    destruct (decide (k = j)), (decide (S k = j)); count_lia.
  - intros j. rewrite Hcount. specialize (Hr1 j). specialize (Hr2 j).
    destruct (decide (k = j)), (decide (S k = j)); count_lia.
  - intros i Hi Hjump. rewrite !elem_of_app, !list_elem_of_singleton in Hi.
    destruct Hi as [->|[Hi|[->|[->|[Hi| ->]]]]].
    + exists k. split; [done|]. rewrite Hcount.
      specialize (Hr1 k). specialize (Hr2 k).
      rewrite decide_True by done. rewrite decide_False by lia. count_lia.
    + destruct (Hj1 i Hi Hjump) as (j & Hres & Hc). exists j. split; [done|].
      rewrite Hcount. specialize (Hr1 j). specialize (Hr2 j).
      destruct (decide (k = j)), (decide (S k = j)); count_lia.
    + exists (S k). split; [done|]. rewrite Hcount.
      specialize (Hr1 (S k)). specialize (Hr2 (S k)).
      rewrite decide_False by lia. rewrite decide_True by done. count_lia.
    + by destruct (label_is_not_jump k).
    + destruct (Hj2 i Hi Hjump) as (j & Hres & Hc). exists j. split; [done|].
      rewrite Hcount. specialize (Hr1 j). specialize (Hr2 j).
      destruct (decide (k = j)), (decide (S k = j)); count_lia.
    + by destruct (label_is_not_jump (S k)).
Qed.

(** [label Lk]; condition; [if_false c -> Lk+1]; body; [goto Lk];
    [label Lk+1] *)
Lemma closed_loop k m hi c s_c s_b :
  (S (S k) ≤ m)%nat → (m ≤ hi)%nat →
  closed (S (S k)) m s_c → closed m hi s_b →
  closed k hi
    ([label k] ++ s_c ++ [jump "if_false" c (S k)] ++ s_b
     ++ [jump "goto" VNone k] ++ [label (S k)]).
Proof.
  intros Hm Hhi (Hle1 & Hr1 & Hj1) (Hle2 & Hr2 & Hj2).
  assert (∀ j, count j
                 ([label k] ++ s_c ++ [jump "if_false" c (S k)] ++ s_b
                  ++ [jump "goto" VNone k] ++ [label (S k)])
               = (count j s_c + count j s_b
                  + (if decide (k = j) then 1 else 0)
                  + (if decide (S k = j) then 1 else 0))%nat) as Hcount.
  { intros j. rewrite !count_app, !count_jump by auto.
    unfold label. rewrite !count_label. lia. }
  split; [|split].
  - intros j. rewrite Hcount. specialize (Hle1 j). specialize (Hr1 j).
    specialize (Hle2 j). specialize (Hr2 j).
    destruct (decide (k = j)), (decide (S k = j)); count_lia.
  - intros j. rewrite Hcount. specialize (Hr1 j). specialize (Hr2 j).
    destruct (decide (k = j)), (decide (S k = j)); count_lia.
  - intros i Hi Hjump. rewrite !elem_of_app, !list_elem_of_singleton in Hi.
    destruct Hi as [->|[Hi|[->|[Hi|[->| ->]]]]].
    + by destruct (label_is_not_jump k).
    + destruct (Hj1 i Hi Hjump) as (j & Hres & Hc). exists j. split; [done|].
      rewrite Hcount. specialize (Hr1 j). specialize (Hr2 j).
      destruct (decide (k = j)), (decide (S k = j)); count_lia.
    + exists (S k). split; [done|]. rewrite Hcount.
      specialize (Hr1 (S k)). specialize (Hr2 (S k)).
      rewrite decide_False by lia. rewrite decide_True by done. count_lia.
    + destruct (Hj2 i Hi Hjump) as (j & Hres & Hc). exists j. split; [done|].
      rewrite Hcount. specialize (Hr1 j). specialize (Hr2 j).
      destruct (decide (k = j)), (decide (S k = j)); count_lia.
    + exists k. split; [done|]. rewrite Hcount.
      specialize (Hr1 k). specialize (Hr2 k).
      rewrite decide_True by done. rewrite decide_False by lia. count_lia.
    + by destruct (label_is_not_jump (S k)).
Qed.

(** *** What the generator appends *)

Lemma extends_refl g : extends g g.
Proof.
  exists []. split; [by rewrite app_nil_r|]. split; [done|]. apply closed_nil.
Qed.

Lemma extends_trans g1 g2 g3 : extends g1 g2 → extends g2 g3 → extends g1 g3.
Proof.
  intros (s1 & Hc1 & Hl1 & Hcl1) (s2 & Hc2 & Hl2 & Hcl2).
  exists (s1 ++ s2). split; [by rewrite Hc2, Hc1, app_assoc|].
  split; [lia|]. by apply (closed_app _ (IRGenerator.label_count g2)).
Qed.

Lemma extends_flat g g1 tc :
  extends g g1 →
  extends g (IRGenerator.State (IRGenerator.code g1) tc
               (IRGenerator.label_count g1)).
Proof. intros (s1 & Hc1 & Hl1 & Hcl1). by exists s1. Qed.

Lemma extends_emit g c tc lc (i : instr) :
  extends g (IRGenerator.State c tc lc) →
  ¬ is_jump i → (¬ is_label i ∨ ∀ j, result i ≠ label_of j) →
  extends g (IRGenerator.State (c ++ [i]) tc lc).
Proof.
  intros (s1 & Hc1 & Hl1 & Hcl1) Hj Hl. simpl in *.
  exists (s1 ++ [i]). simpl. split; [by rewrite Hc1, app_assoc|].
  split; [done|]. apply (closed_app _ lc); [done|done|done|].
  by apply closed_single.
Qed.

(** the operator of a node accepted by [operators_ok] *)
Lemma operator_is_not_jump o a b r :
  jump_operator o = false → ¬ is_jump (TAC _ o a b r).
Proof.
  unfold jump_operator, op_in, is_jump. simpl. intros Ho [-> |[-> | ->]];
    simpl in Ho; discriminate.
Qed.

Ltac not_jump :=
  first [ by apply operator_is_not_jump
        | unfold is_jump; simpl; intros [?|[?|?]]; discriminate ].

Ltac not_label :=
  first [ left; unfold is_label; simpl; discriminate
        | right; intros ?; apply temp_is_not_label ].

Ltac solve_extends :=
  lazymatch goal with
  | |- extends ?g ?g => apply extends_refl
  | |- extends _ (IRGenerator.State (_ ++ [_]) _ _) =>
      apply extends_emit; [solve_extends | not_jump | not_label]
  | |- extends _ (IRGenerator.State (IRGenerator.code ?g1) _
                    (IRGenerator.label_count ?g1)) =>
      apply extends_flat; solve_extends
  | Hx : extends ?g1 ?g2 |- extends ?g ?g2 =>
      apply (extends_trans g g1 g2); [solve_extends | exact Hx]
  end.

Lemma for_each_extends {A B} (f : A → IRGenerator.M B) l :
  Forall (λ x, ∀ g v g', f x g = Ok (v, g') → extends g g') l →
  ∀ g u g', IRGenerator.for_each f l g = Ok (u, g') → extends g g'.
Proof.
  induction 1 as [|x l Hx _ IH]; intros g u g' Hrun.
  - injection Hrun as <- <-. apply extends_refl.
  - simpl in Hrun. unfold IRGenerator.bind in Hrun.
    destruct (f x g) as [[v g1]|] eqn:Hfx; [|discriminate].
    apply (extends_trans g g1 g'); [by eapply Hx|by eapply IH].
Qed.

Lemma statements_extend ss :
  Forall appends_closed_code ss → forallb operators_ok ss = true →
  ∀ g u g',
    IRGenerator.for_each IRGenerator.generate ss g = Ok (u, g') →
    extends g g'.
Proof.
  intros Hall Hok. apply for_each_extends.
  rewrite forallb_forall in Hok. rewrite Forall_forall in Hall |- *.
  intros x Hx. apply Hall; [done|]. apply Hok. by apply list_elem_of_In.
Qed.

(** a loop over expressions that emits one plain instruction after each *)
Lemma expressions_extend ss (k : value F → IRGenerator.M unit) :
  Forall appends_closed_code ss → forallb operators_ok ss = true →
  (∀ v g u g', k v g = Ok (u, g') →
               extends g g') →
  ∀ g u g',
    IRGenerator.for_each
      (λ e, IRGenerator.bind (IRGenerator.generate e) k) ss g
    = Ok (u, g') →
    extends g g'.
Proof.
  intros Hall Hok Hk. apply for_each_extends.
  rewrite forallb_forall in Hok. rewrite Forall_forall in Hall |- *.
  intros x Hx g v g' Hrun. unfold IRGenerator.bind in Hrun.
  destruct (IRGenerator.generate x g) as [[w g1]|] eqn:Hgen; [|discriminate].
  apply (extends_trans g g1 g'); [|by eapply Hk].
  eapply Hall; [done| |done]. apply Hok. by apply list_elem_of_In.
Qed.

Lemma bind_Ok {A B} (c : IRGenerator.M A) (k : A → IRGenerator.M B) g r :
  IRGenerator.bind c k g = Ok r → ∃ a g1, c g = Ok (a, g1) ∧ k a g1 = Ok r.
Proof.
  unfold IRGenerator.bind. destruct (c g) as [[a g1]|]; [|discriminate].
  intros Hk. by exists a, g1.
Qed.

Lemma plain_emit_extends o a b r g u g' :
  ¬ is_jump (TAC _ o a b r) →
  (¬ is_label (TAC _ o a b r) ∨ ∀ j, r ≠ label_of j) →
  IRGenerator.emit o a b r g = Ok (u, g') → extends g g'.
Proof.
  intros Hj Hl Hemit. unfold IRGenerator.emit in Hemit. simplify_eq.
  apply extends_emit; [|done|done]. apply extends_flat, extends_refl.
Qed.

(** take a generator computation apart, turning the runs of sub-trees and
    of loops over sub-trees into [extends] facts *)
Ltac invert_generate :=
  repeat match goal with
    | Hb : IRGenerator.bind _ _ _ = Ok _ |- _ =>
        let a := fresh "a" in
        let g1 := fresh "g" in
        let Hc := fresh "Hc" in
        apply bind_Ok in Hb as (a & g1 & Hc & Hb)
    | Hx : IRGenerator.generate ?n _ = Ok _,
      IH : operators_ok ?n = true → _ |- _ =>
        apply IH in Hx; [|done]
    | Hx : IRGenerator.for_each IRGenerator.generate ?ss _ = Ok _ |- _ =>
        apply statements_extend in Hx; [|done|done]
    | Hx : IRGenerator.for_each
             (λ e, IRGenerator.bind (IRGenerator.generate e) _) _ _
           = Ok _ |- _ =>
        apply expressions_extend in Hx;
        [|done|done
         |intros ? ? ? ?; apply plain_emit_extends; [not_jump|not_label]]
    | Hr : IRGenerator.ret _ _ = Ok _ |- _ =>
        unfold IRGenerator.ret in Hr; simplify_eq
    | He : IRGenerator.emit _ _ _ _ _ = Ok _ |- _ =>
        unfold IRGenerator.emit in He; simplify_eq
    | He : IRGenerator.new_temp _ = Ok _ |- _ =>
        unfold IRGenerator.new_temp in He; simplify_eq
    | He : IRGenerator.new_label _ = Ok _ |- _ =>
        unfold IRGenerator.new_label in He; simplify_eq
    | He : IRGenerator.raise _ _ = Ok _ |- _ =>
        unfold IRGenerator.raise in He; discriminate He
    | Hc : (if ?b then _ else _) _ = Ok _ |- _ => destruct b
    end.

Ltac split_ok Hok :=
  simpl in Hok; rewrite ?andb_true_iff, ?negb_true_iff in Hok;
  destruct_and?.

Ltac open_extends :=
  repeat match goal with
         | Hx : extends _ _ |- _ => destruct Hx as (? & ? & ? & ?)
         end;
  simpl in *.

Ltac rewrite_code :=
  repeat match goal with
         | Hcode : IRGenerator.code ?g = _
           |- context [IRGenerator.code ?g] => rewrite Hcode
         end;
  rewrite <- ?app_assoc.

(** an [if] without an else block, after the condition *)
Lemma if_extends g g0 g4 c tc tc' :
  extends g g0 →
  extends
    (IRGenerator.State
       (IRGenerator.code g0
        ++ [jump "if_false" c (IRGenerator.label_count g0)])
       tc (S (S (IRGenerator.label_count g0))))
    g4 →
  extends g
    (IRGenerator.State
       (IRGenerator.code g4 ++ [label (IRGenerator.label_count g0)])
       tc' (IRGenerator.label_count g4)).
Proof.
  intros Hcond Hthen. open_extends.
  match goal with
  | Hc : IRGenerator.code g0 = _ ++ ?sc,
    Ht : IRGenerator.code g4 = _ ++ ?st |- _ =>
      exists (sc ++ [jump "if_false" c (IRGenerator.label_count g0)]
                 ++ st ++ [label (IRGenerator.label_count g0)])
  end.
  simpl. split; [by rewrite_code|]. split; [lia|].
  apply (closed_app _ (IRGenerator.label_count g0)); [lia|lia|done|].
  apply closed_if; [lia|done].
Qed.

(** an [if] with an else block, after the condition *)
Lemma if_else_extends g g0 g4 g8 c tc tc' tc'' :
  extends g g0 →
  extends
    (IRGenerator.State
       (IRGenerator.code g0
        ++ [jump "if_false" c (IRGenerator.label_count g0)])
       tc (S (S (IRGenerator.label_count g0))))
    g4 →
  extends
    (IRGenerator.State
       ((IRGenerator.code g4
         ++ [jump "goto" VNone (S (IRGenerator.label_count g0))])
        ++ [label (IRGenerator.label_count g0)])
       tc' (IRGenerator.label_count g4))
    g8 →
  extends g
    (IRGenerator.State
       (IRGenerator.code g8 ++ [label (S (IRGenerator.label_count g0))])
       tc'' (IRGenerator.label_count g8)).
Proof.
  intros Hcond Hthen Helse. open_extends.
  match goal with
  | Hc : IRGenerator.code g0 = _ ++ ?sc,
    Ht : IRGenerator.code g4 = _ ++ ?st,
    He : IRGenerator.code g8 = _ ++ ?se |- _ =>
      exists (sc ++ [jump "if_false" c (IRGenerator.label_count g0)]
                 ++ st
                 ++ [jump "goto" VNone (S (IRGenerator.label_count g0))]
                 ++ [label (IRGenerator.label_count g0)]
                 ++ se ++ [label (S (IRGenerator.label_count g0))])
  end.
  simpl. split; [by rewrite_code|]. split; [lia|].
  apply (closed_app _ (IRGenerator.label_count g0)); [lia|lia|done|].
  apply (closed_if_else _ (IRGenerator.label_count g4)); [lia|lia|done|done].
Qed.

(** a loop, after what precedes its first label *)
Lemma loop_extends g g0 g4 g6 c tc tc' tc'' :
  extends g g0 →
  extends
    (IRGenerator.State
       (IRGenerator.code g0 ++ [label (IRGenerator.label_count g0)])
       tc (S (S (IRGenerator.label_count g0))))
    g4 →
  extends
    (IRGenerator.State
       (IRGenerator.code g4
        ++ [jump "if_false" c (S (IRGenerator.label_count g0))])
       tc' (IRGenerator.label_count g4))
    g6 →
  extends g
    (IRGenerator.State
       ((IRGenerator.code g6
         ++ [jump "goto" VNone (IRGenerator.label_count g0)])
        ++ [label (S (IRGenerator.label_count g0))])
       tc'' (IRGenerator.label_count g6)).
Proof.
  intros Hinit Hcond Hbody. open_extends.
  match goal with
  | Hi : IRGenerator.code g0 = _ ++ ?si,
    Hc : IRGenerator.code g4 = _ ++ ?sc,
    Hb : IRGenerator.code g6 = _ ++ ?sb |- _ =>
      exists (si ++ [label (IRGenerator.label_count g0)] ++ sc
                 ++ [jump "if_false" c (S (IRGenerator.label_count g0))]
                 ++ sb
                 ++ [jump "goto" VNone (IRGenerator.label_count g0)]
                 ++ [label (S (IRGenerator.label_count g0))])
  end.
  simpl. split; [by rewrite_code|]. split; [lia|].
  apply (closed_app _ (IRGenerator.label_count g0)); [lia|lia|done|].
  apply (closed_loop _ (IRGenerator.label_count g4)); [lia|lia|done|done].
Qed.

Lemma generate_appends_closed_code : ∀ node, appends_closed_code node.
Proof.
  apply ASTNode_nested_ind; unfold appends_closed_code.
  - (* Program *)
    intros l c ss IH Hok g v g' Hgen. split_ok Hok. simpl in Hgen.
    invert_generate. simpl in *. solve_extends.
  - (* BinaryOp *)
    intros l c a o b IHa IHb Hok g v g' Hgen. split_ok Hok. simpl in Hgen.
    invert_generate. simpl in *. solve_extends.
  - (* UnaryOp *)
    intros l c o e IHe Hok g v g' Hgen. split_ok Hok. simpl in Hgen.
    invert_generate. simpl in *. solve_extends.
  - (* Literal *)
    intros l c v t Hok g v' g' Hgen. simpl in Hgen.
    invert_generate. solve_extends.
  - (* Identifier *)
    intros l c n Hok g v' g' Hgen. simpl in Hgen.
    invert_generate. solve_extends.
  - (* VarDeclaration *)
    intros l c t n [e|] IHe Hok g v g' Hgen; split_ok Hok; simpl in *;
      invert_generate; simpl in *; solve_extends.
  - (* Assignment *)
    intros l c n e IHe Hok g v g' Hgen. split_ok Hok. simpl in Hgen.
    invert_generate. simpl in *. solve_extends.
  - (* IfStatement *)
    intros l c e t f IHe IHt IHf Hok g v g' Hgen.
    destruct f as [[|s ss]|]; split_ok Hok; simpl in Hgen.
    + invert_generate. simpl in *. eapply if_extends; eassumption.
    + simpl in IHf. apply Forall_cons in IHf as [IHs IHss].
      invert_generate. simpl in *.
      match goal with
      | H1 : extends ?g1 ?g2, H2 : extends ?g2 ?g3 |- _ =>
          pose proof (extends_trans g1 g2 g3 H1 H2); clear H1 H2
      end.
      eapply if_else_extends; eassumption.
    + invert_generate. simpl in *. eapply if_extends; eassumption.
  - (* WhileStatement *)
    intros l c e b IHe IHb Hok g v g' Hgen. split_ok Hok. simpl in Hgen.
    invert_generate. simpl in *.
    eapply (loop_extends g g); [apply extends_refl|eassumption..].
  - (* ForStatement *)
    intros l c i e u b IHi IHe IHu IHb Hok g v g' Hgen. split_ok Hok.
    simpl in Hgen. invert_generate. simpl in *.
    match goal with
    | H1 : extends ?g1 ?g2, H2 : extends ?g2 ?g3 |- _ =>
        pose proof (extends_trans g1 g2 g3 H1 H2); clear H1 H2
    end.
    eapply loop_extends; eassumption.
  - (* FunctionDef *)
    intros l c t n ps b IHb Hok g v g' Hgen. split_ok Hok. simpl in Hgen.
    invert_generate.
    match goal with
    | Hx : IRGenerator.for_each _ ps _ = Ok _ |- _ =>
        apply for_each_extends in Hx;
        [|apply Forall_forall; intros ? ? ? ? ?;
          apply plain_emit_extends; [not_jump|not_label]]
    end.
    simpl in *. solve_extends.
  - (* FunctionCall *)
    intros l c n args IH Hok g v g' Hgen. split_ok Hok. simpl in Hgen.
    invert_generate. simpl in *. solve_extends.
  - (* ReturnStatement *)
    intros l c [e|] IHe Hok g v g' Hgen; split_ok Hok; simpl in *;
      invert_generate; simpl in *; solve_extends.
  - (* PrintStatement *)
    intros l c es IH Hok g v g' Hgen. split_ok Hok. simpl in Hgen.
    invert_generate. simpl in *. solve_extends.
  - (* Block *)
    intros l c ss IH Hok g v g' Hgen. split_ok Hok. simpl in Hgen.
    invert_generate. simpl in *. solve_extends.
  - (* ArrayLiteral *)
    intros l c es IH Hok g v g' Hgen. split_ok Hok. simpl in Hgen.
    invert_generate. simpl in *. solve_extends.
  - (* ArrayAccess *)
    intros l c a i IHa IHi Hok g v g' Hgen. split_ok Hok. simpl in Hgen.
    invert_generate. simpl in *. solve_extends.
  - (* ArrayAssignment *)
    intros l c n i v IHi IHv Hok g w g' Hgen. split_ok Hok. simpl in Hgen.
    invert_generate. simpl in *. solve_extends.
  - (* BuiltInCall *)
    intros l c f args IH Hok g v g' Hgen.
    destruct args as [|a0 [|a1 [|a2 rest]]]; simpl in IH;
      repeat (apply Forall_cons in IH as [? IH]);
      split_ok Hok; simpl in Hgen; invert_generate; simpl in *;
      solve_extends.
Qed.

(** the count of a label that is numbered *)
Lemma definitions_count_label k code :
  definitions_count (label_of k) code = count k code.
Proof. done. Qed.

(** the jumps of the code of a tree whose operators are those of
    expressions: the generator writes the operator of a binary or unary
    node as the op of an instruction, and the labels that it makes for
    the jumps of a statement are defined once each *)
Lemma generated_jumps_are_defined_once node code :
  operators_ok node = true →
  IRGenerator.run node = Ok code →
  ∀ i, i ∈ code → is_jump i → definitions_count (result i) code = 1%nat.
Proof.
  intros Hok Hrun i Hi Hjump. unfold IRGenerator.run in Hrun.
  destruct (IRGenerator.generate node IRGenerator.init) as [[v g]|] eqn:Hgen;
    [|discriminate].
  injection Hrun as <-.
  destruct (generate_appends_closed_code node Hok _ _ _ Hgen)
    as (seg & Hcode & _ & _ & _ & Hclosed).
  simpl in Hcode. rewrite Hcode in *.
  destruct (Hclosed i Hi Hjump) as (k & -> & Hk). done.
Qed.

Lemma digits_rest_app ds :
  Forall (λ c, Py.is_digit c = true) ds →
  ∀ acc, Py.digits_rest acc ds = (digits_value acc ds, []).
Proof.
  induction 1 as [|c ds Hc _ IH]; intros acc; simpl; [done|].
  rewrite Hc. apply IH.
Qed.

Lemma pretty_N_char_digit (n : N) :
  (n < 10)%N →
  Py.is_digit (pretty_N_char n) = true
  ∧ Py.digit_val (pretty_N_char n) = Z.of_N n.
Proof.
  intros Hn.
  assert (n ∈ [0; 1; 2; 3; 4; 5; 6; 7; 8; 9]%N) as Hin.
  { rewrite !elem_of_cons. lia. }
  repeat (apply elem_of_cons in Hin as [->|Hin]; [by vm_compute|]).
  by apply elem_of_nil in Hin.
Qed.

Lemma pretty_N_go_digits (x : N) :
  ∀ s, ∃ ds,
    list_ascii_of_string (pretty_N_go x s) = ds ++ list_ascii_of_string s
    ∧ Forall (λ c, Py.is_digit c = true) ds
    ∧ (∀ acc, digits_value acc ds = acc * 10 ^ Z.of_nat (length ds) + Z.of_N x)
    ∧ ((0 < x)%N → ds ≠ []).
Proof.
  induction (N.lt_wf_0 x) as [x _ IH]; intros s.
  destruct (decide (x = 0%N)) as [->|Hx].
  - exists []. rewrite pretty_N_go_0. repeat split; [done| |lia].
    intros acc. simpl. lia.
  - rewrite pretty_N_go_step by lia.
    assert (x `div` 10 < x)%N as Hlt by (apply N.div_lt; lia).
    destruct (IH _ Hlt (String (pretty_N_char (x `mod` 10)) s))
      as (ds & Hds & Hdig & Hval & _).
    destruct (pretty_N_char_digit (x `mod` 10)) as [Hc Hv].
    { apply N.mod_lt. lia. }
    exists (ds ++ [pretty_N_char (x `mod` 10)]).
    split; [by rewrite Hds, <- app_assoc|].
    split; [apply Forall_app; split; [done|by constructor]|].
    split; [|by destruct ds].
    intros acc. unfold digits_value in *. rewrite foldl_app. simpl.
    rewrite Hval, Hv, length_app. simpl.
    rewrite Nat2Z.inj_add, Z.pow_add_r by lia.
    pose proof (N.div_mod x 10). lia.
Qed.


Lemma digit_is_plain c :
  Py.is_digit c = true →
  Py.is_space c = false ∧ Ascii.eqb c "-" = false ∧ Ascii.eqb c "+" = false
  ∧ Ascii.eqb c "." = false ∧ Ascii.eqb c Py.quote = false.
Proof.
  unfold Py.is_digit, Py.is_space. intros Hc.
  apply andb_prop in Hc as [H1 H2].
  apply Nat.leb_le in H1. apply Nat.leb_le in H2.
  repeat split;
    try (apply Ascii.eqb_neq; intros ->; vm_compute in H1, H2; lia).
  rewrite !orb_false_iff, andb_false_iff, !Nat.eqb_neq, !Nat.leb_gt. lia.
Qed.

(** the characters of [str(z)]: an optional minus sign and the digits of
    the absolute value *)
Lemma pretty_Z_chars (z : Z) :
  ∃ ds d,
    list_ascii_of_string (pretty z)
    = (if z <? 0 then ["-"%char] else []) ++ ds ++ [d]
    ∧ Forall (λ c, Py.is_digit c = true) (ds ++ [d])
    ∧ digits_value 0 (ds ++ [d]) = Z.abs z.
Proof.
  assert (∀ p : positive, ∃ ds d,
            list_ascii_of_string (pretty (Npos p)) = ds ++ [d]
            ∧ Forall (λ c, Py.is_digit c = true) (ds ++ [d])
            ∧ digits_value 0 (ds ++ [d]) = Z.pos p) as Hpos.
  { intros p. unfold pretty, pretty_N.
    destruct (decide _) as [|_]; [done|].
    destruct (pretty_N_go_digits (Npos p) "") as (ds & Hds & Hdig & Hval & Hne).
    simpl in Hds. rewrite app_nil_r in Hds.
    destruct (exists_last (Hne ltac:(lia))) as (ds' & d & ->).
    exists ds', d. split; [done|]. split; [done|]. rewrite Hval. simpl. lia. }
  destruct z as [|p|p].
  - exists [], "0"%char. split; [done|]. split; [|done].
    by repeat constructor.
  - destruct (Hpos p) as (ds & d & Hds & Hdig & Hval).
    exists ds, d. split; [exact Hds|done].
  - destruct (Hpos p) as (ds & d & Hds & Hdig & Hval).
    exists ds, d. split; [|done].
    change (list_ascii_of_string (pretty (Z.neg p)))
      with ("-"%char :: list_ascii_of_string (pretty (Npos p))).
    by rewrite Hds.
Qed.

Lemma lstrip_plain c l : Py.is_space c = false → Py.lstrip (c :: l) = c :: l.
Proof. intros Hc. simpl. by rewrite Hc. Qed.

Lemma strip_plain c l d :
  Py.is_space c = false → Py.is_space d = false →
  Py.strip (c :: l ++ [d]) = c :: l ++ [d].
Proof.
  intros Hc Hd. unfold Py.strip. rewrite lstrip_plain by done.
  assert (rev (c :: l ++ [d]) = d :: rev (c :: l)) as ->.
  { change (c :: l ++ [d]) with ((c :: l) ++ [d]). by rewrite rev_app_distr. }
  rewrite lstrip_plain by done.
  change (rev (d :: rev (c :: l))) with (rev (rev (c :: l)) ++ [d]).
  by rewrite rev_involutive.
Qed.

Lemma digitpart_digits ds d :
  Forall (λ c, Py.is_digit c = true) (ds ++ [d]) →
  Py.digitpart (ds ++ [d]) = Some (digits_value 0 (ds ++ [d]), []).
Proof.
  intros Hdig. destruct (ds ++ [d]) as [|c l] eqn:Hl; [by destruct ds|].
  inversion Hdig as [|? ? Hc Hl']; subst. simpl. rewrite Hc.
  rewrite digits_rest_app by done. unfold digits_value. simpl.
  by rewrite Z.mul_0_r, Z.add_0_l.
Qed.

Lemma digit_count_le l : (Py.digit_count l ≤ length l)%nat.
Proof. induction l as [|c l IH]; simpl; [done|]. destruct (Py.is_digit c); lia. Qed.

Lemma length_list_ascii s : length (list_ascii_of_string s) = String.length s.
Proof. induction s as [|c s IH]; simpl; [done|]. by rewrite IH. Qed.

(** a number below [10 ^ n] is printed with at most [n] digits *)
Lemma pretty_N_go_length (x : N) :
  ∀ s (n : Z),
    0 ≤ n → Z.of_N x < 10 ^ n →
    Z.of_nat (String.length (pretty_N_go x s))
    ≤ n + Z.of_nat (String.length s).
Proof.
  induction (N.lt_wf_0 x) as [x _ IH]; intros s n Hn Hx.
  destruct (decide (x = 0%N)) as [->|Hpos].
  - rewrite pretty_N_go_0. lia.
  - rewrite pretty_N_go_step by lia.
    assert (x `div` 10 < x)%N as Hlt by (apply N.div_lt; lia).
    assert (1 ≤ n) as Hone.
    { destruct (decide (n = 0)) as [->|]; [|lia]. simpl in Hx. lia. }
    assert (Z.of_N (x `div` 10) < 10 ^ (n - 1)) as Hdiv.
    { rewrite N2Z.inj_div. apply Z.div_lt_upper_bound; [lia|].
      rewrite <- Z.pow_succ_r by lia. by replace (Z.succ (n - 1)) with n by lia. }
    pose proof (IH _ Hlt (String (pretty_N_char (x `mod` 10)) s) (n - 1)
                  ltac:(lia) Hdiv) as Hlen.
    simpl in Hlen. lia.
Qed.

(** within the limit, [str(z)] has at most 4300 digits *)
Lemma pretty_Z_length (z : Z) :
  convertible z →
  Z.of_nat (String.length (pretty z)) ≤ 4300 + (if z <? 0 then 1 else 0).
Proof.
  unfold convertible. intros Hz.
  assert (∀ p : positive,
            Z.pos p < 10 ^ 4300 →
            Z.of_nat (String.length (pretty (Npos p))) ≤ 4300) as Hpos.
  { intros p Hp. unfold pretty, pretty_N.
    destruct (decide _) as [|_]; [done|].
    pose proof (pretty_N_go_length (Npos p) "" 4300 ltac:(lia) Hp) as Hlen.
    simpl String.length in Hlen at 2. lia. }
  destruct z as [|p|p].
  - done.
  - change (pretty (Z.pos p)) with (pretty (Npos p)).
    change (Z.pos p <? 0) with false. cbv iota. specialize (Hpos p Hz). lia.
  - change (pretty (Z.neg p)) with (String "-" (pretty (Npos p))).
    change (Z.neg p <? 0) with true. cbv iota.
    specialize (Hpos p Hz). simpl String.length. lia.
Qed.

(** the digits of [str(z)] are within the limit of [int()] when [z] is *)
Lemma pretty_Z_within (z : Z) ds d :
  convertible z →
  list_ascii_of_string (pretty z)
  = (if z <? 0 then ["-"%char] else []) ++ ds ++ [d] →
  (Z.of_nat (Py.digit_count (ds ++ [d])) <=? Py.max_str_digits) = true.
Proof.
  intros Hz Hchars. apply Z.leb_le. unfold Py.max_str_digits.
  pose proof (digit_count_le (ds ++ [d])) as Hcount.
  pose proof (pretty_Z_length z Hz) as Hlength.
  apply (f_equal length) in Hchars.
  rewrite length_list_ascii, length_app in Hchars.
  destruct (z <? 0); simpl length in Hchars; lia.
Qed.

(** [int(str(z)) == z], within the host's limit *)
Lemma py_int_pretty (z : Z) : convertible z → Py.py_int (pretty z) = Some z.
Proof.
  intros Hz.
  destruct (pretty_Z_chars z) as (ds & d & Hchars & Hdig & Hval).
  pose proof (pretty_Z_within z ds d Hz Hchars) as Hlimit.
  unfold Py.py_int. rewrite Hchars.
  pose proof Hdig as Hdig'.
  apply Forall_app in Hdig' as [Hds Hd]. inversion Hd as [|? ? Hd' _]; subst.
  destruct (digit_is_plain _ Hd') as (Hsp & _).
  assert (∃ c l, ds ++ [d] = c :: l ∧ Py.is_digit c = true) as (c & l & Hl & Hc).
  { destruct ds as [|c ds]; [by exists d, []|].
    inversion Hds; subst. by exists c, (ds ++ [d]). }
  destruct (digit_is_plain _ Hc) as (Hspc & Hm & Hp & _).
  assert (Py.strip (ds ++ [d]) = ds ++ [d]) as Hstrip.
  { destruct ds as [|c' ds].
    - unfold Py.strip. simpl app. rewrite lstrip_plain by done.
      change (rev [d]) with [d]. by rewrite lstrip_plain.
    - injection Hl as -> _. change ((c :: ds) ++ [d]) with (c :: ds ++ [d]).
      by rewrite strip_plain. }
  destruct (z <? 0) eqn:Hneg.
  - simpl app at 1. rewrite strip_plain by done.
    cbn [Py.split_sign Ascii.eqb Bool.eqb].
    rewrite digitpart_digits, Hlimit, Hval by done.
    apply Z.ltb_lt in Hneg. f_equal. lia.
  - simpl app at 1. rewrite Hstrip.
    assert (Py.split_sign (ds ++ [d]) = (false, ds ++ [d])) as ->.
    { rewrite Hl. unfold Py.split_sign. by rewrite Hm, Hp. }
    rewrite digitpart_digits, Hlimit, Hval by done.
    apply Z.ltb_ge in Hneg. f_equal. lia.
Qed.


Lemma contains_chars c s :
  Py.contains c s = false
  ↔ Forall (λ c', Ascii.eqb c' c = false) (list_ascii_of_string s).
Proof.
  induction s as [|c' s IH]; simpl.
  - split; [by constructor|done].
  - rewrite orb_false_iff, IH, Forall_cons. done.
Qed.

(** the printed form of an integer is not a quoted string, holds no
    point, and has the syntax of a float *)
Lemma pretty_Z_plain (z : Z) :
  Py.is_quoted (pretty z) = false
  ∧ Py.contains "." (pretty z) = false
  ∧ Py.float_ok (pretty z) = true.
Proof.
  destruct (pretty_Z_chars z) as (ds & d & Hchars & Hdig & Hval).
  assert (Forall (λ c, Ascii.eqb c "." = false ∧ Ascii.eqb c Py.quote = false)
            (list_ascii_of_string (pretty z))) as Hall.
  { rewrite Hchars. apply Forall_app. split.
    - destruct (z <? 0); by repeat constructor.
    - eapply Forall_impl; [exact Hdig|]. intros c Hc. simpl.
      by destruct (digit_is_plain _ Hc) as (_ & _ & _ & ? & ?). }
  split; [|split].
  - unfold Py.is_quoted. destruct (pretty z) as [|c s]; [done|].
    simpl in Hall. apply Forall_cons in Hall as [[_ Hq] _].
    simpl. by rewrite Hq.
  - apply contains_chars. eapply Forall_impl; [exact Hall|]. by intros c [? _].
  - unfold Py.float_ok. rewrite Hchars.
    pose proof Hdig as Hdig'.
    apply Forall_app in Hdig' as [Hds Hd]. inversion Hd as [|? ? Hd' _]; subst.
    destruct (digit_is_plain _ Hd') as (Hsp & Hm & Hp & Hpt & _).
    assert (Py.decimal_ok (ds ++ [d]) = true) as Hdec.
    { unfold Py.decimal_ok. rewrite digitpart_digits by done.
      destruct (ds ++ [d]) as [|c l] eqn:Hl; [by destruct ds|].
      inversion Hdig as [|? ? Hc _]; subst.
      by destruct (digit_is_plain _ Hc) as (_ & _ & _ & -> & _). }
    assert (snd (Py.split_sign
                   (Py.strip ((if z <? 0 then ["-"%char] else []) ++ ds ++ [d])))
            = ds ++ [d]) as ->.
    { destruct (z <? 0).
      - simpl app at 1. rewrite strip_plain by done. done.
      - simpl app at 1. destruct ds as [|c ds].
        + assert (Py.strip [d] = [d]) as Hstrip.
          { unfold Py.strip. rewrite lstrip_plain by done.
            change (rev [d]) with [d]. by rewrite lstrip_plain. }
          simpl app. rewrite Hstrip.
          unfold Py.split_sign. by rewrite Hm, Hp.
        + inversion Hds as [|? ? Hc _]; subst.
          destruct (digit_is_plain _ Hc) as (Hspc & Hmc & Hpc & _).
          change ((c :: ds) ++ [d]) with (c :: ds ++ [d]).
          rewrite strip_plain by done.
          unfold Py.split_sign. by rewrite Hmc, Hpc. }
    rewrite Hdec. apply orb_true_r.
Qed.

Lemma endswith_app c s : Py.endswith c (s +:+ String c "") = true.
Proof.
  induction s as [|c' s IH]; simpl; [apply Ascii.eqb_refl|].
  destruct (s +:+ String c "") eqn:Hs; [by destruct s|done].
Qed.

Lemma drop_last_app c s : Py.drop_last (s +:+ String c "") = s.
Proof.
  induction s as [|c' s IH]; simpl; [done|].
  destruct (s +:+ String c "") eqn:Hs; [by destruct s|].
  by rewrite IH.
Qed.

(** a string between quotes is a quoted string, and stripping the quotes
    gives the string back *)
Lemma quoted_strip s :
  Py.is_quoted (Py.quoted s) = true ∧ Py.strip_ends (Py.quoted s) = s.
Proof.
  unfold Py.is_quoted, Py.quoted. simpl. split.
  - destruct (s +:+ String Py.quote "") eqn:Hs; [by destruct s|].
    rewrite <- Hs. apply endswith_app.
  - apply drop_last_app.
Qed.

Lemma get_value_int_literal (vm : Interpreter.VM) (z : Z) :
  convertible z →
  Interpreter.get_value vm (IRGenerator.generate_Literal (VInt z))
  = Ok (VInt z).
Proof.
  intros Hz. simpl. destruct (pretty_Z_plain z) as (-> & -> & _).
  by rewrite py_int_pretty.
Qed.

Lemma get_value_string_literal (vm : Interpreter.VM) (s : string) :
  Interpreter.get_value vm (IRGenerator.generate_Literal (VStr s))
  = Ok (VStr s).
Proof.
  unfold IRGenerator.generate_Literal, Interpreter.get_value.
  by destruct (quoted_strip s) as [-> ->].
Qed.

(** The operand that the generator writes for an integer, a boolean or a
    string literal is read back by the interpreter as the value of the
    literal, in every state of the machine: no variable can capture a
    literal, and a string literal is read back whatever its characters
    are. *)
Theorem literal_operands_read_back (vm : Interpreter.VM) (v : value F) :
  is_plain_literal v →
  Interpreter.get_value vm (IRGenerator.generate_Literal v) = Ok v.
Proof.
  destruct v as [|b|z|f|s|a b|l]; try done; intros Hv.
  - by destruct b.
  - by apply get_value_int_literal.
  - apply get_value_string_literal.
Qed.

(** what the optimizer takes for the value of a constant operand is
    what the interpreter reads from that operand. *)
Theorem constants_are_read_alike (vm : Interpreter.VM) (x : value F) :
  Optimizer.is_constant x = true →
  Py.is_None (Optimizer.get_constant_value x) = false →
  Interpreter.get_value vm x = Ok (Optimizer.get_constant_value x).
Proof.
  intros Hc Hv. destruct x as [|b|z|f|s|a b|l]; try done.
  simpl in *. destruct (Py.is_quoted s); [done|].
  destruct (Py.contains "." s).
  - by rewrite Hc.
  - by destruct (Py.py_int s).
Qed.


Lemma set_heap_same (vm : Interpreter.VM) :
  Interpreter.set_heap vm (Interpreter.heap_of vm) = vm.
Proof. by destruct vm. Qed.

Lemma operand_value_literal (z : Z) :
  convertible z →
  Optimizer.operand_value ∅ (IRGenerator.generate_Literal (VInt z)) = VInt z.
Proof.
  intros Hz. unfold Optimizer.operand_value, lookup_operand. simpl.
  rewrite lookup_empty.
  destruct (pretty_Z_plain z) as (-> & -> & ->).
  by rewrite py_int_pretty.
Qed.

Lemma op_in_cases o l : op_in o l = true → o ∈ l.
Proof.
  unfold op_in. intros Hin. apply existsb_exists in Hin as (x & Hx & Heq).
  apply String.eqb_eq in Heq as ->. by apply list_elem_of_In.
Qed.

(** an arithmetic or relational instruction on two integer literals is
    folded to an assignment that the interpreter executes as it executes
    the instruction itself; a division or a remainder by zero is left in
    place. *)
Theorem integer_folding_agrees (vm : Interpreter.VM) o (a b : Z) r :
  convertible a → convertible b →
  op_in o Optimizer.folded_ops = true →
  (o = "**" → 0 ≤ b) →
  let i := TAC _ o (IRGenerator.generate_Literal (VInt a))
             (IRGenerator.generate_Literal (VInt b)) r in
  ∃ i', Optimizer.constant_folding [i] = Ok [i']
        ∧ Interpreter.execute_instruction vm i'
          = Interpreter.execute_instruction vm i
        ∧ (if (String.eqb o "/" || String.eqb o "%") && (b =? 0)
           then i' = i else op i' = "assign").
Proof.
  intros Hca Hcb Ho Hpow i.
  pose proof (operand_value_literal a Hca) as Ha.
  pose proof (operand_value_literal b Hcb) as Hb.
  pose proof (get_value_int_literal vm a Hca) as Ga.
  pose proof (get_value_int_literal vm b Hcb) as Gb.
  clear Hca Hcb. subst i.
  generalize dependent (IRGenerator.generate_Literal (VInt a)).
  generalize dependent (IRGenerator.generate_Literal (VInt b)).
  intros lb Hb Gb la Ha Ga.
  unfold Optimizer.constant_folding, Optimizer.fold_loop, Optimizer.fold_instr.
  apply op_in_cases in Ho. unfold Optimizer.folded_ops in Ho.
  repeat (apply elem_of_cons in Ho as [->|Ho]);
    [..|by apply elem_of_nil in Ho];
    cbn [op arg1 arg2 result op_in existsb String.eqb Ascii.eqb Bool.eqb
         orb andb Optimizer.control_ops];
    rewrite Ha, Hb; cbn [Py.is_None negb andb].
  all: unfold Interpreter.execute_instruction at 2;
    cbn [op arg1 arg2 result op_in existsb String.eqb Ascii.eqb Bool.eqb orb
         Interpreter.arithmetic_ops Interpreter.relational_ops];
    unfold Interpreter.operands; cbn [arg1 arg2]; rewrite Ga, Gb;
    cbn [mbind outcome_bind].
  all: unfold Interpreter.store_binop; simpl.
  all: try (eexists; split; [reflexivity|]; split; [|reflexivity];
            by rewrite set_heap_same).
  - unfold Optimizer.evaluate_operation, Optimizer.host_op, Py.binop,
      Py.scalar_binop, Py.int_binop. simpl.
    destruct (b =? 0) eqn:Hb0; simpl;
      (eexists; split; [reflexivity|]; split; [|reflexivity]).
    + unfold Interpreter.execute_instruction. simpl.
      unfold Interpreter.operands. simpl. rewrite Ga, Gb. simpl.
      by rewrite Hb0.
    + by rewrite set_heap_same.
  - unfold Optimizer.evaluate_operation, Optimizer.host_op, Py.binop,
      Py.scalar_binop, Py.int_binop. simpl.
    destruct (b =? 0) eqn:Hb0; simpl;
      (eexists; split; [reflexivity|]; split; [|reflexivity]).
    + unfold Interpreter.execute_instruction. simpl.
      unfold Interpreter.operands. simpl. rewrite Ga, Gb. simpl.
      by rewrite Hb0.
    + by rewrite set_heap_same.
  - unfold Optimizer.evaluate_operation, Optimizer.host_op, Py.binop,
      Py.scalar_binop, Py.int_binop. simpl.
    specialize (Hpow eq_refl). apply Z.leb_le in Hpow. rewrite Hpow. simpl.
    eexists; split; [reflexivity|]; split; [|reflexivity].
    by rewrite set_heap_same.
Qed.


(** copy propagation forgets a copy [x = y] when [x] is written, not
    when [y] is: after [x = y; y = c] a use of [x] is replaced by [y],
    which by then holds [c]. *)
Theorem copy_outlives_its_source x y (c : value F) :
  x ≠ y → x ≠ "" →
  Optimizer.is_constant (VStr x) = false →
  Optimizer.is_constant (VStr y) = false →
  Optimizer.is_constant c = true →
  Optimizer.copy_propagation
    [ Optimizer.assign (VStr y) (Some x);
      Optimizer.assign c (Some y);
      TAC _ "print" (VStr x) VNone None ]
  = [ Optimizer.assign (VStr y) (Some x);
      Optimizer.assign c (Some y);
      TAC _ "print" (VStr y) VNone None ].
Proof.
  intros Hxy Hx Hcx Hcy Hc.
  unfold Optimizer.copy_propagation, Optimizer.copy_loop, Optimizer.assign.
  unfold Optimizer.copy_instr at 1.
  cbn [op arg1 arg2 result op_in existsb orb andb negb String.eqb Ascii.eqb
       Bool.eqb Optimizer.control_ops Optimizer.is_str].
  rewrite Hcy. cbn [negb andb app].
  unfold Optimizer.copy_instr at 1.
  cbn [op arg1 arg2 result op_in existsb orb andb negb String.eqb Ascii.eqb
       Bool.eqb Optimizer.control_ops Optimizer.propagated_ops
       Optimizer.unary_ops].
  rewrite Hc, andb_false_r. cbn [negb andb app].
  assert (Optimizer.replace_copy (<[Some x := VStr y]> ∅) c = c) as ->.
  { unfold Optimizer.replace_copy.
    destruct (nonempty_str c) as [s|] eqn:Hs; [|done].
    destruct c; try done. simpl in Hs. case_match; [done|]. simplify_eq.
    rewrite lookup_insert_ne, lookup_empty; [done|]. congruence. }
  assert (∀ m : gmap (option string) (value F),
            m !! Some x = Some (VStr y) →
            fst (Optimizer.copy_instr m (TAC _ "print" (VStr x) VNone None))
              !! Some x = Some (VStr y)
            ∧ snd (Optimizer.copy_instr m (TAC _ "print" (VStr x) VNone None))
              = TAC _ "print" (VStr y) VNone None) as Hprint.
  { intros m Hm. unfold Optimizer.copy_instr. simpl.
    unfold Optimizer.replace_copy. simpl.
    apply String.eqb_neq in Hx. rewrite Hx. by rewrite Hm. }
  set (m := match result_name _ with Some _ => _ | None => _ end).
  assert (m !! Some x = Some (VStr y)) as Hm.
  { subst m. destruct (result_name _).
    - rewrite lookup_delete_ne by congruence. by rewrite lookup_insert_eq.
    - by rewrite lookup_insert_eq. }
  destruct (Hprint m Hm) as [_ Hsnd].
  destruct (Optimizer.copy_instr m _) as [m' i']. simpl in Hsnd. by subst.
Qed.


(** ** The shape of optimized code *)

Lemma fold_instr_shape constants (i : instr) :
  ∃ constants' o,
    Optimizer.fold_instr constants i = Ok (constants', o) ∧ folded_from i o.
Proof.
  unfold Optimizer.fold_instr, folded_from.
  destruct (op_in (op i) Optimizer.control_ops); [eauto|].
  destruct (String.eqb (op i) "assign") eqn:Hassign.
  { apply String.eqb_eq in Hassign. repeat case_match; eauto 10. }
  destruct (op_in (op i) Optimizer.folded_ops) eqn:Hfolded.
  { repeat case_match; eauto 10. }
  destruct (op_in (op i) Optimizer.unary_ops) eqn:Hunary;
    [|repeat case_match; eauto].
  destruct (String.eqb (op i) "-") eqn:Hminus.
  { apply String.eqb_eq in Hminus. rewrite Hminus in Hfolded. discriminate. }
  apply op_in_cases in Hunary. unfold Optimizer.unary_ops in Hunary.
  apply elem_of_cons in Hunary as [Hop|Hunary];
    [rewrite Hop in Hminus; discriminate|].
  apply list_elem_of_singleton in Hunary.
  destruct (negb _); simpl; eauto 10.
Qed.

Lemma fold_loop_shape code :
  ∀ constants optimized,
    ∃ out, Optimizer.fold_loop constants optimized code = Ok (optimized ++ out)
           ∧ Forall2 folded_from code out.
Proof.
  induction code as [|i code IH]; intros constants optimized; simpl.
  - exists []. by rewrite app_nil_r.
  - destruct (fold_instr_shape constants i) as (constants' & o & -> & Ho).
    simpl. destruct (IH constants' (optimized ++ [o])) as (out & -> & Hout).
    exists (o :: out). rewrite <- app_assoc. split; [done|by constructor].
Qed.

(** constant folding raises nothing and rewrites in place: its output
    has an instruction for each instruction of the input, in order, which
    is the input instruction or an assignment to the same result. *)
Theorem constant_folding_rewrites_in_place (code : list instr) :
  ∃ out, Optimizer.constant_folding code = Ok out
         ∧ Forall2 folded_from code out.
Proof.
  destruct (fold_loop_shape code ∅ []) as (out & Hout & Hshape).
  exists out. split; [exact Hout|exact Hshape].
Qed.

Lemma copy_instr_shape copies (i : instr) :
  copied_from i (snd (Optimizer.copy_instr copies i)).
Proof.
  unfold Optimizer.copy_instr, copied_from.
  destruct (op_in (op i) Optimizer.control_ops); [done|].
  repeat case_match; simpl; done.
Qed.

Lemma copy_loop_shape code :
  ∀ copies optimized,
    ∃ out, Optimizer.copy_loop copies optimized code = optimized ++ out
           ∧ Forall2 copied_from code out.
Proof.
  induction code as [|i code IH]; intros copies optimized; simpl.
  - exists []. by rewrite app_nil_r.
  - pose proof (copy_instr_shape copies i) as Ho.
    destruct (Optimizer.copy_instr copies i) as [copies' o]. simpl in Ho.
    destruct (IH copies' (optimized ++ [o])) as (out & -> & Hout).
    exists (o :: out). rewrite <- app_assoc. split; [done|by constructor].
Qed.

(** copy propagation rewrites operands only: its output has an
    instruction for each instruction of the input, in order, with the
    same op and the same result; labels and jumps are not touched. *)
Theorem copy_propagation_rewrites_operands (code : list instr) :
  Forall2 copied_from code (Optimizer.copy_propagation code).
Proof.
  destruct (copy_loop_shape code ∅ []) as (out & Hout & Hshape).
  unfold Optimizer.copy_propagation. rewrite Hout. exact Hshape.
Qed.

Lemma folded_ops_are_dropped o :
  o = "assign" ∨ op_in o Optimizer.folded_ops = true ∨ o = "not" →
  op_in o Optimizer.kept_ops = false.
Proof.
  intros [->|[Ho| ->]]; [done| |done].
  apply op_in_cases in Ho. unfold Optimizer.folded_ops in Ho.
  repeat (apply elem_of_cons in Ho as [->|Ho]; [done|]).
  by apply elem_of_nil in Ho.
Qed.

Lemma folding_keeps_the_kept code out :
  Forall2 folded_from code out →
  List.filter always_kept out = List.filter always_kept code.
Proof.
  induction 1 as [|i o code out Hio _ IH]; [done|]. simpl. rewrite IH.
  destruct Hio as [->|(v & -> & Hop)]; [done|].
  assert (always_kept (Optimizer.assign v (result i)) = false) as -> by done.
  assert (always_kept i = false) as ->; [|done].
  by apply folded_ops_are_dropped.
Qed.

Lemma copying_keeps_the_kept code out :
  Forall2 copied_from code out →
  map signature (List.filter always_kept out)
  = map signature (List.filter always_kept code).
Proof.
  induction 1 as [|i o code out (Hop & Hres & _) _ IH]; [done|]. simpl.
  assert (always_kept o = always_kept i) as ->.
  { unfold always_kept. by rewrite Hop. }
  destruct (always_kept i); simpl; [|done].
  rewrite IH. unfold signature at 1 3. by rewrite Hop, Hres.
Qed.

Lemma filter_filter_kept used code :
  List.filter always_kept (List.filter (Optimizer.keeps used) code)
  = List.filter always_kept code.
Proof.
  induction code as [|i code IH]; [done|]. simpl.
  unfold Optimizer.keeps at 1, always_kept at 2.
  destruct (op_in (op i) Optimizer.kept_ops) eqn:Hkept; simpl.
  - unfold always_kept at 1. by rewrite Hkept, IH.
  - destruct (match result_name i with Some _ => _ | None => _ end);
      simpl; [|done].
    unfold always_kept at 1. by rewrite Hkept.
Qed.

(** the optimizer returns for every code, and the labels, jumps,
    function markers, prints, returns, calls and params of its output are
    those of its input, in the same order, each with its op and its
    result. *)
Theorem optimize_keeps_the_skeleton (code : list instr) :
  ∃ out, Optimizer.optimize code = Ok out
         ∧ map signature (List.filter always_kept out)
           = map signature (List.filter always_kept code).
Proof.
  destruct (fold_loop_shape code ∅ []) as (c1 & Hc1 & Hfold).
  destruct (copy_loop_shape c1 ∅ []) as (c2 & Hc2 & Hcopy).
  unfold Optimizer.optimize, Optimizer.constant_folding. rewrite Hc1. simpl.
  eexists. split; [reflexivity|].
  unfold Optimizer.dead_code_elimination, Optimizer.copy_propagation.
  rewrite Hc2. simpl. rewrite sweep_filter. simpl.
  rewrite filter_filter_kept.
  rewrite (copying_keeps_the_kept _ _ Hcopy).
  by rewrite (folding_keeps_the_kept _ _ Hfold).
Qed.


(** ** Labels and function entries *)

Lemma find_label_from_first code :
  ∀ base l,
    Interpreter.find_label_from base code l
    = match list_find (λ i, op i = "label" ∧ result i = l) code with
      | Some (k, _) => Ok (base + Z.of_nat k)
      | None => Raise (label_not_found l)
      end.
Proof.
  induction code as [|i code IH]; intros base l; simpl; [done|].
  destruct (String.eqb_spec (op i) "label") as [Hop|Hop]; simpl.
  - destruct (decide (result i = l)) as [Hres|Hres].
    + rewrite bool_decide_eq_true_2 by done.
      rewrite decide_True by done. f_equal. lia.
    + rewrite bool_decide_eq_false_2 by done.
      rewrite decide_False by naive_solver.
      rewrite IH. destruct (list_find _ code) as [[k j]|]; simpl; [|done].
      f_equal. lia.
  - rewrite decide_False by naive_solver.
    rewrite IH. destruct (list_find _ code) as [[k j]|]; simpl; [|done].
    f_equal. lia.
Qed.

(** [find_label] returns the index of the first [label] instruction
    whose result is the label, and raises the interpreter's error when
    there is none. *)
Theorem find_label_finds_the_first (vm : Interpreter.VM) l :
  Interpreter.find_label vm l
  = match list_find (λ i, op i = "label" ∧ result i = l) (Interpreter.code vm) with
    | Some (k, _) => Ok (Z.of_nat k)
    | None => Raise (label_not_found l)
    end.
Proof.
  unfold Interpreter.find_label. rewrite find_label_from_first.
  by destruct (list_find _ _) as [[k j]|].
Qed.


Lemma build_function_table_app a b :
  ∀ i m,
    Interpreter.build_function_table i (a ++ b) m
    = Interpreter.build_function_table (i + Z.of_nat (length a)) b
        (Interpreter.build_function_table i a m).
Proof.
  induction a as [|x a IH]; intros i m; simpl.
  - by rewrite Z.add_0_r.
  - rewrite IH. f_equal. lia.
Qed.

Lemma build_function_table_absent f code :
  (∀ j, j ∈ code → ¬ begins f j) →
  ∀ i m, Interpreter.build_function_table i code m !! Some f = m !! Some f.
Proof.
  induction code as [|x code IH]; intros Hno i m; simpl; [done|].
  rewrite IH by (intros j Hj; apply Hno; by right).
  destruct (String.eqb_spec (op x) "begin_func") as [Hop|Hop]; [|done].
  destruct (key_of (arg1 x)) as [k|] eqn:Hk; [|done].
  apply lookup_insert_ne. intros ->.
  apply (Hno x); [by left|]. split; [done|].
  destruct (arg1 x); simpl in Hk; congruence.
Qed.

(** the function table maps a name to the index after the last
    [begin_func] of that name, and does not hold a name that no
    [begin_func] carries. *)
Theorem function_table_entries (code : list instr) input f :
  (∀ pre i post,
     code = pre ++ i :: post → begins f i → (∀ j, j ∈ post → ¬ begins f j) →
     Interpreter.functions (Interpreter.init code input) !! Some f
     = Some (Z.of_nat (length pre) + 1))
  ∧ ((∀ j, j ∈ code → ¬ begins f j) →
     Interpreter.functions (Interpreter.init code input) !! Some f = None).
Proof.
  split.
  - intros pre i post -> [Hop Harg] Hpost. simpl.
    rewrite build_function_table_app. simpl.
    rewrite build_function_table_absent by done.
    rewrite Hop, Harg. simpl. by rewrite lookup_insert_eq.
  - intros Hno. simpl. by rewrite build_function_table_absent.
Qed.

(** *** Skipping a function definition *)

Lemma range_from_cons (a b : Z) :
  a < b → Interpreter.range_from a b = a :: Interpreter.range_from (a + 1) b.
Proof.
  intros Hab. unfold Interpreter.range_from.
  replace (Z.to_nat (b - a)) with (S (Z.to_nat (b - (a + 1)))) by lia.
  simpl. rewrite Z.add_0_r. f_equal.
  rewrite <- seq_shift, map_map. apply map_ext. intros k. lia.
Qed.

Lemma range_from_nil (a b : Z) : b ≤ a → Interpreter.range_from a b = [].
Proof.
  intros Hab. unfold Interpreter.range_from.
  by replace (Z.to_nat (b - a)) with 0%nat by lia.
Qed.

Lemma index_nat {A} (l : list A) (k : nat) : Py.index l (Z.of_nat k) = l !! k.
Proof.
  unfold Py.index. destruct (decide (k < length l)%nat) as [Hk|Hk].
  - rewrite (proj2 (Z.leb_le _ _)), (proj2 (Z.ltb_lt _ _)) by lia. simpl.
    by rewrite Nat2Z.id.
  - rewrite (proj2 (Z.leb_le 0 _)), (proj2 (Z.ltb_ge _ _)) by lia. simpl.
    rewrite (proj2 (Z.ltb_ge _ 0)) by lia. rewrite andb_false_r.
    symmetry. apply lookup_ge_None. lia.
Qed.

(** the scan, when no index before [k] closes the definition *)
Lemma function_end_scan_closes code seg :
  ∀ (a : nat) d k e,
    drop a code = seg →
    seg !! k = Some e → op e = "end_func" →
    foldl depth_step d (take (S k) seg) = 0 →
    (∀ k' e', (k' < k)%nat → seg !! k' = Some e' → op e' = "end_func" →
              foldl depth_step d (take (S k') seg) ≠ 0) →
    Interpreter.function_end_scan code d
      (Interpreter.range_from (Z.of_nat a) (Z.of_nat (length code)))
    = Ok (Z.of_nat a + Z.of_nat k + 1).
Proof.
  induction seg as [|x seg IH]; intros a d k e Hdrop Hk Hend Hzero Hfirst;
    [done|].
  assert (code !! a = Some x) as Hx.
  { rewrite <- (take_drop a code), Hdrop.
    assert (a ≤ length code)%nat.
    { destruct (decide (a ≤ length code)%nat); [done|].
      rewrite drop_ge in Hdrop by lia. done. }
    rewrite lookup_app_r by (rewrite length_take; lia).
    rewrite length_take. by replace (a - a `min` length code)%nat with 0%nat by lia. }
  assert (drop (S a) code = seg) as Hdrop'.
  { replace (S a) with (a + 1)%nat by lia. by rewrite <- drop_drop, Hdrop. }
  pose proof (lookup_lt_Some _ _ _ Hx) as Hlt.
  rewrite range_from_cons by lia. simpl.
  rewrite index_nat, Hx.
  replace (Z.of_nat a + 1) with (Z.of_nat (S a)) by lia.
  destruct k as [|k].
  - simpl in Hk. simplify_eq. simpl in Hzero. unfold depth_step in Hzero.
    rewrite Hend in *. simpl in Hzero.
    simpl. rewrite Hzero. simpl. f_equal. lia.
  - simpl in Hk. simpl take in Hzero. simpl foldl in Hzero.
    assert (∀ d',
              d' = depth_step d x →
              Interpreter.function_end_scan code d'
                (Interpreter.range_from (Z.of_nat (S a))
                   (Z.of_nat (length code)))
              = Ok (Z.of_nat a + Z.of_nat (S k) + 1)) as Hrec.
    { intros d' ->.
      rewrite (IH (S a) (depth_step d x) k e Hdrop' Hk Hend Hzero).
      - f_equal. lia.
      - intros k' e' ? ? ?. apply (Hfirst (S k') e'); [lia|done|done]. }
    unfold depth_step in Hrec.
    destruct (String.eqb (op x) "begin_func"); [by apply Hrec|].
    destruct (String.eqb_spec (op x) "end_func") as [Hop|Hop];
      [|by apply Hrec].
    destruct (d - 1 =? 0) eqn:Hd; [|by apply Hrec].
    apply Z.eqb_eq in Hd. exfalso.
    apply (Hfirst 0%nat x); [lia|done|done|].
    simpl. unfold depth_step. by rewrite Hop.
Qed.

(** the scan, when no index closes the definition *)
Lemma function_end_scan_open code seg :
  ∀ (a : nat) d,
    drop a code = seg →
    (∀ k e, seg !! k = Some e → op e = "end_func" →
            foldl depth_step d (take (S k) seg) ≠ 0) →
    Interpreter.function_end_scan code d
      (Interpreter.range_from (Z.of_nat a) (Z.of_nat (length code)))
    = Ok (Z.of_nat (length code)).
Proof.
  induction seg as [|x seg IH]; intros a d Hdrop Hopen.
  - rewrite range_from_nil; [done|].
    apply drop_nil_inv in Hdrop. lia.
  - assert (code !! a = Some x) as Hx.
    { rewrite <- (take_drop a code), Hdrop.
      assert (a ≤ length code)%nat.
      { destruct (decide (a ≤ length code)%nat); [done|].
        rewrite drop_ge in Hdrop by lia. done. }
      rewrite lookup_app_r by (rewrite length_take; lia).
      rewrite length_take.
      by replace (a - a `min` length code)%nat with 0%nat by lia. }
    assert (drop (S a) code = seg) as Hdrop'.
    { replace (S a) with (a + 1)%nat by lia. by rewrite <- drop_drop, Hdrop. }
    pose proof (lookup_lt_Some _ _ _ Hx) as Hlt.
    rewrite range_from_cons by lia. simpl.
    rewrite index_nat, Hx.
    replace (Z.of_nat a + 1) with (Z.of_nat (S a)) by lia.
    assert (∀ d',
              d' = depth_step d x →
              Interpreter.function_end_scan code d'
                (Interpreter.range_from (Z.of_nat (S a))
                   (Z.of_nat (length code)))
              = Ok (Z.of_nat (length code))) as Hrec.
    { intros d' ->. apply IH; [done|].
      intros k e ? ?. by apply (Hopen (S k) e). }
    unfold depth_step in Hrec.
    destruct (String.eqb (op x) "begin_func"); [by apply Hrec|].
    destruct (String.eqb_spec (op x) "end_func") as [Hop|Hop];
      [|by apply Hrec].
    destruct (d - 1 =? 0) eqn:Hd; [|by apply Hrec].
    apply Z.eqb_eq in Hd. exfalso.
    apply (Hopen 0%nat x); [done|done|].
    simpl. unfold depth_step. by rewrite Hop.
Qed.

(** a [begin_func] that is executed moves the program counter past the
    first [end_func] that brings the nesting depth, counted from the
    [begin_func], back to zero; definitions nested in the body are
    skipped with it.  When no [end_func] does, the program counter is set
    to the length of the code, which ends the run. *)
Theorem definitions_are_skipped (vm : Interpreter.VM) (i : instr) :
  op i = "begin_func" → 0 ≤ Interpreter.pc vm →
  (∀ k, closes (rest_of_code vm) k →
        (∀ k', (k' < k)%nat → ¬ closes (rest_of_code vm) k') →
        Interpreter.execute_instruction vm i
        = Ok (Interpreter.set_pc vm (Interpreter.pc vm + Z.of_nat k + 1)))
  ∧ ((∀ k, ¬ closes (rest_of_code vm) k) →
     Interpreter.execute_instruction vm i
     = Ok (Interpreter.set_pc vm
             (Z.of_nat (length (Interpreter.code vm))))).
Proof.
  intros Hop Hpc.
  assert (∀ r, Interpreter.find_function_end vm = Ok r →
               Interpreter.execute_instruction vm i
               = Ok (Interpreter.set_pc vm r)) as Hexec.
  { intros r Hr. unfold Interpreter.execute_instruction. rewrite Hop. simpl.
    by rewrite Hr. }
  unfold closes, rest_of_code, depth. split.
  - intros k (e & Hk & Hend & Hzero) Hfirst. apply Hexec.
    unfold Interpreter.find_function_end.
    rewrite <- (Z2Nat.id (Interpreter.pc vm)) at 1 2 by done.
    apply (function_end_scan_closes _ _ _ _ _ e eq_refl Hk Hend Hzero).
    intros k' e' Hlt Hk' Hend' Hzero'. apply (Hfirst k' Hlt). eauto.
  - intros Hopen. apply Hexec.
    unfold Interpreter.find_function_end.
    rewrite <- (Z2Nat.id (Interpreter.pc vm)) at 1 by done.
    apply (function_end_scan_open _ _ _ _ eq_refl).
    intros k e Hk Hend Hzero. apply (Hopen k). eauto.
Qed.


(** ** Calls *)

Lemma collect_params_window (vm : Interpreter.VM) n :
  ∀ (idxs : list Z) (seg : list instr) (a : nat),
    length seg = length idxs →
    (∀ j p, seg !! j = Some p → Interpreter.code vm !! (a + j)%nat = Some p) →
    (∀ j k, idxs !! j = Some k →
            Interpreter.pc vm - n + k = Z.of_nat (a + j)) →
    Interpreter.collect_params vm n idxs
    = values_of vm (arg1 <$> List.filter is_param seg).
Proof.
  induction idxs as [|k idxs IH]; intros seg a Hlen Hseg Hidx.
  - by destruct seg.
  - destruct seg as [|p seg]; [done|]. simpl in Hlen.
    simpl. rewrite (Hidx 0%nat k eq_refl), index_nat.
    rewrite (Hseg 0%nat p eq_refl).
    assert (Interpreter.collect_params vm n idxs
            = values_of vm (arg1 <$> List.filter is_param seg)) as ->.
    { apply (IH seg (S a)).
      - lia.
      - intros j q Hj. replace (S a + j)%nat with (a + S j)%nat by lia.
        by apply Hseg.
      - intros j k' Hj. pose proof (Hidx (S j) k' Hj). lia. }
    change (is_param p) with (String.eqb (op p) "param").
    by destruct (String.eqb (op p) "param").
Qed.

Lemma range_lookup (n : Z) (j : nat) k :
  Interpreter.range n !! j = Some k → k = Z.of_nat j.
Proof.
  unfold Interpreter.range. rewrite list_lookup_fmap.
  intros Hj. apply fmap_Some in Hj as (x & Hx & ->).
  apply lookup_seq in Hx as [-> _]. done.
Qed.

(** [call] takes the parameters of the frame from the [n]
    instructions that precede it, where [n] is its second operand: the
    parameters are the values of the operands of those among them that
    are [param] instructions, in order.  It saves the address after the
    call and the variables, and enters the function. *)
Theorem call_reads_the_params_before_it (vm : Interpreter.VM) (i : instr)
    f (n entry : Z) vs :
  op i = "call" → arg1 i = VStr f → arg2 i = VInt n →
  0 ≤ n ≤ Interpreter.pc vm →
  Interpreter.pc vm ≤ Z.of_nat (length (Interpreter.code vm)) →
  values_of vm (arg1 <$> List.filter is_param (window vm n)) = Ok vs →
  Interpreter.functions vm !! Some f = Some entry →
  Interpreter.execute_instruction vm i
  = Ok (Interpreter.set_pc (Interpreter.push_frame vm (new_frame vm vs))
          entry).
Proof.
  intros Hop Hf Hn Hrange Hpc Hvs Hentry.
  apply (call_saves_the_variables vm i n vs (Some f) entry); try done.
  - by rewrite Hn.
  - rewrite <- Hvs. unfold window.
    apply (collect_params_window vm n _ _
             (Z.to_nat (Interpreter.pc vm - n))).
    + rewrite length_take, length_drop. unfold Interpreter.range.
      rewrite length_map, length_seq. lia.
    + intros j p Hj. apply lookup_take_Some in Hj as [Hj _].
      by rewrite lookup_drop in Hj.
    + intros j k Hj. apply range_lookup in Hj as ->. lia.
  - by rewrite Hf.
Qed.


(** *** Binding the parameters *)

Lemma VM_ext (a b : Interpreter.VM) :
  Interpreter.code a = Interpreter.code b →
  Interpreter.variables a = Interpreter.variables b →
  Interpreter.functions a = Interpreter.functions b →
  Interpreter.call_stack a = Interpreter.call_stack b →
  Interpreter.pc a = Interpreter.pc b →
  Interpreter.output a = Interpreter.output b →
  Interpreter.heap_of a = Interpreter.heap_of b →
  Interpreter.stdout a = Interpreter.stdout b →
  Interpreter.stdin a = Interpreter.stdin b →
  Interpreter.draws a = Interpreter.draws b →
  a = b.
Proof. destruct a, b. simpl. by intros -> -> -> -> -> -> -> -> -> ->. Qed.

Lemma with_index_twice (frame : Interpreter.Frame) j k :
  with_index (with_index frame j) k = with_index frame k.
Proof. done. Qed.

(** one [param_decl]: the whole state that follows *)
Lemma param_decl_step (vm : Interpreter.VM) frame rest x :
  Interpreter.call_stack vm = frame :: rest →
  0 ≤ Interpreter.pc vm →
  Interpreter.code vm !! Z.to_nat (Interpreter.pc vm) = Some (param_decl x) →
  let k := default 0%nat (Interpreter.param_index frame) in
  Interpreter.step vm
  = Ok (Interpreter.set_pc
          (Interpreter.set_variables
             (Interpreter.set_call_stack vm
                (with_index frame
                   (Some match Interpreter.params frame !! k with
                         | Some _ => S k
                         | None => k
                         end) :: rest))
             match Interpreter.params frame !! k with
             | Some v => <[Some x := v]> (Interpreter.variables vm)
             | None => Interpreter.variables vm
             end)
          (Interpreter.pc vm + 1)).
Proof.
  intros Hstack Hpc Hcode k. unfold Interpreter.step.
  pose proof (index_nat (Interpreter.code vm) (Z.to_nat (Interpreter.pc vm)))
    as Hfetch.
  rewrite Z2Nat.id in Hfetch by done. rewrite Hfetch, Hcode.
  unfold Interpreter.execute_instruction, param_decl. simpl.
  rewrite Hstack. fold k.
  destruct (Interpreter.params frame !! k) as [v|]; simpl;
    by rewrite Z.eqb_refl.
Qed.

(** the [param_decl] instructions of a function, from any index of the
    frame *)
Lemma param_decls_steps names :
  ∀ (vm : Interpreter.VM) frame rest,
    Interpreter.call_stack vm = frame :: rest →
    0 ≤ Interpreter.pc vm →
    (∀ j x, names !! j = Some x →
            Interpreter.code vm !! (Z.to_nat (Interpreter.pc vm) + j)%nat
            = Some (param_decl x)) →
    let k := default 0%nat (Interpreter.param_index frame) in
    Interpreter.steps (length names) vm
    = Ok (Interpreter.set_pc
            (Interpreter.set_variables
               (Interpreter.set_call_stack vm
                  (match names with
                   | [] => frame
                   | _ :: _ =>
                       with_index frame
                         (Some (k + min (length names)
                                      (length (Interpreter.params frame) - k))%nat)
                   end :: rest))
               (bind_all (Interpreter.variables vm)
                  (zip names (drop k (Interpreter.params frame)))))
            (Interpreter.pc vm + Z.of_nat (length names))).
Proof.
  induction names as [|x names IH]; intros vm frame rest Hstack Hpc Hcode k.
  - simpl. f_equal. apply VM_ext; simpl; try done. lia.
  - cbn [Interpreter.steps length].
    rewrite (param_decl_step vm frame rest x Hstack Hpc).
    2:{ rewrite <- (Hcode 0%nat x eq_refl). f_equal. lia. }
    fold k. cbn [mbind outcome_bind].
    set (k1 := match Interpreter.params frame !! k with
               | Some _ => S k
               | None => k
               end).
    rewrite (IH _ (with_index frame (Some k1)) rest); [|done|simpl; lia|].
    2:{ intros j y Hj. simpl. rewrite <- (Hcode (S j) y Hj). f_equal. lia. }
    f_equal. apply VM_ext; simpl; try done; [| |lia].
    + subst k1. destruct (Interpreter.params frame !! k) as [v|] eqn:Hk.
      * by rewrite (drop_S _ _ _ Hk).
      * rewrite (drop_ge _ k) by (by apply lookup_ge_None).
        by destruct names.
    + f_equal. subst k1.
      destruct (Interpreter.params frame !! k) as [v|] eqn:Hk.
      * apply lookup_lt_Some in Hk.
        destruct names; rewrite ?with_index_twice; f_equal; f_equal;
          simpl length;
          destruct (length (Interpreter.params frame) - k)%nat eqn:Hleft;
          lia.
      * apply lookup_ge_None in Hk.
        destruct names; rewrite ?with_index_twice; f_equal; f_equal;
          simpl length;
          destruct (length (Interpreter.params frame) - k)%nat eqn:Hleft;
          lia.
Qed.

(** The [param_decl] instructions at the entry of a function bind their
    names to the parameters of the frame on top of the stack, the first
    name to the first parameter and so on, and leave in the frame the
    number of the parameters bound.  A name for which no parameter is left
    is not written: it keeps the binding that it had, the caller's if
    there is one, since [call] leaves the variables of the caller in
    place.  The variables, the index of the frame and the program counter
    are all that changes in the machine. *)
Theorem param_decls_bind_in_order (vm : Interpreter.VM) frame rest names :
  Interpreter.call_stack vm = frame :: rest →
  Interpreter.param_index frame = None →
  0 ≤ Interpreter.pc vm →
  (∀ j x, names !! j = Some x →
          Interpreter.code vm !! (Z.to_nat (Interpreter.pc vm) + j)%nat
          = Some (param_decl x)) →
  Interpreter.steps (length names) vm
  = Ok (Interpreter.set_pc
          (Interpreter.set_variables
             (Interpreter.set_call_stack vm
                (declared frame (length names) :: rest))
             (bind_all (Interpreter.variables vm)
                (zip names (Interpreter.params frame))))
          (Interpreter.pc vm + Z.of_nat (length names))).
Proof.
  intros Hstack Hnone Hpc Hcode.
  rewrite (param_decls_steps names vm frame rest Hstack Hpc Hcode).
  rewrite Hnone. change (default 0%nat None) with 0%nat.
  rewrite drop_0, Nat.sub_0_r. by destruct names.
Qed.

(** ** Arrays *)

Lemma get_value_variables (vm vm' : Interpreter.VM) x :
  Interpreter.variables vm' = Interpreter.variables vm →
  Interpreter.get_value vm' x = Interpreter.get_value vm x.
Proof. intros Hv. unfold Interpreter.get_value. by rewrite Hv. Qed.

Lemma str_int_within (k : Z) : convertible k → Py.str_int k = Ok (pretty k).
Proof.
  unfold convertible, Py.str_int, Py.max_str_digits. intros Hk.
  by rewrite (proj2 (Z.ltb_lt _ _) Hk).
Qed.

Local Arguments Py.str_int : simpl never.

(** an [array_set] within the bounds replaces one element of the list
    that the name denotes and changes nothing else; an [array_get] that
    follows, through any operand that denotes the same list and with the
    same index, stores the value that was written. *)
Theorem array_set_then_get (vm : Interpreter.VM) a l xs idx k x v :
  Interpreter.variables vm !! Some a = Some (VList l) →
  Interpreter.heap_of vm !! l = Some xs →
  Interpreter.get_value vm idx = Ok (VInt k) →
  0 ≤ k < Z.of_nat (length xs) →
  Interpreter.get_value vm x = Ok v →
  ∃ vm',
    Interpreter.execute_instruction vm (TAC _ "array_set" idx x (Some a))
    = Ok vm'
    ∧ vm' = Interpreter.set_heap vm
              (<[l := <[Z.to_nat k := v]> xs]> (Interpreter.heap_of vm))
    ∧ ∀ arr r,
        Interpreter.get_value vm arr = Ok (VList l) →
        Interpreter.execute_instruction vm' (TAC _ "array_get" arr idx r)
        = Ok (Interpreter.store vm' r v).
Proof.
  intros Ha Hl Hidx Hk Hx.
  assert (Interpreter.check_index xs (VInt k) = Ok (Z.to_nat k)) as Hcheck.
  { unfold Interpreter.check_index. simpl.
    rewrite (proj2 (Z.ltb_ge _ _)), (proj2 (Z.leb_gt _ _)) by lia. done. }
  eexists. split; [|split; [reflexivity|]].
  - unfold Interpreter.execute_instruction. simpl.
    rewrite Ha, Hidx, Hx. simpl. by rewrite Hl, Hcheck.
  - intros arr r Harr.
    set (vm' := Interpreter.set_heap vm _).
    unfold Interpreter.execute_instruction. simpl.
    rewrite !(get_value_variables vm vm') by done.
    rewrite Harr, Hidx. simpl.
    rewrite list_lookup_insert_eq by (by eapply lookup_lt_Some).
    assert (Interpreter.check_index (<[Z.to_nat k := v]> xs) (VInt k)
            = Ok (Z.to_nat k)) as ->.
    { unfold Interpreter.check_index. simpl. rewrite length_insert.
      rewrite (proj2 (Z.ltb_ge _ _)), (proj2 (Z.leb_gt _ _)) by lia. done. }
    simpl. rewrite list_lookup_insert_eq by lia. done.
Qed.

(** an index that is negative, or not below the length of the list,
    makes [array_get] and [array_set] raise the interpreter's error; the
    negative indices of the host are not accepted.  The index is of at
    most 4300 digits: the host raises [ValueError] when it is to print a
    longer one in the message. *)
Theorem array_index_out_of_bounds (vm : Interpreter.VM) a arr l xs idx k x r :
  Interpreter.heap_of vm !! l = Some xs →
  Interpreter.get_value vm idx = Ok (VInt k) →
  k < 0 ∨ Z.of_nat (length xs) ≤ k →
  convertible k →
  (Interpreter.get_value vm arr = Ok (VList l) →
   Interpreter.execute_instruction vm (TAC _ "array_get" arr idx r)
   = Raise (out_of_bounds k))
  ∧ (Interpreter.variables vm !! Some a = Some (VList l) →
     (∃ v, Interpreter.get_value vm x = Ok v) →
     Interpreter.execute_instruction vm (TAC _ "array_set" idx x (Some a))
     = Raise (out_of_bounds k)).
Proof.
  intros Hl Hidx Hk Hprint.
  assert (Interpreter.check_index xs (VInt k) = Raise (out_of_bounds k))
    as Hcheck.
  { unfold Interpreter.check_index. cbn [Py.as_int].
    assert ((k <? 0) || (Z.of_nat (length xs) <=? k) = true) as ->.
    { apply orb_true_iff. rewrite Z.ltb_lt, Z.leb_le. lia. }
    by rewrite str_int_within. }
  split.
  - intros Harr. unfold Interpreter.execute_instruction. simpl.
    rewrite Harr, Hidx. simpl. by rewrite Hl, Hcheck.
  - intros Ha [v Hx]. unfold Interpreter.execute_instruction. simpl.
    rewrite Ha, Hidx, Hx. simpl. by rewrite Hl, Hcheck.
Qed.


Lemma pretty_Z_nonempty (z : Z) : String.eqb (pretty z) "" = false.
Proof.
  destruct (pretty_Z_chars z) as (ds & d & Hchars & _).
  destruct (pretty z); [|done].
  simpl in Hchars. by destruct (z <? 0), ds.
Qed.

Lemma literal_is_constant (z : Z) :
  convertible z →
  Optimizer.is_constant (VStr (pretty z)) = true
  ∧ Optimizer.get_constant_value (VStr (pretty z)) = VInt z.
Proof.
  intros Hz. unfold Optimizer.is_constant, Optimizer.get_constant_value.
  destruct (pretty_Z_plain z) as (-> & -> & ->).
  by rewrite py_int_pretty.
Qed.

Lemma literal_text (z : Z) :
  convertible z →
  Py.is_quoted (pretty z) = false ∧ Py.contains "." (pretty z) = false
  ∧ Py.float_ok (pretty z) = true ∧ Py.py_int (pretty z) = Some z
  ∧ String.eqb (pretty z) "" = false.
Proof.
  intros Hz. destruct (pretty_Z_plain z) as (-> & -> & ->).
  by rewrite py_int_pretty, pretty_Z_nonempty.
Qed.

Local Arguments Py.is_quoted : simpl never.
Local Arguments Py.float_ok : simpl never.
Local Arguments Py.py_int : simpl never.

(** evaluation of a predicate of the host on the text of a name *)
Ltac on_text :=
  match goal with
  | |- context [Py.is_quoted (String ?c ?s)] =>
      let v := eval vm_compute in (Py.is_quoted (String c s)) in
      change (Py.is_quoted (String c s)) with v
  | |- context [Py.float_ok (String ?c ?s)] =>
      let v := eval vm_compute in (Py.float_ok (String c s)) in
      change (Py.float_ok (String c s)) with v
  | |- context [Py.py_int (String ?c ?s)] =>
      let v := eval vm_compute in (Py.py_int (String c s)) in
      change (Py.py_int (String c s)) with v
  end.

Ltac crunch facts :=
  repeat first
    [ progress cbn
    | on_text
    | rewrite lookup_insert_eq
    | rewrite lookup_insert_ne by congruence
    | rewrite lookup_delete_eq
    | rewrite lookup_delete_ne by congruence
    | rewrite lookup_empty
    | rewrite delete_empty
    | match goal with
      | |- context [Z.of_nat ?n] =>
          let v := eval vm_compute in (Z.of_nat n) in
          change (Z.of_nat n) with v
      | |- context [Z.to_nat ?n] =>
          let v := eval vm_compute in (Z.to_nat n) in
          change (Z.to_nat n) with v
      end
    | progress unfold Interpreter.run, Interpreter.step, Py.index
    | rewrite orb_true_r
    | progress unfold Optimizer.replace_copy, Optimizer.operand_name,
        nonempty_str
    | progress facts ].

(** the first round of the loop, on an assignment of an integer literal *)
Lemma run_literal_assignment n (rest : list instr) input x z :
  convertible z →
  let code :=
    TAC _ "assign" (IRGenerator.generate_Literal (VInt z)) VNone (Some x)
    :: rest in
  Interpreter.run (S n) (Interpreter.init code input)
  = Interpreter.run n
      (Interpreter.set_pc
         (Interpreter.store (Interpreter.init code input) (Some x) (VInt z))
         1).
Proof.
  intros Hz code. cbn [Interpreter.run].
  change (Interpreter.pc (Interpreter.init code input)) with (Z.of_nat 0).
  change (Interpreter.code (Interpreter.init code input)) with code.
  assert ((Z.of_nat 0 <? Z.of_nat (length code)) = true) as ->.
  { apply Z.ltb_lt. simpl. lia. }
  unfold Interpreter.step.
  change (Interpreter.pc (Interpreter.init code input)) with (Z.of_nat 0).
  change (Interpreter.code (Interpreter.init code input)) with code.
  rewrite index_nat. simpl lookup.
  unfold Interpreter.execute_instruction. simpl.
  destruct (literal_text z Hz) as (-> & -> & _ & -> & _). done.
Qed.

(** The optimizer changes what a program prints: constant folding goes
    through the body of a function definition as through the code around
    it.  For
    [int x = a; function int f() { x = b; return 0; } int y = x; print(y);]
    the analyzer accepts the program, the interpreter skips the definition
    and prints [a]; constant folding takes the assignment in the body for
    the last one to [x] and rewrites [y = x] into [y = b], so that the
    optimized code prints [b]. *)
Theorem constants_leak_out_of_definitions (a b : Z) input :
  convertible a → convertible b →
  is_ok (Semantic.analyze Semantic.init (shadowed_program a b)) = true
  ∧ IRGenerator.run (shadowed_program a b) = Ok (shadowed_ir a b)
  ∧ Interpreter.execute 7 (shadowed_ir a b) input = Some (Ok [pretty a])
  ∧ Optimizer.optimize (shadowed_ir a b) = Ok (shadowed_optimized a b)
  ∧ Interpreter.execute 7 (shadowed_optimized a b) input
    = Some (Ok [pretty b]).
Proof.
  intros Hca Hcb.
  split; [vm_compute; reflexivity|].
  split; [vm_compute; reflexivity|].
  split; [|split].
  - unfold Interpreter.execute, shadowed_ir.
    rewrite run_literal_assignment by done. vm_compute. reflexivity.
  - unfold Optimizer.optimize, shadowed_ir, shadowed_optimized.
    unfold IRGenerator.generate_Literal, Py.str.
    destruct (literal_text a Hca) as (Ha1 & Ha2 & Ha3 & Ha4 & Ha5).
    destruct (literal_text b Hcb) as (Hb1 & Hb2 & Hb3 & Hb4 & Hb5).
    clear Hca Hcb.
    generalize dependent (pretty a). generalize dependent (pretty b).
    intros sb Hb1 Hb2 Hb3 Hb4 Hb5 sa Ha1 Ha2 Ha3 Ha4 Ha5.
    crunch ltac:(rewrite ?Ha1, ?Ha2, ?Ha3, ?Ha4, ?Ha5,
                   ?Hb1, ?Hb2, ?Hb3, ?Hb4, ?Hb5).
    reflexivity.
  - unfold Interpreter.execute, shadowed_optimized.
    rewrite run_literal_assignment by done. vm_compute. reflexivity.
Qed.

Local Arguments Py.quoted : simpl never.
Local Arguments Py.strip_ends : simpl never.

(** the first round of the loop, on an assignment of a string literal *)
Lemma run_string_assignment n (rest : list instr) input x s :
  let code := TAC _ "assign" (VStr (Py.quoted s)) VNone (Some x) :: rest in
  Interpreter.run (S n) (Interpreter.init code input)
  = Interpreter.run n
      (Interpreter.set_pc
         (Interpreter.store (Interpreter.init code input) (Some x) (VStr s))
         1).
Proof.
  intros code. cbn [Interpreter.run].
  change (Interpreter.pc (Interpreter.init code input)) with (Z.of_nat 0).
  change (Interpreter.code (Interpreter.init code input)) with code.
  assert ((Z.of_nat 0 <? Z.of_nat (length code)) = true) as ->.
  { apply Z.ltb_lt. simpl. lia. }
  unfold Interpreter.step.
  change (Interpreter.pc (Interpreter.init code input)) with (Z.of_nat 0).
  change (Interpreter.code (Interpreter.init code input)) with code.
  rewrite index_nat. simpl lookup.
  unfold Interpreter.execute_instruction. simpl.
  destruct (quoted_strip s) as [-> ->]. done.
Qed.

(** The optimizer breaks a program that copies a string variable.
    Constant folding records the value of a string literal without its
    quotes and writes that value as the operand wherever the variable is
    copied; the interpreter reads an operand without quotes as a number,
    a boolean or the name of a variable.  For
    [string s = "..."; string t = s; print(t);] the analyzer accepts the
    program and the interpreter prints the characters of the literal; the
    optimized code prints the variable named by those characters, and
    raises when they are not the text of a literal and name no variable. *)
Theorem copied_strings_lose_their_quotes (text : string) input :
  is_literal_text text = false → Py.float_ok text = false →
  text ≠ "s" → text ≠ "t" →
  is_ok (Semantic.analyze Semantic.init (copied_string_program text)) = true
  ∧ IRGenerator.run (copied_string_program text) = Ok (copied_string_ir text)
  ∧ Interpreter.execute 3 (copied_string_ir text) input = Some (Ok [text])
  ∧ Optimizer.optimize (copied_string_ir text)
    = Ok (copied_string_optimized text)
  ∧ Interpreter.execute 2 (copied_string_optimized text) input
    = Some (Raise (undefined_variable text)).
Proof.
  intros Hname Hfloat Hs Ht.
  unfold is_literal_text in Hname.
  apply orb_false_elim in Hname as [Hname Hfalse].
  apply orb_false_elim in Hname as [Hname Htrue].
  apply orb_false_elim in Hname as [Hquoted Hnumber].
  split; [vm_compute; reflexivity|].
  split; [vm_compute; reflexivity|].
  split; [|split].
  - unfold Interpreter.execute, copied_string_ir.
    rewrite run_string_assignment. vm_compute. reflexivity.
  - unfold Optimizer.optimize, copied_string_ir, copied_string_optimized.
    destruct (quoted_strip text) as [Hq Hstrip].
    assert ((Py.quoted text =? "")%string = false) as Hqne by done.
    crunch ltac:(rewrite ?Hq, ?Hstrip, ?Hquoted, ?Hfloat, ?Hqne).
    rewrite bool_decide_eq_false_2; [done|].
    destruct (text =? "")%string; unfold Optimizer.add_opt; set_solver.
  - unfold Interpreter.execute, copied_string_optimized.
    rewrite run_string_assignment.
    crunch ltac:(rewrite ?Hquoted, ?Hfloat, ?Htrue, ?Hfalse).
    destruct (Py.contains "." text); [done|].
    apply bool_decide_eq_false in Hnumber.
    destruct (Py.py_int text); [|done]. by destruct Hnumber.
Qed.


(** ** The lexer *)

Lemma get_lt s : ∀ n c, String.get n s = Some c → (n < String.length s)%nat.
Proof.
  induction s as [|c' s IH]; intros [|n] c Hget; simpl in *; try done; try lia.
  apply IH in Hget. lia.
Qed.

Lemma get_ge s : ∀ n, String.get n s = None → (String.length s ≤ n)%nat.
Proof.
  induction s as [|c' s IH]; intros [|n] Hget; simpl in *; try done; try lia.
  apply IH in Hget. lia.
Qed.

Lemma advance_some (lx : Lexer.state) c :
  Lexer.peek lx = Some c →
  fst (Lexer.advance lx) = Some c
  ∧ Lexer.source (snd (Lexer.advance lx)) = Lexer.source lx
  ∧ Lexer.pos (snd (Lexer.advance lx)) = S (Lexer.pos lx)
  ∧ (Lexer.pos lx < String.length (Lexer.source lx))%nat.
Proof.
  unfold Lexer.peek, Lexer.advance. intros Hpeek. rewrite Hpeek.
  apply get_lt in Hpeek. by destruct (Ascii.eqb c "010").
Qed.

Lemma advance_none (lx : Lexer.state) :
  Lexer.peek lx = None → Lexer.advance lx = (None, lx).
Proof. unfold Lexer.peek, Lexer.advance. by intros ->. Qed.

Lemma ahead_refl lx : within lx → ahead 0 lx lx.
Proof. unfold ahead. intros ?. repeat split; [lia|done]. Qed.

Lemma ahead_trans j k lx1 lx2 lx3 :
  ahead j lx1 lx2 → ahead k lx2 lx3 → ahead (j + k) lx1 lx3.
Proof.
  unfold ahead. intros (Hs1 & Hp1 & _) (Hs2 & Hp2 & Hw).
  repeat split; [congruence|lia|done].
Qed.

Lemma ahead_weaken j k lx lx' : (k ≤ j)%nat → ahead j lx lx' → ahead k lx lx'.
Proof. unfold ahead. intros ? (? & ? & ?). repeat split; [done|lia|done]. Qed.

Lemma ahead_advance_0 lx : within lx → ahead 0 lx (snd (Lexer.advance lx)).
Proof.
  intros Hw. destruct (Lexer.peek lx) as [c|] eqn:Hpeek.
  - destruct (advance_some lx c Hpeek) as (_ & Hs & Hp & Hlt).
    unfold ahead, within. rewrite Hs, Hp. repeat split; lia.
  - rewrite advance_none by done. by apply ahead_refl.
Qed.

Lemma ahead_advance_1 lx c :
  Lexer.peek lx = Some c → ahead 1 lx (snd (Lexer.advance lx)).
Proof.
  intros Hpeek. destruct (advance_some lx c Hpeek) as (_ & Hs & Hp & Hlt).
  unfold ahead, within. rewrite Hs, Hp. repeat split; lia.
Qed.

Lemma remaining_advance lx c :
  Lexer.peek lx = Some c →
  Lexer.remaining lx = S (Lexer.remaining (snd (Lexer.advance lx))).
Proof.
  intros Hpeek. destruct (advance_some lx c Hpeek) as (_ & Hs & Hp & Hlt).
  unfold Lexer.remaining. rewrite Hs, Hp. lia.
Qed.


Lemma ahead_within k lx lx' : ahead k lx lx' → within lx'.
Proof. by intros (_ & _ & ?). Qed.

Lemma remaining_le_fuel lx c fuel :
  Lexer.peek lx = Some c → (Lexer.remaining lx ≤ S fuel)%nat →
  (Lexer.remaining (snd (Lexer.advance lx)) ≤ fuel)%nat.
Proof. intros Hpeek Hfuel. rewrite (remaining_advance lx c Hpeek) in Hfuel. lia. Qed.

Lemma no_fuel_no_character lx c :
  Lexer.peek lx = Some c → ¬ (Lexer.remaining lx ≤ 0)%nat.
Proof. intros Hpeek. rewrite (remaining_advance lx c Hpeek). lia. Qed.

Lemma remaining_ahead k lx lx' :
  ahead k lx lx' → (Lexer.remaining lx' + k ≤ Lexer.remaining lx)%nat.
Proof.
  unfold ahead, within, Lexer.remaining. intros (-> & ? & ?). lia.
Qed.

(** *** The loops end *)

Lemma skip_whitespace_loop_ends fuel :
  ∀ lx, within lx → (Lexer.remaining lx ≤ fuel)%nat →
        ∃ lx', Lexer.skip_whitespace_loop fuel lx = Ok lx' ∧ ahead 0 lx lx'.
Proof.
  induction fuel as [|fuel IH]; intros lx Hw Hfuel; simpl;
    (destruct (Lexer.peek lx) as [c|] eqn:Hpeek;
       [|by eauto using ahead_refl]);
    (destruct (Lexer.is_blank c); [|by eauto using ahead_refl]).
  - by destruct (no_fuel_no_character lx c).
  - destruct (IH (snd (Lexer.advance lx))) as (lx' & Hlx' & Hahead).
    { eapply ahead_within, ahead_advance_0, Hw. }
    { by eapply remaining_le_fuel. }
    exists lx'. split; [done|].
    apply (ahead_trans 0 0 _ (snd (Lexer.advance lx))); [|done].
    by apply ahead_advance_0.
Qed.

Lemma skip_line_loop_ends fuel :
  ∀ lx, within lx → (Lexer.remaining lx ≤ fuel)%nat →
        ∃ lx', Lexer.skip_line_loop fuel lx = Ok lx' ∧ ahead 0 lx lx'.
Proof.
  induction fuel as [|fuel IH]; intros lx Hw Hfuel; simpl;
    (destruct (Lexer.peek lx) as [c|] eqn:Hpeek;
       [|by eauto using ahead_refl]);
    (destruct (Ascii.eqb c "010"); [by eauto using ahead_refl|]).
  - by destruct (no_fuel_no_character lx c).
  - destruct (IH (snd (Lexer.advance lx))) as (lx' & Hlx' & Hahead).
    { eapply ahead_within, ahead_advance_0, Hw. }
    { by eapply remaining_le_fuel. }
    exists lx'. split; [done|].
    apply (ahead_trans 0 0 _ (snd (Lexer.advance lx))); [|done].
    by apply ahead_advance_0.
Qed.

Lemma skip_block_loop_ends fuel :
  ∀ lx, within lx → (Lexer.remaining lx ≤ fuel)%nat →
        finished (Lexer.skip_block_loop fuel lx)
        ∧ ∀ lx', Lexer.skip_block_loop fuel lx = Ok lx' → ahead 0 lx lx'.
Proof.
  assert (∀ lx, within lx →
                ahead 0 lx (snd (Lexer.advance (snd (Lexer.advance lx)))))
    as Htwo.
  { intros lx Hw. apply (ahead_trans 0 0 _ (snd (Lexer.advance lx))).
    - by apply ahead_advance_0.
    - eapply ahead_advance_0, ahead_within, ahead_advance_0, Hw. }
  induction fuel as [|fuel IH]; intros lx Hw Hfuel; simpl;
    (destruct (Lexer.peek lx) as [c|] eqn:Hpeek; [|by split]);
    (destruct (_ && _); [split; [done|]; intros lx' [= <-]; by apply Htwo|]).
  - by destruct (no_fuel_no_character lx c).
  - destruct (IH (snd (Lexer.advance lx))) as (Hfin & Hahead).
    { eapply ahead_within, ahead_advance_0, Hw. }
    { by eapply remaining_le_fuel. }
    split; [done|]. intros lx' Hlx'.
    apply (ahead_trans 0 0 _ (snd (Lexer.advance lx))); [|by apply Hahead].
    by apply ahead_advance_0.
Qed.

Lemma read_number_loop_ends fuel :
  ∀ lx num_str is_float,
    within lx → (Lexer.remaining lx ≤ fuel)%nat →
    finished (Lexer.read_number_loop fuel lx num_str is_float)
    ∧ ∀ s f lx', Lexer.read_number_loop fuel lx num_str is_float = Ok (s, f, lx') →
                 ahead 0 lx lx'
                 ∧ (∀ c, Lexer.peek lx = Some c →
                         Lexer.isdigit c || Ascii.eqb c "." = true →
                         ahead 1 lx lx').
Proof.
  induction fuel as [|fuel IH]; intros lx num_str is_float Hw Hfuel; simpl;
    (destruct (Lexer.peek lx) as [c|] eqn:Hpeek;
       [|split; [done|]; intros s f lx' [= <- <- <-];
         split; [by apply ahead_refl|done]]);
    (destruct (Lexer.isdigit c || Ascii.eqb c ".") eqn:Hc;
       [|split; [done|]; intros s f lx' [= <- <- <-];
         split; [by apply ahead_refl|]; intros c0 [= <-]; congruence]).
  - by destruct (no_fuel_no_character lx c).
  - destruct (Ascii.eqb c "." && is_float); [by split|].
    destruct (advance_some lx c Hpeek) as (Hfst & _).
    destruct (Lexer.advance lx) as [ch lx1] eqn:Hadv. simpl in Hfst. subst ch.
    assert (lx1 = snd (Lexer.advance lx)) as -> by (by rewrite Hadv).
    destruct (IH (snd (Lexer.advance lx)) (num_str +:+ String c "")
                (is_float || Ascii.eqb c ".")) as (Hfin & Hahead).
    { eapply ahead_within, ahead_advance_0, Hw. }
    { by eapply remaining_le_fuel. }
    split; [done|]. intros s f lx' Hlx'.
    destruct (Hahead s f lx' Hlx') as [H0 _].
    assert (ahead 1 lx lx') as H1.
    { apply (ahead_trans 1 0 _ (snd (Lexer.advance lx))); [|done].
      by eapply ahead_advance_1. }
    split; [|done]. eapply ahead_weaken; [|exact H1]. lia.
Qed.

Lemma read_identifier_loop_ends fuel :
  ∀ lx identifier,
    within lx → (Lexer.remaining lx ≤ fuel)%nat →
    finished (Lexer.read_identifier_loop fuel lx identifier)
    ∧ ∀ s lx', Lexer.read_identifier_loop fuel lx identifier = Ok (s, lx') →
               ahead 0 lx lx'
               ∧ (∀ c, Lexer.peek lx = Some c →
                       Lexer.isalnum c || Ascii.eqb c "_" = true →
                       ahead 1 lx lx').
Proof.
  induction fuel as [|fuel IH]; intros lx identifier Hw Hfuel; simpl;
    (destruct (Lexer.peek lx) as [c|] eqn:Hpeek;
       [|split; [done|]; intros s lx' [= <- <-];
         split; [by apply ahead_refl|done]]);
    (destruct (Lexer.isalnum c || Ascii.eqb c "_") eqn:Hc;
       [|split; [done|]; intros s lx' [= <- <-];
         split; [by apply ahead_refl|]; intros c0 [= <-]; congruence]).
  - by destruct (no_fuel_no_character lx c).
  - destruct (advance_some lx c Hpeek) as (Hfst & _).
    destruct (Lexer.advance lx) as [ch lx1] eqn:Hadv. simpl in Hfst. subst ch.
    assert (lx1 = snd (Lexer.advance lx)) as -> by (by rewrite Hadv).
    destruct (IH (snd (Lexer.advance lx)) (identifier +:+ String c ""))
      as (Hfin & Hahead).
    { eapply ahead_within, ahead_advance_0, Hw. }
    { by eapply remaining_le_fuel. }
    split; [done|]. intros s lx' Hlx'.
    destruct (Hahead s lx' Hlx') as [H0 _].
    assert (ahead 1 lx lx') as H1.
    { apply (ahead_trans 1 0 _ (snd (Lexer.advance lx))); [|done].
      by eapply ahead_advance_1. }
    split; [|done]. eapply ahead_weaken; [|exact H1]. lia.
Qed.

Lemma read_string_loop_ends fuel :
  ∀ lx string_value,
    within lx → (Lexer.remaining lx ≤ fuel)%nat →
    finished (Lexer.read_string_loop fuel lx string_value)
    ∧ ∀ s lx', Lexer.read_string_loop fuel lx string_value = Ok (s, lx') →
               ahead 0 lx lx'.
Proof.
  induction fuel as [|fuel IH]; intros lx string_value Hw Hfuel; simpl;
    (destruct (Lexer.peek lx) as [c|] eqn:Hpeek;
       [|split; [done|]; intros s lx' [= <- <-]; by apply ahead_refl]);
    (destruct (Ascii.eqb c Py.quote);
       [split; [done|]; intros s lx' [= <- <-]; by apply ahead_refl|]).
  - by destruct (no_fuel_no_character lx c).
  - pose proof (ahead_advance_0 lx Hw) as H1.
    pose proof (remaining_le_fuel lx c fuel Hpeek Hfuel) as Hfuel1.
    destruct (Ascii.eqb c Lexer.backslash).
    + destruct (Lexer.peek (snd (Lexer.advance lx))) as [next|] eqn:Hnext;
        [|by split].
      pose proof (ahead_advance_0 _ (ahead_within _ _ _ H1)) as H2.
      destruct (IH (snd (Lexer.advance (snd (Lexer.advance lx))))
                  (string_value +:+
                   String (if Ascii.eqb next "n" then "010"%char
                           else if Ascii.eqb next "t" then "009"%char
                           else if Ascii.eqb next Lexer.backslash
                                then Lexer.backslash
                           else if Ascii.eqb next Py.quote then Py.quote
                           else next) ""))
        as (Hfin & Hahead).
      { by eapply ahead_within. }
      { pose proof (remaining_ahead _ _ _ H2). lia. }
      split; [done|]. intros s lx' Hlx'.
      apply (ahead_trans 0 0 _ _ _ H1).
      apply (ahead_trans 0 0 _ _ _ H2). by apply (Hahead s).
    + destruct (advance_some lx c Hpeek) as (Hfst & _).
      destruct (Lexer.advance lx) as [ch lx1] eqn:Hadv.
      simpl in Hfst. subst ch. simpl in *.
      destruct (IH lx1 (string_value +:+ String c "")) as (Hfin & Hahead).
      { by eapply ahead_within. }
      { done. }
      split; [done|]. intros s lx' Hlx'.
      apply (ahead_trans 0 0 _ _ _ H1). by apply (Hahead s).
Qed.


(** *** Every token takes at least one character *)

Lemma finished_raise {A B} e : finished (@Raise A e) → finished (@Raise B e).
Proof. unfold finished. congruence. Qed.

Ltac raised := split; [by eapply finished_raise|by intros].

Lemma literal_is_named (t : Lexer.Token) : Lexer.type t ∉ name_types → named t.
Proof. by intros Hnot Hin. Qed.

Lemma string_is_named (t : Lexer.Token) s :
  Lexer.value_of t = VStr s → named t.
Proof. intros Hs _. by exists s. Qed.

(** the type is none of those of the names *)
Ltac no_name :=
  let Hin := fresh in
  intros Hin;
  repeat (apply elem_of_cons in Hin as [Hin|Hin]; [discriminate Hin|]);
  by apply elem_of_nil in Hin.

(** a token of the lexer: its type is not [EOF], and its value is a string
    or its type is not one of a name *)
Ltac a_token :=
  split; [done|];
  first [ by eapply string_is_named
        | apply literal_is_named; simpl; no_name ].

Lemma read_number_ends lx c :
  within lx → Lexer.peek lx = Some c → Lexer.isdigit c = true →
  finished (Lexer.read_number lx)
  ∧ ∀ t lx', Lexer.read_number lx = Ok (t, lx') →
             ahead 1 lx lx' ∧ lexed t.
Proof.
  intros Hw Hpeek Hc. unfold Lexer.read_number.
  destruct (read_number_loop_ends (Lexer.remaining lx) lx "" false Hw
              ltac:(done)) as (Hfin & Hahead).
  destruct (Lexer.read_number_loop _ _ _ _) as [[[s f] lx1]|e]; simpl;
    [|raised].
  destruct (Hahead s f lx1 eq_refl) as [_ H1].
  specialize (H1 c Hpeek ltac:(by rewrite Hc)).
  destruct f.
  - destruct (Py.float_ok s); (split; [done|]); [|done].
    intros t lx' [= <- <-]. split; [done|a_token].
  - destruct (Py.py_int s); (split; [done|]); [|done].
    intros t lx' [= <- <-]. split; [done|a_token].
Qed.

Lemma read_string_ends lx c :
  within lx → Lexer.peek lx = Some c →
  finished (Lexer.read_string lx)
  ∧ ∀ t lx', Lexer.read_string lx = Ok (t, lx') →
             ahead 1 lx lx' ∧ lexed t.
Proof.
  intros Hw Hpeek. unfold Lexer.read_string.
  pose proof (ahead_advance_1 lx c Hpeek) as H1.
  destruct (read_string_loop_ends
              (String.length (Lexer.source (snd (Lexer.advance lx)))
               - Lexer.pos (snd (Lexer.advance lx)))
              (snd (Lexer.advance lx)) "" (ahead_within _ _ _ H1)
              ltac:(done)) as (Hfin & Hahead).
  destruct (Lexer.read_string_loop _ _ _) as [[s lx1]|e]; simpl;
    [|raised].
  specialize (Hahead s lx1 eq_refl).
  destruct (Lexer.peek lx1); (split; [done|]); [|done].
  intros t lx' [= <- <-]. split; [|a_token].
  apply (ahead_trans 1 0 _ _ _ H1). apply (ahead_trans 0 0 _ _ _ Hahead).
  eapply ahead_advance_0, ahead_within, Hahead.
Qed.

Lemma keyword_is_not_EOF identifier : Lexer.keyword identifier ≠ EOF.
Proof.
  unfold Lexer.keyword, Lexer.KEYWORDS. simpl.
  repeat (destruct (String.eqb identifier _); [simpl; done|]). done.
Qed.

Lemma read_identifier_ends lx c :
  within lx → Lexer.peek lx = Some c →
  Lexer.isalnum c || Ascii.eqb c "_" = true →
  finished (Lexer.read_identifier lx)
  ∧ ∀ t lx', Lexer.read_identifier lx = Ok (t, lx') →
             ahead 1 lx lx' ∧ lexed t.
Proof.
  intros Hw Hpeek Hc. unfold Lexer.read_identifier.
  destruct (read_identifier_loop_ends (Lexer.remaining lx) lx "" Hw
              ltac:(done)) as (Hfin & Hahead).
  destruct (Lexer.read_identifier_loop _ _ _) as [[s lx1]|e]; simpl;
    [|raised].
  destruct (Hahead s lx1 eq_refl) as [_ H1].
  specialize (H1 c Hpeek Hc).
  split; [done|]. intros t lx' [= <- <-]. split; [done|].
  pose proof (keyword_is_not_EOF s).
  destruct (Lexer.keyword s); try done; a_token.
Qed.

Lemma one_ends lx c t text :
  Lexer.peek lx = Some c → t ≠ EOF →
  finished (Lexer.one lx t text)
  ∧ ∀ t' lx', Lexer.one lx t text = Ok (t', lx') →
              ahead 1 lx lx' ∧ lexed t'.
Proof.
  intros Hpeek Ht. unfold Lexer.one. split; [done|].
  intros t' lx' [= <- <-]. split; [by eapply ahead_advance_1|a_token].
Qed.

Lemma one_or_two_ends lx c second t2 text2 otherwise :
  Lexer.peek lx = Some c → t2 ≠ EOF →
  (∀ lx1, finished (otherwise lx1)
          ∧ ∀ t lx', otherwise lx1 = Ok (t, lx') →
                     lx' = lx1 ∧ lexed t) →
  finished (Lexer.one_or_two lx second t2 text2 otherwise)
  ∧ ∀ t lx', Lexer.one_or_two lx second t2 text2 otherwise = Ok (t, lx') →
             ahead 1 lx lx' ∧ lexed t.
Proof.
  intros Hpeek Ht Hother. unfold Lexer.one_or_two.
  pose proof (ahead_advance_1 lx c Hpeek) as H1.
  destruct (bool_decide _).
  - split; [done|]. intros t lx' [= <- <-]. split; [|a_token].
    apply (ahead_trans 1 0 _ _ _ H1).
    eapply ahead_advance_0, ahead_within, H1.
  - destruct (Hother (snd (Lexer.advance lx))) as [Hfin Hok].
    split; [done|]. intros t lx' Hlx'.
    by destruct (Hok t lx' Hlx') as [-> ?].
Qed.

Lemma isalpha_isalnum c : Lexer.isalpha c = true → Lexer.isalnum c = true.
Proof. unfold Lexer.isalnum. by intros ->. Qed.

Lemma read_token_ends lx c :
  within lx → Lexer.peek lx = Some c →
  finished (Lexer.read_token lx c)
  ∧ ∀ t lx', Lexer.read_token lx c = Ok (t, lx') →
             ahead 1 lx lx' ∧ lexed t.
Proof.
  intros Hw Hpeek. unfold Lexer.read_token.
  destruct (Lexer.isdigit c) eqn:Hdigit; [by eapply read_number_ends|].
  destruct (Ascii.eqb c Py.quote); [by eapply read_string_ends|].
  destruct (Lexer.isalpha c || Ascii.eqb c "_") eqn:Halpha.
  { eapply read_identifier_ends; [done..|].
    apply orb_true_iff in Halpha as [Ha| ->]; [|apply orb_true_r].
    by rewrite (isalpha_isalnum _ Ha). }
  repeat
    (lazymatch goal with
     | |- context [if Ascii.eqb c ?x then _ else _] =>
         destruct (Ascii.eqb c x)
     end;
     [first [ by apply (one_ends lx c)
            | apply (one_or_two_ends lx c); [done|done|];
              intros lx1; split; [done|];
              first [ intros t lx' [= <- <-]; split; [done|a_token]
                    | by intros ] ]|]).
  by split.
Qed.

Lemma comment_ends lx c :
  within lx → Lexer.peek lx = Some c →
  (∃ lx', Lexer.skip_single_line_comment lx = Ok lx' ∧ ahead 1 lx lx')
  ∧ finished (Lexer.skip_multi_line_comment lx)
  ∧ ∀ lx', Lexer.skip_multi_line_comment lx = Ok lx' → ahead 1 lx lx'.
Proof.
  intros Hw Hpeek.
  pose proof (ahead_advance_1 lx c Hpeek) as H1.
  pose proof (ahead_advance_0 _ (ahead_within _ _ _ H1)) as H2.
  pose proof (ahead_trans _ _ _ _ _ H1 H2) as H12.
  unfold Lexer.skip_single_line_comment, Lexer.skip_multi_line_comment.
  split; [|split].
  - destruct (skip_line_loop_ends _ _ (ahead_within _ _ _ H12)
                (Nat.le_refl _)) as (lx' & Hlx' & Hahead).
    exists lx'. split; [done|].
    apply (ahead_trans (1 + 0) 0 _ _ _ H12 Hahead).
  - by apply skip_block_loop_ends; [eapply ahead_within|].
  - intros lx' Hlx'.
    destruct (skip_block_loop_ends _ _ (ahead_within _ _ _ H12)
                (Nat.le_refl _)) as (_ & Hahead).
    apply (ahead_trans (1 + 0) 0 _ _ _ H12 (Hahead lx' Hlx')).
Qed.

Lemma tokenize_loop_ends fuel :
  ∀ lx tokens,
    within lx → (Lexer.remaining lx ≤ fuel)%nat →
    Forall lexed tokens →
    finished (Lexer.tokenize_loop fuel lx tokens)
    ∧ ∀ tokens' lx', Lexer.tokenize_loop fuel lx tokens = Ok (tokens', lx') →
                     Forall lexed tokens'.
Proof.
  induction fuel as [|fuel IH]; intros lx tokens Hw Hfuel Htokens; simpl.
  - destruct (Nat.ltb_spec (Lexer.pos lx) (String.length (Lexer.source lx)));
      [unfold Lexer.remaining in Hfuel; lia|].
    split; [done|]. by intros tokens' lx' [= <- <-].
  - destruct (Lexer.pos lx <? String.length (Lexer.source lx))%nat;
      [|split; [done|]; by intros tokens' lx' [= <- <-]].
    destruct (skip_whitespace_loop_ends _ lx Hw (Nat.le_refl _))
      as (lx1 & Hlx1 & H1).
    unfold Lexer.skip_whitespace. rewrite Hlx1. simpl.
    destruct (String.length (Lexer.source lx1) <=? Lexer.pos lx1)%nat;
      [split; [done|]; by intros tokens' lx' [= <- <-]|].
    destruct (Lexer.peek lx1) as [c|] eqn:Hpeek; [|by split].
    pose proof (ahead_within _ _ _ H1) as Hw1.
    assert (∀ lx2, ahead 1 lx1 lx2 →
                   within lx2 ∧ (Lexer.remaining lx2 ≤ fuel)%nat) as Hnext.
    { intros lx2 H2. split; [by eapply ahead_within|].
      pose proof (remaining_ahead _ _ _ H1).
      pose proof (remaining_ahead _ _ _ H2). lia. }
    destruct (comment_ends lx1 c Hw1 Hpeek)
      as ((lx2 & Hline & Hline1) & Hblock & Hblock1).
    destruct (_ && _).
    { rewrite Hline. simpl. by apply IH; [apply Hnext..|]. }
    destruct (_ && _).
    { destruct (Lexer.skip_multi_line_comment lx1) as [lx3|e] eqn:Hlx3; simpl;
        [|raised].
      by apply IH; [apply Hnext, Hblock1..|]. }
    destruct (read_token_ends lx1 c Hw1 Hpeek) as (Hfin & Htoken).
    destruct (Lexer.read_token lx1 c) as [[t lx3]|e]; simpl; [|raised].
    destruct (Htoken t lx3 eq_refl) as [H3 Ht].
    apply IH; [by apply Hnext..|].
    apply Forall_app. split; [done|by constructor].
Qed.

(** [tokenize] ends on every source, within as many rounds of its loop
    as the source has characters; when it returns, the last token is the
    only one of type [EOF]. *)
Theorem tokenize_ends_with_EOF source_code :
  finished (Lexer.tokenize source_code)
  ∧ ∀ tokens,
      Lexer.tokenize source_code = Ok tokens →
      ∃ body eof,
        tokens = body ++ [eof]
        ∧ Lexer.type eof = EOF
        ∧ Forall (λ t, Lexer.type t ≠ EOF) body.
Proof.
  unfold Lexer.tokenize.
  destruct (tokenize_loop_ends (String.length source_code)
              (Lexer.init source_code) []) as (Hfin & Hbody).
  { unfold within. simpl. lia. }
  { unfold Lexer.remaining. simpl. lia. }
  { constructor. }
  destruct (Lexer.tokenize_loop _ _ _) as [[body lx]|e]; simpl; [|raised].
  split; [done|]. intros tokens [= <-].
  eexists body, _. split; [done|]. split; [done|].
  eapply Forall_impl; [by apply (Hbody body lx)|]. by intros t [Ht _].
Qed.

(** the tokens of the lexer are a list for the parser *)
Lemma tokenize_lexed source_code tokens :
  Lexer.tokenize source_code = Ok tokens →
  ends_with_EOF tokens ∧ Forall named tokens.
Proof.
  unfold Lexer.tokenize.
  destruct (tokenize_loop_ends (String.length source_code)
              (Lexer.init source_code) []) as (_ & Hbody).
  { unfold within. simpl. lia. }
  { unfold Lexer.remaining. simpl. lia. }
  { constructor. }
  destruct (Lexer.tokenize_loop _ _ _) as [[body lx]|e]; simpl; [|done].
  intros [= <-]. split; [by eexists body, _|].
  apply Forall_app. split.
  - eapply Forall_impl; [by apply (Hbody body lx)|]. by intros t [_ Ht].
  - constructor; [|constructor]. apply literal_is_named. simpl. no_name.
Qed.


(** *** What the readers return *)

Lemma reads_remaining lx text :
  reads lx text → (String.length text ≤ Lexer.remaining lx)%nat.
Proof.
  revert lx. induction text as [|c text IH]; intros lx; simpl; [lia|].
  intros [Hpeek Hrest]. apply IH in Hrest.
  rewrite (remaining_advance lx c Hpeek). lia.
Qed.

Lemma append_cons s c t : (s +:+ String c "") +:+ t = s +:+ String c t.
Proof.
  induction s as [|c' s IH]; [done|].
  change (String c' ((s +:+ String c "") +:+ t) = String c' (s +:+ String c t)).
  by rewrite IH.
Qed.

Lemma append_empty s : s +:+ "" = s.
Proof.
  induction s as [|c' s IH]; [done|].
  change (String c' (s +:+ "") = String c' s). by rewrite IH.
Qed.

Lemma read_identifier_loop_word w :
  ∀ fuel lx acc,
    reads lx w → all_chars is_word_char w = true →
    stops_at is_word_char (advance_over w lx) →
    (Lexer.remaining lx ≤ fuel)%nat →
    Lexer.read_identifier_loop fuel lx acc = Ok (acc +:+ w, advance_over w lx).
Proof.
  induction w as [|c w IH]; intros fuel lx acc Hreads Hword Hstop Hfuel.
  - simpl in *. rewrite append_empty. unfold stops_at in Hstop.
    destruct fuel; simpl; destruct (Lexer.peek lx) as [c|]; try done;
      unfold is_word_char in Hstop; by rewrite Hstop.
  - simpl in Hreads, Hword, Hstop. destruct Hreads as [Hpeek Hreads].
    apply andb_prop in Hword as [Hc Hword].
    destruct fuel as [|fuel]; [by destruct (no_fuel_no_character lx c)|].
    simpl. rewrite Hpeek. unfold is_word_char in Hc. rewrite Hc.
    destruct (advance_some lx c Hpeek) as (Hfst & _).
    destruct (Lexer.advance lx) as [ch lx1] eqn:Hadv.
    simpl in Hfst, Hreads, Hstop. subst ch.
    rewrite (IH fuel lx1) by
      (try done; pose proof (remaining_le_fuel lx c fuel Hpeek Hfuel) as Hle;
       by rewrite Hadv in Hle).
    by rewrite append_cons.
Qed.

(** [read_identifier] takes the longest run of letters, digits and
    underscores at its position and returns it as one token: a keyword
    token when the run is a keyword, a boolean literal for [true] and
    [false], an identifier otherwise.  The token carries the line and the
    column where the run starts, and the lexer is left after the run. *)
Theorem read_identifier_takes_the_longest_word lx w :
  reads lx w → all_chars is_word_char w = true →
  stops_at is_word_char (advance_over w lx) →
  Lexer.read_identifier lx
  = Ok (word_token w (Lexer.line lx) (Lexer.column lx), advance_over w lx).
Proof.
  intros Hreads Hword Hstop. unfold Lexer.read_identifier.
  rewrite (read_identifier_loop_word w _ lx "" Hreads Hword Hstop
             (Nat.le_refl _)).
  reflexivity.
Qed.

Lemma digit_is_number_char c :
  Py.is_digit c = true →
  is_number_char c = true ∧ Ascii.eqb c "." = false.
Proof.
  intros Hc. destruct (digit_is_plain c Hc) as (_ & _ & _ & Hpoint & _).
  split; [|done]. unfold is_number_char, Lexer.isdigit.
  unfold Py.is_digit in Hc. by rewrite Hc.
Qed.

Lemma read_number_loop_digits w :
  ∀ fuel lx acc is_float,
    reads lx w → all_chars Py.is_digit w = true →
    (Lexer.remaining lx ≤ fuel)%nat →
    Lexer.read_number_loop fuel lx acc is_float
    = Lexer.read_number_loop (fuel - String.length w) (advance_over w lx)
        (acc +:+ w) is_float.
Proof.
  induction w as [|c w IH]; intros fuel lx acc is_float Hreads Hdigits Hfuel.
  - simpl. by rewrite append_empty, Nat.sub_0_r.
  - simpl in Hreads, Hdigits. destruct Hreads as [Hpeek Hreads].
    apply andb_prop in Hdigits as [Hc Hdigits].
    destruct (digit_is_number_char c Hc) as [Hnum Hpoint].
    destruct fuel as [|fuel]; [by destruct (no_fuel_no_character lx c)|].
    simpl. rewrite Hpeek. unfold is_number_char in Hnum.
    rewrite Hnum, Hpoint. simpl.
    destruct (advance_some lx c Hpeek) as (Hfst & _).
    destruct (Lexer.advance lx) as [ch lx1] eqn:Hadv.
    simpl in Hfst, Hreads. subst ch. rewrite orb_false_r.
    rewrite (IH fuel lx1) by
      (try done; pose proof (remaining_le_fuel lx c fuel Hpeek Hfuel) as Hle;
       by rewrite Hadv in Hle).
    by rewrite append_cons.
Qed.

Lemma read_number_loop_stops fuel lx acc is_float :
  stops_at is_number_char lx →
  Lexer.read_number_loop fuel lx acc is_float = Ok (acc, is_float, lx).
Proof.
  unfold stops_at, is_number_char. intros Hstop.
  destruct fuel; simpl; destruct (Lexer.peek lx); try done; by rewrite Hstop.
Qed.

Lemma all_chars_Forall p s :
  all_chars p s = true ↔ Forall (λ c, p c = true) (list_ascii_of_string s).
Proof.
  induction s as [|c s IH]; simpl.
  - split; [by constructor|done].
  - rewrite andb_true_iff, IH, Forall_cons. done.
Qed.

Lemma pretty_digits (z : Z) : 0 ≤ z → all_chars Py.is_digit (pretty z) = true.
Proof.
  intros Hz. apply all_chars_Forall.
  destruct (pretty_Z_chars z) as (ds & d & -> & Hdig & _).
  by rewrite (proj2 (Z.ltb_ge _ _)) by done.
Qed.

(** [read_number] reads the decimal digits of a natural number back as
    that number: when the source holds the printed form of [z] at the
    position of the lexer, followed by no digit and no point, the token
    is the integer literal [z] and the lexer is left after the digits. *)
Theorem read_number_reads_the_digits_back lx (z : Z) :
  0 ≤ z → convertible z → reads lx (pretty z) →
  stops_at is_number_char (advance_over (pretty z) lx) →
  Lexer.read_number lx
  = Ok (int_token z (Lexer.line lx) (Lexer.column lx),
        advance_over (pretty z) lx).
Proof.
  intros Hz Hlimit Hreads Hstop. unfold Lexer.read_number.
  rewrite (read_number_loop_digits (pretty z)) by
    (try done; by apply pretty_digits).
  rewrite read_number_loop_stops by done.
  change ("" +:+ pretty z) with (pretty z). simpl.
  by rewrite py_int_pretty.
Qed.


Lemma reads_app a : ∀ lx b,
  reads lx (a +:+ b) ↔ reads lx a ∧ reads (advance_over a lx) b.
Proof.
  induction a as [|c a IH]; intros lx b.
  - simpl. change ("" +:+ b) with b. naive_solver.
  - change (String c a +:+ b) with (String c (a +:+ b)). simpl.
    rewrite IH. naive_solver.
Qed.

Lemma advance_over_app a : ∀ lx b,
  advance_over (a +:+ b) lx = advance_over b (advance_over a lx).
Proof.
  induction a as [|c a IH]; intros lx b; [done|].
  change (String c a +:+ b) with (String c (a +:+ b)). simpl. by rewrite IH.
Qed.

Lemma read_string_loop_plain s :
  ∀ fuel lx acc,
    reads lx s → all_chars is_plain_char s = true →
    (Lexer.remaining lx ≤ fuel)%nat →
    Lexer.read_string_loop fuel lx acc
    = Lexer.read_string_loop (fuel - String.length s) (advance_over s lx)
        (acc +:+ s).
Proof.
  induction s as [|c s IH]; intros fuel lx acc Hreads Hplain Hfuel.
  - simpl. by rewrite append_empty, Nat.sub_0_r.
  - simpl in Hreads, Hplain. destruct Hreads as [Hpeek Hreads].
    apply andb_prop in Hplain as [Hc Hplain].
    unfold is_plain_char in Hc. apply andb_prop in Hc as [Hq Hb].
    apply negb_true_iff in Hq, Hb.
    destruct fuel as [|fuel]; [by destruct (no_fuel_no_character lx c)|].
    simpl. rewrite Hpeek, Hq, Hb.
    destruct (advance_some lx c Hpeek) as (Hfst & _).
    destruct (Lexer.advance lx) as [ch lx1] eqn:Hadv.
    simpl in Hfst, Hreads. subst ch.
    rewrite (IH fuel lx1) by
      (try done; pose proof (remaining_le_fuel lx c fuel Hpeek Hfuel) as Hle;
       by rewrite Hadv in Hle).
    by rewrite append_cons.
Qed.

Lemma read_string_loop_stops fuel lx acc :
  Lexer.peek lx = None ∨ Lexer.peek lx = Some Py.quote →
  Lexer.read_string_loop fuel lx acc = Ok (acc, lx).
Proof. intros [Hpeek|Hpeek]; destruct fuel; simpl; by rewrite Hpeek. Qed.

(** [read_string] returns the characters between the quotes as they
    are when none of them is a quote or a backslash, with the line and
    the column of the opening quote, and leaves the lexer after the
    closing quote; when the source ends before a closing quote, it raises
    the lexical error at the end of the source. *)
Theorem read_string_reads_plain_text lx s :
  all_chars is_plain_char s = true →
  (reads lx (Py.quoted s) →
   Lexer.read_string lx
   = Ok (string_token s (Lexer.line lx) (Lexer.column lx),
         advance_over (Py.quoted s) lx))
  ∧ (reads lx (String Py.quote s) →
     Lexer.peek (advance_over (String Py.quote s) lx) = None →
     Lexer.read_string lx
     = Raise (unterminated_string (advance_over (String Py.quote s) lx))).
Proof.
  intros Hplain. unfold Lexer.read_string. split.
  - unfold Py.quoted.
    change (String Py.quote s +:+ String Py.quote "")
      with (String Py.quote (s +:+ String Py.quote "")).
    intros [Hopen Hrest]. apply reads_app in Hrest as [Hs [Hclose _]].
    rewrite (read_string_loop_plain s) by done.
    rewrite read_string_loop_stops by (by right). simpl.
    rewrite Hclose. by rewrite advance_over_app.
  - intros [Hopen Hs] Hend. simpl in Hend.
    rewrite (read_string_loop_plain s) by done.
    rewrite read_string_loop_stops by (by left). simpl.
    by rewrite Hend.
Qed.

Lemma length_append a b :
  String.length (a +:+ b) = (String.length a + String.length b)%nat.
Proof.
  induction a as [|c a IH]; [done|].
  change (String c a +:+ b) with (String c (a +:+ b)). simpl. by rewrite IH.
Qed.

Lemma remaining_advance_over t :
  ∀ lx, reads lx t →
        (Lexer.remaining (advance_over t lx) + String.length t
         = Lexer.remaining lx)%nat.
Proof.
  induction t as [|c t IH]; intros lx; simpl; [lia|].
  intros [Hc Ht]. pose proof (IH _ Ht).
  pose proof (remaining_advance lx c Hc). lia.
Qed.

Lemma read_number_loop_point fuel lx acc :
  Lexer.peek lx = Some "."%char →
  Lexer.read_number_loop (S fuel) lx acc false
  = Lexer.read_number_loop fuel (snd (Lexer.advance lx)) (acc +:+ ".") true
  ∧ Lexer.read_number_loop (S fuel) lx acc true = Raise (multiple_points lx).
Proof.
  intros Hpeek. simpl. rewrite Hpeek. simpl.
  destruct (advance_some lx _ Hpeek) as (Hfst & _).
  destruct (Lexer.advance lx) as [ch lx1]. simpl in Hfst. by subst ch.
Qed.

(** a second decimal point in a number is a lexical error, raised at
    the second point: [read_number] accepts digits, one point and more
    digits, and stops with the error when another point follows. *)
Theorem second_point_is_an_error lx ds1 ds2 :
  all_chars Py.is_digit ds1 = true → all_chars Py.is_digit ds2 = true →
  reads lx (ds1 +:+ String "." (ds2 +:+ ".")) →
  Lexer.read_number lx
  = Raise (multiple_points (advance_over (ds1 +:+ String "." ds2) lx)).
Proof.
  intros Hds1 Hds2 Hreads.
  apply reads_app in Hreads as [H1 [Hpoint H2]].
  apply reads_app in H2 as [H2 [Hpoint' _]].
  simpl in Hpoint'.
  pose proof (remaining_advance_over _ _ H1) as Hrem1.
  pose proof (remaining_advance _ _ Hpoint) as Hrem.
  pose proof (remaining_advance_over _ _ H2) as Hrem2.
  pose proof (remaining_advance _ _ Hpoint') as Hrem'.
  unfold Lexer.read_number.
  rewrite (read_number_loop_digits ds1) by done.
  destruct (Lexer.remaining lx - String.length ds1)%nat as [|fuel] eqn:Hfuel;
    [lia|].
  destruct (read_number_loop_point fuel (advance_over ds1 lx) ("" +:+ ds1)
              Hpoint) as [-> _].
  rewrite (read_number_loop_digits ds2) by (try done; lia).
  destruct (fuel - String.length ds2)%nat as [|fuel2] eqn:Hfuel2; [lia|].
  destruct (read_number_loop_point fuel2 _ ((("" +:+ ds1) +:+ ".") +:+ ds2)
              Hpoint') as [_ ->].
  simpl. by rewrite advance_over_app.
Qed.


(** ** The scopes of the semantic analyzer *)

Lemma same_scope_refl a : same_scope a a.
Proof. by repeat split. Qed.

Lemma same_scope_trans a1 a2 a3 :
  same_scope a1 a2 → same_scope a2 a3 → same_scope a1 a3.
Proof.
  unfold same_scope. intros (? & ? & ? & ? & ?) (? & ? & ? & ? & ?).
  repeat split; try congruence. by etrans.
Qed.

Lemma define_grows t name sym t' :
  Semantic.define t name sym = Ok t' →
  Semantic.parent t' = Semantic.parent t
  ∧ Semantic.scope_level t' = Semantic.scope_level t
  ∧ Semantic.symbols t ⊆ Semantic.symbols t'.
Proof.
  unfold Semantic.define.
  destruct (Semantic.symbols t !! name) eqn:Hname; [done|].
  intros [= <-]. simpl. repeat split. by apply insert_subseteq.
Qed.

Lemma with_scope_grows a t :
  Semantic.parent t = Semantic.parent (Semantic.current_scope a) →
  Semantic.scope_level t = Semantic.scope_level (Semantic.current_scope a) →
  Semantic.symbols (Semantic.current_scope a) ⊆ Semantic.symbols t →
  same_scope a (Semantic.with_scope a t).
Proof. by repeat split. Qed.

Lemma define_parameters_grows params :
  ∀ t t', Semantic.define_parameters t params = Ok t' →
          Semantic.parent t' = Semantic.parent t
          ∧ Semantic.scope_level t' = Semantic.scope_level t
          ∧ Semantic.symbols t ⊆ Semantic.symbols t'.
Proof.
  induction params as [|[param_type param_name] params IH]; intros t t'; simpl.
  - by intros [= <-].
  - destruct (Semantic.define t param_name _) as [t1|] eqn:Ht1; [|done].
    simpl. intros Ht'. apply define_grows in Ht1 as (? & ? & ?).
    apply IH in Ht' as (? & ? & ?). repeat split; try congruence. by etrans.
Qed.

Lemma statements_keep_scope ss :
  Forall keeps_scope ss →
  ∀ a a', Semantic.statements Semantic.analyze a ss = Ok a' → same_scope a a'.
Proof.
  induction 1 as [|s ss Hs _ IH]; intros a a'; simpl.
  - intros [= <-]. apply same_scope_refl.
  - destruct (Semantic.analyze a s) as [[t a1]|] eqn:Ha1; [|done]. simpl.
    intros Ha'. eapply same_scope_trans; [by eapply Hs|by apply IH].
Qed.

Lemma body_loop_keeps_scope ss :
  Forall keeps_scope ss →
  ∀ a r has_return a',
    Semantic.body_loop Semantic.analyze a ss r = Ok (has_return, a') →
    same_scope a a'
    ∧ has_return = r || existsb Semantic.is_ReturnStatement ss.
Proof.
  induction 1 as [|s ss Hs _ IH]; intros a r has_return a'; simpl.
  - intros [= <- <-]. split; [apply same_scope_refl|by rewrite orb_false_r].
  - destruct (Semantic.analyze a s) as [[t a1]|] eqn:Ha1; [|done]. simpl.
    intros Ha'. apply IH in Ha' as [Hscope ->].
    split; [|by rewrite orb_assoc].
    eapply same_scope_trans; [by eapply Hs|done].
Qed.

Lemma arguments_loop_keeps_scope name line column args :
  Forall keeps_scope args →
  ∀ a params i a',
    Semantic.arguments_loop Semantic.analyze name line column a args params i = Ok a' →
    same_scope a a'.
Proof.
  induction 1 as [|arg args Harg _ IH]; intros a params i a'; simpl.
  - intros [= <-]. apply same_scope_refl.
  - destruct params as [|[param_type param_name] params];
      [intros [= <-]; apply same_scope_refl|].
    destruct (Semantic.analyze a arg) as [[t a1]|] eqn:Ha1; [|done]. simpl.
    destruct (negb _); [done|].
    intros Ha'. eapply same_scope_trans; [by eapply Harg|by eapply IH].
Qed.

Lemma elements_loop_keeps_scope first_type line column es :
  Forall keeps_scope es →
  ∀ a a',
    Semantic.elements_loop Semantic.analyze first_type line column a es = Ok a' →
    same_scope a a'.
Proof.
  induction 1 as [|e es He _ IH]; intros a a'; simpl.
  - intros [= <-]. apply same_scope_refl.
  - destruct (Semantic.analyze a e) as [[t a1]|] eqn:Ha1; [|done]. simpl.
    destruct (negb _); [done|].
    intros Ha'. eapply same_scope_trans; [by eapply He|by eapply IH].
Qed.

(** leaving the scope that was entered gives the analyzer back *)
Lemma exit_after_enter a a2 :
  same_scope (Semantic.enter_scope a) a2 → Semantic.exit_scope a2 = a.
Proof.
  unfold same_scope, Semantic.exit_scope. simpl.
  intros (-> & _ & _ & Hfun & Herr). destruct a. simpl in *. by subst.
Qed.


(** the analysis returned: its steps returned *)
Ltac returned :=
  repeat
    match goal with
    | H : Semantic.error _ _ _ = Ok _ |- _ => discriminate H
    | H : Raise _ = Ok _ |- _ => discriminate H
    | H : mbind _ ?c = Ok _ |- _ =>
        let E := fresh "Hok" in
        destruct c as [?|?] eqn:E; simpl in H; [|discriminate H]
    | H : (let '(_, _) := ?p in _) = Ok _ |- _ => destruct p; simpl in H
    | H : (if ?b then _ else _) = Ok _ |- _ =>
        let E := fresh "Hif" in destruct b eqn:E; simpl in H
    | H : (match ?x with _ => _ end) = Ok _ |- _ =>
        let E := fresh "Hcase" in destruct x eqn:E; simpl in H
    end.

Ltac chain :=
  repeat first
    [ apply same_scope_refl
    | eassumption
    | eapply same_scope_trans;
      [solve [ match goal with
               | IH : ∀ a t a', Semantic.analyze a ?n = Ok (t, a') → _,
                 E : Semantic.analyze _ ?n = Ok _ |- _ => exact (IH _ _ _ E)
               end ]|] ].

Lemma arguments_change_nothing name line column args :
  Forall (λ s, ∀ a t a', Semantic.analyze a s = Ok (t, a') → a' = a) args →
  ∀ a params i a',
    Semantic.arguments_loop Semantic.analyze name line column a args params i = Ok a' →
    a' = a.
Proof.
  induction 1 as [|arg args Harg _ IH]; intros a params i a'; cbn.
  - by intros [= <-].
  - destruct params as [|[param_type param_name] params];
      [by intros [= <-]|].
    destruct (Semantic.analyze a arg) as [[t a1]|] eqn:Ha1; [|done]. cbn.
    destruct (negb _); [done|].
    intros Ha'. apply IH in Ha'. apply Harg in Ha1. congruence.
Qed.

Lemma elements_change_nothing first_type line column es :
  Forall (λ s, ∀ a t a', Semantic.analyze a s = Ok (t, a') → a' = a) es →
  ∀ a a',
    Semantic.elements_loop Semantic.analyze first_type line column a es = Ok a' →
    a' = a.
Proof.
  induction 1 as [|e es He _ IH]; intros a a'; cbn.
  - by intros [= <-].
  - destruct (Semantic.analyze a e) as [[t a1]|] eqn:Ha1; [|done]. cbn.
    destruct (negb _); [done|].
    intros Ha'. apply IH in Ha'. apply He in Ha1. congruence.
Qed.

Local Arguments Semantic.statements : simpl never.
Local Arguments Semantic.body_loop : simpl never.
Local Arguments Semantic.arguments_loop : simpl never.
Local Arguments Semantic.elements_loop : simpl never.

Lemma analyze_keeps_scope : ∀ node, keeps_scope node.
Proof.
  apply ASTNode_nested_ind; unfold keeps_scope.
  - (* Program *)
    intros l c ss Hss a t a' Hok. simpl in Hok. returned.
    simplify_eq. by eapply statements_keep_scope.
  - (* BinaryOp *)
    intros l c x o y Hx Hy a t a' Hok. simpl in Hok. returned.
    simplify_eq. eapply same_scope_trans; [by eapply Hx|by eapply Hy].
  - (* UnaryOp *)
    intros l c o e He a t a' Hok. simpl in Hok. returned.
    simplify_eq. by eapply He.
  - (* Literal *)
    intros l c v ty a t a' [= <- <-]. apply same_scope_refl.
  - (* Identifier *)
    intros l c n a t a' Hok. simpl in Hok. returned.
    simplify_eq. apply same_scope_refl.
  - (* VarDeclaration *)
    intros l c ty n e He a t a' Hok. simpl in Hok.
    unfold Semantic.analyze_VarDeclaration in Hok.
    destruct (Semantic.symbols (Semantic.current_scope a) !! n); [done|].
    destruct e as [e|]; simpl in He, Hok.
    + returned. simplify_eq.
      match goal with E : Semantic.define _ _ _ = Ok _ |- _ =>
        apply define_grows in E as (? & ? & ?) end.
      eapply same_scope_trans; [by eapply He|]. by repeat split.
    + returned. simplify_eq.
      match goal with E : Semantic.define _ _ _ = Ok _ |- _ =>
        apply define_grows in E as (? & ? & ?) end.
      by repeat split.
  - (* Assignment *)
    intros l c n e He a t a' Hok. simpl in Hok. returned.
    simplify_eq. by eapply He.
  - (* IfStatement *)
    intros l c e tb fb He Htb Hfb a t a' Hok. simpl in Hok. returned;
      simplify_eq.
    all: simpl in Hfb.
    all: repeat match goal with
             | E : Semantic.statements _ (Semantic.enter_scope _) ?ss = Ok _,
               Hss : Forall _ ?ss |- _ =>
                 apply (statements_keep_scope _ Hss) in E;
                 apply exit_after_enter in E; rewrite E in *; clear E
             end.
    all: by eapply He.
  - (* WhileStatement *)
    intros l c e b He Hb a t a' Hok. simpl in Hok. returned.
    simplify_eq.
    match goal with
    | E : Semantic.statements _ (Semantic.enter_scope _) _ = Ok _ |- _ =>
        apply statements_keep_scope in E; [|done];
        apply exit_after_enter in E; rewrite E
    end. by eapply He.
  - (* ForStatement *)
    intros l c i e u b Hi He Hu Hb a t a' Hok. simpl in Hok. returned.
    simplify_eq.
    match goal with
    | E : Semantic.statements _ _ _ = Ok _ |- _ =>
        apply statements_keep_scope in E; [|done]
    end.
    erewrite exit_after_enter; [apply same_scope_refl|].
    eapply same_scope_trans; [by eapply Hi|].
    eapply same_scope_trans; [by eapply He|].
    eapply same_scope_trans; [by eapply Hu|]. done.
  - (* FunctionDef *)
    intros l c ty n ps b Hb a t a' Hok. simpl in Hok.
    destruct (Semantic.symbols (Semantic.current_scope a) !! n) eqn:Hn;
      [done|].
    returned; simplify_eq.
    all: match goal with E : Semantic.define _ _ _ = Ok _ |- _ =>
           apply define_grows in E as (Hp1 & Hl1 & Hs1) end.
    all: match goal with E : Semantic.define_parameters _ _ = Ok _ |- _ =>
           apply define_parameters_grows in E as (Hp2 & Hl2 & Hs2) end.
    all: match goal with E : Semantic.body_loop _ _ _ _ = Ok _ |- _ =>
           apply body_loop_keeps_scope in E as [(Hp3 & Hl3 & Hs3 & Hf3 & He3) _];
           [|done] end.
    all: unfold Semantic.exit_scope; simpl in *.
    all: rewrite Hp3, Hp2; simpl.
    all: by repeat split.
  - (* FunctionCall *)
    intros l c n args Hargs a t a' Hok. simpl in Hok. returned.
    simplify_eq. by eapply arguments_loop_keeps_scope.
  - (* ReturnStatement *)
    intros l c e He a t a' Hok. simpl in Hok. returned;
      simplify_eq; [by eapply He|apply same_scope_refl].
  - (* PrintStatement *)
    intros l c es Hes a t a' Hok. simpl in Hok. returned.
    simplify_eq. by eapply statements_keep_scope.
  - (* Block *)
    intros l c ss Hss a t a' Hok. simpl in Hok. returned.
    simplify_eq. by eapply statements_keep_scope.
  - (* ArrayLiteral *)
    intros l c es Hes a t a' Hok. simpl in Hok.
    destruct es as [|first rest]; [simplify_eq; apply same_scope_refl|].
    apply Forall_cons in Hes as [Hfirst Hrest].
    returned. simplify_eq.
    eapply same_scope_trans; [by eapply Hfirst|].
    by eapply elements_loop_keeps_scope.
  - (* ArrayAccess *)
    intros l c x i Hx Hi a t a' Hok. simpl in Hok. returned.
    simplify_eq. eapply same_scope_trans; [by eapply Hx|by eapply Hi].
  - (* ArrayAssignment *)
    intros l c n i v Hi Hv a t a' Hok. simpl in Hok. returned.
    simplify_eq. eapply same_scope_trans; [by eapply Hi|by eapply Hv].
  - (* BuiltInCall *)
    intros l c f args Hargs a t a' Hok. simpl in Hok.
    returned; simplify_eq;
      repeat match goal with
             | Hall : Forall _ (_ :: _) |- _ =>
                 apply Forall_cons in Hall as [? Hall]
             end;
      chain.
Qed.


Lemma forallb_Forall_impl (P : ASTNode → Prop) ss :
  Forall (λ s, is_expression s = true → P s) ss →
  forallb is_expression ss = true → Forall P ss.
Proof.
  induction 1 as [|s ss Hs _ IH]; simpl; [by constructor|].
  intros Hall. apply andb_prop in Hall as [? ?]. constructor; auto.
Qed.

Ltac unchanged :=
  repeat match goal with
         | IH : ∀ a t a', Semantic.analyze a ?n = Ok (t, a') → a' = a,
           E : Semantic.analyze _ ?n = Ok _ |- _ =>
             apply IH in E; subst
         end.

Lemma expressions_change_nothing : ∀ node, changes_nothing node.
Proof.
  apply ASTNode_nested_ind; unfold changes_nothing; try done.
  - (* BinaryOp *)
    intros l c x o y Hx Hy Hexp a t a' Hok. simpl in Hexp, Hok.
    apply andb_prop in Hexp as [Ex Ey].
    specialize (Hx Ex). specialize (Hy Ey).
    returned. simplify_eq. by unchanged.
  - (* UnaryOp *)
    intros l c o e He Hexp a t a' Hok. simpl in Hexp, Hok.
    specialize (He Hexp). returned. simplify_eq. by unchanged.
  - (* Literal *)
    by intros l c v ty _ a t a' [= <- <-].
  - (* Identifier *)
    intros l c n _ a t a' Hok. simpl in Hok. returned. by simplify_eq.
  - (* FunctionCall *)
    intros l c n args Hargs Hexp a t a' Hok. simpl in Hexp, Hok.
    apply forallb_Forall_impl in Hargs; [|done].
    returned. simplify_eq. by eapply arguments_change_nothing.
  - (* ArrayLiteral *)
    intros l c es Hes Hexp a t a' Hok. simpl in Hexp, Hok.
    apply forallb_Forall_impl in Hes; [|done].
    destruct es as [|first rest]; [by simplify_eq|].
    apply Forall_cons in Hes as [Hfirst Hrest].
    returned. simplify_eq.
    match goal with E : Semantic.elements_loop _ _ _ _ _ _ = Ok _ |- _ =>
      apply (elements_change_nothing _ _ _ _ Hrest) in E; subst end.
    by unchanged.
  - (* ArrayAccess *)
    intros l c x i Hx Hi Hexp a t a' Hok. simpl in Hexp, Hok.
    apply andb_prop in Hexp as [Ex Ei].
    specialize (Hx Ex). specialize (Hi Ei).
    returned. simplify_eq. by unchanged.
  - (* BuiltInCall *)
    intros l c f args Hargs Hexp a t a' Hok. simpl in Hexp, Hok.
    apply forallb_Forall_impl in Hargs; [|done].
    returned; simplify_eq;
      repeat match goal with
             | Hall : Forall _ (_ :: _) |- _ =>
                 apply Forall_cons in Hall as [? Hall]
             end;
      by unchanged.
Qed.

(** the analysis of a node that returns leaves the analyzer in the
    scope where it started: it may add symbols to that scope, and it
    changes neither the enclosing scopes, nor the level, nor the function
    being analyzed, nor the recorded errors; a name that was visible is
    still visible. *)
Theorem analysis_stays_in_its_scope a node t a' :
  Semantic.analyze a node = Ok (t, a') →
  same_scope a a'
  ∧ ∀ x, Semantic.exists_ (Semantic.current_scope a) x = true →
         Semantic.exists_ (Semantic.current_scope a') x = true.
Proof.
  intros Hok. pose proof (analyze_keeps_scope node a t a' Hok) as Hscope.
  split; [done|]. destruct Hscope as (Hparent & _ & Hsub & _).
  intros x. unfold Semantic.exists_.
  destruct (Semantic.current_scope a) as [s p lv].
  destruct (Semantic.current_scope a') as [s' p' lv'].
  simpl in *. subst p'.
  destruct (s !! x) as [sym|] eqn:Hx.
  - by rewrite (lookup_weaken _ _ _ _ Hx Hsub).
  - destruct (s' !! x); [done|]. by destruct p.
Qed.

(** an [if], a [while] or a [for] whose condition is an expression
    leaves the analyzer exactly as it found it: what its blocks, and the
    initialization of the [for], declare is not visible after it. *)
Theorem blocks_are_local a t a' line column :
  (∀ condition then_block else_block,
     is_expression condition = true →
     Semantic.analyze a (IfStatement line column condition then_block else_block)
     = Ok (t, a') → a' = a)
  ∧ (∀ condition body,
       is_expression condition = true →
       Semantic.analyze a (WhileStatement line column condition body) = Ok (t, a') →
       a' = a)
  ∧ (∀ init condition update body,
       Semantic.analyze a (ForStatement line column init condition update body)
       = Ok (t, a') → a' = a).
Proof.
  split; [|split].
  - intros condition then_block else_block Hexp Hok. simpl in Hok.
    returned; simplify_eq.
    all: repeat match goal with
             | E : Semantic.statements _ (Semantic.enter_scope _) ?ss = Ok _ |- _ =>
                 apply statements_keep_scope in E;
                 [|apply Forall_forall; intros; apply analyze_keeps_scope];
                 apply exit_after_enter in E; rewrite E in *; clear E
             end.
    all: by eapply (expressions_change_nothing condition).
  - intros condition body Hexp Hok. simpl in Hok. returned. simplify_eq.
    match goal with
    | E : Semantic.statements _ (Semantic.enter_scope _) ?ss = Ok _ |- _ =>
        apply statements_keep_scope in E;
        [|apply Forall_forall; intros; apply analyze_keeps_scope];
        apply exit_after_enter in E; rewrite E in *; clear E
    end.
    by eapply (expressions_change_nothing condition).
  - intros init condition update body Hok. simpl in Hok. returned.
    simplify_eq. apply exit_after_enter.
    repeat match goal with
           | E : Semantic.analyze _ _ = Ok _ |- _ =>
               apply analyze_keeps_scope in E
           | E : Semantic.statements _ _ _ = Ok _ |- _ =>
               apply statements_keep_scope in E;
               [|apply Forall_forall; intros; apply analyze_keeps_scope]
           end.
    eauto using same_scope_trans.
Qed.

(** a function whose return type is not [void] is accepted only if
    one of the statements of its body is itself a [return]: a [return]
    inside an [if] or a loop does not count. *)
Theorem function_needs_a_return_in_its_body a line column return_type name
    params body :
  return_type ≠ "void" →
  existsb Semantic.is_ReturnStatement body = false →
  is_ok (Semantic.analyze a
           (FunctionDef line column return_type name params body))
  = false.
Proof.
  intros Hvoid Hbody. simpl.
  destruct (Semantic.symbols (Semantic.current_scope a) !! name); [done|].
  destruct (Semantic.define _ _ _) as [t1|]; [|done]. simpl.
  destruct (Semantic.define_parameters _ _) as [t2|]; [|done]. simpl.
  destruct (Semantic.body_loop _ _ _ _) as [[has_return a3]|] eqn:Hloop; [|done].
  apply body_loop_keeps_scope in Hloop as [_ ->];
    [|apply Forall_forall; intros; apply analyze_keeps_scope].
  simpl. rewrite Hbody. simpl.
  apply String.eqb_neq in Hvoid. by rewrite Hvoid.
Qed.


(** ** The parser *)

Local Arguments Parser.expressions_until : simpl never.
Local Arguments Parser.parse_array_literal : simpl never.
Local Arguments Parser.parse_primary : simpl never.
Local Arguments Parser.level : simpl never.
Local Arguments Parser.parse_block : simpl never.
Local Arguments Parser.expect : simpl never.
Local Arguments Parser.match_ : simpl never.
Local Arguments Parser.advance : simpl never.
Local Arguments Parser.advance_token : simpl never.
Local Arguments Parser.text_of : simpl never.
Local Arguments Parser.array_suffix : simpl never.
Local Arguments Parser.error : simpl never.
Local Arguments Parser.type_name : simpl never.
Local Arguments Parser.name : simpl never.

Lemma Ok_inj {A} (a b : A) : Ok a = Ok b → a = b.
Proof. by intros [= ->]. Qed.

Lemma error_raises {A} p message : is_ok (@Parser.error _ A p message) = false.
Proof. unfold Parser.error. by destruct (Parser.current_token p). Qed.

Ltac parsed :=
  repeat
    match goal with
    | H : Raise _ = Ok _ |- _ => discriminate H
    | H : Parser.error _ _ = Ok _ |- _ =>
        apply (f_equal is_ok) in H; rewrite error_raises in H; discriminate H
    | H : Ok _ = Ok _ |- _ => apply Ok_inj in H; subst
    | H : (_, _) = (_, _) |- _ => apply pair_equal_spec in H as [? ?]; subst
    | H : mbind _ ?c = Ok _ |- _ =>
        let E := fresh "Hok" in
        destruct c as [?|?] eqn:E; cbn in H; [|discriminate H]
    | H : (let '(_, _) := ?p in _) = Ok _ |- _ => destruct p; cbn in H
    | H : (if ?b then _ else _) = Ok _ |- _ =>
        let E := fresh "Hif" in destruct b eqn:E; cbn in H
    | H : (match ?x with _ => _ end) = Ok _ |- _ =>
        let E := fresh "Hcase" in destruct x eqn:E; cbn in H
    end.

(** *** The trees of the parser *)

Section Shape.

Lemma forallb_snoc {A} (f : A → bool) xs x :
  forallb f (xs ++ [x]) = forallb f xs && f x.
Proof. rewrite forallb_app. simpl. by rewrite andb_true_r. Qed.

(** the token that [advance] returns after [match] is of a matched type *)
Lemma matched_type (p : Parser.state) types (t : Lexer.Token) p' :
  Parser.match_ p types = Ok true →
  Parser.advance_token p = Ok (t, p') →
  Lexer.type t ∈ types.
Proof.
  unfold Parser.match_, Parser.advance_token, Parser.advance.
  destruct (Parser.current_token p) as [token|]; [|done].
  intros [= Hin] [= <- _]. by apply bool_decide_eq_true in Hin.
Qed.

Lemma operator_of_known operators t :
  Forall (λ o, op_in (snd o) binary_operators = true) operators →
  t ∈ fst <$> operators →
  op_in (Parser.operator_of operators t) binary_operators = true.
Proof.
  unfold Parser.operator_of.
  induction 1 as [|o os Ho _ IH]; intros Hin;
    [by apply elem_of_nil in Hin|].
  cbn [List.find]. destruct (decide (o.1 = t)) as [Heq|Hne].
  - by rewrite bool_decide_eq_true_2.
  - rewrite bool_decide_eq_false_2 by done. apply IH.
    apply elem_of_cons in Hin as [Hin|Hin]; [by destruct Hne|done].
Qed.

Section Expressions.

Variable parse_expression : Parser.state → outcome (ASTNode * Parser.state).
Hypothesis parse_expression_parsed :
  gives (λ e, parsed_expression e = true) parse_expression.

Lemma more_expressions_parsed fuel :
  ∀ p xs xs' p',
    forallb parsed_expression xs = true →
    Parser.more_expressions parse_expression fuel p xs = Ok (xs', p') →
    forallb parsed_expression xs' = true.
Proof.
  induction fuel as [|fuel IH]; intros p xs xs' p' Hxs Hok;
    simpl in Hok; parsed; try done.
  eapply IH; [|eassumption]. rewrite forallb_snoc, Hxs. simpl.
  by eapply parse_expression_parsed.
Qed.

Local Arguments Parser.more_expressions : simpl never.

Lemma expressions_until_parsed closing fuel :
  gives (λ xs, forallb parsed_expression xs = true)
    (Parser.expressions_until parse_expression closing fuel).
Proof.
  intros p xs p' Hok. unfold Parser.expressions_until in Hok. simpl in Hok.
  parsed; [done|].
  eapply more_expressions_parsed; [|eassumption]. simpl.
  rewrite andb_true_r. by eapply parse_expression_parsed.
Qed.

Lemma parse_primary_parsed fuel :
  gives (λ e, parsed_expression e = true)
    (Parser.parse_primary parse_expression fuel).
Proof.
  intros p e p' Hok. unfold Parser.parse_primary in Hok.
  destruct (Parser.current_token p) as [token|]; [|done].
  destruct (Lexer.type token); simpl in Hok;
    try unfold Parser.parse_array_literal in Hok; simpl in Hok; parsed;
    simpl;
    try done;
    try (by eapply expressions_until_parsed);
    try (by eapply parse_expression_parsed).
Qed.

Lemma parse_unary_parsed fuel :
  gives (λ e, parsed_expression e = true)
    (Parser.parse_unary parse_expression fuel).
Proof.
  induction fuel as [|fuel IH]; intros p e p' Hok;
    simpl in Hok; parsed; try (by eapply parse_primary_parsed).
  simpl. apply andb_true_intro.
  split; [by destruct (bool_decide _)|by eapply IH].
Qed.

Local Arguments Parser.parse_unary : simpl never.

Lemma parse_power_parsed fuel :
  gives (λ e, parsed_expression e = true)
    (Parser.parse_power parse_expression fuel).
Proof.
  induction fuel as [|fuel IH]; intros p e p' Hok;
    simpl in Hok; parsed; try (by eapply parse_unary_parsed).
  simpl. apply andb_true_intro.
  split; [by eapply parse_unary_parsed|by eapply IH].
Qed.

Local Arguments Parser.parse_power : simpl never.

Section Level.

Variable next : Parser.state → outcome (ASTNode * Parser.state).
Variable operators : list (TokenType * string).
Hypothesis next_parsed : gives (λ e, parsed_expression e = true) next.
Hypothesis operators_known :
  Forall (λ o, op_in (snd o) binary_operators = true) operators.

Lemma level_loop_operator (p : Parser.state) (t : Lexer.Token) p' :
  Parser.match_ p (fst <$> operators) = Ok true →
  Parser.advance_token p = Ok (t, p') →
  op_in (Parser.operator_of operators (Lexer.type t)) binary_operators = true.
Proof.
  intros Hmatch Hadvance. apply (operator_of_known _ _ operators_known).
  by eapply matched_type.
Qed.

Lemma level_loop_parsed fuel :
  ∀ lhs p e p',
    parsed_expression lhs = true →
    Parser.level_loop next operators fuel lhs p = Ok (e, p') →
    parsed_expression e = true.
Proof.
  induction fuel as [|fuel IH]; intros lhs p e p' Hlhs Hok;
    simpl in Hok; parsed; try done.
  eapply IH; [|eassumption]. cbn [parsed_expression]. rewrite Hlhs.
  rewrite (level_loop_operator _ _ _ Hok0 Hok1). simpl.
  by eapply next_parsed.
Qed.

Local Arguments Parser.level_loop : simpl never.

Lemma level_parsed fuel :
  gives (λ e, parsed_expression e = true)
    (Parser.level next operators fuel).
Proof.
  intros p e p' Hok. unfold Parser.level in Hok. simpl in Hok. parsed.
  eapply level_loop_parsed; [|eassumption]. by eapply next_parsed.
Qed.

End Level.

Lemma parse_logical_or_parsed fuel :
  gives (λ e, parsed_expression e = true)
    (Parser.parse_logical_or parse_expression fuel).
Proof.
  unfold Parser.parse_logical_or, Parser.parse_logical_and,
    Parser.parse_equality, Parser.parse_relational, Parser.parse_additive,
    Parser.parse_multiplicative.
  repeat (apply level_parsed; [|by repeat constructor]).
  apply parse_power_parsed.
Qed.

End Expressions.

Lemma parse_expression_parsed fuel :
  gives (λ e, parsed_expression e = true) (Parser.parse_expression fuel).
Proof.
  induction fuel as [|fuel IH]; intros p e p' Hok; simpl in Hok; [done|].
  by eapply parse_logical_or_parsed.
Qed.

Local Arguments Parser.parse_expression : simpl never.

Lemma expression_is_statement (e : ASTNode) :
  parsed_expression e = true → parsed_statement e = true.
Proof. by destruct e. Qed.

Lemma type_name_known (t : Lexer.Token) :
  Lexer.type t ∈ Parser.type_specifiers →
  op_in (Parser.type_name t) ["int"; "float"; "bool"; "string"] = true.
Proof.
  unfold Parser.type_name, Parser.type_specifiers. intros Hin.
  repeat (apply elem_of_cons in Hin as [->|Hin]; [by vm_compute|]).
  by apply elem_of_nil in Hin.
Qed.

Section Statements.

Variable parse_statement : Parser.state → outcome (ASTNode * Parser.state).
Variable fuel : nat.
Hypothesis parse_statement_parsed :
  gives (λ s, parsed_statement s = true) parse_statement.

Ltac expression :=
  repeat match goal with
         | E : Parser.parse_expression _ _ = Ok (?e, _) |- _ =>
             apply parse_expression_parsed in E
         | E : Parser.expressions_until _ _ _ _ = Ok (?e, _) |- _ =>
             apply expressions_until_parsed in E;
             [|apply parse_expression_parsed]
         end.

Lemma parse_declaration_parsed :
  gives (λ s, parsed_statement s = true) (Parser.parse_declaration fuel).
Proof.
  intros p s p' Hok. unfold Parser.parse_declaration in Hok. simpl in Hok.
  parsed; expression; done.
Qed.

Lemma parse_assignment_parsed :
  gives (λ s, parsed_statement s = true) (Parser.parse_assignment fuel).
Proof.
  intros p s p' Hok. unfold Parser.parse_assignment in Hok. simpl in Hok.
  parsed; expression; simpl; by repeat (apply andb_true_intro; split).
Qed.

Lemma block_loop_parsed rounds :
  ∀ p ss ss' p',
    forallb parsed_statement ss = true →
    Parser.block_loop parse_statement rounds p ss = Ok (ss', p') →
    forallb parsed_statement ss' = true.
Proof.
  induction rounds as [|rounds IH]; intros p ss ss' p' Hss Hok;
    simpl in Hok; parsed; try done.
  eapply IH; [|eassumption]. rewrite forallb_snoc, Hss. simpl.
  by eapply parse_statement_parsed.
Qed.

Local Arguments Parser.block_loop : simpl never.

Lemma parse_block_parsed :
  gives (λ ss, forallb parsed_statement ss = true)
    (Parser.parse_block parse_statement fuel).
Proof.
  intros p ss p' Hok. unfold Parser.parse_block in Hok. simpl in Hok.
  parsed. eapply block_loop_parsed; [|eassumption]. done.
Qed.

Ltac block :=
  repeat match goal with
         | E : Parser.parse_block _ _ _ = Ok (?e, _) |- _ =>
             apply parse_block_parsed in E
         end.

Lemma parse_parameter_known :
  gives (λ parameter : string * string,
           op_in (fst parameter) ["int"; "float"; "bool"; "string"] = true)
    Parser.parse_parameter.
Proof.
  intros p parameter p' Hok. unfold Parser.parse_parameter in Hok.
  simpl in Hok. parsed. apply type_name_known.
  by apply bool_decide_eq_true in Hif.
Qed.

Lemma more_parameters_known rounds :
  ∀ p ps ps' p',
    forallb (λ q, op_in (fst q) ["int"; "float"; "bool"; "string"]) ps = true →
    Parser.more_parameters rounds p ps = Ok (ps', p') →
    forallb (λ q, op_in (fst q) ["int"; "float"; "bool"; "string"]) ps' = true.
Proof.
  induction rounds as [|rounds IH]; intros p ps ps' p' Hps Hok;
    simpl in Hok; parsed; try done.
  eapply IH; [|eassumption]. rewrite forallb_snoc, Hps.
  by erewrite parse_parameter_known.
Qed.

Local Arguments Parser.more_parameters : simpl never.

Lemma statement_parsed :
  gives (λ s, parsed_statement s = true)
    (Parser.statement parse_statement fuel).
Proof.
  intros p s p' Hok. unfold Parser.statement in Hok.
  destruct (Parser.current_token p) as [token|]; [|done].
  destruct (Lexer.type token); simpl in Hok; parsed;
    try (by eapply parse_declaration_parsed);
    try (by eapply parse_assignment_parsed).
  all: try (apply expression_is_statement; by eapply parse_expression_parsed).
  all: unfold Parser.parse_if_statement, Parser.parse_while_statement,
         Parser.parse_for_statement, Parser.parse_function_def,
         Parser.parse_return_statement, Parser.parse_print_statement,
         Parser.parse_parameter_list in Hok;
       simpl in Hok; parsed; expression; block;
       cbn [parsed_statement parsed_option];
       repeat (apply andb_true_intro; split); try done.
  all: try (apply type_name_known; by eapply bool_decide_eq_true_1).
  eapply more_parameters_known; [|eassumption].
  cbn [forallb]. by erewrite parse_parameter_known.
Qed.

End Statements.

Lemma parse_statement_parsed fuel :
  gives (λ s, parsed_statement s = true) (Parser.parse_statement fuel).
Proof.
  induction fuel as [|fuel IH]; intros p e p' Hok; simpl in Hok; [done|].
  by eapply statement_parsed.
Qed.

Local Arguments Parser.parse_statement : simpl never.

Lemma parse_loop_parsed fuel rounds :
  ∀ p ss ss' p',
    forallb parsed_statement ss = true →
    Parser.parse_loop fuel rounds p ss = Ok (ss', p') →
    forallb parsed_statement ss' = true.
Proof.
  induction rounds as [|rounds IH]; intros p ss ss' p' Hss Hok;
    simpl in Hok; parsed; try done.
  eapply IH; [|eassumption]. rewrite forallb_snoc, Hss. simpl.
  by eapply parse_statement_parsed.
Qed.

Lemma language_operators_are_no_jumps o :
  op_in o binary_operators = true ∨ op_in o unary_operators = true →
  jump_operator o = false.
Proof.
  intros [Ho|Ho]; apply op_in_cases in Ho;
    unfold binary_operators, unary_operators in Ho;
    repeat (apply elem_of_cons in Ho as [->|Ho]; [done|]);
    by apply elem_of_nil in Ho.
Qed.

Lemma forallb_both (P Q R : ASTNode → bool) ss :
  Forall (λ e, P e = true → Q e = true ∧ R e = true) ss →
  forallb P ss = true → forallb Q ss = true ∧ forallb R ss = true.
Proof.
  induction 1 as [|s ss Hs _ IH]; simpl; [done|].
  intros Hall. apply andb_prop in Hall as [Hhead Htail].
  destruct (Hs Hhead) as [-> ->]. by destruct (IH Htail) as [-> ->].
Qed.

(** an expression of the language is an expression for the analyzer, and
    its operators are no jumps *)
Lemma parsed_expression_is_expression :
  ∀ e, parsed_expression e = true →
       is_expression e = true ∧ operators_ok e = true.
Proof.
  apply (ASTNode_nested_ind
           (λ e, parsed_expression e = true →
                 is_expression e = true ∧ operators_ok e = true));
    try done.
  - intros l c a o b Ha Hb Hok. cbn [parsed_expression] in Hok.
    apply andb_prop in Hok as [Hok Hpb]. apply andb_prop in Hok as [Ho Hpa].
    destruct (Ha Hpa) as [Ha1 Ha2]. destruct (Hb Hpb) as [Hb1 Hb2].
    cbn [is_expression operators_ok].
    by rewrite Ha1, Ha2, Hb1, Hb2, language_operators_are_no_jumps by auto.
  - intros l c o e He Hok. cbn [parsed_expression] in Hok.
    apply andb_prop in Hok as [Ho Hpe]. destruct (He Hpe) as [He1 He2].
    cbn [is_expression operators_ok].
    by rewrite He1, He2, language_operators_are_no_jumps by auto.
  - intros l c n args Hargs Hok. by apply (forallb_both _ _ _ _ Hargs).
  - intros l c es Hes Hok. by apply (forallb_both _ _ _ _ Hes).
  - intros l c a i Ha Hi Hok. destruct a; try done.
    cbn [parsed_expression] in Hok. destruct (Hi Hok) as [Hi1 Hi2].
    cbn [is_expression operators_ok]. by rewrite Hi1, Hi2.
  - intros l c f args Hargs Hok. by apply (forallb_both _ _ _ _ Hargs).
Qed.

Lemma forallb_impl (P Q : ASTNode → bool) ss :
  Forall (λ s, P s = true → Q s = true) ss →
  forallb P ss = true → forallb Q ss = true.
Proof.
  induction 1 as [|s ss Hs _ IH]; simpl; [done|].
  intros Hall. apply andb_prop in Hall as [Hhead Htail].
  by rewrite (Hs Hhead), (IH Htail).
Qed.

Lemma parsed_expressions_operators es :
  forallb parsed_expression es = true → forallb operators_ok es = true.
Proof.
  apply forallb_impl, Forall_forall. intros e _ He.
  by apply parsed_expression_is_expression.
Qed.

Lemma parsed_statement_operators :
  ∀ s, parsed_statement s = true → operators_ok s = true.
Proof.
  apply (ASTNode_nested_ind
           (λ s, parsed_statement s = true → operators_ok s = true));
    try done.
  all: intros; cbn [parsed_statement parsed_option] in *;
    try (by apply parsed_expression_is_expression).
  all: repeat match goal with
              | e : option _ |- _ => destruct e
              | Hb : _ && _ = true |- _ => apply andb_prop in Hb as [? ?]
              end;
    cbn [operators_ok];
    repeat (apply andb_true_intro; split);
    try done;
    try (by apply parsed_expression_is_expression);
    try (by apply parsed_expressions_operators);
    try (by eapply forallb_impl).
  - destruct i as [| | | | |? ? ? ? [init|]|? ? ? init| | | | | | | | | | | |];
      try done; cbn [operators_ok]; by apply parsed_expression_is_expression.
  - destruct u as [| | | | | |? ? ? value| | | | | | | | | | | |];
      try done; cbn [operators_ok]; by apply parsed_expression_is_expression.
Qed.

(** no operator of a tree of the parser is the op of a jump *)
Lemma parsed_program_operators (tokens : list Lexer.Token) program :
  Parser.parse tokens = Ok program → operators_ok program = true.
Proof.
  unfold Parser.parse. intros Hok. cbv zeta in Hok.
  destruct (Parser.parse_loop _ _ _ _) as [[statements p]|] eqn:Hloop;
    [|done].
  injection Hok as <-. cbn [operators_ok].
  eapply forallb_impl.
  - apply Forall_forall. intros s _. apply parsed_statement_operators.
  - eapply parse_loop_parsed; [|exact Hloop]. done.
Qed.

(** Every tree that [parse] returns is a program of the language: a list
    of statements whose operators are the fourteen binary and the two
    unary operators of the language, whose conditions, operands,
    arguments and initial values are expressions, and whose [for] loops
    begin with a declaration or an assignment and are updated by an
    assignment.  In particular no operator of the tree is the op of a
    jump. *)
Theorem parse_builds_programs (tokens : list Lexer.Token) program :
  Parser.parse tokens = Ok program →
  operators_ok program = true
  ∧ ∃ statements,
      program = Program 1 1 statements
      ∧ forallb parsed_statement statements = true.
Proof.
  unfold Parser.parse. intros Hok. cbv zeta in Hok.
  destruct (Parser.parse_loop _ _ _ _) as [[statements p]|] eqn:Hloop;
    [|done].
  injection Hok as <-.
  assert (forallb parsed_statement statements = true) as Hparsed.
  { eapply parse_loop_parsed; [|exact Hloop]. done. }
  split; [|by eexists].
  cbn [operators_ok]. eapply forallb_impl; [|exact Hparsed].
  apply Forall_forall. intros s _. apply parsed_statement_operators.
Qed.

End Shape.

(** C6.  The generator is given the trees of the parser: [generate] is
    called on what [parse] returned.  In the code that the generator
    produces from such a tree, every label that is the target of a
    [goto], [if_false] or [if_true] instruction is the result of exactly
    one [label] instruction. *)
Theorem jump_targets_are_defined_once (tokens : list Lexer.Token) program
    code :
  Parser.parse tokens = Ok program →
  IRGenerator.run program = Ok code →
  ∀ i, i ∈ code → is_jump i → definitions_count (result i) code = 1%nat.
Proof.
  intros Hparse Hrun i Hi Hjump.
  apply parsed_program_operators in Hparse.
  by apply (generated_jumps_are_defined_once program code).
Qed.

(** *** The parser moves on *)

Lemma onward_refl p : valid p → onward 0 p p.
Proof. intros (_ & _ & ?). unfold onward. repeat split; [lia|done]. Qed.

Lemma onward_trans j k p1 p2 p3 :
  onward j p1 p2 → onward k p2 p3 → onward (j + k) p1 p3.
Proof.
  unfold onward. intros (Ht1 & Hp1 & _) (Ht2 & Hp2 & Hw).
  repeat split; [congruence|lia|done].
Qed.

Lemma onward_weaken j k p p' : (k ≤ j)%nat → onward j p p' → onward k p p'.
Proof. unfold onward. intros ? (? & ? & ?). repeat split; [done|lia|done]. Qed.

Lemma onward_valid k p p' : valid p → onward k p p' → valid p'.
Proof.
  unfold valid, onward. intros (? & ? & _) (Ht & _ & ?).
  rewrite <- Ht in *. done.
Qed.

Lemma onward_rest k p p' : onward k p p' → (rest p' + k ≤ rest p)%nat.
Proof. unfold onward, rest. intros (-> & ? & ?). lia. Qed.

(** at a valid state there is a current token, which is named, and which
    is of type [EOF] when it is the last *)
Lemma valid_current p :
  valid p →
  ∃ t, Parser.current_token p = Some t ∧ named t
       ∧ (rest p = 0%nat → Lexer.type t = EOF).
Proof.
  intros ((body & eof & Htokens & Heof) & Hnamed & Hpos).
  unfold Parser.current_token, rest.
  destruct (lookup_lt_is_Some_2 _ _ Hpos) as [t Ht].
  exists t. split; [done|]. split.
  - eapply Forall_lookup_1; eassumption.
  - intros Hlast. rewrite Htokens in Ht, Hlast.
    rewrite length_app in Hlast. simpl in Hlast.
    assert (Parser.pos p = length body) as Hp.
    { rewrite Htokens, length_app in Hpos. simpl in Hpos. lia. }
    rewrite Hp in Ht. rewrite lookup_app_r in Ht by lia.
    rewrite Nat.sub_diag in Ht. by injection Ht as <-.
Qed.

Lemma advance_onward p :
  valid p →
  onward 0 p (snd (Parser.advance p))
  ∧ ∀ t, Parser.current_token p = Some t → Lexer.type t ≠ EOF →
         onward 1 p (snd (Parser.advance p)) ∧ (0 < rest p)%nat.
Proof.
  intros Hvalid. destruct (valid_current p Hvalid) as (t & Ht & _ & Hlast).
  destruct Hvalid as (_ & _ & Hpos).
  unfold Parser.advance, onward, rest in *. split.
  - destruct (S (Parser.pos p) <? _)%nat eqn:Hlt; simpl;
      repeat split; try done; try lia. by apply Nat.ltb_lt in Hlt.
  - intros t' Ht' Htype. rewrite Ht in Ht'. injection Ht' as <-.
    destruct (S (Parser.pos p) <? _)%nat eqn:Hlt; simpl.
    + apply Nat.ltb_lt in Hlt. repeat split; try done; lia.
    + apply Nat.ltb_ge in Hlt. destruct Htype. apply Hlast. lia.
Qed.

(** what [match] returns, and where the parser is when it returns [True]
    for types other than [EOF] *)
Lemma match_true p types :
  valid p → EOF ∉ types →
  Parser.match_ p types = Ok true →
  onward 1 p (snd (Parser.advance p)) ∧ (0 < rest p)%nat.
Proof.
  intros Hvalid Htypes Hmatch.
  destruct (valid_current p Hvalid) as (t & Ht & _).
  unfold Parser.match_ in Hmatch. rewrite Ht in Hmatch.
  injection Hmatch as Hin. apply bool_decide_eq_true in Hin.
  apply (proj2 (advance_onward p Hvalid) t Ht).
  by intros Heof; rewrite Heof in Hin.
Qed.

Lemma match_returns p types : valid p → is_ok (Parser.match_ p types) = true.
Proof.
  intros Hvalid. destruct (valid_current p Hvalid) as (t & Ht & _).
  unfold Parser.match_. by rewrite Ht.
Qed.

Lemma expect_onward p token_type t p' :
  valid p → token_type ≠ EOF →
  Parser.expect p token_type = Ok (t, p') →
  onward 1 p p' ∧ Lexer.type t = token_type ∧ named t.
Proof.
  intros Hvalid Htype Hok.
  destruct (valid_current p Hvalid) as (t' & Ht & Hnamed & _).
  unfold Parser.expect in Hok. rewrite Ht in Hok.
  destruct (decide (Lexer.type t' = token_type)) as [Heq|Hne].
  - rewrite bool_decide_eq_false_2 in Hok by naive_solver.
    injection Hok as <- <-. split; [|done].
    apply (proj2 (advance_onward p Hvalid) t' Ht). congruence.
  - rewrite bool_decide_eq_true_2 in Hok by done. parsed.
Qed.

Lemma advance_token_onward p t p' :
  valid p →
  Parser.advance_token p = Ok (t, p') →
  p' = snd (Parser.advance p) ∧ Parser.current_token p = Some t
  ∧ onward 0 p p' ∧ named t.
Proof.
  intros Hvalid Hok.
  destruct (valid_current p Hvalid) as (t' & Ht & Hnamed & _).
  pose proof (advance_onward p Hvalid) as [H0 _].
  unfold Parser.advance_token in Hok.
  assert (fst (Parser.advance p) = Some t') as Hfst by done.
  destruct (Parser.advance p) as [o q]. simpl in *. subst o.
  by injection Hok as <- <-.
Qed.

Lemma advance_token_returns p :
  valid p → is_ok (Parser.advance_token p) = true.
Proof.
  intros Hvalid. destruct (valid_current p Hvalid) as (t & Ht & _).
  unfold Parser.advance_token.
  assert (fst (Parser.advance p) = Some t) as Hfst by done.
  destruct (Parser.advance p) as [o q]. simpl in *. by subst.
Qed.

Lemma current_onward p t :
  valid p → Parser.current_token p = Some t → Lexer.type t ≠ EOF →
  onward 1 p (snd (Parser.advance p)).
Proof.
  intros Hvalid Ht Htype.
  by apply (proj2 (advance_onward p Hvalid) t Ht Htype).
Qed.

Ltac not_EOF :=
  let Hin := fresh in
  intros Hin;
  repeat (apply elem_of_cons in Hin as [Hin|Hin]; [discriminate Hin|]);
  by apply elem_of_nil in Hin.

(** what is known of the steps that returned: where each one left the
    parser *)
Ltac step :=
  match goal with
  | Hv : valid ?q, E : Parser.expect ?q ?ty = Ok (?t, ?q') |- _ =>
      destruct (expect_onward q ty t q' Hv ltac:(discriminate) E)
        as (? & ? & ?);
      clear E
  | Hv : valid ?q, E : Parser.match_ ?q ?ts = Ok true |- _ =>
      destruct (match_true q ts Hv ltac:(first [assumption|not_EOF]) E)
        as (? & ?);
      clear E
  | Hv : valid ?q, E : Parser.advance_token ?q = Ok (?t, ?q') |- _ =>
      destruct (advance_token_onward q t q' Hv E) as (? & ? & ? & ?);
      clear E; subst q'
  | Hv : valid ?q, Ht : Parser.current_token ?q = Some ?t,
    Hty : Lexer.type ?t = _ |- _ =>
      lazymatch goal with
      | _ : onward 1 q (snd (Parser.advance q)) |- _ => fail
      | _ =>
          pose proof (current_onward q t Hv Ht
                        ltac:(rewrite Hty; discriminate))
      end
  | Hv : valid ?q, M : moves ?k ?f, E : ?f ?q = Ok (?x, ?q') |- _ =>
      pose proof (M q x q' Hv E); clear E
  | Hv : valid ?q, L : context [onward], E : _ = Ok (_, _) |- _ =>
      apply L in E; [|exact Hv]
  | Hv : valid ?q, L : context [moves], E : _ = Ok (_, _) |- _ =>
      apply L in E; [|exact Hv]
  | Hv : valid ?q, Hon : onward _ ?q ?q' |- _ =>
      lazymatch goal with
      | _ : valid q' |- _ => fail
      | _ => pose proof (onward_valid _ _ _ Hv Hon)
      end
  end.

(** the end of the chain: the positions are compared *)
Ltac arrive :=
  unfold valid, onward in *;
  repeat match goal with
         | Hc : _ ∧ _ |- _ => destruct Hc
         end;
  repeat split; first [congruence|lia].

Ltac moving := repeat step; arrive.

Section Progress.

Section Expressions.

Variable parse_expression : Parser.state → outcome (ASTNode * Parser.state).
Hypothesis parse_expression_moves : moves 1 parse_expression.

Lemma more_expressions_moves fuel :
  ∀ p xs xs' p',
    valid p →
    Parser.more_expressions parse_expression fuel p xs = Ok (xs', p') →
    onward 0 p p'.
Proof.
  induction fuel as [|fuel IH]; intros p xs xs' p' Hvalid Hok;
    cbn in Hok; parsed; try (by apply onward_refl).
  moving.
Qed.

Local Arguments Parser.more_expressions : simpl never.

Lemma expressions_until_moves closing fuel :
  moves 0 (Parser.expressions_until parse_expression closing fuel).
Proof.
  pose proof more_expressions_moves as Hmore.
  intros p xs p' Hvalid Hok. unfold Parser.expressions_until in Hok.
  cbn in Hok. parsed; [by apply onward_refl|]. moving.
Qed.

Lemma parse_primary_moves fuel :
  moves 1 (Parser.parse_primary parse_expression fuel).
Proof.
  pose proof expressions_until_moves as Huntil.
  intros p e p' Hvalid Hok. unfold Parser.parse_primary in Hok.
  destruct (Parser.current_token p) as [token|] eqn:Htoken; [|done].
  destruct (Lexer.type token) eqn:Htype; cbn in Hok;
    try unfold Parser.parse_array_literal in Hok; cbn in Hok; parsed;
    moving.
Qed.

Lemma parse_unary_moves fuel :
  moves 1 (Parser.parse_unary parse_expression fuel).
Proof.
  pose proof parse_primary_moves as Hprimary.
  induction fuel as [|fuel IH]; intros p e p' Hvalid Hok;
    cbn in Hok; parsed; moving.
Qed.

Local Arguments Parser.parse_unary : simpl never.

Lemma parse_power_moves fuel :
  moves 1 (Parser.parse_power parse_expression fuel).
Proof.
  pose proof parse_unary_moves as Hunary.
  induction fuel as [|fuel IH]; intros p e p' Hvalid Hok;
    cbn in Hok; parsed; moving.
Qed.

Local Arguments Parser.parse_power : simpl never.

Section Level.

Variable next : Parser.state → outcome (ASTNode * Parser.state).
Variable operators : list (TokenType * string).
Hypothesis next_moves : moves 1 next.
Hypothesis operators_not_EOF : EOF ∉ fst <$> operators.

Lemma level_loop_moves fuel :
  ∀ lhs p e p',
    valid p →
    Parser.level_loop next operators fuel lhs p = Ok (e, p') →
    onward 0 p p'.
Proof.
  induction fuel as [|fuel IH]; intros lhs p e p' Hvalid Hok;
    cbn in Hok; parsed; try (by apply onward_refl).
  moving.
Qed.

Local Arguments Parser.level_loop : simpl never.

Lemma level_moves fuel : moves 1 (Parser.level next operators fuel).
Proof.
  intros p e p' Hvalid Hok. unfold Parser.level in Hok. cbn in Hok.
  pose proof level_loop_moves as Hloop. parsed. moving.
Qed.

End Level.

Lemma parse_logical_or_moves fuel :
  moves 1 (Parser.parse_logical_or parse_expression fuel).
Proof.
  unfold Parser.parse_logical_or, Parser.parse_logical_and,
    Parser.parse_equality, Parser.parse_relational, Parser.parse_additive,
    Parser.parse_multiplicative.
  repeat (apply level_moves; [|not_EOF]).
  apply parse_power_moves.
Qed.

End Expressions.

Lemma parse_expression_moves fuel : moves 1 (Parser.parse_expression fuel).
Proof.
  induction fuel as [|fuel IH]; intros p e p' Hvalid Hok; cbn in Hok;
    [done|].
  by eapply parse_logical_or_moves.
Qed.

Local Arguments Parser.parse_expression : simpl never.

Lemma array_suffix_moves var_type :
  moves 0 (λ p, Parser.array_suffix p var_type).
Proof.
  intros p x p' Hvalid Hok. unfold Parser.array_suffix in Hok. cbn in Hok.
  parsed; moving.
Qed.

Section Statements.

Variable parse_statement : Parser.state → outcome (ASTNode * Parser.state).
Variable fuel : nat.
Hypothesis parse_statement_moves : moves 1 parse_statement.

Ltac lemmas :=
  pose proof parse_expression_moves as Hexpression;
  pose proof (expressions_until_moves _ (parse_expression_moves fuel))
    as Huntil;
  pose proof array_suffix_moves as Hsuffix; unfold moves in Hsuffix.

Lemma parse_declaration_moves : moves 1 (Parser.parse_declaration fuel).
Proof.
  lemmas. intros p s p' Hvalid Hok. unfold Parser.parse_declaration in Hok.
  cbn in Hok. parsed; moving.
Qed.

Lemma parse_assignment_moves : moves 1 (Parser.parse_assignment fuel).
Proof.
  lemmas. intros p s p' Hvalid Hok. unfold Parser.parse_assignment in Hok.
  cbn in Hok. parsed; moving.
Qed.

Lemma block_loop_moves rounds :
  ∀ p ss ss' p',
    valid p →
    Parser.block_loop parse_statement rounds p ss = Ok (ss', p') →
    onward 0 p p'.
Proof.
  induction rounds as [|rounds IH]; intros p ss ss' p' Hvalid Hok;
    cbn in Hok; parsed; try (by apply onward_refl).
  moving.
Qed.

Local Arguments Parser.block_loop : simpl never.

Lemma parse_block_moves :
  moves 1 (Parser.parse_block parse_statement fuel).
Proof.
  pose proof block_loop_moves as Hloop.
  intros p ss p' Hvalid Hok. unfold Parser.parse_block in Hok. cbn in Hok.
  parsed. moving.
Qed.

Lemma parse_parameter_moves : moves 1 Parser.parse_parameter.
Proof.
  intros p x p' Hvalid Hok. unfold Parser.parse_parameter in Hok.
  cbn in Hok. parsed. moving.
Qed.

Lemma more_parameters_moves rounds :
  ∀ p ps ps' p',
    valid p →
    Parser.more_parameters rounds p ps = Ok (ps', p') →
    onward 0 p p'.
Proof.
  pose proof parse_parameter_moves as Hparameter.
  induction rounds as [|rounds IH]; intros p ps ps' p' Hvalid Hok;
    cbn in Hok; parsed; try (by apply onward_refl).
  moving.
Qed.

Local Arguments Parser.more_parameters : simpl never.

Lemma statement_moves : moves 1 (Parser.statement parse_statement fuel).
Proof.
  lemmas.
  pose proof parse_declaration_moves as Hdeclaration.
  pose proof parse_assignment_moves as Hassignment.
  pose proof parse_block_moves as Hblock.
  pose proof parse_parameter_moves as Hparameter.
  pose proof more_parameters_moves as Hparameters.
  intros p s p' Hvalid Hok. unfold Parser.statement in Hok.
  destruct (Parser.current_token p) as [token|] eqn:Htoken; [|done].
  destruct (Lexer.type token) eqn:Htype; cbn in Hok;
    try unfold Parser.parse_if_statement, Parser.parse_while_statement,
      Parser.parse_for_statement, Parser.parse_function_def,
      Parser.parse_return_statement, Parser.parse_print_statement,
      Parser.parse_parameter_list in Hok;
    cbn in Hok; parsed; moving.
Qed.

End Statements.

Lemma parse_statement_moves fuel : moves 1 (Parser.parse_statement fuel).
Proof.
  induction fuel as [|fuel IH]; intros p e p' Hvalid Hok; cbn in Hok;
    [done|].
  by eapply statement_moves.
Qed.

Local Arguments Parser.parse_statement : simpl never.

End Progress.

Section Ending.

(** *** The parser comes to an end, with a tree or a syntax error *)

Lemma Raise_inj {A} e e' : @Raise A e = Raise e' → e = e'.
Proof. by intros [= ->]. Qed.

Lemma error_fails {A} p message : fails_in_syntax (@Parser.error _ A p message).
Proof.
  unfold Parser.error. intros e.
  destruct (Parser.current_token p); intros [= <-]; by eexists.
Qed.

Lemma match_fails p types : valid p → fails_in_syntax (Parser.match_ p types).
Proof.
  intros Hvalid e He. pose proof (match_returns p types Hvalid) as Hok.
  by rewrite He in Hok.
Qed.

Lemma expect_fails p token_type :
  valid p → fails_in_syntax (Parser.expect p token_type).
Proof.
  intros Hvalid. destruct (valid_current p Hvalid) as (t & Ht & _).
  unfold Parser.expect. rewrite Ht.
  destruct (bool_decide _); [apply error_fails|done].
Qed.

Lemma advance_token_fails p :
  valid p → fails_in_syntax (Parser.advance_token p).
Proof.
  intros Hvalid e He. pose proof (advance_token_returns p Hvalid) as Hok.
  by rewrite He in Hok.
Qed.

Lemma text_of_fails (t : Lexer.Token) :
  named t → Lexer.type t ∈ name_types → fails_in_syntax (Parser.text_of t).
Proof.
  intros Hnamed Htype. destruct (Hnamed Htype) as [s Hs].
  unfold Parser.text_of. by rewrite Hs.
Qed.

Lemma current_named p t :
  valid p → Parser.current_token p = Some t → named t.
Proof.
  intros Hvalid Ht. destruct (valid_current p Hvalid) as (t' & Ht' & ? & _).
  rewrite Ht in Ht'. by injection Ht' as <-.
Qed.

(** the positions and the fuel are compared *)
Ltac bounds :=
  unfold rest, valid, onward in *;
  repeat match goal with
         | Hc : _ ∧ _ |- _ => destruct Hc
         end;
  repeat match goal with
         | Ht : Parser.tokens _ = Parser.tokens _ |- _ =>
             apply (f_equal length) in Ht
         end;
  lia.

Ltac in_name_types Hty :=
  rewrite Hty; unfold name_types; rewrite !elem_of_cons; tauto.

(** the steps of a computation that raised: one of them did *)
Ltac raising :=
  repeat
    match goal with
    | H : Ok _ = Raise _ |- _ => discriminate H
    | H : Raise _ = Raise _ |- _ => apply Raise_inj in H; subst
    | H : Parser.error _ _ = Raise _ |- _ => by apply error_fails in H
    | H : mbind _ ?c = Raise _ |- _ =>
        let E := fresh "Hstep" in
        destruct c as [?|?] eqn:E; cbn in H;
        [|apply Raise_inj in H; subst]
    | H : (let '(_, _) := ?p in _) = Raise _ |- _ =>
        destruct p; cbn in H
    | H : (if ?b then _ else _) = Raise _ |- _ =>
        let E := fresh "Hif" in destruct b eqn:E; cbn in H
    | H : (match ?x with _ => _ end) = Raise _ |- _ =>
        let E := fresh "Hcase" in destruct x eqn:E; cbn in H
    end.

(** the step that raised did so with a syntax error; a loop that ran out
    of fuel cannot be, since the tokens are fewer than the fuel *)
Ltac syntax :=
  parsed; repeat step;
  try match goal with
      | Hv : valid ?q, Ht : Parser.current_token ?q = Some ?t |- _ =>
          lazymatch goal with
          | _ : named t |- _ => fail
          | _ => pose proof (current_named q t Hv Ht)
          end
      end;
  first
    [ exfalso; bounds
    | match goal with
      | E : Parser.match_ ?q _ = Raise _, Hv : valid ?q |- _ =>
          by apply (match_fails _ _ Hv) in E
      | E : Parser.expect ?q _ = Raise _, Hv : valid ?q |- _ =>
          by apply (expect_fails _ _ Hv) in E
      | E : Parser.advance_token ?q = Raise _, Hv : valid ?q |- _ =>
          by apply (advance_token_fails _ Hv) in E
      | E : Parser.text_of ?t = Raise _, Hn : named ?t,
        Hty : Lexer.type ?t = _ |- _ =>
          by apply (text_of_fails t Hn ltac:(in_name_types Hty)) in E
      | E : Parser.text_of ?t = Raise _, Hn : named ?t,
        Hty : bool_decide (Lexer.type ?t = IDENTIFIER) = true |- _ =>
          apply bool_decide_eq_true in Hty;
          by apply (text_of_fails t Hn ltac:(in_name_types Hty)) in E
      | E : _ = Raise _, F : context [fails_in_syntax] |- _ =>
          unfold fails_in_syntax in F; apply F in E;
          [exact E|first [assumption|bounds]..]
      end ].

Ltac ending := raising; syntax.

Section Expressions.

Variable parse_expression : Parser.state → outcome (ASTNode * Parser.state).
Variable bound : nat.
Hypothesis parse_expression_moves : moves 1 parse_expression.
Hypothesis parse_expression_fails :
  ∀ p, valid p → (rest p < bound)%nat → fails_in_syntax (parse_expression p).

Lemma more_expressions_fails fuel :
  ∀ p xs,
    valid p → (rest p ≤ fuel)%nat → (rest p ≤ bound)%nat →
    fails_in_syntax (Parser.more_expressions parse_expression fuel p xs).
Proof.
  induction fuel as [|fuel IH]; intros p xs Hvalid Hfuel Hbound e Hcut;
    cbn in Hcut; ending.
Qed.

Local Arguments Parser.more_expressions : simpl never.

Ltac lemmas :=
  pose proof (expressions_until_moves _ parse_expression_moves) as Huntil;
  pose proof (parse_primary_moves _ parse_expression_moves) as Hprimary;
  pose proof (parse_unary_moves _ parse_expression_moves) as Hunary;
  pose proof (parse_power_moves _ parse_expression_moves) as Hpower.

Lemma expressions_until_fails closing fuel p :
  valid p → (rest p ≤ fuel)%nat → (rest p < bound)%nat →
  fails_in_syntax (Parser.expressions_until parse_expression closing fuel p).
Proof.
  pose proof more_expressions_fails as Hmore.
  intros Hvalid Hfuel Hbound e Hcut. unfold Parser.expressions_until in Hcut.
  cbn in Hcut. ending.
Qed.

Lemma parse_primary_fails fuel p :
  valid p → (rest p ≤ fuel)%nat → (rest p ≤ bound)%nat →
  fails_in_syntax (Parser.parse_primary parse_expression fuel p).
Proof.
  lemmas. pose proof expressions_until_fails as Hlist.
  intros Hvalid Hfuel Hbound e Hcut. unfold Parser.parse_primary in Hcut.
  destruct (valid_current p Hvalid) as (token & Htoken & _).
  rewrite Htoken in Hcut.
  destruct (Lexer.type token) eqn:Htype; cbn in Hcut;
    try unfold Parser.parse_array_literal in Hcut; cbn in Hcut; ending.
Qed.

Lemma parse_unary_fails fuel :
  ∀ p, valid p → (rest p ≤ fuel)%nat → (rest p ≤ bound)%nat →
       fails_in_syntax (Parser.parse_unary parse_expression fuel p).
Proof.
  lemmas. pose proof parse_primary_fails as Hfirst.
  induction fuel as [|fuel IH]; intros p Hvalid Hfuel Hbound e Hcut;
    cbn in Hcut; ending.
Qed.

Local Arguments Parser.parse_unary : simpl never.

Lemma parse_power_fails fuel :
  ∀ p, valid p → (rest p ≤ fuel)%nat → (rest p ≤ bound)%nat →
       fails_in_syntax (Parser.parse_power parse_expression fuel p).
Proof.
  lemmas. pose proof parse_unary_fails as Hfirst.
  induction fuel as [|fuel IH]; intros p Hvalid Hfuel Hbound e Hcut;
    cbn in Hcut; ending.
Qed.

Local Arguments Parser.parse_power : simpl never.

Section Level.

Variable next : Parser.state → outcome (ASTNode * Parser.state).
Variable operators : list (TokenType * string).
Variable enough : nat.
Hypothesis next_moves : moves 1 next.
Hypothesis operators_not_EOF : EOF ∉ fst <$> operators.
Hypothesis next_fails :
  ∀ p, valid p → (rest p ≤ enough)%nat → (rest p ≤ bound)%nat →
       fails_in_syntax (next p).

Lemma level_loop_fails fuel :
  ∀ lhs p,
    valid p → (rest p ≤ fuel)%nat → (rest p ≤ enough)%nat →
    (rest p ≤ bound)%nat →
    fails_in_syntax (Parser.level_loop next operators fuel lhs p).
Proof.
  induction fuel as [|fuel IH]; intros lhs p Hvalid Hfuel Henough Hbound e Hcut;
    cbn in Hcut; ending.
Qed.

Local Arguments Parser.level_loop : simpl never.

Lemma level_fails fuel p :
  valid p → (rest p ≤ fuel)%nat → (rest p ≤ enough)%nat →
  (rest p ≤ bound)%nat →
  fails_in_syntax (Parser.level next operators fuel p).
Proof.
  pose proof level_loop_fails as Hloop.
  intros Hvalid Hfuel Henough Hbound e Hcut. unfold Parser.level in Hcut.
  cbn in Hcut. ending.
Qed.

End Level.

Lemma parse_logical_or_fails fuel p :
  valid p → (rest p ≤ fuel)%nat → (rest p ≤ bound)%nat →
  fails_in_syntax (Parser.parse_logical_or parse_expression fuel p).
Proof.
  intros Hvalid Hfuel Hbound.
  unfold Parser.parse_logical_or, Parser.parse_logical_and,
    Parser.parse_equality, Parser.parse_relational, Parser.parse_additive,
    Parser.parse_multiplicative.
  repeat (apply (level_fails _ _ fuel); try done; try not_EOF;
          [repeat (apply level_moves; [|not_EOF]);
           by apply parse_power_moves|];
          clear p Hvalid Hfuel Hbound; intros p Hvalid Hfuel Hbound).
  by apply parse_power_fails.
Qed.

End Expressions.

Lemma parse_expression_fails fuel :
  ∀ p, valid p → (rest p < fuel)%nat →
       fails_in_syntax (Parser.parse_expression fuel p).
Proof.
  induction fuel as [|fuel IH]; intros p Hvalid Hfuel; [lia|]. cbn.
  apply (parse_logical_or_fails _ fuel); try done; try lia.
  apply parse_expression_moves.
Qed.

Local Arguments Parser.parse_expression : simpl never.

Lemma array_suffix_fails p var_type :
  valid p → fails_in_syntax (Parser.array_suffix p var_type).
Proof.
  intros Hvalid e Hcut. unfold Parser.array_suffix in Hcut. cbn in Hcut.
  ending.
Qed.

Section Statements.

Variable parse_statement : Parser.state → outcome (ASTNode * Parser.state).
Variable fuel : nat.
Hypothesis parse_statement_moves : moves 1 parse_statement.
Hypothesis parse_statement_fails :
  ∀ p, valid p → (rest p + 1 < fuel)%nat → fails_in_syntax (parse_statement p).

Ltac lemmas :=
  pose proof parse_expression_moves as Hexpression;
  pose proof (expressions_until_moves _ (parse_expression_moves fuel))
    as Huntil;
  pose proof array_suffix_moves as Hsuffix; unfold moves in Hsuffix;
  pose proof (parse_block_moves _ fuel parse_statement_moves) as Hblock;
  pose proof parse_parameter_moves as Hparameter;
  pose proof more_parameters_moves as Hparameters;
  pose proof parse_expression_fails as Hfirst;
  pose proof array_suffix_fails as Hlast.

Lemma block_loop_fails rounds :
  ∀ p ss,
    valid p → (rest p < rounds)%nat → (rest p + 1 < fuel)%nat →
    fails_in_syntax (Parser.block_loop parse_statement rounds p ss).
Proof.
  induction rounds as [|rounds IH]; intros p ss Hvalid Hrounds Hfuel e Hcut;
    cbn in Hcut; ending.
Qed.

Local Arguments Parser.block_loop : simpl never.

Lemma parse_block_fails p :
  valid p → (rest p < fuel)%nat →
  fails_in_syntax (Parser.parse_block parse_statement fuel p).
Proof.
  pose proof block_loop_fails as Hloop.
  pose proof (block_loop_moves _ parse_statement_moves) as Hmoves.
  intros Hvalid Hfuel e Hcut. unfold Parser.parse_block in Hcut. cbn in Hcut.
  ending.
Qed.

Lemma parse_parameter_fails p :
  valid p → fails_in_syntax (Parser.parse_parameter p).
Proof.
  intros Hvalid e Hcut. unfold Parser.parse_parameter in Hcut. cbn in Hcut.
  ending.
Qed.

Lemma more_parameters_fails rounds :
  ∀ p ps,
    valid p → (rest p ≤ rounds)%nat →
    fails_in_syntax (Parser.more_parameters rounds p ps).
Proof.
  pose proof parse_parameter_moves as Hparameter.
  pose proof parse_parameter_fails as Hfirst.
  induction rounds as [|rounds IH]; intros p ps Hvalid Hrounds e Hcut;
    cbn in Hcut; ending.
Qed.

Local Arguments Parser.more_parameters : simpl never.

Lemma statement_fails p :
  valid p → (rest p < fuel)%nat →
  fails_in_syntax (Parser.statement parse_statement fuel p).
Proof.
  lemmas.
  pose proof (expressions_until_fails _ fuel
                (parse_expression_moves fuel)
                (parse_expression_fails fuel)) as Hlist.
  pose proof parse_block_fails as Hbody.
  pose proof parse_parameter_fails as Hone.
  pose proof more_parameters_fails as Hmore.
  intros Hvalid Hfuel e Hcut. unfold Parser.statement in Hcut.
  destruct (valid_current p Hvalid) as (token & Htoken & _).
  rewrite Htoken in Hcut.
  destruct (Lexer.type token) eqn:Htype; cbn in Hcut;
    try unfold Parser.parse_declaration, Parser.parse_assignment,
      Parser.parse_if_statement, Parser.parse_while_statement,
      Parser.parse_for_statement, Parser.parse_function_def,
      Parser.parse_return_statement, Parser.parse_print_statement,
      Parser.parse_parameter_list in Hcut;
    cbn in Hcut; ending.
Qed.

End Statements.

Lemma parse_statement_fails fuel :
  ∀ p, valid p → (rest p + 1 < fuel)%nat →
       fails_in_syntax (Parser.parse_statement fuel p).
Proof.
  induction fuel as [|fuel IH]; intros p Hvalid Hfuel; [lia|]. cbn.
  apply statement_fails; try done; try lia.
  apply parse_statement_moves.
Qed.

Local Arguments Parser.parse_statement : simpl never.

Lemma parse_loop_fails fuel rounds :
  ∀ p ss,
    valid p → (rest p < rounds)%nat → (rest p + 1 < fuel)%nat →
    fails_in_syntax (Parser.parse_loop fuel rounds p ss).
Proof.
  pose proof (parse_statement_moves fuel) as Hmoves.
  pose proof (parse_statement_fails fuel) as Hfirst.
  induction rounds as [|rounds IH]; intros p ss Hvalid Hrounds Hfuel e Hcut;
    cbn in Hcut; ending.
Qed.

Lemma parse_fails (tokens : list Lexer.Token) :
  ends_with_EOF tokens → Forall named tokens →
  fails_in_syntax (Parser.parse tokens).
Proof.
  intros Hend Hnamed.
  assert (0 < length tokens)%nat as Hlength.
  { destruct Hend as (body & eof & -> & _). rewrite length_app. simpl. lia. }
  assert (valid (Parser.init tokens)) as Hvalid by done.
  pose proof (parse_loop_fails (S (length tokens)) (S (length tokens))
                (Parser.init tokens) [] Hvalid) as Hloop.
  unfold Parser.parse. cbv zeta.
  destruct (Parser.parse_loop _ _ _ _) as [[statements p]|e'] eqn:Hrun;
    [done|].
  intros e [= ->]. eapply Hloop; [| |done]; unfold rest; simpl; lia.
Qed.

End Ending.

(** [parse] on a list of tokens that ends with [EOF], the names being
    strings: it returns a program, or it raises a syntax error; it raises
    no other exception, and none of its loops goes on for ever. *)
Theorem parse_returns_or_raises_SyntaxError (tokens : list Lexer.Token) :
  ends_with_EOF tokens → Forall named tokens →
  (∃ statements, Parser.parse tokens = Ok (Program 1 1 statements))
  ∨ ∃ message, Parser.parse tokens = Raise (SyntaxError message).
Proof.
  intros Hend Hnamed. pose proof (parse_fails tokens Hend Hnamed) as Hfails.
  revert Hfails. unfold Parser.parse. cbv zeta.
  destruct (Parser.parse_loop _ _ _ _) as [[statements p]|e]; simpl.
  - intros _. left. by exists statements.
  - intros Hfails. right. destruct (Hfails e eq_refl) as [message ->].
    by exists message.
Qed.

(** the tokens that [tokenize] returns are a list for [parse]: the list
    ends with [EOF] and the names are strings, so that [parse] returns or
    raises a syntax error. *)
Theorem lexer_tokens_suit_the_parser source_code (tokens : list Lexer.Token) :
  Lexer.tokenize source_code = Ok tokens →
  ends_with_EOF tokens
  ∧ Forall named tokens
  ∧ fails_in_syntax (Parser.parse tokens).
Proof.
  intros Htokens.
  destruct (tokenize_lexed source_code tokens Htokens) as [Hend Hnamed].
  split; [done|]. split; [done|]. by apply parse_fails.
Qed.

End Properties.

(** * Closed examples *)

(** the examples run on [int_host] *)
Local Existing Instance int_host.

(** C6 at [while (i <= 3) { print(i); }]: the parser returns
    [while_program], the generator [while_ir], and both labels of the
    loop are defined once. *)
Lemma while_labels_are_defined_once :
  ∃ tokens,
    @Lexer.tokenize int_host "while (i <= 3) { print(i); }" = Ok tokens
    ∧ Parser.parse tokens = Ok while_program
    ∧ IRGenerator.run while_program = Ok (@while_ir int_host)
    ∧ definitions_count (Some "L1") (@while_ir int_host) = 1%nat
    ∧ definitions_count (Some "L0") (@while_ir int_host) = 1%nat.
Proof.
  destruct (@Lexer.tokenize int_host "while (i <= 3) { print(i); }")
    as [tokens|e] eqn:Htokens; [|vm_compute in Htokens; discriminate Htokens].
  assert (Parser.parse tokens = Ok while_program) as Hparse.
  { vm_compute in Htokens. injection Htokens as <-. vm_compute. reflexivity. }
  exists tokens. split; [reflexivity|]. split; [exact Hparse|].
  split; [reflexivity|]. split.
  - apply (jump_targets_are_defined_once (H := int_host) tokens while_program
             while_ir Hparse eq_refl (jump "if_false" (VStr "t0") 1)).
    + apply list_elem_of_In. simpl. tauto.
    + right. left. reflexivity.
  - apply (jump_targets_are_defined_once (H := int_host) tokens while_program
             while_ir Hparse eq_refl (jump "goto" VNone 0)).
    + apply list_elem_of_In. simpl. tauto.
    + left. reflexivity.
Defined.

(** an instruction without a result, such as [param_decl n], is kept
    by dead-code elimination, though it is none of the instructions that
    are always kept and writes no name *)
Lemma param_decl_is_kept :
  @Optimizer.dead_code_elimination int_host [param_decl_n] = [param_decl_n]
  ∧ @dce_as_claimed int_host [param_decl_n] = [].
Proof. split; vm_compute; reflexivity. Qed.



(** C10 at [array_append 7 -> a] in the initial state. *)
Lemma append_to_a_creates_the_array :
  ∃ vm',
    Interpreter.execute_instruction
      (Interpreter.init [@append_to_a int_host] []) append_to_a = Ok vm'
    ∧ Interpreter.variables vm' = {[ Some "a" := VList 0 ]}
    ∧ Interpreter.heap_of vm' !! 0%nat = Some [VInt 7].
Proof.
  destruct (array_append_creates_the_array (H := int_host)
              (Interpreter.init [append_to_a] []) append_to_a (VInt 7)
              eq_refl eq_refl eq_refl)
    as (vm' & Hrun & Hvars & Hheap & _).
  exists vm'. split; [exact Hrun|]. split; [exact Hvars|exact Hheap].
Defined.


(** C7 at a name bound in the enclosing scope only: the declaration in
    the inner scope succeeds and the new symbol shadows the outer one. *)
Lemma shadowing_in_the_inner_scope :
  Semantic.lookup inner_scope "x"
  = Some (variable_symbol "int" true)
  ∧ ∃ t', Semantic.define inner_scope "x" (variable_symbol "float" false)
          = Ok t'
          ∧ Semantic.lookup t' "x" = Some (variable_symbol "float" false)
          ∧ Semantic.parent t' = Some outer_scope.
Proof.
  split; [reflexivity|].
  destruct (declaration_in_the_current_scope (H := int_host) inner_scope "x"
              (variable_symbol "float" false))
    as (_ & Hdefine & _).
  destruct (Hdefine eq_refl) as (t' & Hok & Hlookup & Hparent & _).
  exists t'. split; [exact Hok|]. split; [exact Hlookup|exact Hparent].
Defined.

(** ** Closed examples of the further properties *)

(** the literal [42] is read back in the initial state *)
Lemma literal_42_is_read_back :
  Interpreter.get_value (Interpreter.init [] [])
    (IRGenerator.generate_Literal (VInt 42))
  = Ok (VInt 42).
Proof.
  apply (literal_operands_read_back (H := int_host)
           (Interpreter.init [] []) (VInt 42)).
  vm_compute. reflexivity.
Defined.

(** the operand [14] is the integer 14 for the optimizer and for the
    interpreter *)
Lemma operand_14_is_read_alike :
  Interpreter.get_value (Interpreter.init [] []) (VStr "14")
  = Ok (@Optimizer.get_constant_value int_host (VStr "14")).
Proof.
  apply (constants_are_read_alike (H := int_host)
           (Interpreter.init [] []) (VStr "14")).
  - vm_compute. reflexivity.
  - vm_compute. reflexivity.
Defined.

(** [t0 = 6 * 7] is folded to an assignment that runs as the product *)
Lemma six_times_seven_is_folded :
  let i := @TAC int_host "*" (VStr "6") (VStr "7") (Some "t0") in
  ∃ i', Optimizer.constant_folding [i] = Ok [i']
        ∧ Interpreter.execute_instruction (Interpreter.init [] []) i'
          = Interpreter.execute_instruction (Interpreter.init [] []) i
        ∧ op i' = "assign".
Proof.
  destruct (integer_folding_agrees (H := int_host) (Interpreter.init [] [])
              "*" 6 7 (Some "t0"))
    as (i' & Hfold & Hrun & Hop).
  - vm_compute. reflexivity.
  - vm_compute. reflexivity.
  - vm_compute. reflexivity.
  - discriminate.
  - exists i'. split; [exact Hfold|]. split; [exact Hrun|exact Hop].
Defined.

(** [string s = "hi"; string t = s; print(t);] prints [hi]; optimized,
    it raises *)
Lemma copying_hi_raises :
  Interpreter.execute 3 (@copied_string_ir int_host "hi") [] = Some (Ok ["hi"])
  ∧ ∃ code,
      Optimizer.optimize (@copied_string_ir int_host "hi") = Ok code
      ∧ Interpreter.execute 2 code []
        = Some (Raise (RuntimeError "Undefined variable: hi")).
Proof.
  destruct (copied_strings_lose_their_quotes (H := int_host) "hi" [])
    as (_ & _ & Hrun & Hopt & Hrun').
  - vm_compute. reflexivity.
  - vm_compute. reflexivity.
  - discriminate.
  - discriminate.
  - split; [exact Hrun|]. eexists. split; [exact Hopt|exact Hrun'].
Defined.

(** [x = y; y = 7; print x] becomes [x = y; y = 7; print y] *)
Lemma print_x_becomes_print_y :
  @Optimizer.copy_propagation int_host
    [ Optimizer.assign (VStr "y") (Some "x");
      Optimizer.assign (VStr "7") (Some "y");
      TAC _ "print" (VStr "x") VNone None ]
  = [ Optimizer.assign (VStr "y") (Some "x");
      Optimizer.assign (VStr "7") (Some "y");
      TAC _ "print" (VStr "y") VNone None ].
Proof.
  apply (copy_outlives_its_source (H := int_host) "x" "y" (VStr "7")).
  - discriminate.
  - discriminate.
  - vm_compute. reflexivity.
  - vm_compute. reflexivity.
  - vm_compute. reflexivity.
Defined.

(** the entry of [add] in the table of [call_ir] *)
Lemma add_is_entered_at_1 :
  Interpreter.functions (Interpreter.init (@call_ir int_host) [])
    !! Some "add" = Some 1.
Proof.
  destruct (function_table_entries (H := int_host) call_ir [] "add")
    as [Hlast _].
  apply (Hlast [] (TAC _ "begin_func" (VStr "add") VNone None)
           (tail call_ir)).
  - reflexivity.
  - split; reflexivity.
  - intros j Hj [Hop _]. apply list_elem_of_In in Hj. simpl in Hj.
    repeat (destruct Hj as [<-|Hj]; [discriminate Hop|]). exact Hj.
Defined.

(** the [begin_func] of [call_ir] moves the program counter to 6, past
    the [end_func] at index 5 *)
Lemma add_is_skipped :
  Interpreter.execute_instruction (Interpreter.init (@call_ir int_host) [])
    (TAC _ "begin_func" (VStr "add") VNone None)
  = Ok (Interpreter.set_pc (Interpreter.init call_ir []) 6).
Proof.
  destruct (definitions_are_skipped (H := int_host)
              (Interpreter.init call_ir [])
              (TAC _ "begin_func" (VStr "add") VNone None))
    as [Hclosed _].
  - reflexivity.
  - vm_compute. discriminate.
  - apply (Hclosed 5%nat).
    + eexists. split; [reflexivity|]. split; reflexivity.
    + intros k' Hk' (e & He & Hop & _).
      do 5 (destruct k' as [|k']; [vm_compute in He; injection He as <-;
                                   discriminate Hop|]).
      lia.
Defined.

(** the call of [call_ir] reads the two instructions before it, of which
    one is a [param]: the frame gets the single parameter 5 *)
Lemma call_of_add_gets_one_parameter :
  Interpreter.execute_instruction (@call_state int_host 4)
    (TAC _ "call" (VStr "add") (VInt 2) (Some "t2"))
  = Ok (Interpreter.set_pc
          (Interpreter.push_frame (call_state 4)
             (new_frame (call_state 4) [VInt 5])) 1).
Proof.
  apply (call_reads_the_params_before_it (H := int_host) (call_state 4)
           (TAC _ "call" (VStr "add") (VInt 2) (Some "t2")) "add" 2 1
           [VInt 5]).
  - reflexivity.
  - reflexivity.
  - reflexivity.
  - vm_compute. split; discriminate.
  - vm_compute. discriminate.
  - vm_compute. reflexivity.
  - vm_compute. reflexivity.
Defined.

(** entered with the single parameter 5 from a caller that has a
    variable [b], [add] binds [a], leaves [b] with the value of the
    caller, and leaves the index 1 in its frame *)
Lemma add_binds_a_only :
  ∃ vm',
    Interpreter.steps 2
      (Interpreter.store (@call_state int_host 5) (Some "b") (VInt 9))
    = Ok vm'
    ∧ Interpreter.variables vm' !! Some "a" = Some (VInt 5)
    ∧ Interpreter.variables vm' !! Some "b" = Some (VInt 9)
    ∧ Interpreter.param_index <$> Interpreter.call_stack vm' = [Some 1%nat]
    ∧ Interpreter.pc vm' = 3.
Proof.
  eexists. split.
  - apply (param_decls_bind_in_order (H := int_host)
             (Interpreter.store (call_state 5) (Some "b") (VInt 9))
             (new_frame (call_state 4) [VInt 5]) [] ["a"; "b"]).
    + vm_compute. reflexivity.
    + reflexivity.
    + vm_compute. discriminate.
    + intros j x Hj.
      destruct j as [|[|j]]; simpl in Hj;
        [injection Hj as <-..|discriminate Hj];
        vm_compute; reflexivity.
  - vm_compute. repeat split; reflexivity.
Defined.

(** after [int[] a = [7, 8];] the names [a] and [t0] denote one list: a
    write through [a] is read through [t0] *)
Lemma write_through_a_is_read_through_t0 :
  ∃ vm',
    Interpreter.execute_instruction (@array_state int_host)
      (TAC _ "array_set" (VStr "1") (VStr "9") (Some "a")) = Ok vm'
    ∧ Interpreter.execute_instruction vm'
        (TAC _ "array_get" (VStr "t0") (VStr "1") (Some "x"))
      = Ok (Interpreter.store vm' (Some "x") (VInt 9)).
Proof.
  destruct (array_set_then_get (H := int_host) array_state "a" 0%nat
              [VInt 7; VInt 8] (VStr "1") 1 (VStr "9") (VInt 9))
    as (vm' & Hset & _ & Hget).
  - vm_compute. reflexivity.
  - vm_compute. reflexivity.
  - vm_compute. reflexivity.
  - vm_compute. split; [discriminate|reflexivity].
  - vm_compute. reflexivity.
  - exists vm'. split; [exact Hset|]. apply Hget. vm_compute. reflexivity.
Defined.

(** the index [-1], which the host takes for the last element, is out of
    bounds for the interpreter *)
Lemma minus_one_is_out_of_bounds :
  Interpreter.execute_instruction
    (Interpreter.store (@array_state int_host) (Some "i") (VInt (-1)))
    (TAC _ "array_get" (VStr "a") (VStr "i") (Some "x"))
  = Raise (RuntimeError "Array index out of bounds: -1").
Proof.
  destruct (array_index_out_of_bounds (H := int_host)
              (Interpreter.store array_state (Some "i") (VInt (-1)))
              "a" (VStr "a") 0%nat [VInt 7; VInt 8] (VStr "i") (-1)
              (VStr "0") (Some "x"))
    as [Hget _].
  - vm_compute. reflexivity.
  - vm_compute. reflexivity.
  - left. vm_compute. reflexivity.
  - vm_compute. reflexivity.
  - apply Hget. vm_compute. reflexivity.
Defined.

(** the program with [a = 1] and [b = 2] prints [1]; optimized, it
    prints [2] *)
Lemma one_becomes_two :
  Interpreter.execute 7 (@shadowed_ir int_host 1 2) [] = Some (Ok ["1"])
  ∧ ∃ code,
      Optimizer.optimize (@shadowed_ir int_host 1 2) = Ok code
      ∧ Interpreter.execute 7 code [] = Some (Ok ["2"]).
Proof.
  destruct (constants_leak_out_of_definitions (H := int_host) 1 2 [])
    as (_ & _ & Hrun & Hopt & Hrun').
  - vm_compute. reflexivity.
  - vm_compute. reflexivity.
  - split; [exact Hrun|]. eexists. split; [exact Hopt|exact Hrun'].
Defined.

(** the tokens of [x = 1;] end with the only [EOF] *)
Lemma tokens_of_an_assignment_end_with_EOF :
  ∃ tokens body eof,
    @Lexer.tokenize int_host "x = 1;" = Ok tokens
    ∧ length tokens = 5%nat
    ∧ tokens = body ++ [eof]
    ∧ Lexer.type eof = EOF
    ∧ Forall (λ t, Lexer.type t ≠ EOF) body.
Proof.
  destruct (tokenize_ends_with_EOF (H := int_host) "x = 1;") as [_ Hlast].
  edestruct Hlast as (body & eof & Htokens & Heof & Hbody).
  - vm_compute. reflexivity.
  - eexists _, body, eof. split; [vm_compute; reflexivity|].
    split; [reflexivity|]. split; [exact Htokens|].
    split; [exact Heof|exact Hbody].
Defined.

(** [while1] is one identifier, not the keyword [while] and a number *)
Lemma while1_is_an_identifier :
  ∃ lx',
    Lexer.read_identifier (Lexer.init "while1 x")
    = Ok ({| Lexer.type := IDENTIFIER; Lexer.value_of := VStr "while1";
             Lexer.line_of := 1; Lexer.column_of := 1 |}, lx')
    ∧ Lexer.pos lx' = 6%nat.
Proof.
  eexists. split.
  - apply (read_identifier_takes_the_longest_word (H := int_host)
             (Lexer.init "while1 x") "while1").
    + vm_compute. tauto.
    + vm_compute. reflexivity.
    + vm_compute. reflexivity.
  - vm_compute. reflexivity.
Defined.

(** the digits [42] are read back as 42 *)
Lemma digits_42_are_read_back :
  ∃ lx',
    Lexer.read_number (Lexer.init "42;")
    = Ok ({| Lexer.type := INT_LITERAL; Lexer.value_of := VInt 42;
             Lexer.line_of := 1; Lexer.column_of := 1 |}, lx')
    ∧ Lexer.pos lx' = 2%nat.
Proof.
  eexists. split.
  - apply (read_number_reads_the_digits_back (H := int_host)
             (Lexer.init "42;") 42).
    + vm_compute. discriminate.
    + vm_compute. reflexivity.
    + vm_compute. tauto.
    + vm_compute. reflexivity.
  - vm_compute. reflexivity.
Defined.

(** the literal [hi] between quotes is read as the string [hi] *)
Lemma quoted_hi_is_read :
  ∃ lx',
    Lexer.read_string (Lexer.init (Py.quoted "hi"))
    = Ok ({| Lexer.type := STRING_LITERAL; Lexer.value_of := VStr "hi";
             Lexer.line_of := 1; Lexer.column_of := 1 |}, lx')
    ∧ Lexer.pos lx' = 4%nat.
Proof.
  destruct (read_string_reads_plain_text (H := int_host)
              (Lexer.init (Py.quoted "hi")) "hi") as [Hclosed _].
  - vm_compute. reflexivity.
  - eexists. split.
    + apply Hclosed. vm_compute. tauto.
    + vm_compute. reflexivity.
Defined.

(** [1.2.3] is refused at its second point, in column 4 *)
Lemma second_point_of_1_2_3 :
  Lexer.read_number (Lexer.init "1.2.3")
  = Raise (SyntaxError
             "Lexical error at line 1, column 4: Invalid number format: multiple decimal points").
Proof.
  apply (second_point_is_an_error (H := int_host) (Lexer.init "1.2.3")
           "1" "2").
  - vm_compute. reflexivity.
  - vm_compute. reflexivity.
  - vm_compute. tauto.
Defined.

(** the analysis of [string s = "hi"; string t = s; print(t);] in the
    global scope stays there, and declares [s] *)
Lemma analysis_of_a_program_stays_global :
  ∃ a',
    Semantic.analyze Semantic.init (@copied_string_program int_host "hi")
    = Ok ("void", a')
    ∧ same_scope Semantic.init a'
    ∧ Semantic.exists_ (Semantic.current_scope a') "s" = true.
Proof.
  destruct (Semantic.analyze Semantic.init (copied_string_program "hi"))
    as [[t a']|e] eqn:Hok; [|vm_compute in Hok; discriminate Hok].
  destruct (analysis_stays_in_its_scope (H := int_host) Semantic.init
              (copied_string_program "hi") t a' Hok) as [Hscope _].
  exists a'. vm_compute in Hok. injection Hok as <- <-.
  split; [reflexivity|]. split; [exact Hscope|]. vm_compute. reflexivity.
Defined.

(** the [x] declared in the block of [if (true) { int x = 1; }] is gone
    after the statement *)
Lemma declaration_in_a_block_is_local :
  Semantic.analyze Semantic.init (@declaring_if int_host)
  = Ok ("void", Semantic.init).
Proof.
  destruct (Semantic.analyze Semantic.init declaring_if) as [[t a']|e] eqn:Hok;
    [|vm_compute in Hok; discriminate Hok].
  destruct (blocks_are_local (H := int_host) Semantic.init t a' 1%nat 1%nat)
    as (Hif & _).
  assert (a' = Semantic.init) as ->.
  { apply (Hif (Literal 1 5 (VBool true) "bool")
             [VarDeclaration 1 16 "int" "x"
                (Some (Literal 1 20 (VInt 1) "int"))] None).
    - reflexivity.
    - exact Hok. }
  vm_compute in Hok. injection Hok as <-. reflexivity.
Defined.

(** [function int f() { if (true) { return 1; } }] is refused: the
    [return] is not a statement of the body itself *)
Lemma guarded_return_is_refused :
  is_ok (Semantic.analyze Semantic.init (@guarded_return int_host)) = false.
Proof.
  apply (function_needs_a_return_in_its_body (H := int_host)).
  - discriminate.
  - reflexivity.
Defined.

(** [int x = 2 + 3 * 4; print(x);] is parsed to the program of the first
    example, a program of the language *)
Lemma the_folding_program_is_parsed :
  ∃ tokens,
    @Lexer.tokenize int_host "int x = 2 + 3 * 4; print(x);" = Ok tokens
    ∧ Parser.parse tokens = Ok folding_program
    ∧ operators_ok (@folding_program int_host) = true
    ∧ ∃ statements,
        folding_program = Program 1 1 statements
        ∧ forallb parsed_statement statements = true.
Proof.
  destruct (@Lexer.tokenize int_host "int x = 2 + 3 * 4; print(x);")
    as [tokens|e] eqn:Htokens; [|vm_compute in Htokens; discriminate Htokens].
  exists tokens. split; [reflexivity|].
  assert (Parser.parse tokens = Ok folding_program) as Hparse.
  { vm_compute in Htokens. injection Htokens as <-. vm_compute. reflexivity. }
  split; [exact Hparse|].
  exact (parse_builds_programs (H := int_host) tokens folding_program Hparse).
Defined.

(** [x = ;] is refused with a syntax error at the semicolon *)
Lemma assignment_without_value_is_refused :
  ends_with_EOF (@assignment_without_value int_host)
  ∧ Forall named (@assignment_without_value int_host)
  ∧ ∃ message,
      Parser.parse (@assignment_without_value int_host)
      = Raise (SyntaxError message).
Proof.
  assert (ends_with_EOF (@assignment_without_value int_host)) as Hend.
  { eexists [_; _; _], _. split; reflexivity. }
  assert (Forall named (@assignment_without_value int_host)) as Hnamed.
  { unfold assignment_without_value.
    repeat (apply List.Forall_cons; [intros _; eexists; reflexivity|]).
    apply List.Forall_cons; [|apply List.Forall_nil].
    intros Hin. exfalso.
    repeat (apply elem_of_cons in Hin as [Hin|Hin]; [discriminate Hin|]).
    by apply elem_of_nil in Hin. }
  split; [exact Hend|]. split; [exact Hnamed|].
  destruct (parse_returns_or_raises_SyntaxError (H := int_host)
              assignment_without_value Hend Hnamed)
    as [[statements Hok]|Hraise].
  - vm_compute in Hok. discriminate Hok.
  - exact Hraise.
Defined.

(** the fifteen tokens of [int x = 2 + 3 * 4; print(x);] are a list for
    the parser *)
Lemma tokens_of_the_folding_program_suit_the_parser :
  ∃ tokens,
    @Lexer.tokenize int_host "int x = 2 + 3 * 4; print(x);" = Ok tokens
    ∧ length tokens = 15%nat
    ∧ ends_with_EOF tokens
    ∧ Forall named tokens
    ∧ fails_in_syntax (Parser.parse tokens).
Proof.
  destruct (@Lexer.tokenize int_host "int x = 2 + 3 * 4; print(x);")
    as [tokens|e] eqn:Htokens; [|vm_compute in Htokens; discriminate Htokens].
  destruct (lexer_tokens_suit_the_parser (H := int_host) _ tokens Htokens)
    as (Hend & Hnamed & Hfails).
  exists tokens. split; [reflexivity|].
  split; [vm_compute in Htokens; by injection Htokens as <-|].
  split; [exact Hend|]. split; [exact Hnamed|exact Hfails].
Defined.
